(** * SANE (Smart AI Note Evolution): verification of the enhancement pipeline

    A shallow embedding of [src/ai-service.ts] (class [UnifiedAIProvider]) and
    [src/main.ts] (class [SANEPlugin]) and the proofs of the properties their
    specification states.

    Conventions.
    - A JavaScript string is the list of its UTF-16 code units ([jsstring]).
    - A JavaScript number is an IEEE-754 binary64 value ([float], Rocq's
      primitive floats, whose operations are the correctly rounded ones of
      ECMAScript).  Numeric code is written once over the interface [Number]
      and read both at [float] (what runs) and at [R] (exact arithmetic).
    - Platform functions ([String.prototype.trim], [RegExp], [Array.prototype.sort],
      [JSON.stringify] ...) are modelled after ECMA-262.
    - Exceptions are values of [Result]; [try]/[catch] is [try_catch]. *)

From Stdlib Require Import String Ascii.
From Stdlib Require Import ZArith NArith List Bool Lia.
From Stdlib Require Import Floats Reals Lra Sorting.Sorted Sorting.Permutation.
Import ListNotations.

Set Warnings "-register-all".
Set Warnings "-inexact-float".
Set Warnings "-notation-overridden".
Set Warnings "-ambiguous-paths".

(* ================================================================== *)
(** * Strings *)
(* ================================================================== *)

Module Str.

(** A code unit and a string. *)
Definition char := N.
Definition jsstring := list N.

(** [js] turns an ASCII literal into a string. *)
Definition js (s : string) : jsstring :=
  map N_of_ascii (list_ascii_of_string s).

(** The double quote character, [U+0022]. *)
Definition dq : N := 34%N.
(** The single quote character, [U+0027]. *)
Definition sq : N := 39%N.
(** Line feed, [U+000A]. *)
Definition lf : N := 10%N.

Fixpoint str_eqb (a b : jsstring) : bool :=
  match a, b with
  | [], [] => true
  | x :: a', y :: b' => N.eqb x y && str_eqb a' b'
  | _, _ => false
  end.

(** ECMA-262 WhiteSpace and LineTerminator code units: the class [\s] of
    regular expressions and the set [String.prototype.trim] strips. *)
Definition isLineTerminator (c : N) : bool :=
  (N.eqb c 10 || N.eqb c 13 || N.eqb c 8232 || N.eqb c 8233)%N.

Definition isWhiteSpace (c : N) : bool :=
  (N.eqb c 9 || N.eqb c 10 || N.eqb c 11 || N.eqb c 12 || N.eqb c 13
   || N.eqb c 32 || N.eqb c 160 || N.eqb c 5760
   || (N.leb 8192 c && N.leb c 8202)
   || N.eqb c 8232 || N.eqb c 8233 || N.eqb c 8239 || N.eqb c 8287
   || N.eqb c 12288 || N.eqb c 65279)%N.

(** [String.prototype.trimStart], [trimEnd] and [trim]. *)
Fixpoint trimStart (s : jsstring) : jsstring :=
  match s with
  | [] => []
  | c :: s' => if isWhiteSpace c then trimStart s' else s
  end.

Definition trimEnd (s : jsstring) : jsstring := rev (trimStart (rev s)).

Definition trim (s : jsstring) : jsstring := trimEnd (trimStart s).

(** A string that [trim] would leave alone: no white space at either end. *)
Definition isTrimmed (s : jsstring) : bool :=
  match s with
  | [] => true
  | c :: _ => negb (isWhiteSpace c) && negb (isWhiteSpace (last s c))
  end.

(** [String.prototype.startsWith] and [endsWith]. *)
Fixpoint startsWith (p s : jsstring) : bool :=
  match p, s with
  | [], _ => true
  | x :: p', y :: s' => N.eqb x y && startsWith p' s'
  | _ :: _, [] => false
  end.

Definition endsWith (p s : jsstring) : bool := startsWith (rev p) (rev s).

(** [String.prototype.indexOf]: the least index at which [p] occurs, or -1. *)
Fixpoint indexOf_from (i : Z) (p s : jsstring) : Z :=
  if startsWith p s then i
  else match s with
       | [] => (-1)%Z
       | _ :: s' => indexOf_from (i + 1)%Z p s'
       end.

Definition indexOf (p s : jsstring) : Z := indexOf_from 0%Z p s.

(** [String.prototype.lastIndexOf]: the greatest such index, or -1. *)
Fixpoint lastIndexOf_from (i : Z) (p s : jsstring) : Z :=
  let later := match s with
               | [] => (-1)%Z
               | _ :: s' => lastIndexOf_from (i + 1)%Z p s'
               end in
  if (0 <=? later)%Z then later
  else if startsWith p s then i else (-1)%Z.

Definition lastIndexOf (p s : jsstring) : Z := lastIndexOf_from 0%Z p s.

Definition includes (p s : jsstring) : bool := negb (indexOf p s =? -1)%Z.

(** [String.prototype.substring(start, end)]: both indices are clamped to
    [0 .. length] and swapped when [start > end]. *)
Definition clampIndex (i : Z) (s : jsstring) : nat :=
  Z.to_nat (Z.min (Z.max i 0) (Z.of_nat (length s))).

Definition substring (a b : Z) (s : jsstring) : jsstring :=
  let a' := clampIndex a s in
  let b' := clampIndex b s in
  let lo := Nat.min a' b' in
  let hi := Nat.max a' b' in
  firstn (hi - lo) (skipn lo s).

(** [String.prototype.split(sep)] for a separator of one code unit. *)
Fixpoint split (sep : N) (s : jsstring) : list jsstring :=
  match s with
  | [] => [[]]
  | c :: s' =>
      if N.eqb c sep then [] :: split sep s'
      else match split sep s' with
           | h :: t => (c :: h) :: t
           | [] => [[c]]
           end
  end.

(** [s.split(/\s+/)]: the pieces between maximal runs of white space.  [cur]
    is the piece being read and [inws] tells that the last unit was white
    space.  The last piece is always pushed, so the result is never empty. *)
Fixpoint splitWs (inws : bool) (cur s : jsstring) : list jsstring :=
  match s with
  | [] => [cur]
  | c :: s' =>
      if isWhiteSpace c
      then (if inws then splitWs true cur s' else cur :: splitWs true [] s')
      else splitWs false (cur ++ [c]) s'
  end.

Definition split_whitespace (s : jsstring) : list jsstring := splitWs false [] s.

(** [s.replace(QUOTES, '')] where QUOTES is the global pattern of the class
    made of the single and the double quote: every quote is dropped. *)
Definition isQuote (c : N) : bool := N.eqb c sq || N.eqb c dq.

Definition removeQuotes (s : jsstring) : jsstring :=
  filter (fun c => negb (isQuote c)) s.

(** [Array.prototype.join]. *)
Fixpoint join (sep : jsstring) (l : list jsstring) : jsstring :=
  match l with
  | [] => []
  | [x] => x
  | x :: l' => x ++ sep ++ join sep l'
  end.

End Str.

Export Str.

(* ================================================================== *)
(** * Regular expressions *)
(* ================================================================== *)

(** A backtracking matcher with the priorities of ECMA-262 (22.2.2): the
    alternatives of [|] are tried left to right, a greedy quantifier tries one
    more iteration before the continuation and a lazy one the continuation
    first, and an iteration that consumes nothing is rejected. *)
Module Regex.

Inductive regex : Type :=
| Empty
| Chr (p : N -> bool)
| Seq (r1 r2 : regex)
| Alt (r1 r2 : regex)
| Star (greedy : bool) (r : regex)
| Group (i : nat) (r : regex)
| Bol
| Eol.

(** The state of one attempt: the number of code units consumed since the
    attempt began, the input still to read and the captures made so far
    (latest first). *)
Record mstate : Type := MState {
  pos : nat;
  rest : jsstring;
  caps : list (nat * jsstring)
}.

Definition advance (st : mstate) : mstate :=
  MState (S (pos st)) (tl (rest st)) (caps st).

Definition orElse {A} (x y : option A) : option A :=
  match x with Some _ => x | None => y end.

(** [rmatch start r st k]: match [r] from the state [st] of an attempt that
    began at index [start] of the input, then continue with [k]. *)
Fixpoint rmatch (start : nat) (r : regex) (st : mstate)
  (k : mstate -> option mstate) {struct r} : option mstate :=
  match r with
  | Empty => k st
  | Chr p =>
      match rest st with
      | c :: _ => if p c then k (advance st) else None
      | [] => None
      end
  | Seq r1 r2 => rmatch start r1 st (fun st' => rmatch start r2 st' k)
  | Alt r1 r2 => orElse (rmatch start r1 st k) (rmatch start r2 st k)
  | Star greedy r' =>
      (fix loop (fuel : nat) (st : mstate) {struct fuel} : option mstate :=
         match fuel with
         | O => k st
         | S fuel' =>
             let again :=
               rmatch start r' st
                 (fun st' => if Nat.ltb (pos st) (pos st') then loop fuel' st' else None) in
             if greedy then orElse again (k st) else orElse (k st) again
         end) (S (length (rest st))) st
  | Group i r' =>
      rmatch start r' st
        (fun st' =>
           k (MState (pos st') (rest st')
                ((i, firstn (pos st' - pos st) (rest st)) :: caps st')))
  | Bol => if Nat.eqb (start + pos st) 0 then k st else None
  | Eol => match rest st with [] => k st | _ :: _ => None end
  end.

(** The result of a successful match, as the array [String.prototype.match]
    returns: [m.index], the matched text [m[0]] and the groups [m[i]]. *)
Record MatchResult : Type := Match {
  m_index : nat;
  m_text : jsstring;
  m_groups : list (nat * jsstring)
}.

Fixpoint lookup (i : nat) (l : list (nat * jsstring)) : option jsstring :=
  match l with
  | [] => None
  | (j, s) :: l' => if Nat.eqb i j then Some s else lookup i l'
  end.

(** [m[i]], the empty string standing for a group that took no part. *)
Definition group (i : nat) (m : MatchResult) : jsstring :=
  match lookup i (m_groups m) with Some s => s | None => [] end.

(** One attempt, at index [i] where the input still to read is [s]. *)
Definition exec_at (r : regex) (i : nat) (s : jsstring) : option MatchResult :=
  match rmatch i r (MState 0 s []) (fun st => Some st) with
  | Some st => Some (Match i (firstn (pos st) s) (caps st))
  | None => None
  end.

(** The attempts from index [i] on, leftmost first; [s] is the input from
    index [i] on. *)
Fixpoint search_from (r : regex) (i : nat) (s : jsstring) : option MatchResult :=
  match exec_at r i s with
  | Some m => Some m
  | None =>
      match s with
      | [] => None
      | _ :: s' => search_from r (S i) s'
      end
  end.

(** [s.match(r)] for a regular expression without the [g] flag. *)
Definition str_match (r : regex) (s : jsstring) : option MatchResult :=
  search_from r 0 s.

(** Building blocks. *)
Definition chr (c : N) : regex := Chr (N.eqb c).
Definition notchr (c : N) : regex := Chr (fun x => negb (N.eqb c x)).
Definition any : regex := Chr (fun _ => true).
Definition dot : regex := Chr (fun c => negb (isLineTerminator c)).
Definition ws : regex := Chr isWhiteSpace.

Fixpoint lit (s : jsstring) : regex :=
  match s with
  | [] => Empty
  | [c] => chr c
  | c :: s' => Seq (chr c) (lit s')
  end.

(** A letter of a pattern with the [i] flag: for ASCII letters the canonical
    form (upper case) is shared by exactly the two cases of the letter. *)
Definition toggleCase (c : N) : N :=
  if (N.leb 97 c && N.leb c 122)%N then (c - 32)%N
  else if (N.leb 65 c && N.leb c 90)%N then (c + 32)%N
  else c.

Definition chr_ci (c : N) : regex :=
  Chr (fun x => N.eqb c x || N.eqb (toggleCase c) x).

Fixpoint lit_ci (s : jsstring) : regex :=
  match s with
  | [] => Empty
  | [c] => chr_ci c
  | c :: s' => Seq (chr_ci c) (lit_ci s')
  end.

Fixpoint seqs (l : list regex) : regex :=
  match l with
  | [] => Empty
  | [r] => r
  | r :: l' => Seq r (seqs l')
  end.

End Regex.

Export Regex.

(* ================================================================== *)
(** * Values, errors and results *)
(* ================================================================== *)

Module JS.

(** The values [JSON.parse] can return. *)
Inductive JSValue : Type :=
| VNull
| VBool (b : bool)
| VNumber (x : float)
| VString (s : jsstring)
| VArray (items : list JSValue)
| VObject (props : list (jsstring * JSValue)).

(** A value that is thrown, or that a promise is rejected with: an [Error]
    object (a [TypeError] and a [SyntaxError] are such) with the text of its
    message, or any other value, a datum as [JSON.parse] returns them or
    [undefined], for which [None] stands. *)
Inductive JSError : Type :=
| Error (text : jsstring)
| Thrown (value : option JSValue).

(** [error instanceof Error ? error.message : 'Unknown error']: the message
    as the guarded handlers of ai-service.ts read it (lines 90, 93, 114). *)
Definition message (error : JSError) : jsstring :=
  match error with
  | Error text => text
  | Thrown _ => js "Unknown error"
  end.

(** The outcome of a computation that may throw. *)
Inductive Result (A : Type) : Type :=
| Ok (a : A)
| Throw (e : JSError).

Arguments Ok {A} a.
Arguments Throw {A} e.

Definition bind {A B} (x : Result A) (f : A -> Result B) : Result B :=
  match x with
  | Ok a => f a
  | Throw e => Throw e
  end.

(** [try { body } catch (error) { handler }]. *)
Definition try_catch {A} (body : Result A) (handler : JSError -> Result A) : Result A :=
  match body with
  | Ok a => Ok a
  | Throw e => handler e
  end.

(** The own property [name] of an object, [None] standing for [undefined]. *)
Fixpoint assoc {A} (name : jsstring) (props : list (jsstring * A)) : option A :=
  match props with
  | [] => None
  | (k, v) :: props' => if str_eqb name k then Some v else assoc name props'
  end.

(** [v.name] for the names the sources read from a parsed answer ([tags],
    [keywords], [links], [summary], [choices], [response]) and from a caught
    value ([message]): reading a property of [null] throws a TypeError;
    arrays, strings, numbers and booleans have no property of these names. *)
Definition getField (name : jsstring) (v : JSValue) : Result (option JSValue) :=
  match v with
  | VNull => Throw (Error (js "Cannot read properties of null (reading '" ++ name ++ js "')"))
  | VObject props => Ok (assoc name props)
  | _ => Ok None
  end.

(** [error.message] as the handlers of main.ts read it, without a guard
    (lines 261 and 553). *)
Definition messageOf (error : JSError) : Result (option JSValue) :=
  match error with
  | Error text => Ok (Some (VString text))
  | Thrown None =>
      Throw (Error (js "Cannot read properties of undefined (reading 'message')"))
  | Thrown (Some value) => getField (js "message") value
  end.

(** [m.includes(needle)] for the value [m] of [error.message]: a string and
    an array have the method, [undefined] and [null] have no properties, and
    in any other value [includes] is no function. *)
Definition includesOf (needle : jsstring) (m : option JSValue) : Result bool :=
  match m with
  | Some (VString s) => Ok (includes needle s)
  | Some (VArray items) =>
      Ok (existsb (fun item => match item with
                               | VString s => str_eqb s needle
                               | _ => false
                               end) items)
  | None => Throw (Error (js "Cannot read properties of undefined (reading 'includes')"))
  | Some VNull => Throw (Error (js "Cannot read properties of null (reading 'includes')"))
  | Some _ => Throw (Error (js "error.message.includes is not a function"))
  end.

(** [typeof v === 'string' && v.length > 0]. *)
Definition isNonEmptyString (v : JSValue) : bool :=
  match v with
  | VString s => Nat.ltb 0 (length s)
  | _ => false
  end.

(** The strings of an array of values known to be strings. *)
Definition asStrings (l : list JSValue) : list jsstring :=
  flat_map (fun v => match v with VString s => [s] | _ => [] end) l.

End JS.

Export JS.

Notation "x <- c1 ;; c2" := (bind c1 (fun x => c2))
  (at level 61, c1 at next level, right associativity).

Definition ch (a : ascii) : N := N_of_ascii a.

(* ================================================================== *)
(** * The response parser ([src/ai-service.ts]) *)
(* ================================================================== *)

(** [interface Enhancement] of [types.ts]. *)
Record Enhancement : Type := mkEnhancement {
  tags : list jsstring;
  keywords : list jsstring;
  links : list jsstring;
  summary : jsstring
}.

Definition emptyEnhancement : Enhancement := mkEnhancement [] [] [] [].

Module Parser.

Definition fenceJson : jsstring := js "```json".
Definition fence : jsstring := js "```".

(** Lines 299-313: the text between a leading code fence and the last one. *)
Definition stripCodeFences (cleanResponse : jsstring) : jsstring :=
  if includes fenceJson cleanResponse then
    let jsonStart := (indexOf fenceJson cleanResponse + 7)%Z in
    let jsonEnd := lastIndexOf fence cleanResponse in
    if (jsonEnd >? jsonStart)%Z
    then trim (substring jsonStart jsonEnd cleanResponse)
    else cleanResponse
  else if includes fence cleanResponse then
    let jsonStart := (indexOf fence cleanResponse + 3)%Z in
    let jsonEnd := lastIndexOf fence cleanResponse in
    if (jsonEnd >? jsonStart)%Z
    then trim (substring jsonStart jsonEnd cleanResponse)
    else cleanResponse
  else cleanResponse.

(** The pattern of line 316: an opening brace, anything (greedy), a closing brace. *)
Definition jsonObjectRe : regex :=
  seqs [chr (ch "{"); Star true any; chr (ch "}")].

Definition extractJsonObject (cleanResponse : jsstring) : jsstring :=
  match str_match jsonObjectRe cleanResponse with
  | Some jsonMatch => m_text jsonMatch
  | None => cleanResponse
  end.

(** Lines 329-338 and 400-409: a link is kept when already in double
    brackets and is wrapped otherwise, its quotes removed. *)
Definition formatLink (link : jsstring) : jsstring :=
  if startsWith (js "[[") link && endsWith (js "]]") link then link
  else js "[[" ++ trim (removeQuotes link) ++ js "]]".

(** The pattern of lines 376, 385 and 394 for the field [name]: the quoted
    name, a colon, an opening bracket, the body (lazy, group 1), a closing
    bracket. *)
Definition fieldArrayRe (name : jsstring) : regex :=
  seqs [lit (dq :: name ++ [dq]); Star true ws; chr (ch ":"); Star true ws;
        chr (ch "["); Group 1 (Star false any); chr (ch "]")].

(** The three patterns of lines 413-415. *)
Definition summaryDqRe : regex :=
  seqs [lit (dq :: js "summary" ++ [dq]); Star true ws; chr (ch ":"); Star true ws;
        chr dq; Group 1 (Star true (notchr dq)); chr dq].

Definition summarySqRe : regex :=
  seqs [lit (dq :: js "summary" ++ [dq]); Star true ws; chr (ch ":"); Star true ws;
        chr sq; Group 1 (Star true (notchr sq)); chr sq].

Definition summaryLooseRe : regex :=
  seqs [lit_ci (js "summary"); Star true (notchr (ch ":")); chr (ch ":"); Star true ws;
        Group 1 (Seq dot (Star false dot)); Alt (chr lf) Eol].

(** [body.split(',').map(t => t.trim().replace(QUOTES, '')).filter(t => t.length > 0)]. *)
Definition splitElements (body : jsstring) : list jsstring :=
  filter (fun t => Nat.ltb 0 (length t))
         (map (fun t => removeQuotes (trim t)) (split (ch ",") body)).

(** [extractWithFallback] (lines 361-428).  Nothing in the body of its [try]
    can throw: every operation is a total operation on strings. *)
Definition extractWithFallback (response : jsstring) : Enhancement :=
  let tags :=
    match str_match (fieldArrayRe (js "tags")) response with
    | Some tagsMatch => splitElements (group 1 tagsMatch)
    | None => []
    end in
  let keywords :=
    match str_match (fieldArrayRe (js "keywords")) response with
    | Some keywordsMatch => splitElements (group 1 keywordsMatch)
    | None => []
    end in
  let links :=
    match str_match (fieldArrayRe (js "links")) response with
    | Some linksMatch => map formatLink (splitElements (group 1 linksMatch))
    | None => []
    end in
  let summaryMatch :=
    orElse (str_match summaryDqRe response)
      (orElse (str_match summarySqRe response) (str_match summaryLooseRe response)) in
  let summary :=
    match summaryMatch with
    | Some m => trim (group 1 m)
    | None => []
    end in
  mkEnhancement tags keywords links summary.

Section WithJSON.

(** [JSON.parse]: a value, or a thrown SyntaxError. *)
Variable JSON_parse : jsstring -> Result JSValue.

(** The text handed to [JSON.parse] (lines 297-319). *)
Definition cleanResponse (response : jsstring) : jsstring :=
  extractJsonObject (stripCodeFences (trim response)).

(** The body of the [try] of [parseAIResponse] (lines 296-347). *)
Definition parseStrict (response : jsstring) : Result Enhancement :=
  parsed <- JSON_parse (cleanResponse response) ;;
  parsedLinks <- getField (js "links") parsed ;;
  let formattedLinks :=
    match parsedLinks with
    | Some (VArray l) => map formatLink (asStrings (filter isNonEmptyString l))
    | _ => []
    end in
  parsedTags <- getField (js "tags") parsed ;;
  parsedKeywords <- getField (js "keywords") parsed ;;
  parsedSummary <- getField (js "summary") parsed ;;
  Ok (mkEnhancement
        (match parsedTags with
         | Some (VArray l) => asStrings (filter isNonEmptyString l)
         | _ => []
         end)
        (match parsedKeywords with
         | Some (VArray l) => asStrings (filter isNonEmptyString l)
         | _ => []
         end)
        formattedLinks
        (match parsedSummary with
         | Some (VString s) => trim s
         | _ => []
         end)).

(** [parseAIResponse] (lines 294-359): the strict parse, and on any
    exception the fallback on the raw response. *)
Definition parseAIResponse (response : jsstring) : Result Enhancement :=
  try_catch (parseStrict response)
            (fun _ => Ok (extractWithFallback response)).

End WithJSON.

End Parser.

Export Parser.

(** ** Structural validity of an Enhancement *)

Definition nonEmpty (s : jsstring) : bool := Nat.ltb 0 (length s).

(** The bracketed reference form of a link. *)
Definition isBracketed (s : jsstring) : bool :=
  startsWith (js "[[") s && endsWith (js "]]") s.

(** Tags, keywords and links are non-empty strings, every link is bracketed
    and the summary is trimmed. *)
Definition validEnhancement (e : Enhancement) : bool :=
  forallb nonEmpty (tags e)
  && forallb nonEmpty (keywords e)
  && forallb (fun l => nonEmpty l && isBracketed l) (links e)
  && isTrimmed (summary e).

(* ================================================================== *)
(** * JSON text *)
(* ================================================================== *)

(** [JSON.parse] after ECMA-404 and ECMA-262 (25.5.1), used to run the parser
    on concrete responses.  The theorems on [parseAIResponse] hold for every
    function in its place. *)
Module JSONText.

Definition isJsonWs (c : N) : bool :=
  (N.eqb c 32 || N.eqb c 9 || N.eqb c 10 || N.eqb c 13)%N.

Fixpoint skipWs (s : jsstring) : jsstring :=
  match s with
  | c :: s' => if isJsonWs c then skipWs s' else s
  | [] => []
  end.

Definition isDigit (c : N) : bool := (N.leb 48 c && N.leb c 57)%N.

(** A run of decimal digits: its value, the number of digits, the rest. *)
Fixpoint readDigits (acc : N) (n : nat) (s : jsstring) : N * nat * jsstring :=
  match s with
  | c :: s' =>
      if isDigit c then readDigits (acc * 10 + (c - 48))%N (S n) s'
      else (acc, n, s)
  | [] => (acc, n, [])
  end.

(** The binary64 value nearest to [m * 10 ^ e10], ties to even
    (StringToNumber): one correctly rounded product or quotient of integers. *)
Definition toNumber (neg : bool) (m : N) (e10 : Z) : float :=
  match m with
  | N0 => if neg then neg_zero else zero
  | Npos p =>
      let x := S754_finite neg p 0 in
      let y := S754_finite false (Z.to_pos (10 ^ Z.abs e10)) 0 in
      SF2Prim (if (0 <=? e10)%Z then SFmul prec emax x y else SFdiv prec emax x y)
  end.

Definition parseExponent (s : jsstring) : option (Z * jsstring) :=
  match s with
  | c :: s1 =>
      if (N.eqb c 101 || N.eqb c 69)%N then
        let '(neg, s2) :=
          match s1 with
          | d :: s2 =>
              if N.eqb d 45 then (true, s2)
              else if N.eqb d 43 then (false, s2)
              else (false, s1)
          | [] => (false, s1)
          end in
        match readDigits 0 0 s2 with
        | (_, O, _) => None
        | (e, _, s3) => Some (if neg then (- Z.of_N e)%Z else Z.of_N e, s3)
        end
      else Some (0%Z, s)
  | [] => Some (0%Z, s)
  end.

Definition parseFraction (s : jsstring) : option (N * nat * jsstring) :=
  match s with
  | c :: s1 =>
      if N.eqb c 46 then
        match readDigits 0 0 s1 with
        | (_, O, _) => None
        | r => Some r
        end
      else Some (0%N, O, s)
  | [] => Some (0%N, O, s)
  end.

(** A number: an optional minus, an integer part without a leading zero, an
    optional fraction, an optional exponent. *)
Definition parseNumber (s : jsstring) : option (float * jsstring) :=
  let '(neg, s0) :=
    match s with
    | c :: s' => if N.eqb c 45 then (true, s') else (false, s)
    | [] => (false, s)
    end in
  match s0 with
  | c :: s1 =>
      if isDigit c then
        let '(ip, s2) :=
          if N.eqb c 48 then (0%N, s1)
          else let '(v, _, r) := readDigits 0 0 s0 in (v, r) in
        match parseFraction s2 with
        | Some (fp, fn, s3) =>
            match parseExponent s3 with
            | Some (e, s4) =>
                Some (toNumber neg (ip * 10 ^ N.of_nat fn + fp)%N (e - Z.of_nat fn)%Z, s4)
            | None => None
            end
        | None => None
        end
      else None
  | [] => None
  end.

Definition hexVal (c : N) : option N :=
  if isDigit c then Some (c - 48)%N
  else if (N.leb 97 c && N.leb c 102)%N then Some (c - 87)%N
  else if (N.leb 65 c && N.leb c 70)%N then Some (c - 55)%N
  else None.

Definition escapeOf (c : N) : option N :=
  if N.eqb c 34 then Some 34%N
  else if N.eqb c 92 then Some 92%N
  else if N.eqb c 47 then Some 47%N
  else if N.eqb c 98 then Some 8%N
  else if N.eqb c 102 then Some 12%N
  else if N.eqb c 110 then Some 10%N
  else if N.eqb c 114 then Some 13%N
  else if N.eqb c 116 then Some 9%N
  else None.

(** The characters of a string after its opening quote, up to the closing one. *)
Fixpoint parseChars (acc : jsstring) (s : jsstring) : option (jsstring * jsstring) :=
  match s with
  | [] => None
  | c :: s1 =>
      if N.eqb c 34 then Some (rev acc, s1)
      else if N.ltb c 32 then None
      else if N.eqb c 92 then
        match s1 with
        | [] => None
        | e :: s2 =>
            if N.eqb e 117 then
              match s2 with
              | h1 :: h2 :: h3 :: h4 :: s3 =>
                  match hexVal h1, hexVal h2, hexVal h3, hexVal h4 with
                  | Some a, Some b, Some c', Some d =>
                      parseChars ((a * 4096 + b * 256 + c' * 16 + d)%N :: acc) s3
                  | _, _, _, _ => None
                  end
              | _ => None
              end
            else
              match escapeOf e with
              | Some u => parseChars (u :: acc) s2
              | None => None
              end
        end
      else parseChars (c :: acc) s1
  end.

(** Defining a property: the value of a key already present is replaced. *)
Fixpoint setProp {A} (k : jsstring) (v : A) (props : list (jsstring * A)) :
  list (jsstring * A) :=
  match props with
  | [] => [(k, v)]
  | (k', v') :: props' =>
      if str_eqb k k' then (k', v) :: props' else (k', v') :: setProp k v props'
  end.

Fixpoint parseValue (fuel : nat) (s : jsstring) {struct fuel} :
  option (JSValue * jsstring) :=
  match fuel with
  | O => None
  | S fuel' =>
      match skipWs s with
      | [] => None
      | c :: s1 =>
          if N.eqb c 123 then
            match skipWs s1 with
            | d :: s2 =>
                if N.eqb d 125 then Some (VObject [], s2)
                else parseMembers fuel' [] s1
            | [] => None
            end
          else if N.eqb c 91 then
            match skipWs s1 with
            | d :: s2 =>
                if N.eqb d 93 then Some (VArray [], s2)
                else parseElements fuel' [] s1
            | [] => None
            end
          else if N.eqb c 34 then
            match parseChars [] s1 with
            | Some (str, s2) => Some (VString str, s2)
            | None => None
            end
          else if startsWith (js "true") (c :: s1) then Some (VBool true, skipn 3 s1)
          else if startsWith (js "false") (c :: s1) then Some (VBool false, skipn 4 s1)
          else if startsWith (js "null") (c :: s1) then Some (VNull, skipn 3 s1)
          else
            match parseNumber (c :: s1) with
            | Some (x, s2) => Some (VNumber x, s2)
            | None => None
            end
      end
  end
with parseElements (fuel : nat) (acc : list JSValue) (s : jsstring) {struct fuel} :
  option (JSValue * jsstring) :=
  match fuel with
  | O => None
  | S fuel' =>
      match parseValue fuel' s with
      | Some (v, s1) =>
          match skipWs s1 with
          | d :: s2 =>
              if N.eqb d 44 then parseElements fuel' (v :: acc) s2
              else if N.eqb d 93 then Some (VArray (rev (v :: acc)), s2)
              else None
          | [] => None
          end
      | None => None
      end
  end
with parseMembers (fuel : nat) (acc : list (jsstring * JSValue)) (s : jsstring)
  {struct fuel} : option (JSValue * jsstring) :=
  match fuel with
  | O => None
  | S fuel' =>
      match skipWs s with
      | q :: s1 =>
          if N.eqb q 34 then
            match parseChars [] s1 with
            | Some (key, s2) =>
                match skipWs s2 with
                | c :: s3 =>
                    if N.eqb c 58 then
                      match parseValue fuel' s3 with
                      | Some (v, s4) =>
                          match skipWs s4 with
                          | d :: s5 =>
                              if N.eqb d 44 then parseMembers fuel' (setProp key v acc) s5
                              else if N.eqb d 125 then Some (VObject (setProp key v acc), s5)
                              else None
                          | [] => None
                          end
                      | None => None
                      end
                    else None
                | [] => None
                end
            | None => None
            end
          else None
      | [] => None
      end
  end.

(** [JSON.parse(text)]: one value between optional white space, or a
    SyntaxError. *)
Definition JSON_parse (text : jsstring) : Result JSValue :=
  match parseValue (2 * length text + 2) text with
  | Some (v, s) =>
      match skipWs s with
      | [] => Ok v
      | _ :: _ => Throw (Error (js "SyntaxError: Unexpected non-whitespace character after JSON"))
      end
  | None => Throw (Error (js "SyntaxError: Unexpected token in JSON"))
  end.

End JSONText.

Export JSONText.

(** The text [QtagsQ: [QaQ, QbQ]] of the fallback scenario, Q standing for
    the double quote. *)
Definition tagsAB : jsstring :=
  [dq] ++ js "tags" ++ [dq] ++ js ": [" ++ [dq] ++ js "a" ++ [dq] ++ js ", "
  ++ [dq] ++ js "b" ++ [dq] ++ js "]".

(* ================================================================== *)
(** * Numbers *)
(* ================================================================== *)

(** The operations of JavaScript numbers the sources use.  [neqb] is [===],
    [nltb] is [<], [nofNat] the number of a non-negative integer. *)
Class Number (num : Type) : Type := {
  nzero : num;
  nadd : num -> num -> num;
  nsub : num -> num -> num;
  nmul : num -> num -> num;
  ndiv : num -> num -> num;
  nsqrt : num -> num;
  neqb : num -> num -> bool;
  nltb : num -> num -> bool;
  nofNat : nat -> num
}.

(** IEEE-754 binary64, the numbers of the running program.  An integer below
    2^53 (every array index is) converts exactly. *)
#[export] Instance float64 : Number float := {
  nzero := PrimFloat.zero;
  nadd := PrimFloat.add;
  nsub := PrimFloat.sub;
  nmul := PrimFloat.mul;
  ndiv := PrimFloat.div;
  nsqrt := PrimFloat.sqrt;
  neqb := PrimFloat.eqb;
  nltb := PrimFloat.ltb;
  nofNat := fun n => PrimFloat.of_uint63 (Uint63.of_Z (Z.of_nat n))
}.

(** Exact arithmetic: the same operations without rounding, overflow or NaN. *)
#[export] Instance exact : Number R := {
  nzero := 0%R;
  nadd := Rplus;
  nsub := Rminus;
  nmul := Rmult;
  ndiv := Rdiv;
  nsqrt := R_sqrt.sqrt;
  neqb := fun x y => if Req_dec_T x y then true else false;
  nltb := fun x y => if Rlt_dec x y then true else false;
  nofNat := INR
}.

(* ================================================================== *)
(** * The embedding store and the ranking ([src/main.ts]) *)
(* ================================================================== *)

(** A JavaScript [Map] with string keys: its entries in insertion order, one
    per key. *)
Module JSMap.

Section Ops.
Context {V : Type}.

Fixpoint get (k : jsstring) (m : list (jsstring * V)) : option V :=
  match m with
  | [] => None
  | (k', v) :: m' => if str_eqb k k' then Some v else get k m'
  end.

(** [set] replaces the value of a key in place and appends a new key. *)
Fixpoint set (k : jsstring) (v : V) (m : list (jsstring * V)) : list (jsstring * V) :=
  match m with
  | [] => [(k, v)]
  | (k', v') :: m' =>
      if str_eqb k k' then (k', v) :: m' else (k', v') :: set k v m'
  end.

Definition delete (k : jsstring) (m : list (jsstring * V)) : list (jsstring * V) :=
  filter (fun e => negb (str_eqb k (fst e))) m.

(** [new Map(entries)]. *)
Definition ofEntries (entries : list (jsstring * V)) : list (jsstring * V) :=
  fold_left (fun m e => set (fst e) (snd e) m) entries [].

End Ops.

End JSMap.

(** [Array.prototype.sort(comparefn)].  The sort is stable, a comparator
    result that is positive puts its first argument after its second, and
    for a consistent comparator the result is the one insertion sort builds.
    [after x y] tells that [comparefn(x, y) > 0]. *)
Module JSArray.

Section Sort.
Context {A : Type}.
Variable after : A -> A -> bool.

Fixpoint insert (x : A) (l : list A) : list A :=
  match l with
  | [] => [x]
  | y :: l' => if after x y then y :: insert x l' else x :: l
  end.

Fixpoint sort (l : list A) : list A :=
  match l with
  | [] => []
  | x :: l' => insert x (sort l')
  end.

End Sort.

(** [l.slice(0, end)] for an integer [end]: a negative [end] counts from the
    end of the array. *)
Definition slice0 {A} (e : Z) (l : list A) : list A :=
  let len := Z.of_nat (length l) in
  let k := if (e <? 0)%Z then Z.max (len + e) 0 else Z.min e len in
  firstn (Z.to_nat k) l.

(** [l[i] = f(l[i])] for an index inside the array. *)
Fixpoint update {A} (i : nat) (f : A -> A) (l : list A) {struct l} : list A :=
  match l, i with
  | [], _ => []
  | x :: l', O => f x :: l'
  | x :: l', S i' => x :: update i' f l'
  end.

End JSArray.

(** [TFile] and [TFolder] of the host, as far as the sources read them. *)
Record TFile : Type := mkTFile {
  file_path : jsstring;
  ctime : Z;
  mtime : Z
}.

Inductive TAbstractFile : Type :=
| AFile (f : TFile)
| AFolder (folder_path : jsstring).

Definition abstractPath (f : TAbstractFile) : jsstring :=
  match f with
  | AFile f => file_path f
  | AFolder p => p
  end.

(** [app.vault.getAbstractFileByPath(path)]: the entry of the vault at
    exactly this path, if any. *)
Definition getAbstractFileByPath (vault : list TAbstractFile) (path : jsstring) :
  option TAbstractFile :=
  find (fun f => str_eqb (abstractPath f) path) vault.

Module Ranking.

Section WithNumber.
Context {num : Type} {ops : Number num}.

(** [interface NoteEmbedding] and [interface RelevantNote] of [types.ts]. *)
Record NoteEmbedding : Type := mkNoteEmbedding {
  path : jsstring;
  content : jsstring;
  embedding : list num;
  lastUpdated : num
}.

Record RelevantNote : Type := mkRelevantNote {
  file : TFile;
  similarity : num
}.

(** The loop of [cosineSimilarity] (lines 298-302): the three running sums
    [dotProduct], [normA], [normB]. *)
Fixpoint cosineSums (a b : list num) (acc : num * num * num) : num * num * num :=
  match a, b with
  | x :: a', y :: b' =>
      let '(dotProduct, normA, normB) := acc in
      cosineSums a' b'
        (nadd dotProduct (nmul x y), nadd normA (nmul x x), nadd normB (nmul y y))
  | _, _ => acc
  end.

(** [cosineSimilarity] (lines 291-306). *)
Definition cosineSimilarity (a b : list num) : num :=
  if negb (Nat.eqb (length a) (length b)) then nzero
  else
    let '(dotProduct, normA, normB) := cosineSums a b (nzero, nzero, nzero) in
    if neqb normA nzero || neqb normB nzero then nzero
    else ndiv dotProduct (nmul (nsqrt normA) (nsqrt normB)).

(** The comparator of line 287, [(a, b) => b.similarity - a.similarity],
    read as the test that its result is positive. *)
Definition bySimilarity (a b : RelevantNote) : bool :=
  nltb nzero (nsub (similarity b) (similarity a)).

(** The loop of [findRelevantNotes] (lines 275-283). *)
Definition similarities (vault : list TAbstractFile)
  (noteEmbeddings : list (jsstring * NoteEmbedding))
  (excludePath : jsstring) (currentEmbedding : NoteEmbedding) : list RelevantNote :=
  flat_map
    (fun entry =>
       let '(path, noteEmbedding) := entry in
       if str_eqb path excludePath then []
       else match getAbstractFileByPath vault path with
            | Some (AFile file) =>
                [mkRelevantNote file
                   (cosineSimilarity (embedding currentEmbedding) (embedding noteEmbedding))]
            | _ => []
            end)
    noteEmbeddings.

(** [findRelevantNotes] (lines 269-289). *)
Definition findRelevantNotes (vault : list TAbstractFile)
  (noteEmbeddings : list (jsstring * NoteEmbedding))
  (excludePath : jsstring) (count : Z) : list RelevantNote :=
  match JSMap.get excludePath noteEmbeddings with
  | None => []
  | Some currentEmbedding =>
      JSArray.slice0 count
        (JSArray.sort bySimilarity
           (similarities vault noteEmbeddings excludePath currentEmbedding))
  end.

End WithNumber.

Arguments NoteEmbedding num : clear implicits.
Arguments RelevantNote num : clear implicits.

End Ranking.

Export Ranking.

(* ================================================================== *)
(** * The hash-bucket embedding ([src/ai-service.ts]) *)
(* ================================================================== *)

Module Embedding.

(** ToInt32: the 32-bit two's complement integer congruent to [z]. *)
Definition toInt32 (z : Z) : Z :=
  ((z + 2147483648) mod 4294967296 - 2147483648)%Z.

(** One round of [simpleHash] (lines 433-435): [(hash << 5) - hash + char]
    and the conversion [hash & hash] to a 32-bit integer. *)
Definition hashStep (hash : Z) (char : N) : Z :=
  toInt32 (toInt32 (hash * 32) - hash + Z.of_N char).

(** [simpleHash] (lines 430-438). *)
Definition simpleHash (str : jsstring) : Z := fold_left hashStep str 0%Z.

(** The standard embedding size of line 281. *)
Definition dimension : nat := 384.

(** [Math.abs(hash) % embedding.length] (line 285). *)
Definition bucket (word : jsstring) : nat :=
  Z.to_nat (Z.abs (simpleHash word) mod Z.of_nat dimension).

Section WithNumber.
Context {num : Type} {ops : Number num}.

(** [String.prototype.toLowerCase], the Unicode lower-casing of the host. *)
Variable toLowerCase : jsstring -> jsstring.

(** The callback of [words.forEach] (lines 283-287), word after word. *)
Fixpoint addWords (words : list jsstring) (index : nat) (embedding : list num) : list num :=
  match words with
  | [] => embedding
  | word :: words' =>
      addWords words' (S index)
        (JSArray.update (bucket word)
           (fun v => nadd v (ndiv (nofNat 1) (nofNat (index + 1))))
           embedding)
  end.

(** [embedding.reduce((sum, val) => sum + val * val, 0)]. *)
Definition sumSquares (embedding : list num) : num :=
  fold_left (fun sum val => nadd sum (nmul val val)) embedding nzero.

(** [generateSimpleEmbedding] (lines 278-292). *)
Definition generateSimpleEmbedding (content : jsstring) : list num :=
  let words := split_whitespace (toLowerCase content) in
  let embedding := addWords words 0 (repeat nzero dimension) in
  let magnitude := nsqrt (sumSquares embedding) in
  if nltb nzero magnitude
  then map (fun val => ndiv val magnitude) embedding
  else embedding.

End WithNumber.

End Embedding.

Export Embedding.

(* ================================================================== *)
(** * Settings and the cost ledger ([src/main.ts]) *)
(* ================================================================== *)

(** [interface SANESettings] of [types.ts], the fields the pipeline reads.
    [aiProvider] is kept a string: the sources switch on it with a default
    case. *)
Record SANESettings : Type := mkSettings {
  aiProvider : jsstring;
  openaiApiKey : jsstring;
  googleApiKey : jsstring;
  grokApiKey : jsstring;
  azureApiKey : jsstring;
  azureEndpoint : jsstring;
  localEndpoint : jsstring;
  llmModel : jsstring;
  relevantNotesCount : Z;
  dailyBudget : float;
  costTracking : bool;
  enableTags : bool;
  enableKeywords : bool;
  enableLinks : bool;
  enableSummary : bool;
  enableCreationTimestamp : bool;
  enableModificationTimestamp : bool
}.

(** [interface CostEntry] of [types.ts]. *)
Record CostEntry : Type := mkCostEntry {
  timestamp : Z;
  operation : jsstring;
  cost : float;
  provider : jsstring
}.

Module Cost.

(** [Math.ceil] of a number that is not negative. *)
Definition ceil (x : float) : float :=
  match Prim2SF x with
  | S754_finite false m e =>
      if (0 <=? e)%Z then x
      else
        let q := Z.shiftr (Zpos m) (- e) in
        let n := if (Z.shiftl q (- e) =? Zpos m)%Z then q else (q + 1)%Z in
        PrimFloat.of_uint63 (Uint63.of_Z n)
  | _ => x
  end.

(** [estimateTokens] (line 468). *)
Definition estimateTokens (text : jsstring) : float :=
  ceil (nofNat (length (split_whitespace text)) / 0.75)%float.

(** The price per 1000 tokens [estimateCost] picks (ai-service.ts, lines
    121-141): the [default] rate of a provider, else its [gpt4] rate, else
    its [gemini] rate, and 0.01 for a provider without an entry. *)
Definition basePrice (provider : jsstring) : float :=
  if str_eqb provider (js "openai") then 0.03%float
  else if str_eqb provider (js "google") then 0.0005%float
  else if str_eqb provider (js "grok") then 0.002%float
  else if str_eqb provider (js "azure") then 0.03%float
  else if str_eqb provider (js "local") then 0%float
  else 0.01%float.

(** [estimateCost] (ai-service.ts, lines 120-144). *)
Definition estimateCost (provider : jsstring) (tokens : float) : float :=
  (tokens / 1000 * basePrice provider)%float.

Section WithCalendar.

(** [new Date(t).toDateString()]: the calendar day of the instant [t]
    (milliseconds since the epoch) in the local time zone of the host. *)
Variable toDateString : Z -> jsstring.

(** The sum of line 446-448: the costs of the entries of the day of [now]. *)
Definition todayCosts (costEntries : list CostEntry) (now : Z) : float :=
  let today := toDateString now in
  fold_left (fun sum entry => (sum + cost entry)%float)
    (filter (fun entry => str_eqb (toDateString (timestamp entry)) today) costEntries)
    0%float.

(** [canAffordProcessing] (lines 442-451) at the instant [now]. *)
Definition canAffordProcessing (settings : SANESettings)
  (costEntries : list CostEntry) (now : Z) : bool :=
  if negb (costTracking settings) then true
  else (todayCosts costEntries now <? dailyBudget settings)%float.

End WithCalendar.

(** [recordCost] (lines 453-465) at the instant [now]: the new entry is
    pushed and the entries older than thirty days are dropped. *)
Definition recordCost (settings : SANESettings) (costEntries : list CostEntry)
  (now : Z) (operation : jsstring) (tokens : float) : list CostEntry :=
  let cost := estimateCost (aiProvider settings) tokens in
  let thirtyDaysAgo := (now - 30 * 24 * 60 * 60 * 1000)%Z in
  filter (fun entry => (thirtyDaysAgo <=? timestamp entry)%Z)
    (costEntries ++ [mkCostEntry now operation cost (aiProvider settings)]).

End Cost.

Export Cost.

(* ================================================================== *)
(** * Persistence of the embedding store ([src/main.ts]) *)
(* ================================================================== *)

Module Persistence.

(** ** JSON documents

    The text [JSON.stringify] writes is represented by the document it
    denotes, and [localStorage] by the documents it holds.  [toJSON v] is the
    document of the text [JSON.stringify(v)] (ECMA-262, 25.5.2): a number
    that is not finite is written [null] and negative zero is written [0];
    every other number is written with the shortest digits that read back to
    it, so [JSON.parse] of that text gives the document back. *)

Definition isFinite (x : float) : bool :=
  match classify x with
  | NaN | PInf | NInf => false
  | _ => true
  end.

Definition isNegativeZero (x : float) : bool :=
  match classify x with
  | NZero => true
  | _ => false
  end.

Fixpoint toJSON (v : JSValue) : JSValue :=
  match v with
  | VNumber x =>
      if isFinite x then (if isNegativeZero x then VNumber 0%float else VNumber x)
      else VNull
  | VArray items => VArray (map toJSON items)
  | VObject props => VObject (map (fun p => (fst p, toJSON (snd p))) props)
  | _ => v
  end.

(** [JSON.stringify(v)], as a document. *)
Definition JSON_stringify (v : JSValue) : JSValue := toJSON v.

(** [JSON.parse] of the text of a document. *)
Definition JSON_parse_document (document : JSValue) : Result JSValue := Ok document.

(** A number that a JSON text carries exactly. *)
Definition jsonExact (x : float) : bool := isFinite x && negb (isNegativeZero x).

(** ** The map at run time

    Types are erased at run time: the map [noteEmbeddings] holds whatever
    [new Map(data)] puts into it.  [None] stands for [undefined]. *)

Definition RuntimeMap : Type := list (option JSValue * option JSValue).

(** SameValueZero on values read from JSON: primitives are compared by
    value, and an array or an object is equal to itself only (each one read
    is a new object). *)
Definition sameValueZero (a b : option JSValue) : bool :=
  match a, b with
  | None, None => true
  | Some VNull, Some VNull => true
  | Some (VBool x), Some (VBool y) => Bool.eqb x y
  | Some (VNumber x), Some (VNumber y) => (x =? y)%float
  | Some (VString x), Some (VString y) => str_eqb x y
  | _, _ => false
  end.

Fixpoint runtimeSet (k v : option JSValue) (m : RuntimeMap) : RuntimeMap :=
  match m with
  | [] => [(k, v)]
  | (k', v') :: m' =>
      if sameValueZero k k' then (k', v) :: m' else (k', v') :: runtimeSet k v m'
  end.

(** [item[0]] and [item[1]] of an entry, which must be an object. *)
Definition entryOf (item : JSValue) : Result (option JSValue * option JSValue) :=
  match item with
  | VArray items => Ok (nth_error items 0, nth_error items 1)
  | VObject props => Ok (assoc (js "0") props, assoc (js "1") props)
  | _ => Throw (Error (js "Iterator value is not an entry object"))
  end.

Fixpoint addEntries (items : list JSValue) (m : RuntimeMap) : Result RuntimeMap :=
  match items with
  | [] => Ok m
  | item :: items' =>
      entry <- entryOf item ;;
      addEntries items' (runtimeSet (fst entry) (snd entry) m)
  end.

(** [new Map(data)]: the entries of an array, in order; a string is
    iterable too, and its items are not entry objects; [null] gives the
    empty map. *)
Definition newMap (data : JSValue) : Result RuntimeMap :=
  match data with
  | VArray items => addEntries items []
  | VNull => Ok []
  | VString [] => Ok []
  | VString (_ :: _) => Throw (Error (js "Iterator value is not an entry object"))
  | _ => Throw (Error (js "object is not iterable"))
  end.

(** A typed store as the run-time map it is. *)
Definition noteObject (note : NoteEmbedding float) : JSValue :=
  VObject [(js "path", VString (path note));
           (js "content", VString (content note));
           (js "embedding", VArray (map VNumber (embedding note)));
           (js "lastUpdated", VNumber (lastUpdated note))].

Definition runtimeStore (noteEmbeddings : list (jsstring * NoteEmbedding float)) :
  RuntimeMap :=
  map (fun e => (Some (VString (fst e)), Some (noteObject (snd e)))) noteEmbeddings.

(** [Array.from(map.entries())], as [JSON.stringify] reads it: in an array
    [undefined] is written [null]. *)
Definition entriesArray (m : RuntimeMap) : JSValue :=
  let orNull := fun x : option JSValue => match x with Some v => v | None => VNull end in
  VArray (map (fun e => VArray [orNull (fst e); orNull (snd e)]) m).

(** [localStorage]: the document kept under each key. *)
Definition Storage : Type := list (jsstring * JSValue).

Definition storageKey : jsstring := js "sane-embeddings".

(** [saveEmbeddings] (lines 631-638). *)
Definition saveEmbeddings (noteEmbeddings : RuntimeMap) (localStorage : Storage) : Storage :=
  let data := entriesArray noteEmbeddings in
  JSMap.set storageKey (JSON_stringify data) localStorage.

(** [loadEmbeddings] (lines 619-629): the map read from the store, the
    current one when nothing is stored or when an exception is caught. *)
Definition loadEmbeddings (noteEmbeddings : RuntimeMap) (localStorage : Storage) : RuntimeMap :=
  match JSMap.get storageKey localStorage with
  | Some stored =>
      match (data <- JSON_parse_document stored ;; newMap data) with
      | Ok m => m
      | Throw _ => noteEmbeddings
      end
  | None => noteEmbeddings
  end.

End Persistence.

Export Persistence.

(* ================================================================== *)
(** * The host, the world and effects *)
(* ================================================================== *)

(** The answer of [requestUrl]: the status and the parsed body. *)
Record HttpResponse : Type := mkResponse {
  status : Z;
  json : JSValue
}.

(** The collaborators outside the sources: the calendar of the host, its
    conversions between numbers and text, the vendors' endpoints and SDKs,
    and the failures of the file store.  Each call either returns or throws
    (an awaited promise that rejects throws). *)
Record Host : Type := mkHost {
  toDateString : Z -> jsstring;
  toISOString : Z -> jsstring;
  toLowerCase : jsstring -> jsstring;
  stringToNumber : jsstring -> float;
  numberToString : float -> jsstring;
  (* openaiClient.chat.completions.create, googleClient ... generateContent
     with response.text(), and requestUrl on the url of a provider; each is
     given the prompt, the rest of the request being read from the settings *)
  openaiChat : jsstring -> Result JSValue;
  googleGenerate : jsstring -> Result jsstring;
  requestUrl : jsstring -> jsstring -> Result HttpResponse;
  (* the three embedding endpoints, down to the vector they carry *)
  openaiEmbedding : jsstring -> Result (list float);
  googleEmbedding : jsstring -> Result (list float);
  localEmbedding : jsstring -> Result (Z * list float);
  (* vault.read and vault.modify fail on these paths *)
  readFault : jsstring -> option JSError;
  modifyFault : jsstring -> option JSError
}.

(** What the plugin and the vault hold: the files and their contents, the
    plugin's map and ledger, the notices shown, the instant [Date.now()], and
    (a trace, not program state) the paths written by [vault.modify]. *)
Record World : Type := mkWorld {
  vault : list (TFile * jsstring);
  noteEmbeddings : list (jsstring * NoteEmbedding float);
  costEntries : list CostEntry;
  notices : list jsstring;
  now : Z;
  modified : list jsstring
}.

Module Effects.

(** A computation on the world that returns or throws. *)
Definition M (A : Type) : Type := World -> Result A * World.

Definition ret {A} (a : A) : M A := fun w => (Ok a, w).

Definition throw {A} (e : JSError) : M A := fun w => (Throw e, w).

Definition bindM {A B} (c : M A) (k : A -> M B) : M B :=
  fun w =>
    match c w with
    | (Ok a, w') => k a w'
    | (Throw e, w') => (Throw e, w')
    end.

(** [try { body } catch (error) { handler }]. *)
Definition tryCatch {A} (body : M A) (handler : JSError -> M A) : M A :=
  fun w =>
    match body w with
    | (Ok a, w') => (Ok a, w')
    | (Throw e, w') => handler e w'
    end.

(** The result of a call of the host. *)
Definition lift {A} (r : Result A) : M A := fun w => (r, w).

(** [new Notice(message)]. *)
Definition notice (message : jsstring) : M unit :=
  fun w => (Ok tt, mkWorld (vault w) (noteEmbeddings w) (costEntries w)
                     (notices w ++ [message]) (now w) (modified w)).

(** [for (const x of l) { await body(x) }]: an exception ends the loop. *)
Fixpoint forEach {A} (l : list A) (body : A -> M unit) : M unit :=
  match l with
  | [] => ret tt
  | x :: l' => bindM (body x) (fun _ => forEach l' body)
  end.

End Effects.

Export Effects.

Notation "x <~ c1 ;; c2" := (bindM c1 (fun x => c2))
  (at level 61, c1 at next level, right associativity).
Notation "c1 ;;; c2" := (bindM c1 (fun _ => c2))
  (at level 61, right associativity).

(* ================================================================== *)
(** * The provider ([src/ai-service.ts]) *)
(* ================================================================== *)

Module Provider.

(** The decimal digits of an integer, as a template literal prints it. *)
Fixpoint digitsOf (fuel : nat) (n : N) (acc : jsstring) : jsstring :=
  match fuel with
  | O => acc
  | S fuel' =>
      let acc' := (48 + n mod 10)%N :: acc in
      if (n <? 10)%N then acc' else digitsOf fuel' (n / 10)%N acc'
  end.

Definition decimal (z : Z) : jsstring :=
  let n := Z.to_N (Z.abs z) in
  let digits := digitsOf (S (N.to_nat (N.log2 n))) n [] in
  if (z <? 0)%Z then ch "-" :: digits else digits.

(** The state of a [UnifiedAIProvider]: its settings and the clients made.
    [initializeClients] (lines 16-25) makes a client and never removes one. *)
Record ProviderState : Type := mkProvider {
  settings : SANESettings;
  openaiClient : bool;
  googleClient : bool
}.

Definition truthy (s : jsstring) : bool := negb (Nat.eqb (length s) 0).

Definition initializeClients (p : ProviderState) : ProviderState :=
  if str_eqb (aiProvider (settings p)) (js "openai") && truthy (openaiApiKey (settings p))
  then mkProvider (settings p) true (googleClient p)
  else if str_eqb (aiProvider (settings p)) (js "google") && truthy (googleApiKey (settings p))
  then mkProvider (settings p) (openaiClient p) true
  else p.

Definition newProvider (s : SANESettings) : ProviderState :=
  initializeClients (mkProvider s false false).

Definition updateSettings (p : ProviderState) (s : SANESettings) : ProviderState :=
  initializeClients (mkProvider s (openaiClient p) (googleClient p)).

(** [isConfigured] (lines 440-455). *)
Definition isConfigured (p : ProviderState) : bool :=
  let s := settings p in
  if str_eqb (aiProvider s) (js "openai") then truthy (openaiApiKey s)
  else if str_eqb (aiProvider s) (js "google") then truthy (googleApiKey s)
  else if str_eqb (aiProvider s) (js "grok") then truthy (grokApiKey s)
  else if str_eqb (aiProvider s) (js "azure")
  then truthy (azureApiKey s) && truthy (azureEndpoint s)
  else if str_eqb (aiProvider s) (js "local") then truthy (localEndpoint s)
  else false.

(** [v || ''] for the text of an answer: a falsy value gives the empty
    string and any other value is returned as it is. *)
Definition orEmpty (v : option JSValue) : JSValue :=
  match v with
  | None | Some VNull | Some (VBool false) => VString []
  | Some (VNumber x) => if (x =? 0)%float || negb (x =? x)%float then VString [] else VNumber x
  | Some v' => v'
  end.

(** [x?.name]: [undefined] for [null] and [undefined], the property of an
    object, and [undefined] for the other values (which have no property
    [message] or [content]). *)
Definition optionalField (name : jsstring) (v : option JSValue) : option JSValue :=
  match v with
  | Some (VObject props) => assoc name props
  | _ => None
  end.

(** [body.choices[0]?.message?.content || ''] (lines 156, 190, 213):
    indexing throws when [body] is [null] or has no [choices]. *)
Definition chatContent (body : JSValue) : Result JSValue :=
  choices <- getField (js "choices") body ;;
  match choices with
  | None | Some VNull => Throw (Error (js "Cannot read properties of undefined (reading '0')"))
  | Some (VArray items) =>
      Ok (orEmpty (optionalField (js "content")
                     (optionalField (js "message") (nth_error items 0))))
  | Some (VObject props) =>
      Ok (orEmpty (optionalField (js "content")
                     (optionalField (js "message") (assoc (js "0") props))))
  | Some _ => Ok (VString [])
  end.

Section WithHost.
Variable host : Host.

(** [callOpenAI] (lines 146-157). *)
Definition callOpenAI (p : ProviderState) (prompt : jsstring) : Result JSValue :=
  if negb (openaiClient p) then Throw (Error (js "OpenAI client not initialized"))
  else response <- openaiChat host prompt ;; chatContent response.

(** [callGoogle] (lines 159-167). *)
Definition callGoogle (p : ProviderState) (prompt : jsstring) : Result JSValue :=
  if negb (googleClient p) then Throw (Error (js "Google client not initialized"))
  else text <- googleGenerate host prompt ;; Ok (VString text).

(** [callGrok] (lines 169-191). *)
Definition callGrok (p : ProviderState) (prompt : jsstring) : Result JSValue :=
  response <- requestUrl host (js "https://api.x.ai/v1/chat/completions") prompt ;;
  if negb (status response =? 200)%Z
  then Throw (Error (js "Grok API error: " ++ decimal (status response)))
  else chatContent (json response).

(** [callAzure] (lines 193-214). *)
Definition callAzure (p : ProviderState) (prompt : jsstring) : Result JSValue :=
  response <-
    requestUrl host
      (azureEndpoint (settings p) ++ js "/openai/deployments/" ++ llmModel (settings p)
       ++ js "/chat/completions?api-version=2024-02-15-preview") prompt ;;
  if negb (status response =? 200)%Z
  then Throw (Error (js "Azure API error: " ++ decimal (status response)))
  else chatContent (json response).

(** [callLocal] (lines 216-236). *)
Definition callLocal (p : ProviderState) (prompt : jsstring) : Result JSValue :=
  response <- requestUrl host (localEndpoint (settings p) ++ js "/api/generate") prompt ;;
  if negb (status response =? 200)%Z
  then Throw (Error (js "Local LLM error: " ++ decimal (status response)))
  else
    answer <- getField (js "response") (json response) ;;
    Ok (orEmpty answer).

(** The prompt of lines 33-56: the note, the related notes joined by a rule,
    the format asked for and the requirements. *)
Definition relatedContext (relatedContent : list jsstring) : jsstring :=
  if Nat.ltb 0 (length relatedContent)
  then [lf; lf] ++ js "Related notes context:" ++ [lf]
       ++ join ([lf] ++ js "---" ++ [lf]) relatedContent
  else [].

Definition quoted (s : string) : jsstring := dq :: js s ++ [dq].

Definition promptFormat : jsstring :=
  js "{" ++ [lf]
  ++ js "  " ++ quoted "tags" ++ js ": [" ++ quoted "tag1" ++ js ", " ++ quoted "tag2"
  ++ js ", " ++ quoted "tag3" ++ js "]," ++ [lf]
  ++ js "  " ++ quoted "keywords" ++ js ": [" ++ quoted "keyword1" ++ js ", "
  ++ quoted "keyword2" ++ js ", " ++ quoted "keyword3" ++ js "]," ++ [lf]
  ++ js "  " ++ quoted "links" ++ js ": [" ++ quoted "Note Title 1" ++ js ", "
  ++ quoted "Note Title 2" ++ js "]," ++ [lf]
  ++ js "  " ++ quoted "summary" ++ js ": " ++ quoted "Brief 1-2 sentence summary" ++ [lf]
  ++ js "}".

Definition promptRequirements : jsstring :=
  js "Requirements:" ++ [lf]
  ++ js "- Generate 3-7 relevant tags (lowercase, no spaces, use hyphens)" ++ [lf]
  ++ js "- Extract 3-8 important keywords or phrases" ++ [lf]
  ++ js "- Suggest links only to notes mentioned in related context, and ONLY return the note titles. Return no titles if no related notes provided"
  ++ [lf]
  ++ js "- Keep summary under 50 words" ++ [lf]
  ++ js "- Return ONLY valid JSON, no markdown formatting".

Definition buildPrompt (content : jsstring) (relatedContent : list jsstring) : jsstring :=
  js "Analyze this note and generate enhancements based on the content and related notes."
  ++ [lf; lf] ++ js "Note content:" ++ [lf]
  ++ content ++ relatedContext relatedContent
  ++ [lf; lf]
  ++ js "Please provide ONLY a valid JSON response with this exact format (no markdown, no code blocks, no extra text):"
  ++ [lf; lf] ++ promptFormat ++ [lf; lf] ++ promptRequirements.

(** The [switch] of lines 60-78. *)
Definition callProvider (p : ProviderState) (prompt : jsstring) : Result JSValue :=
  let name := aiProvider (settings p) in
  if str_eqb name (js "openai") then callOpenAI p prompt
  else if str_eqb name (js "google") then callGoogle p prompt
  else if str_eqb name (js "grok") then callGrok p prompt
  else if str_eqb name (js "azure") then callAzure p prompt
  else if str_eqb name (js "local") then callLocal p prompt
  else Throw (Error (js "Unsupported AI provider: " ++ name)).

(** [parseAIResponse] on what the provider returned.  A value that is not a
    string has no [trim]: the TypeError is caught at line 349, and the one
    [match] throws in [extractWithFallback] at line 420, which returns the
    empty result. *)
Definition parseAnswer (response : JSValue) : Result Enhancement :=
  match response with
  | VString text => parseAIResponse JSON_parse text
  | _ => Ok emptyEnhancement
  end.

(** The body of the [try] of [generateEnhancement] (lines 59-87). *)
Definition enhance (p : ProviderState) (prompt : jsstring) : Result Enhancement :=
  response <- callProvider p prompt ;;
  enhancement <- parseAnswer response ;;
  Ok (mkEnhancement (tags enhancement) (keywords enhancement)
        (links enhancement) (summary enhancement)).

(** The handler of lines 89-97. *)
Definition enhanceFailed (error : JSError) : M Enhancement :=
  (if includes (js "budget") (message error)
   then notice (js "Daily budget reached. Processing paused until tomorrow.")
   else notice (js "Error processing note: " ++ message error)) ;;;
  ret emptyEnhancement.

(** [generateEnhancement] (lines 32-98). *)
Definition generateEnhancement (p : ProviderState) (content : jsstring)
  (relatedContent : list jsstring) : M Enhancement :=
  let prompt := buildPrompt content relatedContent in
  tryCatch (lift (enhance p prompt)) enhanceFailed.

(** [generateLocalEmbedding] (lines 258-276). *)
Definition generateLocalEmbedding (content : jsstring) : Result (list float) :=
  response <- localEmbedding host content ;;
  if negb (fst response =? 200)%Z
  then Throw (Error (js "Local embedding error: " ++ decimal (fst response)))
  else Ok (snd response).

(** [generateEmbedding] (lines 100-118). *)
Definition generateEmbedding (p : ProviderState) (content : jsstring) : M (list float) :=
  let name := aiProvider (settings p) in
  tryCatch
    (lift
       (if str_eqb name (js "openai") then
          (if negb (openaiClient p) then Throw (Error (js "OpenAI client not initialized"))
           else openaiEmbedding host content)
        else if str_eqb name (js "google") then
          (if negb (googleClient p) then Throw (Error (js "Google client not initialized"))
           else googleEmbedding host content)
        else if str_eqb name (js "local") then generateLocalEmbedding content
        else Ok (generateSimpleEmbedding (toLowerCase host) content)))
    (fun error =>
       notice (js "Failed to generate embedding: " ++ message error) ;;; ret []).

End WithHost.

End Provider.

Export Provider.

(* ================================================================== *)
(** * Front matter ([src/main.ts]) *)
(* ================================================================== *)

Module Frontmatter.

(** [s.replace(r, '')] for a pattern without the [g] flag: the first match
    is removed. *)
Definition removeFirst (r : regex) (s : jsstring) : jsstring :=
  match str_match r s with
  | Some m => firstn (m_index m) s ++ skipn (m_index m + length (m_text m)) s
  | None => s
  end.

(** [s.replace(r, '')] for a pattern with the [g] flag: every match is
    removed, the search going on after each one (after one more code unit
    when the match is empty).  [s] is the input from index [i] on. *)
Fixpoint removeAll_from (fuel : nat) (r : regex) (i : nat) (s : jsstring) : jsstring :=
  match fuel with
  | O => s
  | S fuel' =>
      let skip :=
        match s with
        | [] => []
        | c :: s' => c :: removeAll_from fuel' r (S i) s'
        end in
      match exec_at r i s with
      | Some m =>
          let n := length (m_text m) in
          if Nat.eqb n 0 then skip
          else removeAll_from fuel' r (i + n) (skipn n s)
      | None => skip
      end
  end.

Definition removeAll (r : regex) (s : jsstring) : jsstring :=
  removeAll_from (S (length s)) r 0 s.

(** [String.prototype.slice(start, end)]. *)
Definition strSlice (a b : Z) (s : jsstring) : jsstring :=
  let len := Z.of_nat (length s) in
  let from := if (a <? 0)%Z then Z.max (len + a) 0 else Z.min a len in
  let to := if (b <? 0)%Z then Z.max (len + b) 0 else Z.min b len in
  firstn (Z.to_nat (Z.max (to - from) 0)) (skipn (Z.to_nat from) s).

(** The patterns of [cleanContent] (lines 427-432): a leading front matter,
    an image embed, a fenced code block. *)
Definition leadingBlockRe : regex :=
  seqs [Bol; lit (js "---"); Star false any; lit (js "---"); Alt (chr lf) Empty].

Definition imageEmbedRe : regex :=
  seqs [lit (js "![["); Star false dot; lit (js "]]")].

Definition codeBlockRe : regex :=
  seqs [lit (js "```"); Star false any; lit (js "```")].

(** [cleanContent] (lines 425-434). *)
Definition cleanContent (content : jsstring) : jsstring :=
  trim (removeAll codeBlockRe (removeAll imageEmbedRe (removeFirst leadingBlockRe content))).

(** A value of the front matter object: what [parseYamlValue] returns and
    what the enhancement adds. *)
Inductive FMValue : Type :=
| FArray (items : list jsstring)
| FString (s : jsstring)
| FBool (b : bool)
| FNumber (x : float).

(** The object [frontmatter]: its own properties in creation order. *)
Definition FrontmatterObject : Type := list (jsstring * FMValue).

(** [frontmatter[key] = value].  The key [__proto__] names the prototype
    accessor: assigning to it creates no own property. *)
Definition fmSet (key : jsstring) (value : FMValue) (o : FrontmatterObject) :
  FrontmatterObject :=
  if str_eqb key (js "__proto__") then o else JSMap.set key value o.


(** An array index: the canonical decimal text of an integer below 2^32 - 1. *)
Definition arrayIndex (key : jsstring) : option N :=
  match key with
  | [] => None
  | c :: rest =>
      if forallb isDigit key && (negb (N.eqb c 48) || Nat.eqb (length rest) 0) then
        let n := fold_left (fun acc d => (acc * 10 + (d - 48))%N) key 0%N in
        if (n <? 4294967295)%N then Some n else None
      else None
  end.

(** [Object.entries(o)]: the array indices in ascending order, then the
    other keys in creation order. *)
Definition entries (o : FrontmatterObject) : list (jsstring * FMValue) :=
  let indexOf := fun e : jsstring * FMValue =>
                   match arrayIndex (fst e) with Some n => n | None => 0%N end in
  JSArray.sort (fun x y => (indexOf y <? indexOf x)%N)
    (filter (fun e => match arrayIndex (fst e) with Some _ => true | None => false end) o)
  ++ filter (fun e => match arrayIndex (fst e) with Some _ => false | None => true end) o.

(** The pattern of line 393: a quote at the beginning or at the end. *)
Definition outerQuoteRe : regex :=
  Alt (Seq Bol (Chr isQuote)) (Seq (Chr isQuote) Eol).

(** The pattern of line 340: a first line of three dashes, the block (lazy,
    group 1), a line of three dashes. *)
Definition frontmatterRe : regex :=
  seqs [Bol; lit (js "---" ++ [lf]); Group 1 (Star false any);
        lit ([lf] ++ js "---"); Alt (chr lf) Empty].

Section WithHost.
Variable host : Host.

(** [parseYamlValue] (lines 391-402). *)
Definition parseYamlValue (value : jsstring) : FMValue :=
  if startsWith (js "[") value && endsWith (js "]") value then
    FArray (map (fun item => removeAll outerQuoteRe (trim item))
              (split (ch ",") (strSlice 1 (-1) value)))
  else if (startsWith [dq] value && endsWith [dq] value)
          || (startsWith [sq] value && endsWith [sq] value) then
    FString (strSlice 1 (-1) value)
  else if str_eqb value (js "true") then FBool true
  else if str_eqb value (js "false") then FBool false
  else
    let n := stringToNumber host value in
    if (n =? n)%float then FNumber n else FString value.

(** The loop of lines 345-352 on the lines of the block. *)
Definition parseLine (o : FrontmatterObject) (line : jsstring) : FrontmatterObject :=
  let colonIndex := indexOf (js ":") line in
  if (colonIndex >? 0)%Z then
    let key := trim (substring 0 colonIndex line) in
    let value := trim (substring (colonIndex + 1) (Z.of_nat (length line)) line) in
    fmSet key (parseYamlValue value) o
  else o.

(** Lines 337-353: the front matter object and the content after it. *)
Definition splitFrontmatter (originalContent : jsstring) : FrontmatterObject * jsstring :=
  match str_match frontmatterRe originalContent with
  | Some frontmatterMatch =>
      (fold_left parseLine (split lf (group 1 frontmatterMatch)) [],
       substring (Z.of_nat (length (m_text frontmatterMatch)))
                 (Z.of_nat (length originalContent)) originalContent)
  | None => ([], originalContent)
  end.

(** Lines 355-379: the enhancement and the metadata written into the
    object, at the instant [now]. *)
Definition enhanceFrontmatter (settings : SANESettings) (file : TFile)
  (enhancement : Enhancement) (now : Z) (o : FrontmatterObject) : FrontmatterObject :=
  let o1 := if enableTags settings && Nat.ltb 0 (length (tags enhancement))
            then fmSet (js "sane_tags") (FArray (tags enhancement)) o else o in
  let o2 := if enableKeywords settings && Nat.ltb 0 (length (keywords enhancement))
            then fmSet (js "sane_keywords") (FArray (keywords enhancement)) o1 else o1 in
  let o3 := if enableLinks settings && Nat.ltb 0 (length (links enhancement))
            then fmSet (js "sane_links") (FArray (links enhancement)) o2 else o2 in
  let o4 := if enableSummary settings && truthy (summary enhancement)
            then fmSet (js "sane_summary") (FString (summary enhancement)) o3 else o3 in
  let o5 := if enableCreationTimestamp settings
            then fmSet (js "created_at") (FString (toISOString host (ctime file))) o4 else o4 in
  let o6 := if enableModificationTimestamp settings
            then fmSet (js "modified_at") (FString (toISOString host (mtime file))) o5 else o5 in
  fmSet (js "sane_version") (FString (js "1.0"))
    (fmSet (js "sane_updated") (FString (toISOString host now)) o6).

(** The line [generateFrontmatter] writes for an entry, if any (lines 408-418). *)
Definition frontmatterLine (entry : jsstring * FMValue) : list jsstring :=
  let key := fst entry in
  match snd entry with
  | FArray items =>
      if Nat.ltb 0 (length items)
      then [key ++ js ": [" ++ join (js ", ") (map (fun v => dq :: v ++ [dq]) items) ++ js "]"]
      else []
  | FString s => [key ++ js ": " ++ dq :: s ++ [dq]]
  | FBool b => [key ++ js ": " ++ (if b then js "true" else js "false")]
  | FNumber x => [key ++ js ": " ++ numberToString host x]
  end.

(** [generateFrontmatter] (lines 404-423). *)
Definition generateFrontmatter (o : FrontmatterObject) : jsstring :=
  join [lf] ([js "---"] ++ flat_map frontmatterLine (entries o) ++ [js "---"]).

(** The content [applyEnhancement] writes (lines 337-385). *)
Definition enhancedContent (settings : SANESettings) (file : TFile)
  (originalContent : jsstring) (enhancement : Enhancement) (now : Z) : jsstring :=
  let '(frontmatter, contentWithoutFrontmatter) := splitFrontmatter originalContent in
  let newFrontmatter :=
    generateFrontmatter (enhanceFrontmatter settings file enhancement now frontmatter) in
  newFrontmatter ++ [lf; lf] ++ contentWithoutFrontmatter.

End WithHost.

End Frontmatter.

Export Frontmatter.

(* ================================================================== *)
(** * The pipeline ([src/main.ts]) *)
(* ================================================================== *)

Module Pipeline.

Section WithHost.
Variable host : Host.

Fixpoint findFile (path : jsstring) (v : list (TFile * jsstring)) : option (TFile * jsstring) :=
  match v with
  | [] => None
  | (f, c) :: v' => if str_eqb (file_path f) path then Some (f, c) else findFile path v'
  end.

(** [app.vault.read(file)]. *)
Definition vaultRead (file : TFile) : M jsstring :=
  fun w =>
    match readFault host (file_path file) with
    | Some e => (Throw e, w)
    | None =>
        match findFile (file_path file) (vault w) with
        | Some (_, content) => (Ok content, w)
        | None => (Throw (Error (js "File not found: " ++ file_path file)), w)
        end
    end.

Fixpoint writeFile (path content : jsstring) (mtime' : Z) (v : list (TFile * jsstring)) :
  list (TFile * jsstring) :=
  match v with
  | [] => []
  | (f, c) :: v' =>
      if str_eqb (file_path f) path
      then (mkTFile (file_path f) (ctime f) mtime', content) :: v'
      else (f, c) :: writeFile path content mtime' v'
  end.

(** [app.vault.modify(file, data)]. *)
Definition vaultModify (file : TFile) (data : jsstring) : M unit :=
  fun w =>
    match modifyFault host (file_path file) with
    | Some e => (Throw e, w)
    | None =>
        match findFile (file_path file) (vault w) with
        | Some _ =>
            (Ok tt,
             mkWorld (writeFile (file_path file) data (now w) (vault w))
               (noteEmbeddings w) (costEntries w) (notices w) (now w)
               (modified w ++ [file_path file]))
        | None => (Throw (Error (js "File not found: " ++ file_path file)), w)
        end
    end.

(** [applyEnhancement] (lines 335-389). *)
Definition applyEnhancement (settings : SANESettings) (file : TFile)
  (originalContent : jsstring) (enhancement : Enhancement) : M unit :=
  fun w =>
    vaultModify file
      (enhancedContent host settings file originalContent enhancement (now w)) w.

(** The budget check of lines 314-316. *)
Definition checkBudget (settings : SANESettings) : M unit :=
  fun w =>
    if costTracking settings
       && negb (canAffordProcessing (toDateString host) settings (costEntries w) (now w))
    then (Throw (Error (js "Would exceed daily budget")), w)
    else (Ok tt, w).

(** The recording of lines 322-324. *)
Definition recordEnhancement (settings : SANESettings) (cleanContent : jsstring) : M unit :=
  fun w =>
    if costTracking settings
    then (Ok tt,
          mkWorld (vault w) (noteEmbeddings w)
            (recordCost settings (costEntries w) (now w) (js "enhancement")
               (estimateTokens cleanContent))
            (notices w) (now w) (modified w))
    else (Ok tt, w).

(** [updateNoteWithAI] (lines 308-333); its [catch] logs and throws the
    error again. *)
Definition updateNoteWithAI (p : ProviderState) (file : TFile)
  (relatedContent : list jsstring) : M unit :=
  content <~ vaultRead file ;;
  let cleanContent := cleanContent content in
  checkBudget (settings p) ;;;
  enhancement <~ generateEnhancement host p cleanContent relatedContent ;;
  recordEnhancement (settings p) cleanContent ;;;
  applyEnhancement (settings p) file content enhancement.

(** The files of the vault, as [getAbstractFileByPath] sees them. *)
Definition vaultIndex (w : World) : list TAbstractFile :=
  map (fun e => AFile (fst e)) (vault w).

(** Lines 237-242. *)
Definition storeEmbedding (file : TFile) (cleanContent : jsstring)
  (embedding : list float) : M unit :=
  fun w =>
    (Ok tt,
     mkWorld (vault w)
       (JSMap.set (file_path file)
          (mkNoteEmbedding (file_path file) cleanContent embedding
             (PrimFloat.of_uint63 (Uint63.of_Z (now w))))
          (noteEmbeddings w))
       (costEntries w) (notices w) (now w) (modified w)).

(** Line 245. *)
Definition rank (p : ProviderState) (file : TFile) : M (list (RelevantNote float)) :=
  fun w =>
    (Ok (findRelevantNotes (vaultIndex w) (noteEmbeddings w) (file_path file)
           (relevantNotesCount (settings p))), w).

(** [isInitialization] (lines 436-439). *)
Definition isInitialization : M bool :=
  fun w => (Ok (Nat.ltb (length (noteEmbeddings w)) 10), w).

(** The loop of lines 248-250 over the ranked neighbours. *)
Definition updateNeighbors (p : ProviderState) (cleanContent : jsstring)
  (relevantNotes : list (RelevantNote float)) : M unit :=
  forEach relevantNotes
    (fun relevantNote => updateNoteWithAI p (file relevantNote) [cleanContent]).

(** The body of the [try] of [processNote] (lines 226-255). *)
Definition processNoteBody (p : ProviderState) (file : TFile) : M unit :=
  content <~ vaultRead file ;;
  let cleanContent := cleanContent content in
  embedding <~ generateEmbedding host p cleanContent ;;
  if Nat.eqb (length embedding) 0 then ret tt
  else
    storeEmbedding file cleanContent embedding ;;;
    relevantNotes <~ rank p file ;;
    updateNeighbors p cleanContent relevantNotes ;;;
    initializing <~ isInitialization ;;
    if initializing
    then updateNoteWithAI p file (map (fun r => file_path (Ranking.file r)) relevantNotes)
    else ret tt.

(** [String(v)], as a template literal writes a value: in an array [null]
    is written as nothing. *)
Fixpoint stringOf (v : JSValue) : jsstring :=
  match v with
  | VNull => js "null"
  | VBool true => js "true"
  | VBool false => js "false"
  | VNumber x => numberToString host x
  | VString s => s
  | VArray items =>
      join (js ",")
        (map (fun item => match item with
                          | VNull => []
                          | _ => stringOf item
                          end) items)
  | VObject _ => js "[object Object]"
  end.

(** The handler of lines 257-266.  It reads [error.message] without a guard:
    when the caught value has no such string (or array) the handler itself
    throws a TypeError, which leaves [processNote]. *)
Definition processNoteFailed (error : JSError) : M unit :=
  m <~ lift (messageOf error) ;;
  budget <~ lift (includesOf (js "budget") m) ;;
  if budget
  then notice (js "Daily budget reached. Processing paused until tomorrow.")
  else notice (js "Error processing note: "
               ++ match m with
                  | Some v => stringOf v
                  | None => js "undefined"
                  end).

(** [processNote] (lines 219-267). *)
Definition processNote (p : ProviderState) (file : TFile) : M unit :=
  if negb (isConfigured p)
  then notice (js "AI provider not configured. Please check settings.")
  else tryCatch (processNoteBody p file) processNoteFailed.

End WithHost.

End Pipeline.

Export Pipeline.

(* ================================================================== *)
(** * Events, the queue and the timers ([src/main.ts]) *)
(* ================================================================== *)

Module Events.

(** The settings the triggers read, besides those of [SANESettings].
    [processingTrigger] is kept a string: the [switch] on it has no default
    case.  The two numbers are whole. *)
Record TriggerSettings : Type := mkTriggers {
  targetFolder : jsstring;
  processingTrigger : jsstring;
  delayMinutes : Z;
  scheduleHour : Z
}.

(** The functions the plugin hands to [setTimeout]: the two that run
    [processQueuedNotes], and the [resolve] of the pause of
    [initializeAllNotes] (line 548), which goes on with the loop where it
    stands: at the index [i], the files [files] of the [total] still to be
    processed. *)
Inductive Callback : Type :=
| DelayedCallback
| ScheduledCallback
| ResumeCallback (total i : nat) (files : list TFile).

(** A timeout the host has pending: its handle, the function to call, the
    delay asked for and the instant of the call of [setTimeout]. *)
Record Timer : Type := mkTimer {
  handle : Z;
  callback : Callback;
  delay : Z;
  setAt : Z
}.

(** The plugin object with the host's table of timeouts.  [world] holds the
    vault, [noteEmbeddings] and [costEntries]; [service] is [aiProvider]. *)
Record Plugin : Type := mkPlugin {
  world : World;
  service : ProviderState;
  triggers : TriggerSettings;
  processingQueue : list jsstring;
  delayedProcessingTimer : option Z;
  scheduledProcessingTimer : option Z;
  pending : list Timer;
  nextHandle : Z
}.

Definition setWorld (w : World) (p : Plugin) : Plugin :=
  mkPlugin w (service p) (triggers p) (processingQueue p)
    (delayedProcessingTimer p) (scheduledProcessingTimer p) (pending p) (nextHandle p).

Definition setQueue (q : list jsstring) (p : Plugin) : Plugin :=
  mkPlugin (world p) (service p) (triggers p) q
    (delayedProcessingTimer p) (scheduledProcessingTimer p) (pending p) (nextHandle p).

(** [setTimeout(callback, ms)]: a handle not given before. *)
Definition setTimeout (cb : Callback) (ms : Z) (p : Plugin) : Z * Plugin :=
  (nextHandle p,
   mkPlugin (world p) (service p) (triggers p) (processingQueue p)
     (delayedProcessingTimer p) (scheduledProcessingTimer p)
     (pending p ++ [mkTimer (nextHandle p) cb ms (now (world p))])
     (nextHandle p + 1)%Z).

(** [clearTimeout(handle)]: nothing happens when no such timeout is
    pending. *)
Definition clearTimeout (h : Z) (p : Plugin) : Plugin :=
  mkPlugin (world p) (service p) (triggers p) (processingQueue p)
    (delayedProcessingTimer p) (scheduledProcessingTimer p)
    (filter (fun t => negb (Z.eqb (handle t) h)) (pending p)) (nextHandle p).

(** [Set.prototype.add]: a set keeps the order of insertion. *)
Definition setAdd (x : jsstring) (s : list jsstring) : list jsstring :=
  if existsb (str_eqb x) s then s else s ++ [x].

(** A computation on the plugin that returns or throws. *)
Definition PM (A : Type) : Type := Plugin -> Result A * Plugin.

Definition bindP {A B} (c : PM A) (k : A -> PM B) : PM B :=
  fun p =>
    match c p with
    | (Ok a, p') => k a p'
    | (Throw e, p') => (Throw e, p')
    end.

Definition inWorld {A} (c : M A) : PM A :=
  fun p => let (r, w) := c (world p) in (r, setWorld w p).

Fixpoint forEachP {A} (l : list A) (body : A -> PM unit) : PM unit :=
  match l with
  | [] => fun p => (Ok tt, p)
  | x :: l' => bindP (body x) (fun _ => forEachP l' body)
  end.

(** The settings object of the provider is the one of the plugin
    ([this.settings = settings], ai-service.ts, lines 12 and 28): an
    assignment to its fields changes the settings the provider reads and
    leaves its clients alone. *)
Definition assign (p : ProviderState) (s : SANESettings) : ProviderState :=
  mkProvider s (openaiClient p) (googleClient p).

Section WithHost.
Variable host : Host.

(** [file.extension] and [file.parent?.path] of the host's [TFile]. *)
Variable extension : TFile -> jsstring.
Variable parentPath : TFile -> option jsstring.

(** [Date.prototype.setHours(hour, 0, 0, 0)] and
    [setDate(getDate() + 1)], on instants. *)
Variable setHours : Z -> Z -> Z.
Variable nextDate : Z -> Z.

(** [shouldProcessFile] (lines 131-143). *)
Definition shouldProcessFile (t : TriggerSettings) (file : TAbstractFile) : bool :=
  match file with
  | AFolder _ => false
  | AFile f =>
      if negb (str_eqb (extension f) (js "md")) then false
      else if truthy (targetFolder t)
      then startsWith (targetFolder t ++ js "/") (file_path f)
           || match parentPath f with
              | Some parent => str_eqb parent (targetFolder t)
              | None => false
              end
      else true
  end.

(** [scheduleDelayedProcessing] (lines 166-176). *)
Definition scheduleDelayedProcessing (p : Plugin) : Plugin :=
  let p1 := match delayedProcessingTimer p with
            | Some h => clearTimeout h p
            | None => p
            end in
  let (h, p2) := setTimeout DelayedCallback (delayMinutes (triggers p1) * 60 * 1000)%Z p1 in
  mkPlugin (world p2) (service p2) (triggers p2) (processingQueue p2)
    (Some h) (scheduledProcessingTimer p2) (pending p2) (nextHandle p2).

(** [scheduleProcessing] (lines 178-203). *)
Definition scheduleProcessing (p : Plugin) : Plugin :=
  let p1 := match scheduledProcessingTimer p with
            | Some h => clearTimeout h p
            | None => p
            end in
  if str_eqb (processingTrigger (triggers p1)) (js "scheduled")
  then
    let now := now (world p1) in
    let scheduled := setHours now (scheduleHour (triggers p1)) in
    let scheduled := if (scheduled <=? now)%Z then nextDate scheduled else scheduled in
    let timeUntilScheduled := (scheduled - now)%Z in
    let (h, p2) := setTimeout ScheduledCallback timeUntilScheduled p1 in
    mkPlugin (world p2) (service p2) (triggers p2) (processingQueue p2)
      (delayedProcessingTimer p2) (Some h) (pending p2) (nextHandle p2)
  else p1.

(** The body of the loop of [processQueuedNotes]. *)
Definition processPath (filePath : jsstring) : PM unit :=
  fun p =>
    match getAbstractFileByPath (vaultIndex (world p)) filePath with
    | Some (AFile file) => inWorld (processNote host (service p) file) p
    | _ => (Ok tt, p)
    end.

(** [processQueuedNotes] (lines 205-217). *)
Definition processQueuedNotes : PM unit :=
  fun p =>
    if Nat.eqb (length (processingQueue p)) 0 then (Ok tt, p)
    else
      let filesToProcess := processingQueue p in
      forEachP filesToProcess processPath (setQueue [] p).

(** [handleNoteChange] (lines 145-164). *)
Definition handleNoteChange (file : TFile) : PM unit :=
  fun p =>
    let p1 := setQueue (setAdd (file_path file) (processingQueue p)) p in
    if str_eqb (processingTrigger (triggers p1)) (js "immediate")
    then inWorld (processNote host (service p1) file) p1
    else if str_eqb (processingTrigger (triggers p1)) (js "delayed")
    then (Ok tt, scheduleDelayedProcessing p1)
    else (Ok tt, p1).

(** The handlers of [registerEventHandlers] (lines 102-129): the one of
    [create] and [modify], and the one of [delete]. *)
Definition onChange (file : TAbstractFile) : PM unit :=
  match file with
  | AFile f =>
      fun p =>
        if shouldProcessFile (triggers p) (AFile f) then handleNoteChange f p
        else (Ok tt, p)
  | AFolder _ => fun p => (Ok tt, p)
  end.

Definition onDelete (file : TAbstractFile) : PM unit :=
  match file with
  | AFile f =>
      fun p =>
        if str_eqb (extension f) (js "md")
        then
          let w := world p in
          (Ok tt,
           setWorld (mkWorld (vault w) (JSMap.delete (file_path f) (noteEmbeddings w))
                       (costEntries w) (notices w) (now w) (modified w)) p)
        else (Ok tt, p)
  | AFolder _ => fun p => (Ok tt, p)
  end.

(** The settings tab assigns to the fields of the settings object
    ([settings-tab.ts], as in lines 57-61) before it calls [saveSettings]:
    the plugin and the provider read the new values at once. *)
Definition assignSettings (s : SANESettings) (t : TriggerSettings) (p : Plugin) : Plugin :=
  mkPlugin (world p) (assign (service p) s) t (processingQueue p)
    (delayedProcessingTimer p) (scheduledProcessingTimer p) (pending p) (nextHandle p).

(** [saveSettings] (lines 81-91), once [saveData] has stored the settings:
    the provider is given the settings object again and the daily run is
    scheduled anew. *)
Definition saveSettings (p : Plugin) : Plugin :=
  scheduleProcessing
    (mkPlugin (world p) (updateSettings (service p) (settings (service p))) (triggers p)
       (processingQueue p) (delayedProcessingTimer p) (scheduledProcessingTimer p)
       (pending p) (nextHandle p)).

(** [onunload] (lines 62-75): the two timeouts are cleared and the map of
    embeddings is written to [localStorage]. *)
Definition onunload (localStorage : Storage) (p : Plugin) : Storage * Plugin :=
  let p1 := match delayedProcessingTimer p with
            | Some h => clearTimeout h p
            | None => p
            end in
  let p2 := match scheduledProcessingTimer p1 with
            | Some h => clearTimeout h p1
            | None => p1
            end in
  (saveEmbeddings (runtimeStore (noteEmbeddings (world p2))) localStorage, p2).

(** [processCurrentNote] (lines 509-523); [activeFile] is the answer of
    [workspace.getActiveFile()]. *)
Definition processCurrentNote (activeFile : option TFile) : PM unit :=
  fun p =>
    match activeFile with
    | None => inWorld (notice (js "No active file to process")) p
    | Some file =>
        if negb (shouldProcessFile (triggers p) (AFile file))
        then inWorld
               (notice (js "Current file is not in the target folder or is not a markdown file"))
               p
        else inWorld
               (bindM (processNote host (service p) file)
                  (fun _ => notice (js "Current note processed!")))
               p
    end.

(** The notice of progress, every tenth pass. *)
Definition progress (i total : nat) : M unit :=
  if Nat.eqb (Nat.modulo i 10) 0
  then notice (js "Processed " ++ decimal (Z.of_nat i + 1) ++ js "/"
               ++ decimal (Z.of_nat total) ++ js " notes")
  else ret tt.

(** The loop of [initializeAllNotes] (lines 537-557) from the index [i], up
    to its next pause: after a note is processed the loop waits for a
    timeout of 100 milliseconds, which carries on with the files that are
    left.  The [catch] reads the message of the caught value without a
    guard; it ends the loop on an error that names the budget and goes on
    to the next file, without a pause, on any other.  After the loop comes
    the last notice. *)
Fixpoint initializeLoop (total i : nat) (files : list TFile) : PM unit :=
  match files with
  | [] => inWorld (notice (js "Initialization complete!"))
  | file :: files' =>
      fun p =>
        match inWorld (bindM (processNote host (service p) file)
                         (fun _ => progress i total)) p with
        | (Ok _, p1) =>
            (Ok tt, snd (setTimeout (ResumeCallback total (S i) files') 100 p1))
        | (Throw error, p1) =>
            match bind (messageOf error) (includesOf (js "budget")) with
            | Ok true =>
                inWorld
                  (bindM (notice (js "Daily budget reached. Initialization paused."))
                     (fun _ => notice (js "Initialization complete!"))) p1
            | Ok false => initializeLoop total (S i) files' p1
            | Throw thrown => (Throw thrown, p1)
            end
        end
  end.

(** [initializeAllNotes] (lines 525-560), up to its first pause;
    [confirmed] is the answer of [confirm] and [allFiles] the one of
    [vault.getMarkdownFiles()]. *)
Definition initializeAllNotes (confirmed : bool) (allFiles : list TFile) : PM unit :=
  fun p =>
    if negb confirmed then (Ok tt, p)
    else
      let targetFiles :=
        filter (fun file => shouldProcessFile (triggers p) (AFile file)) allFiles in
      bindP
        (inWorld (notice (js "Initializing " ++ decimal (Z.of_nat (length targetFiles))
                          ++ js " notes...")))
        (fun _ => initializeLoop (length targetFiles) 0 targetFiles)
        p.

(** The functions given to [setTimeout] (lines 173-175, 195-198 and
    548). *)
Definition runCallback (cb : Callback) : PM unit :=
  match cb with
  | DelayedCallback => processQueuedNotes
  | ScheduledCallback =>
      bindP processQueuedNotes (fun _ p => (Ok tt, scheduleProcessing p))
  | ResumeCallback total i files => initializeLoop total i files
  end.

(** The host calls a timeout that is due: the timeout is no longer pending
    when its function runs. *)
Definition fire (h : Z) : PM unit :=
  fun p =>
    match find (fun t => Z.eqb (handle t) h) (pending p) with
    | Some t => runCallback (callback t) (clearTimeout h p)
    | None => (Ok tt, p)
    end.

(** What the host can ask of the plugin.  [Rescheduled] is the end of a
    scheduled callback (line 198) that comes late: its [processQueuedNotes]
    was still waiting for a note while other handlers ran. *)
Inductive Event : Type :=
| Created (file : TAbstractFile)
| Modified (file : TAbstractFile)
| Deleted (file : TAbstractFile)
| TimerFired (h : Z)
| Rescheduled
| SettingsAssigned (s : SANESettings) (t : TriggerSettings)
| SettingsSaved
| ProcessCurrentNote (activeFile : option TFile)
| InitializeAllNotes (confirmed : bool) (allFiles : list TFile).

Definition handler (e : Event) : PM unit :=
  match e with
  | Created file => onChange file
  | Modified file => onChange file
  | Deleted file => onDelete file
  | TimerFired h => fire h
  | Rescheduled => fun p => (Ok tt, scheduleProcessing p)
  | SettingsAssigned s t => fun p => (Ok tt, assignSettings s t p)
  | SettingsSaved => fun p => (Ok tt, saveSettings p)
  | ProcessCurrentNote activeFile => processCurrentNote activeFile
  | InitializeAllNotes confirmed allFiles => initializeAllNotes confirmed allFiles
  end.

(** An event reaches the plugin at some instant, in a vault the user may
    have changed since the last one; its handler runs to its end, or to the
    pause of [initializeAllNotes], before the next event, and an exception
    that leaves it is lost. *)
Record Delivery : Type := mkDelivery {
  instant : Z;
  files : list (TFile * jsstring);
  event : Event
}.

Definition deliver (d : Delivery) (p : Plugin) : Plugin :=
  let w := world p in
  snd (handler (event d)
         (setWorld (mkWorld (files d) (noteEmbeddings w) (costEntries w) (notices w)
                      (instant d) (modified w)) p)).

Definition run (ds : list Delivery) (p : Plugin) : Plugin :=
  fold_left (fun p d => deliver d p) ds p.

End WithHost.

End Events.

Export Events.

(* ================================================================== *)
(** * Properties of the response parser *)
(* ================================================================== *)

Module ParserFacts.

(** ** Trimming *)

Lemma trimStart_head (s : jsstring) (c : N) (r : jsstring) :
  trimStart s = c :: r -> isWhiteSpace c = false.
Proof.
  induction s as [|x s IH]; simpl; [discriminate|].
  destruct (isWhiteSpace x) eqn:Hx; [exact IH|].
  intros H. injection H as -> _. exact Hx.
Qed.

Lemma trimStart_suffix (s : jsstring) :
  exists p, s = p ++ trimStart s.
Proof.
  induction s as [|x s [p Hp]]; simpl.
  - exists []. reflexivity.
  - destruct (isWhiteSpace x).
    + exists (x :: p). simpl. now f_equal.
    + exists []. reflexivity.
Qed.

Lemma isTrimmed_trim (s : jsstring) : isTrimmed (trim s) = true.
Proof.
  unfold trim, trimEnd.
  destruct (trimStart_suffix (rev (trimStart s))) as [p Hp].
  remember (trimStart (rev (trimStart s))) as u eqn:Hu.
  assert (Ht : trimStart s = rev u ++ rev p).
  { rewrite <- rev_app_distr, <- Hp. now rewrite rev_involutive. }
  destruct u as [|x u']; [reflexivity|].
  assert (Hx : isWhiteSpace x = false).
  { symmetry in Hu. exact (trimStart_head _ _ _ Hu). }
  simpl rev in *.
  destruct (rev u') as [|c w].
  - simpl. now rewrite Hx.
  - assert (Hc : isWhiteSpace c = false).
    { simpl in Ht. exact (trimStart_head _ _ _ Ht). }
    change ((c :: w) ++ [x]) with (c :: (w ++ [x])).
    unfold isTrimmed. rewrite Hc.
    change (c :: w ++ [x]) with ((c :: w) ++ [x]).
    rewrite last_last. now rewrite Hx.
Qed.

(** ** Links *)

Lemma startsWith_app (p s : jsstring) : startsWith p (p ++ s) = true.
Proof.
  induction p as [|x p IH]; simpl; [reflexivity|].
  now rewrite N.eqb_refl.
Qed.

Lemma endsWith_app (p s : jsstring) : endsWith p (s ++ p) = true.
Proof.
  unfold endsWith. rewrite rev_app_distr. apply startsWith_app.
Qed.

Lemma formatLink_bracketed (link : jsstring) :
  isBracketed (formatLink link) = true.
Proof.
  unfold formatLink.
  destruct (startsWith (js "[[") link && endsWith (js "]]") link) eqn:H.
  - exact H.
  - unfold isBracketed. rewrite startsWith_app.
    rewrite app_assoc. now rewrite endsWith_app.
Qed.

Lemma formatLink_nonEmpty (link : jsstring) :
  nonEmpty link = true -> nonEmpty (formatLink link) = true.
Proof.
  unfold formatLink. intros H.
  destruct (startsWith (js "[[") link && endsWith (js "]]") link); [exact H|].
  reflexivity.
Qed.

Lemma links_valid (l : list jsstring) :
  forallb nonEmpty l = true ->
  forallb (fun x => nonEmpty x && isBracketed x) (map formatLink l) = true.
Proof.
  induction l as [|x l IH]; simpl; [reflexivity|].
  intros H. apply andb_true_iff in H as [Hx Hl].
  now rewrite formatLink_nonEmpty, formatLink_bracketed, IH.
Qed.

(** ** The two filters *)

Lemma strings_nonEmpty (l : list JSValue) :
  forallb nonEmpty (asStrings (filter isNonEmptyString l)) = true.
Proof.
  induction l as [|v l IH]; simpl; [reflexivity|].
  destruct (isNonEmptyString v) eqn:Hv; [|exact IH].
  destruct v; try discriminate. simpl.
  unfold nonEmpty at 1. simpl in Hv. now rewrite Hv.
Qed.

Lemma splitElements_nonEmpty (body : jsstring) :
  forallb nonEmpty (splitElements body) = true.
Proof.
  unfold splitElements. apply forallb_forall.
  intros x Hx. apply filter_In in Hx. exact (proj2 Hx).
Qed.

(** ** The fallback and the strict parse *)

Lemma extractWithFallback_valid (response : jsstring) :
  validEnhancement (extractWithFallback response) = true.
Proof.
  unfold validEnhancement, extractWithFallback; simpl.
  repeat (apply andb_true_iff; split).
  - destruct (str_match _ response); [apply splitElements_nonEmpty|reflexivity].
  - destruct (str_match (fieldArrayRe (js "keywords")) response);
      [apply splitElements_nonEmpty|reflexivity].
  - destruct (str_match (fieldArrayRe (js "links")) response); [|reflexivity].
    apply links_valid, splitElements_nonEmpty.
  - destruct (orElse _ _); [apply isTrimmed_trim|reflexivity].
Qed.

Lemma field_strings_valid (f : option JSValue) :
  forallb nonEmpty
    (match f with
     | Some (VArray l) => asStrings (filter isNonEmptyString l)
     | _ => []
     end) = true.
Proof.
  destruct f as [[]|]; try reflexivity. apply strings_nonEmpty.
Qed.

Lemma parseStrict_valid (JSON_parse : jsstring -> Result JSValue)
  (response : jsstring) (e : Enhancement) :
  parseStrict JSON_parse response = Ok e -> validEnhancement e = true.
Proof.
  unfold parseStrict.
  destruct (JSON_parse (cleanResponse response)) as [parsed|]; simpl; [|discriminate].
  destruct (getField (js "links") parsed) as [fl|]; simpl; [|discriminate].
  destruct (getField (js "tags") parsed) as [ft|]; simpl; [|discriminate].
  destruct (getField (js "keywords") parsed) as [fk|]; simpl; [|discriminate].
  destruct (getField (js "summary") parsed) as [fs|]; simpl; [|discriminate].
  intros H. injection H as <-.
  unfold validEnhancement; simpl.
  repeat (apply andb_true_iff; split).
  - apply field_strings_valid.
  - apply field_strings_valid.
  - destruct fl as [[]|]; try reflexivity.
    apply links_valid, strings_nonEmpty.
  - destruct fs as [[]|]; try reflexivity. apply isTrimmed_trim.
Qed.

(** C1.  The response parser is total: whatever [JSON.parse] does and for
    every input string, [parseAIResponse] returns normally (it never
    throws), and what it returns is a structurally valid Enhancement: tags,
    keywords and links are non-empty strings, every link is in the bracketed
    form and the summary is trimmed. *)
Theorem parseAIResponse_total (JSON_parse : jsstring -> Result JSValue)
  (response : jsstring) :
  exists e : Enhancement,
    parseAIResponse JSON_parse response = Ok e /\ validEnhancement e = true.
Proof.
  unfold parseAIResponse, try_catch.
  destruct (parseStrict JSON_parse response) as [e|err] eqn:H.
  - exists e. split; [reflexivity|]. exact (parseStrict_valid _ _ _ H).
  - exists (extractWithFallback response). split; [reflexivity|].
    apply extractWithFallback_valid.
Qed.


(** ** The fallback extraction of tags *)

(** Attempts that fail are skipped: the search goes on after them. *)
Lemma search_from_skip (r : regex) (pre s : jsstring) (i : nat) :
  (forall j, j < length pre -> exec_at r (i + j) (skipn j (pre ++ s)) = None) ->
  search_from r i (pre ++ s) = search_from r (i + length pre) s.
Proof.
  revert i. induction pre as [|c pre IH]; intros i H; simpl.
  - now rewrite Nat.add_0_r.
  - pose proof (H 0 (Nat.lt_0_succ _)) as H0.
    rewrite Nat.add_0_r in H0. simpl in H0. rewrite H0.
    rewrite IH.
    + f_equal. lia.
    + intros j Hj. specialize (H (S j) (proj1 (Nat.succ_lt_mono _ _) Hj)).
      simpl in H. rewrite <- H. f_equal. lia.
Qed.

Lemma search_from_hit (r : regex) (i : nat) (s : jsstring) (m : MatchResult) :
  exec_at r i s = Some m -> search_from r i s = Some m.
Proof. intros H. destruct s; simpl; now rewrite H. Qed.

(** Where the scenario's text begins, the pattern matches it and captures
    the body between the brackets. *)
Lemma exec_at_tagsAB (i : nat) (post : jsstring) :
  exec_at (fieldArrayRe (js "tags")) i (tagsAB ++ post)
  = Some (Match i tagsAB
            [(1, [dq] ++ js "a" ++ [dq] ++ js ", " ++ [dq] ++ js "b" ++ [dq])]).
Proof. reflexivity. Qed.

(** A response that is not JSON, contains the scenario's text and has an
    earlier match of the tags pattern. *)
Definition twoTagLists : jsstring :=
  [dq] ++ js "tags" ++ [dq] ++ js ": [" ++ [dq] ++ js "x" ++ [dq] ++ js "] "
  ++ tagsAB.

Lemma twoTagLists_run :
  includes tagsAB twoTagLists = true
  /\ (exists e, JSON_parse twoTagLists = Throw e)
  /\ parseAIResponse JSON_parse twoTagLists = Ok (mkEnhancement [js "x"] [] [] []).
Proof.
  split; [reflexivity|]. split; [eexists|]; vm_compute; reflexivity.
Qed.

(** C8, as stated, fails: the response [twoTagLists] is not parseable as
    JSON and contains the scenario's text, and the tags extracted are those
    of the first match, not the scenario's. *)
Lemma fallback_tags_counterexample :
  ~ (forall raw : jsstring,
       includes tagsAB raw = true ->
       (exists e, JSON_parse raw = Throw e) ->
       exists e, parseAIResponse JSON_parse raw = Ok e
                 /\ tags e = [js "a"; js "b"]).
Proof.
  intros H.
  destruct twoTagLists_run as (Hin & Herr & Hrun).
  destruct (H twoTagLists Hin Herr) as (e & He & Ht).
  rewrite Hrun in He. injection He as <-. discriminate Ht.
Qed.

(** C8, amended.  When the first place of the raw output at which the tags
    pattern matches is the text of the scenario (no attempt succeeds at an
    index before it), the fallback extraction yields the tags a and b; a
    field whose pattern is found nowhere stays at its empty default; and the
    fallback is what [parseAIResponse] returns whenever the strict parse
    throws. *)
Theorem fallback_tags_first_match (pre post : jsstring) :
  (forall i, i < length pre ->
     exec_at (fieldArrayRe (js "tags")) i (skipn i (pre ++ tagsAB ++ post)) = None) ->
  let raw := pre ++ tagsAB ++ post in
  tags (extractWithFallback raw) = [js "a"; js "b"]
  /\ (str_match (fieldArrayRe (js "keywords")) raw = None ->
      keywords (extractWithFallback raw) = [])
  /\ (str_match (fieldArrayRe (js "links")) raw = None ->
      links (extractWithFallback raw) = [])
  /\ (str_match summaryDqRe raw = None -> str_match summarySqRe raw = None ->
      str_match summaryLooseRe raw = None ->
      summary (extractWithFallback raw) = [])
  /\ (forall (parse : jsstring -> Result JSValue) (e : JSError),
        parseStrict parse raw = Throw e ->
        parseAIResponse parse raw = Ok (extractWithFallback raw)).
Proof.
  intros H raw. repeat split.
  - unfold extractWithFallback; simpl. unfold str_match, raw.
    rewrite search_from_skip by exact H.
    rewrite (search_from_hit _ _ _ _ (exec_at_tagsAB _ post)). reflexivity.
  - intros Hk. unfold extractWithFallback; simpl. now rewrite Hk.
  - intros Hl. unfold extractWithFallback; simpl. now rewrite Hl.
  - intros H1 H2 H3. unfold extractWithFallback; simpl.
    now rewrite H1, H2, H3.
  - intros parse e He. unfold parseAIResponse. now rewrite He.
Qed.

Lemma fallback_tags_first_match_witness :
  tags (extractWithFallback (js "Sure! {" ++ tagsAB ++ js ", oops")) = [js "a"; js "b"].
Proof.
  refine (proj1 (fallback_tags_first_match (js "Sure! {") (js ", oops") _)).
  intros i Hi.
  do 7 (destruct i as [|i]; [reflexivity|]).
  exfalso. simpl in Hi. lia.
Defined.

(** The scenario of the specification: a fenced JSON object after a line of
    commentary parses to its fields. *)
Example parse_fenced_json :
  parseAIResponse JSON_parse
    (js "Here you go:" ++ [lf] ++ js "```json" ++ [lf]
     ++ js "{" ++ [dq] ++ js "tags" ++ [dq] ++ js ":["
     ++ [dq] ++ js "x" ++ [dq] ++ js "," ++ [dq] ++ js "y" ++ [dq] ++ js "],"
     ++ [dq] ++ js "keywords" ++ [dq] ++ js ":[],"
     ++ [dq] ++ js "links" ++ [dq] ++ js ":[],"
     ++ [dq] ++ js "summary" ++ [dq] ++ js ":" ++ [dq] ++ js "s" ++ [dq] ++ js "}"
     ++ [lf] ++ js "```")
  = Ok (mkEnhancement [js "x"; js "y"] [] [] (js "s")).
Proof. vm_compute. reflexivity. Qed.

End ParserFacts.

(* ================================================================== *)
(** * Facts of binary64 arithmetic *)
(* ================================================================== *)

Module FloatFacts.

Lemma SFmul_comm (x y : spec_float) :
  SFmul prec emax x y = SFmul prec emax y x.
Proof.
  destruct x as [sx|sx| |sx mx ex], y as [sy|sy| |sy my ey]; simpl;
    try reflexivity; try (now rewrite xorb_comm).
  now rewrite xorb_comm, Pos.mul_comm, Z.add_comm.
Qed.

Lemma mul_comm (x y : float) : (x * y = y * x)%float.
Proof.
  apply Prim2SF_inj. rewrite !mul_spec. apply SFmul_comm.
Qed.

(** A number that [===] 0 is one of the two zeros. *)
Lemma eqb_zero_inv (x : float) :
  (x =? 0)%float = true -> x = 0%float \/ x = (-0)%float.
Proof.
  rewrite eqb_spec. unfold SFeqb.
  change (Prim2SF 0) with (S754_zero false).
  intros H. rewrite <- (SF2Prim_Prim2SF x).
  destruct (Prim2SF x) as [s|s| |s m e]; simpl in H;
    try discriminate; try (destruct s; discriminate).
  destruct s; [right|left]; reflexivity.
Qed.

Lemma square_zero (x : float) :
  (x =? 0)%float = true -> (0 + x * x = 0)%float.
Proof.
  intros H. destruct (eqb_zero_inv x H) as [-> | ->]; reflexivity.
Qed.

(** Two numbers that are equal as values compare equal unless they are NaN;
    used to tell two computed numbers apart. *)
Lemma neq_of_eqb_false (x y : float) :
  (y =? y)%float = true -> (x =? y)%float = false -> x <> y.
Proof. intros Hy Hxy ->. congruence. Qed.




End FloatFacts.

(* ================================================================== *)
(** * Cosine similarity *)
(* ================================================================== *)

Module CosineFacts.

Import FloatFacts.

(** ** In binary64 *)

Lemma cosineSums_swap (a b : list float) (d na nb : float) :
  cosineSums b a (d, nb, na)
  = (let '(d', na', nb') := cosineSums a b (d, na, nb) in (d', nb', na')).
Proof.
  revert b d na nb.
  induction a as [|x a IH]; intros [|y b] d na nb; simpl; try reflexivity.
  rewrite (mul_comm y x). apply IH.
Qed.

Lemma cosine_symmetric (a b : list float) :
  cosineSimilarity a b = cosineSimilarity b a.
Proof.
  unfold cosineSimilarity.
  rewrite (Nat.eqb_sym (length b) (length a)).
  destruct (Nat.eqb (length a) (length b)); [|reflexivity].
  change (negb true) with false. cbv iota.
  rewrite (cosineSums_swap a b).
  destruct (cosineSums a b (nzero, nzero, nzero)) as [[d na] nb].
  cbv beta iota zeta.
  rewrite (orb_comm (neqb nb nzero)).
  destruct (neqb na nzero || neqb nb nzero); [reflexivity|].
  f_equal. apply mul_comm.
Qed.

Lemma cosine_length_mismatch (a b : list float) :
  length a <> length b -> cosineSimilarity a b = 0%float.
Proof.
  intros H. unfold cosineSimilarity.
  apply Nat.eqb_neq in H. now rewrite H.
Qed.

(** A vector whose components all [===] 0. *)
Definition allZero (a : list float) : Prop :=
  Forall (fun x => (x =? 0)%float = true) a.

Lemma cosineSums_zero_left (a b : list float) (d nb : float) :
  allZero a ->
  exists d' nb', cosineSums a b (d, 0%float, nb) = (d', 0%float, nb').
Proof.
  intros Ha. revert b d nb.
  induction Ha as [|x a Hx Ha IH]; intros b d nb.
  - exists d, nb. now destruct b.
  - destruct b as [|y b]; simpl.
    + now exists d, nb.
    + rewrite (square_zero x Hx). apply IH.
Qed.

Lemma cosine_zero_left (a b : list float) :
  allZero a -> cosineSimilarity a b = 0%float.
Proof.
  intros Ha. unfold cosineSimilarity.
  destruct (negb _); [reflexivity|].
  destruct (cosineSums_zero_left a b 0%float 0%float Ha) as (d' & nb' & E).
  change (@nzero float float64) with 0%float. rewrite E.
  reflexivity.
Qed.

(** ** In exact arithmetic *)

Lemma cosineSums_self (a : list R) (d : R) :
  exists t : R,
    cosineSums a a (d, d, d) = (t, t, t)
    /\ (d <= t)%R
    /\ (Exists (fun x => x <> 0%R) a -> (d < t)%R).
Proof.
  revert d. induction a as [|x a IH]; intros d; simpl.
  - exists d. repeat split; [lra|]. intros H. inversion H.
  - destruct (IH (d + x * x)%R) as (t & Ht & Hle & Hlt).
    exists t. split; [exact Ht|].
    assert (0 <= x * x)%R by nra.
    split; [lra|].
    intros H'. inversion H' as [? ? Hx|? ? Hx]; subst.
    + assert (0 < x * x)%R by nra. lra.
    + specialize (Hlt Hx). lra.
Qed.

Lemma cosine_self_exact (a : list R) :
  Exists (fun x => x <> 0%R) a -> cosineSimilarity a a = 1%R.
Proof.
  intros Ha. unfold cosineSimilarity.
  rewrite Nat.eqb_refl. simpl negb. cbv iota.
  destruct (cosineSums_self a 0%R) as (t & Ht & _ & Hlt).
  change (@nzero R exact) with 0%R. rewrite Ht.
  specialize (Hlt Ha).
  unfold neqb, ndiv, nmul, nsqrt; simpl.
  destruct (Req_dec_T t 0) as [E|_]; [lra|]. simpl.
  rewrite sqrt_sqrt by lra. field. lra.
Qed.

(** ** What the running program computes *)

(** The similarity of the vector (1, 1) with itself: the squared norm is 2,
    the product of its two square roots rounds to 2.0000000000000004 and the
    quotient to 0.9999999999999998. *)
Lemma cosine_self_rounds :
  cosineSimilarity [1; 1]%float [1; 1]%float = 0x1.ffffffffffffep-1%float.
Proof. reflexivity. Qed.

(** The squared norm of a small vector underflows to 0 and the similarity is
    0; that of a large one overflows and the similarity is NaN. *)
Lemma cosine_self_underflow :
  cosineSimilarity [0x1p-600%float] [0x1p-600%float] = 0%float.
Proof. reflexivity. Qed.

Lemma cosine_self_overflow :
  cosineSimilarity [0x1p600%float] [0x1p600%float] = nan.
Proof. reflexivity. Qed.

(** C5, as stated, fails: the vector (1, 1) is not zero and its similarity
    with itself is not 1. *)
Lemma cosine_self_counterexample :
  ~ (forall a : list float,
       Exists (fun x => (x =? 0)%float = false) a ->
       cosineSimilarity a a = 1%float).
Proof.
  intros H.
  assert (E : cosineSimilarity [1; 1]%float [1; 1]%float = 1%float).
  { apply H. left. reflexivity. }
  rewrite cosine_self_rounds in E.
  revert E. apply neq_of_eqb_false; reflexivity.
Qed.

(** C5, amended.  As the program computes it, in binary64, cosine
    similarity is symmetric for every pair of vectors and is 0 whenever the
    two vectors have different lengths or either is all-zero.  The
    similarity of a vector with itself is 1 up to rounding only: it is 1 in
    exact arithmetic for every vector with a non-zero component. *)
Theorem cosine_properties :
  (forall a b : list float, cosineSimilarity a b = cosineSimilarity b a)
  /\ (forall a b : list float,
        length a <> length b -> cosineSimilarity a b = 0%float)
  /\ (forall a b : list float,
        allZero a \/ allZero b -> cosineSimilarity a b = 0%float)
  /\ (forall a : list R,
        Exists (fun x => x <> 0%R) a -> cosineSimilarity a a = 1%R).
Proof.
  split; [exact cosine_symmetric|].
  split; [exact cosine_length_mismatch|].
  split; [|exact cosine_self_exact].
  intros a b [H|H].
  - now apply cosine_zero_left.
  - rewrite cosine_symmetric. now apply cosine_zero_left.
Qed.

Lemma cosine_properties_witness :
  cosineSimilarity [1; 2]%float [2; 1]%float = cosineSimilarity [2; 1]%float [1; 2]%float
  /\ cosineSimilarity [1]%float [1; 2]%float = 0%float
  /\ cosineSimilarity [0; -0]%float [1; 2]%float = 0%float
  /\ cosineSimilarity [1; 1]%R [1; 1]%R = 1%R.
Proof.
  destruct cosine_properties as (Hsym & Hlen & Hzero & Hself).
  split; [apply Hsym|].
  split; [apply Hlen; simpl; lia|].
  split; [apply Hzero; left; repeat constructor|].
  apply Hself. left. lra.
Defined.

End CosineFacts.

(* ================================================================== *)
(** * The order of binary64 numbers *)
(* ================================================================== *)

(** The comparator of [findRelevantNotes] is a subtraction; this part
    relates the sign of a binary64 difference to the order of its operands,
    from the definitions of IEEE-754 arithmetic ([SpecFloat]). *)

Module FloatOrder.

Local Open Scope Z_scope.

Definition emin : Z := SpecFloat.emin prec emax.

Lemma emin_value : emin = -1074.
Proof. reflexivity. Qed.

Lemma prec_value : prec = 53.
Proof. reflexivity. Qed.

Lemma emax_value : emax = 1024.
Proof. reflexivity. Qed.

Lemma fexp_value (e : Z) : fexp prec emax e = Z.max (e - 53) (-1074).
Proof. reflexivity. Qed.

(** The number of binary digits of a positive integer brackets it. *)
Lemma digits2_bounds (m : positive) :
  2 ^ (Zpos (digits2_pos m) - 1) <= Zpos m < 2 ^ Zpos (digits2_pos m).
Proof.
  induction m as [m IH|m IH|]; cbn [digits2_pos].
  - rewrite Pos2Z.inj_succ, Z.pow_succ_r by lia.
    replace (Z.succ (Zpos (digits2_pos m)) - 1) with (Z.succ (Zpos (digits2_pos m) - 1)) by lia.
    rewrite Z.pow_succ_r by lia. lia.
  - rewrite Pos2Z.inj_succ, Z.pow_succ_r by lia.
    replace (Z.succ (Zpos (digits2_pos m)) - 1) with (Z.succ (Zpos (digits2_pos m) - 1)) by lia.
    rewrite Z.pow_succ_r by lia. lia.
  - simpl. lia.
Qed.

(** What validity says of a finite number. *)
Lemma bounded_inv (m : positive) (e : Z) :
  SpecFloat.bounded prec emax m e = true ->
  emin <= e <= emax - prec
  /\ Zpos (digits2_pos m) <= prec
  /\ (emin < e -> Zpos (digits2_pos m) = prec).
Proof.
  unfold SpecFloat.bounded, canonical_mantissa. rewrite fexp_value, emin_value, prec_value, emax_value.
  intros H. apply andb_true_iff in H as [H1 H2].
  apply Z.eqb_eq in H1. apply Z.leb_le in H2. lia.
Qed.

(** An order-preserving integer for every number: the numerator of its
    value over the least positive number. *)
Definition key (x : spec_float) : Z :=
  match x with
  | S754_zero _ => 0
  | S754_infinity s => cond_Zopp s (2 ^ (emax - emin))
  | S754_nan => 0
  | S754_finite s m e => cond_Zopp s (Zpos m * 2 ^ (e - emin))
  end.

Lemma finite_key_bounds (m : positive) (e : Z) :
  SpecFloat.bounded prec emax m e = true ->
  0 < Zpos m * 2 ^ (e - emin) < 2 ^ (emax - emin).
Proof.
  intros H. apply bounded_inv in H as (He & Hd & _).
  pose proof (digits2_bounds m) as [_ Hm].
  assert (Hp : 0 < 2 ^ (e - emin)) by (apply Z.pow_pos_nonneg; lia).
  split; [lia|].
  assert (Hm' : Zpos m < 2 ^ prec).
  { eapply Z.lt_le_trans; [exact Hm|]. apply Z.pow_le_mono_r; lia. }
  replace (emax - emin) with (prec + (emax - prec - emin)) by lia.
  rewrite Z.pow_add_r by (rewrite ?prec_value, ?emax_value, ?emin_value; lia).
  assert (Hq : 2 ^ (e - emin) <= 2 ^ (emax - prec - emin)).
  { apply Z.pow_le_mono_r; lia. }
  assert (0 < 2 ^ prec) by (apply Z.pow_pos_nonneg; rewrite ?prec_value; lia).
  nia.
Qed.

Lemma scaled_lt (a b A B : Z) :
  0 < b -> a < 2 * b -> 0 < A -> 0 < B -> a * A < b * (2 * B * A).
Proof.
  intros Hb Hab HA HB.
  assert (H1 : a * A < 2 * b * A) by (apply Z.mul_lt_mono_pos_r; lia).
  assert (H0 : 0 <= 2 * b * A) by (apply Z.mul_nonneg_nonneg; lia).
  assert (H2 : 2 * b * A * 1 <= 2 * b * A * B).
  { apply Z.mul_le_mono_nonneg_l; lia. }
  replace (b * (2 * B * A)) with (2 * b * A * B) by ring. lia.
Qed.

Lemma same_sign_compare (m1 m2 : positive) (e1 e2 : Z) :
  SpecFloat.bounded prec emax m1 e1 = true -> SpecFloat.bounded prec emax m2 e2 = true ->
  (Zpos m1 * 2 ^ (e1 - emin) ?= Zpos m2 * 2 ^ (e2 - emin))
  = match e1 ?= e2 with
    | Lt => Lt
    | Gt => Gt
    | Eq => Pos.compare_cont Eq m1 m2
    end.
Proof.
  intros H1 H2.
  apply bounded_inv in H1 as (He1 & Hd1 & Hn1).
  apply bounded_inv in H2 as (He2 & Hd2 & Hn2).
  pose proof (digits2_bounds m1) as [Hl1 Hu1].
  pose proof (digits2_bounds m2) as [Hl2 Hu2].
  assert (Hp53 : 0 < 2 ^ (prec - 1)) by (apply Z.pow_pos_nonneg; rewrite ?prec_value; lia).
  assert (Hpp : 2 ^ prec = 2 * 2 ^ (prec - 1)).
  { replace prec with (Z.succ (prec - 1)) at 1 by lia.
    rewrite Z.pow_succ_r; [reflexivity|rewrite prec_value; lia]. }
  destruct (Z.compare_spec e1 e2) as [E|L|G].
  - subst e2. change (Pos.compare_cont Eq m1 m2) with (Pos.compare m1 m2).
    assert (Ha : 0 < 2 ^ (e1 - emin)) by (apply Z.pow_pos_nonneg; lia).
    destruct (Pos.compare_spec m1 m2) as [E|L|G].
    + subst. apply Z.compare_refl.
    + apply Z.compare_lt_iff. nia.
    + apply Z.compare_gt_iff. nia.
  - apply Z.compare_lt_iff.
    assert (Hd : Zpos (digits2_pos m2) = prec) by (apply Hn2; lia).
    rewrite Hd in Hl2.
    assert (Hm1 : Zpos m1 < 2 ^ prec).
    { eapply Z.lt_le_trans; [exact Hu1|]. apply Z.pow_le_mono_r; lia. }
    replace (e2 - emin) with (Z.succ (e2 - e1 - 1) + (e1 - emin)) by lia.
    rewrite Z.pow_add_r, Z.pow_succ_r by lia.
    assert (Ha : 0 < 2 ^ (e1 - emin)) by (apply Z.pow_pos_nonneg; lia).
    assert (Hb : 0 < 2 ^ (e2 - e1 - 1)) by (apply Z.pow_pos_nonneg; lia).
    assert (Hlt : Zpos m1 < 2 * Zpos m2) by lia.
    apply (scaled_lt _ _ _ _ (Pos2Z.is_pos _) Hlt Ha Hb).
  - apply Z.compare_gt_iff.
    assert (Hd : Zpos (digits2_pos m1) = prec) by (apply Hn1; lia).
    rewrite Hd in Hl1.
    assert (Hm2 : Zpos m2 < 2 ^ prec).
    { eapply Z.lt_le_trans; [exact Hu2|]. apply Z.pow_le_mono_r; lia. }
    replace (e1 - emin) with (Z.succ (e1 - e2 - 1) + (e2 - emin)) by lia.
    rewrite Z.pow_add_r, Z.pow_succ_r by lia.
    assert (Ha : 0 < 2 ^ (e2 - emin)) by (apply Z.pow_pos_nonneg; lia).
    assert (Hb : 0 < 2 ^ (e1 - e2 - 1)) by (apply Z.pow_pos_nonneg; lia).
    assert (Hlt : Zpos m2 < 2 * Zpos m1) by lia.
    apply (scaled_lt _ _ _ _ (Pos2Z.is_pos _) Hlt Ha Hb).
Qed.


Definition notNaN (x : spec_float) : Prop := x <> S754_nan.

(** On valid numbers [SFcompare] is the comparison of the keys. *)
Lemma compare_key (x y : spec_float) :
  valid_binary x = true -> valid_binary y = true -> notNaN x -> notNaN y ->
  SFcompare x y = Some (key x ?= key y).
Proof.
  assert (HP : 0 < 2 ^ (emax - emin)) by (apply Z.pow_pos_nonneg; [lia|discriminate]).
  intros Vx Vy Nx Ny.
  destruct x as [sx|sx| |sx mx ex]; [| |now elim Nx|];
  destruct y as [sy|sy| |sy my ey]; try (now elim Ny);
    cbn [SFcompare key valid_binary SpecFloat.valid_binary] in *;
    try pose proof (finite_key_bounds _ _ Vx) as Bx;
    try pose proof (finite_key_bounds _ _ Vy) as By.
  - reflexivity.
  - f_equal. symmetry. destruct sy; cbn [cond_Zopp];
      [apply Z.compare_gt_iff|apply Z.compare_lt_iff]; lia.
  - f_equal. symmetry. destruct sy; cbn [cond_Zopp];
      [apply Z.compare_gt_iff|apply Z.compare_lt_iff]; lia.
  - f_equal. symmetry. destruct sx; cbn [cond_Zopp];
      [apply Z.compare_lt_iff|apply Z.compare_gt_iff]; lia.
  - f_equal. symmetry. destruct sx, sy; cbn [cond_Zopp];
      [apply Z.compare_eq_iff|apply Z.compare_lt_iff|apply Z.compare_gt_iff
      |apply Z.compare_eq_iff]; lia.
  - f_equal. symmetry. destruct sx, sy; cbn [cond_Zopp];
      [apply Z.compare_lt_iff|apply Z.compare_lt_iff|apply Z.compare_gt_iff
      |apply Z.compare_gt_iff]; lia.
  - f_equal. symmetry. destruct sx; cbn [cond_Zopp];
      [apply Z.compare_lt_iff|apply Z.compare_gt_iff]; lia.
  - f_equal. symmetry. destruct sx, sy; cbn [cond_Zopp];
      [apply Z.compare_gt_iff|apply Z.compare_lt_iff|apply Z.compare_gt_iff
      |apply Z.compare_lt_iff]; lia.
  - f_equal. pose proof (same_sign_compare _ _ _ _ Vx Vy) as Hc.
    destruct sx, sy; cbn [cond_Zopp].
    + rewrite Z.compare_opp, (Z.compare_antisym (Z.pos mx * 2 ^ (ex - emin))), Hc.
      destruct (ex ?= ey); reflexivity.
    + symmetry. apply Z.compare_lt_iff. lia.
    + symmetry. apply Z.compare_gt_iff. lia.
    + rewrite Hc. reflexivity.
Qed.


(** ** Positive results of rounding *)

(** A number above zero: positive infinity or a positive finite number. *)
Definition positive_sf (x : spec_float) : bool :=
  match x with
  | S754_infinity false | S754_finite false _ _ => true
  | _ => false
  end.

Lemma SFltb_zero (x : spec_float) :
  SFltb (S754_zero false) x = positive_sf x.
Proof. destruct x as [s|s| |s m e]; try reflexivity; now destruct s. Qed.

Lemma shr_1_m (r : shr_record) :
  0 <= shr_m r -> shr_m (shr_1 r) = Z.div2 (shr_m r).
Proof.
  destruct r as [m r0 s0]. cbn [shr_m]. intros H.
  destruct m as [|p|p]; [reflexivity| |lia].
  destruct p; reflexivity.
Qed.

Lemma iter_pos_shr_m (p : positive) (r : shr_record) :
  0 <= shr_m r -> shr_m (SpecFloat.iter_pos shr_1 p r) = Z.shiftr (shr_m r) (Zpos p).
Proof.
  revert r. induction p as [p IH|p IH|]; intros r Hr; cbn [SpecFloat.iter_pos].
  - assert (H1 : 0 <= shr_m (shr_1 r)).
    { rewrite shr_1_m by exact Hr. apply Z.div2_nonneg. exact Hr. }
    assert (H2 : 0 <= shr_m (SpecFloat.iter_pos shr_1 p (shr_1 r))).
    { rewrite IH by exact H1. apply Z.shiftr_nonneg. exact H1. }
    rewrite IH by exact H2. rewrite IH by exact H1. rewrite shr_1_m by exact Hr.
    rewrite Z.div2_spec, !Z.shiftr_shiftr by lia.
    f_equal. lia.
  - assert (H2 : 0 <= shr_m (SpecFloat.iter_pos shr_1 p r)).
    { rewrite IH by exact Hr. apply Z.shiftr_nonneg. exact Hr. }
    rewrite IH by exact H2. rewrite IH by exact Hr.
    rewrite Z.shiftr_shiftr by lia. f_equal. lia.
  - rewrite shr_1_m by exact Hr. apply Z.div2_spec.
Qed.

Lemma shr_record_of_loc_m (m : Z) (l : location) : shr_m (shr_record_of_loc m l) = m.
Proof. destruct l as [|[]]; reflexivity. Qed.

(** Rounding a positive mantissa at an exponent that is not below [emin]
    leaves a positive mantissa. *)
Lemma shr_fexp_pos (m e : Z) (l : location) :
  0 < m -> emin <= e ->
  0 < shr_m (fst (shr_fexp prec emax m e l)) /\ emin <= snd (shr_fexp prec emax m e l).
Proof.
  intros Hm He. unfold shr_fexp, shr. rewrite fexp_value.
  destruct m as [|p|p]; try lia. cbn [Zdigits2].
  pose proof (digits2_bounds p) as [Hl _].
  set (d := Zpos (digits2_pos p)) in *.
  destruct (Z.max (d + e - 53) (-1074) - e) as [|n|n] eqn:En;
    cbn [fst snd]; rewrite ?shr_record_of_loc_m; try (rewrite emin_value in *; lia).
  rewrite iter_pos_shr_m by (rewrite shr_record_of_loc_m; lia).
  rewrite shr_record_of_loc_m. rewrite emin_value in *.
  split; [|lia].
  rewrite Z.shiftr_div_pow2 by lia.
  assert (Hn : Zpos n <= d - 1) by lia.
  assert (Hpow : 2 ^ Zpos n <= 2 ^ (d - 1)) by (apply Z.pow_le_mono_r; lia).
  apply Z.div_str_pos. split; [apply Z.pow_pos_nonneg; lia|lia].
Qed.

Lemma round_nearest_even_pos (m : Z) (l : location) :
  0 < m -> 0 < round_nearest_even m l.
Proof.
  intros H. destruct l as [|[]]; cbn [round_nearest_even]; try lia.
  destruct (Z.even m); lia.
Qed.

Lemma binary_round_aux_pos (m : positive) (e : Z) (l : location) :
  emin <= e -> positive_sf (binary_round_aux prec emax false (Zpos m) e l) = true.
Proof.
  intros He. unfold binary_round_aux.
  pose proof (shr_fexp_pos (Zpos m) e l (Pos2Z.is_pos m) He) as [H1 H1e].
  destruct (shr_fexp prec emax (Zpos m) e l) as [mrs' e']. cbn [fst snd] in *.
  pose proof (round_nearest_even_pos _ (loc_of_shr_record mrs') H1) as H2.
  pose proof (shr_fexp_pos _ e' loc_Exact H2 H1e) as [H3 _].
  destruct (shr_fexp prec emax _ e' loc_Exact) as [mrs'' e'']. cbn [fst snd] in *.
  destruct (shr_m mrs''); try lia.
  now destruct (_ <=? _).
Qed.

Lemma binary_round_aux_neg (m e : Z) (l : location) :
  positive_sf (binary_round_aux prec emax true m e l) = false.
Proof.
  unfold binary_round_aux.
  destruct (shr_fexp prec emax m e l) as [mrs' e'].
  destruct (shr_fexp prec emax _ e' loc_Exact) as [mrs'' e''].
  destruct (shr_m mrs''); try reflexivity.
  now destruct (_ <=? _).
Qed.

Lemma shl_align_value (m : positive) (e e' : Z) :
  e' <= e ->
  Zpos (fst (shl_align m e e')) = Zpos m * 2 ^ (e - e')
  /\ snd (shl_align m e e') = e'.
Proof.
  intros H. unfold shl_align.
  destruct (e' - e) as [|d|d] eqn:Ed; cbn [fst snd]; try lia.
  - replace (e - e') with 0 by lia. split; lia.
  - replace (e - e') with (Zpos d) by lia. split; [|reflexivity].
    clear. induction d as [|d IH] using Pos.peano_ind.
    + change (Pos.iter xO m 1) with (xO m). change (2 ^ 1) with 2.
      rewrite Pos2Z.inj_xO. ring.
    + rewrite Pos.iter_succ, Pos2Z.inj_succ, Z.pow_succ_r by lia.
      rewrite Pos2Z.inj_xO, IH. ring.
Qed.

Lemma shl_align_ge (m : positive) (e e' : Z) :
  e <= e' -> shl_align m e e' = (m, e).
Proof.
  intros H. unfold shl_align. destruct (e' - e) eqn:Ed; try reflexivity. lia.
Qed.

Lemma binary_round_pos (m : positive) (e : Z) :
  emin <= e -> positive_sf (binary_round prec emax false m e) = true.
Proof.
  intros He. unfold binary_round. rewrite fexp_value.
  set (e' := Z.max (Zpos (digits2_pos m) + e - 53) (-1074)).
  destruct (Z.le_gt_cases e' e) as [Hle|Hgt].
  - pose proof (shl_align_value m e e' Hle) as [_ Hs].
    destruct (shl_align m e e') as [mz ez]. cbn [snd] in Hs. subst ez.
    apply binary_round_aux_pos. unfold e'. rewrite emin_value. lia.
  - rewrite shl_align_ge by lia. now apply binary_round_aux_pos.
Qed.

Lemma binary_round_neg (m : positive) (e : Z) :
  positive_sf (binary_round prec emax true m e) = false.
Proof.
  unfold binary_round. destruct (shl_align m e _) as [mz ez].
  apply binary_round_aux_neg.
Qed.

Lemma binary_normalize_pos (D e : Z) :
  emin <= e -> positive_sf (binary_normalize prec emax D e false) = (0 <? D).
Proof.
  intros He. destruct D as [|p|p]; cbn [binary_normalize]; [reflexivity| |].
  - now apply binary_round_pos.
  - apply binary_round_neg.
Qed.


(** ** The sign of a difference *)

Lemma cond_Zopp_scale (s : bool) (m : positive) (e ez : Z) :
  emin <= ez <= e ->
  cond_Zopp s (Zpos m * 2 ^ (e - ez)) * 2 ^ (ez - emin)
  = cond_Zopp s (Zpos m * 2 ^ (e - emin)).
Proof.
  intros H. replace (e - emin) with ((e - ez) + (ez - emin)) by lia.
  rewrite Z.pow_add_r by lia. destruct s; cbn [cond_Zopp]; ring.
Qed.

Lemma SFsub_positive (x y : spec_float) :
  valid_binary x = true -> valid_binary y = true -> notNaN x -> notNaN y ->
  positive_sf (SFsub prec emax y x) = (key x <? key y).
Proof.
  assert (HP : 0 < 2 ^ (emax - emin)) by (apply Z.pow_pos_nonneg; [lia|discriminate]).
  intros Vx Vy Nx Ny.
  destruct x as [sx|sx| |sx mx ex]; [| |now elim Nx|];
  destruct y as [sy|sy| |sy my ey]; try (now elim Ny);
    cbn [SFsub key valid_binary SpecFloat.valid_binary positive_sf] in *;
    try pose proof (finite_key_bounds _ _ Vx) as Bx;
    try pose proof (finite_key_bounds _ _ Vy) as By.
  all: try (destruct sy; try destruct sx; cbn [cond_Zopp negb positive_sf]; symmetry;
            first [apply Z.ltb_lt; lia | apply Z.ltb_ge; lia]).
  all: try (destruct sx; cbn [cond_Zopp negb positive_sf]; symmetry;
            first [apply Z.ltb_lt; lia | apply Z.ltb_ge; lia]).
  - pose proof (bounded_inv _ _ Vx) as (Hex & _).
    pose proof (bounded_inv _ _ Vy) as (Hey & _).
    cbv zeta. set (ez := Z.min ey ex).
    rewrite binary_normalize_pos by (unfold ez; lia).
    destruct (shl_align_value my ey ez ltac:(unfold ez; lia)) as [-> _].
    destruct (shl_align_value mx ex ez ltac:(unfold ez; lia)) as [-> _].
    assert (Hz : 0 < 2 ^ (ez - emin)) by (apply Z.pow_pos_nonneg; unfold ez; lia).
    rewrite <- (cond_Zopp_scale sx mx ex ez) by (unfold ez; lia).
    rewrite <- (cond_Zopp_scale sy my ey ez) by (unfold ez; lia).
    set (a := cond_Zopp sy (Z.pos my * 2 ^ (ey - ez))).
    set (b := cond_Zopp sx (Z.pos mx * 2 ^ (ex - ez))).
    destruct (Z.ltb_spec 0 (a - b)); symmetry; [apply Z.ltb_lt|apply Z.ltb_ge]; nia.
Qed.

(** ** Numbers that are not NaN *)

Local Open Scope float_scope.

Definition fkey (x : float) : Z := key (Prim2SF x).

(** [x === x] holds of every number but NaN. *)
Definition isNumber (x : float) : bool := (x =? x).

Lemma isNumber_notNaN (x : float) : isNumber x = true -> notNaN (Prim2SF x).
Proof.
  unfold isNumber, notNaN. rewrite eqb_spec. intros H E. rewrite E in H. discriminate.
Qed.

Lemma ltb_key (x y : float) :
  isNumber x = true -> isNumber y = true -> (x <? y) = (fkey x <? fkey y)%Z.
Proof.
  intros Hx Hy. rewrite ltb_spec. unfold SFltb, fkey.
  rewrite compare_key;
    auto using Prim2SF_valid, isNumber_notNaN.
Qed.

Lemma leb_key (x y : float) :
  isNumber x = true -> isNumber y = true -> (x <=? y) = (fkey x <=? fkey y)%Z.
Proof.
  intros Hx Hy. rewrite leb_spec. unfold SFleb, fkey.
  rewrite compare_key;
    auto using Prim2SF_valid, isNumber_notNaN.
Qed.

(** The comparator [b - a] is positive exactly when [a < b]. *)
Lemma sub_positive (x y : float) :
  isNumber x = true -> isNumber y = true -> (0 <? y - x) = (x <? y).
Proof.
  intros Hx Hy. rewrite (ltb_key x y Hx Hy).
  rewrite ltb_spec, sub_spec.
  change (Prim2SF 0) with (S754_zero false).
  rewrite SFltb_zero. apply SFsub_positive;
    auto using Prim2SF_valid, isNumber_notNaN.
Qed.

End FloatOrder.

(* ================================================================== *)
(** * The sign of binary64 results *)
(* ================================================================== *)

(** The accumulation of [generateSimpleEmbedding] only adds numbers that are
    not negative; this part follows the sign and the exponent of a result
    through a sum, a square, a square root and a quotient. *)

Module FloatSign.

Import FloatOrder.
Local Open Scope Z_scope.

(** A number that is not negative: +0, a positive finite number or positive
    infinity. *)
Definition nonneg_sf (x : spec_float) : bool :=
  match x with
  | S754_zero false | S754_infinity false | S754_finite false _ _ => true
  | _ => false
  end.

(** A positive number whose exponent is at least [t]. *)
Definition exponent_ge (t : Z) (x : spec_float) : bool :=
  match x with
  | S754_infinity false => true
  | S754_finite false _ e => t <=? e
  | _ => false
  end.

(** A number at least one: a valid positive number of exponent -52 or more
    has a mantissa of 53 digits. *)
Definition geOne_sf (x : spec_float) : bool := exponent_ge (-52) x.

Lemma positive_nonneg (x : spec_float) : positive_sf x = true -> nonneg_sf x = true.
Proof. destruct x as [[]|[]| |[] m e]; simpl; congruence. Qed.

Lemma exponent_ge_positive (t : Z) (x : spec_float) :
  exponent_ge t x = true -> positive_sf x = true.
Proof. destruct x as [[]|[]| |[] m e]; simpl; congruence. Qed.

Lemma shr_fexp_exponent (m e : Z) (l : location) :
  snd (shr_fexp prec emax m e l) = Z.max (fexp prec emax (Zdigits2 m + e)) e.
Proof.
  unfold shr_fexp, shr.
  destruct (fexp prec emax (Zdigits2 m + e) - e) eqn:E; cbn [snd]; lia.
Qed.

(** Rounding a positive mantissa: the exponent of the result is not below
    the exponent the format gives the number. *)
Lemma binary_round_aux_exponent (m : positive) (e t : Z) (l : location) :
  emin <= e ->
  t <= Z.max (fexp prec emax (Zpos (digits2_pos m) + e)) e ->
  exponent_ge t (binary_round_aux prec emax false (Zpos m) e l) = true.
Proof.
  intros He Ht. unfold binary_round_aux.
  pose proof (shr_fexp_pos (Zpos m) e l (Pos2Z.is_pos m) He) as [H1 H1e].
  pose proof (shr_fexp_exponent (Zpos m) e l) as Hx. cbn [Zdigits2] in Hx.
  destruct (shr_fexp prec emax (Zpos m) e l) as [mrs' e']. cbn [fst snd] in *.
  pose proof (round_nearest_even_pos _ (loc_of_shr_record mrs') H1) as H2.
  pose proof (shr_fexp_pos _ e' loc_Exact H2 H1e) as [H3 _].
  pose proof (shr_fexp_exponent (round_nearest_even (shr_m mrs') (loc_of_shr_record mrs'))
                e' loc_Exact) as Hy.
  destruct (shr_fexp prec emax _ e' loc_Exact) as [mrs'' e'']. cbn [fst snd] in *.
  destruct (shr_m mrs''); try lia.
  destruct (_ <=? _); cbn [exponent_ge]; [apply Z.leb_le; lia|reflexivity].
Qed.

Lemma binary_round_aux_nonneg (m e : Z) (l : location) :
  0 <= m -> nonneg_sf (binary_round_aux prec emax false m e l) = true.
Proof.
  intros Hm. unfold binary_round_aux.
  assert (H1 : 0 <= shr_m (fst (shr_fexp prec emax m e l))).
  { unfold shr_fexp, shr. destruct (_ - e) as [|n|n]; cbn [fst];
      rewrite ?iter_pos_shr_m by (rewrite shr_record_of_loc_m; lia);
      rewrite shr_record_of_loc_m; try lia.
    now apply Z.shiftr_nonneg. }
  destruct (shr_fexp prec emax m e l) as [mrs' e']. cbn [fst] in H1.
  assert (H2 : 0 <= round_nearest_even (shr_m mrs') (loc_of_shr_record mrs')).
  { destruct (loc_of_shr_record mrs') as [|[]]; cbn [round_nearest_even]; try lia.
    destruct (Z.even _); lia. }
  set (m2 := round_nearest_even _ _) in *.
  assert (H3 : 0 <= shr_m (fst (shr_fexp prec emax m2 e' loc_Exact))).
  { unfold shr_fexp, shr. destruct (_ - e') as [|n|n]; cbn [fst];
      rewrite ?iter_pos_shr_m by (rewrite shr_record_of_loc_m; lia);
      rewrite shr_record_of_loc_m; try lia.
    now apply Z.shiftr_nonneg. }
  destruct (shr_fexp prec emax m2 e' loc_Exact) as [mrs'' e'']. cbn [fst] in H3.
  destruct (shr_m mrs''); try lia; [reflexivity|].
  now destruct (_ <=? _).
Qed.

(** ** Sums *)

Lemma SFadd_nonneg (x y : spec_float) :
  valid_binary x = true -> valid_binary y = true ->
  nonneg_sf x = true -> nonneg_sf y = true ->
  nonneg_sf (SFadd prec emax x y) = true
  /\ (positive_sf x = true \/ positive_sf y = true ->
      positive_sf (SFadd prec emax x y) = true).
Proof.
  intros Vx Vy Nx Ny.
  destruct x as [[]|[]| |[] mx ex]; try discriminate;
  destruct y as [[]|[]| |[] my ey]; try discriminate;
    cbn [SFadd positive_sf nonneg_sf]; try (split; [reflexivity|tauto]).
  cbn [valid_binary SpecFloat.valid_binary] in Vx, Vy.
  pose proof (bounded_inv _ _ Vx) as (Hex & _).
  pose proof (bounded_inv _ _ Vy) as (Hey & _).
  cbv zeta. cbn [cond_Zopp].
  assert (Hp : positive_sf
                 (binary_normalize prec emax
                    (Zpos (fst (shl_align mx ex (Z.min ex ey)))
                     + Zpos (fst (shl_align my ey (Z.min ex ey))))
                    (Z.min ex ey) false) = true).
  { rewrite binary_normalize_pos by lia. apply Z.ltb_lt. lia. }
  split; [now apply positive_nonneg|auto].
Qed.

(** Adding a number that is not negative to a number at least one. *)
Lemma SFadd_geOne (x y : spec_float) :
  valid_binary x = true -> valid_binary y = true ->
  geOne_sf x = true -> nonneg_sf y = true ->
  geOne_sf (SFadd prec emax x y) = true.
Proof.
  intros Vx Vy Gx Ny. unfold geOne_sf in *.
  destruct x as [[]|[]| |[] mx ex]; try discriminate;
  destruct y as [[]|[]| |[] my ey]; try discriminate;
    cbn [SFadd exponent_ge] in *; try reflexivity; try assumption.
  cbn [valid_binary SpecFloat.valid_binary] in Vx, Vy.
  apply Z.leb_le in Gx.
  pose proof (bounded_inv _ _ Vx) as (Hex & _ & Hdx).
  pose proof (bounded_inv _ _ Vy) as (Hey & _).
  rewrite emin_value in *. specialize (Hdx ltac:(lia)).
  cbv zeta. cbn [cond_Zopp]. set (ez := Z.min ex ey).
  destruct (shl_align_value mx ex ez ltac:(unfold ez; lia)) as [Hx _].
  destruct (shl_align_value my ey ez ltac:(unfold ez; lia)) as [Hy _].
  set (a := fst (shl_align mx ex ez)) in *.
  set (b := fst (shl_align my ey ez)) in *.
  change (Zpos a + Zpos b) with (Zpos (a + b)).
  cbn [binary_normalize]. unfold binary_round.
  (* the sum has at least 53 + ex - ez digits *)
  pose proof (digits2_bounds mx) as [Hlx _]. rewrite Hdx, prec_value in Hlx.
  pose proof (digits2_bounds (a + b)) as [_ Hu].
  set (d := Zpos (digits2_pos (a + b))) in *.
  assert (Hd : 53 + ex - ez <= d).
  { destruct (Z.lt_ge_cases d (53 + ex - ez)) as [Hlt|]; [|assumption].
    exfalso.
    assert (H1 : 2 ^ d <= 2 ^ (52 + ex - ez)) by (apply Z.pow_le_mono_r; lia).
    assert (H2 : 2 ^ (52 + ex - ez) = 2 ^ 52 * 2 ^ (ex - ez)).
    { rewrite <- Z.pow_add_r by (unfold ez; lia). f_equal. lia. }
    assert (H3 : 0 < 2 ^ (ex - ez)) by (apply Z.pow_pos_nonneg; unfold ez; lia).
    rewrite Pos2Z.inj_add in Hu.
    assert (H4 : 2 ^ 52 * 2 ^ (ex - ez) <= Zpos mx * 2 ^ (ex - ez)).
    { apply Z.mul_le_mono_nonneg_r; [lia|]. exact Hlx. }
    lia. }
  rewrite fexp_value. fold d.
  rewrite shl_align_ge by lia.
  apply binary_round_aux_exponent; [rewrite emin_value; unfold ez; lia|].
  rewrite fexp_value. fold d. lia.
Qed.

(** ** Squares, square roots and quotients *)

Lemma SFmul_square_nonneg (x : spec_float) :
  nonneg_sf x = true -> nonneg_sf (SFmul prec emax x x) = true.
Proof.
  destruct x as [[]|[]| |[] m e]; try discriminate; intros _; try reflexivity.
  cbn [SFmul xorb]. now apply binary_round_aux_nonneg.
Qed.

Lemma SFmul_square_positive (x : spec_float) :
  geOne_sf x = true -> positive_sf (SFmul prec emax x x) = true.
Proof.
  destruct x as [[]|[]| |[] m e]; try discriminate; intros H; try reflexivity.
  cbn [SFmul xorb]. unfold geOne_sf in H. cbn [exponent_ge] in H.
  apply Z.leb_le in H.
  apply binary_round_aux_pos. rewrite emin_value. lia.
Qed.

Lemma SFsqrt_positive (x : spec_float) :
  valid_binary x = true -> positive_sf x = true ->
  positive_sf (SFsqrt prec emax x) = true.
Proof.
  destruct x as [[]|[]| |[] m e]; try discriminate; intros V _; [reflexivity|].
  cbn [valid_binary SpecFloat.valid_binary] in V.
  pose proof (bounded_inv _ _ V) as (He & _). rewrite emin_value in He.
  cbn [SFsqrt]. unfold SFsqrt_core_binary. rewrite fexp_value.
  set (e' := Z.min _ (Z.div2 e)).
  assert (He2 : -537 <= Z.div2 e /\ 2 * Z.div2 e <= e).
  { rewrite Z.div2_div. pose proof (Z.div_mod e 2 ltac:(lia)).
    pose proof (Z.mod_pos_bound e 2 ltac:(lia)). lia. }
  assert (He' : emin <= e' /\ 0 <= e - 2 * e').
  { rewrite emin_value. unfold e'. lia. }
  set (m' := match e - 2 * e' with
             | 0 => Zpos m
             | Zpos _ => Z.shiftl (Zpos m) (e - 2 * e')
             | Zneg _ => 0
             end).
  assert (Hm' : 0 < m').
  { unfold m'. destruct (e - 2 * e') as [|p|p] eqn:E; [lia| |lia].
    rewrite Z.shiftl_mul_pow2 by lia.
    apply Z.mul_pos_pos; [lia|]. apply Z.pow_pos_nonneg; lia. }
  pose proof (Z.sqrtrem_spec m' ltac:(lia)) as Hs.
  destruct (Z.sqrtrem m') as [q r].
  assert (Hq : 0 < q).
  { destruct Hs as [Hs Hr]. destruct (Z.lt_trichotomy 0 q) as [|[<-|Hneg]]; [assumption|lia|nia]. }
  destruct q as [|q|q]; try lia.
  apply binary_round_aux_pos. tauto.
Qed.

Lemma SFdiv_nonneg (m : positive) (e : Z) (y : spec_float) :
  nonneg_sf y = true ->
  nonneg_sf (SFdiv prec emax (S754_finite false m e) y) = true.
Proof.
  destruct y as [[]|[]| |[] my ey]; try discriminate; intros _; try reflexivity.
  cbn [SFdiv xorb]. unfold SFdiv_core_binary.
  set (s := _ - _ - _).
  set (m' := match s with
             | 0 => Zpos m
             | Zpos _ => Z.shiftl (Zpos m) s
             | Zneg _ => 0
             end).
  assert (Hm' : 0 <= m').
  { unfold m'. destruct s as [|p|p] eqn:E; [lia| |lia].
    apply Z.shiftl_nonneg. lia. }
  pose proof (Z.div_eucl_eq m' (Zpos my) ltac:(lia)) as Hd.
  pose proof (Z.mod_pos_bound m' (Zpos my) ltac:(lia)) as Hr.
  unfold Z.modulo in Hr.
  destruct (Z.div_eucl m' (Zpos my)) as [q r].
  apply binary_round_aux_nonneg. nia.
Qed.

Lemma binary_normalize_nonneg (n : Z) :
  0 <= n -> nonneg_sf (binary_normalize prec emax n 0 false) = true.
Proof.
  intros H. destruct n as [|p|p]; [reflexivity| |lia].
  cbn [binary_normalize]. apply positive_nonneg, binary_round_pos.
  rewrite emin_value. lia.
Qed.

(** ** The same facts on primitive numbers *)

Local Open Scope float_scope.

Definition nonneg (x : float) : bool := nonneg_sf (Prim2SF x).

Definition geOne (x : float) : bool := geOne_sf (Prim2SF x).

Lemma ltb_zero (x : float) : (0 <? x) = positive_sf (Prim2SF x).
Proof. rewrite ltb_spec. apply SFltb_zero. Qed.

Lemma geOne_nonneg (x : float) : geOne x = true -> nonneg x = true.
Proof. intros H. now apply positive_nonneg, (exponent_ge_positive (-52)). Qed.

Lemma add_nonneg (x y : float) :
  nonneg x = true -> nonneg y = true -> nonneg (x + y) = true.
Proof.
  intros Hx Hy. unfold nonneg. rewrite add_spec.
  now apply SFadd_nonneg; auto using Prim2SF_valid.
Qed.

Lemma add_positive_l (x y : float) :
  (0 <? x) = true -> nonneg y = true -> (0 <? x + y) = true.
Proof.
  rewrite !ltb_zero, add_spec. intros Hx Hy.
  apply SFadd_nonneg; auto using Prim2SF_valid, positive_nonneg.
Qed.

Lemma add_positive_r (x y : float) :
  nonneg x = true -> (0 <? y) = true -> (0 <? x + y) = true.
Proof.
  rewrite !ltb_zero, add_spec. intros Hx Hy.
  apply SFadd_nonneg; auto using Prim2SF_valid, positive_nonneg.
Qed.

Lemma add_geOne (x y : float) :
  geOne x = true -> nonneg y = true -> geOne (x + y) = true.
Proof.
  intros Hx Hy. unfold geOne. rewrite add_spec.
  apply SFadd_geOne; auto using Prim2SF_valid.
Qed.

Lemma square_nonneg (x : float) : nonneg x = true -> nonneg (x * x) = true.
Proof. intros H. unfold nonneg. rewrite mul_spec. now apply SFmul_square_nonneg. Qed.

Lemma square_positive (x : float) : geOne x = true -> (0 <? x * x) = true.
Proof. intros H. rewrite ltb_zero, mul_spec. now apply SFmul_square_positive. Qed.

Lemma sqrt_positive (x : float) : (0 <? x) = true -> (0 <? PrimFloat.sqrt x) = true.
Proof.
  rewrite !ltb_zero, sqrt_spec. apply SFsqrt_positive, Prim2SF_valid.
Qed.

Lemma of_uint63_nonneg (n : PrimInt63.int) : nonneg (of_uint63 n) = true.
Proof.
  unfold nonneg. rewrite of_uint63_spec. apply binary_normalize_nonneg.
  apply Uint63.to_Z_bounded.
Qed.

Lemma one_div_nonneg (y : float) : nonneg y = true -> nonneg (1 / y) = true.
Proof.
  intros H. unfold nonneg. rewrite div_spec.
  change (Prim2SF 1) with (S754_finite false 4503599627370496 (-52)).
  now apply SFdiv_nonneg.
Qed.

End FloatSign.

(* ================================================================== *)
(** * Ranking *)
(* ================================================================== *)

Module RankingFacts.

Import FloatOrder.

Lemma str_eqb_eq (a b : jsstring) : str_eqb a b = true <-> a = b.
Proof.
  revert b. induction a as [|x a IH]; intros [|y b]; simpl;
    try (split; [discriminate|discriminate]); [tauto|].
  rewrite andb_true_iff, N.eqb_eq, IH.
  split; [intros [-> ->]; reflexivity|intros H; injection H; auto].
Qed.

Lemma str_eqb_refl (a : jsstring) : str_eqb a a = true.
Proof. now apply str_eqb_eq. Qed.

(** ** Sorting and slicing keep elements *)

Section SortFacts.
Context {A : Type}.
Variable after : A -> A -> bool.

Lemma insert_In (x y : A) (l : list A) :
  In y (JSArray.insert after x l) -> y = x \/ In y l.
Proof.
  induction l as [|z l IH]; simpl.
  - intros [<-|[]]. now left.
  - destruct (after x z); simpl.
    + intros [<-|H]; [right; now left|].
      destruct (IH H) as [->|H']; [now left|right; now right].
    + intros [<-|H]; [now left|now right].
Qed.

Lemma sort_In (y : A) (l : list A) :
  In y (JSArray.sort after l) -> In y l.
Proof.
  induction l as [|x l IH]; simpl; [tauto|].
  intros H. destruct (insert_In _ _ _ H) as [->|H']; [now left|right; auto].
Qed.

Lemma insert_length (x : A) (l : list A) :
  length (JSArray.insert after x l) = S (length l).
Proof.
  induction l as [|z l IH]; simpl; [reflexivity|].
  destruct (after x z); simpl; now rewrite ?IH.
Qed.

Lemma sort_length (l : list A) : length (JSArray.sort after l) = length l.
Proof.
  induction l as [|x l IH]; simpl; [reflexivity|].
  now rewrite insert_length, IH.
Qed.

End SortFacts.

Lemma In_firstn {A} (n : nat) (y : A) (l : list A) :
  In y (firstn n l) -> In y l.
Proof.
  revert l. induction n as [|n IH]; intros [|x l]; simpl; try tauto.
  intros [H|H]; [now left|right; auto].
Qed.

Lemma slice0_In {A} (k : Z) (y : A) (l : list A) :
  In y (JSArray.slice0 k l) -> In y l.
Proof. unfold JSArray.slice0. apply In_firstn. Qed.

Lemma slice0_length {A} (k : Z) (l : list A) :
  (0 <= k)%Z -> (Z.of_nat (length (JSArray.slice0 k l)) <= k)%Z.
Proof.
  intros Hk. unfold JSArray.slice0.
  destruct (Z.ltb_spec k 0); [lia|].
  pose proof (firstn_le_length (Z.to_nat (Z.min k (Z.of_nat (length l)))) l).
  lia.
Qed.

(** ** The query path is left out *)

Section AnyNumber.
Context {num : Type} {ops : Number num}.

Lemma similarities_exclude (vault : list TAbstractFile)
  (noteEmbeddings : list (jsstring * NoteEmbedding num))
  (excludePath : jsstring) (cur : NoteEmbedding num) (r : RelevantNote num) :
  In r (similarities vault noteEmbeddings excludePath cur) ->
  file_path (file r) <> excludePath.
Proof.
  unfold similarities. intros H.
  apply in_flat_map in H as ([p ne] & _ & H).
  destruct (str_eqb p excludePath) eqn:Hp; [destruct H|].
  destruct (getAbstractFileByPath vault p) as [[f|fp]|] eqn:Hf; [|destruct H|destruct H].
  destruct H as [<-|[]]. simpl.
  unfold getAbstractFileByPath in Hf. apply find_some in Hf as [_ Hf].
  simpl in Hf. apply str_eqb_eq in Hf. rewrite Hf.
  intros E. rewrite E, str_eqb_refl in Hp. discriminate.
Qed.

Lemma findRelevantNotes_exclude (vault : list TAbstractFile)
  (noteEmbeddings : list (jsstring * NoteEmbedding num))
  (queryPath : jsstring) (k : Z) (r : RelevantNote num) :
  In r (findRelevantNotes vault noteEmbeddings queryPath k) ->
  file_path (file r) <> queryPath.
Proof.
  unfold findRelevantNotes.
  destruct (JSMap.get queryPath noteEmbeddings) as [cur|]; [|intros []].
  intros H. apply slice0_In, sort_In in H.
  exact (similarities_exclude _ _ _ _ _ H).
Qed.

Lemma findRelevantNotes_length (vault : list TAbstractFile)
  (noteEmbeddings : list (jsstring * NoteEmbedding num))
  (queryPath : jsstring) (k : Z) :
  (0 <= k)%Z ->
  (Z.of_nat (length (findRelevantNotes vault noteEmbeddings queryPath k)) <= k)%Z.
Proof.
  intros Hk. unfold findRelevantNotes.
  destruct (JSMap.get queryPath noteEmbeddings); [|simpl; lia].
  now apply slice0_length.
Qed.

End AnyNumber.

(** ** Sorting with a comparator that agrees with an order *)

Section SortOrder.
Context {A : Type}.
Variable after : A -> A -> bool.
Variable ok : A -> Prop.
Variable ge : A -> A -> Prop.
Hypothesis after_true : forall x y, ok x -> ok y -> after x y = true -> ge y x.
Hypothesis after_false : forall x y, ok x -> ok y -> after x y = false -> ge x y.
Hypothesis ge_trans :
  forall x y z, ok x -> ok y -> ok z -> ge x y -> ge y z -> ge x z.

Lemma insert_ok (x : A) (l : list A) :
  ok x -> Forall ok l -> Forall ok (JSArray.insert after x l).
Proof.
  intros Hx Hl. apply Forall_forall. intros z Hz.
  destruct (insert_In _ _ _ _ Hz) as [->|Hz']; [exact Hx|].
  rewrite Forall_forall in Hl. now apply Hl.
Qed.

Lemma sort_ok (l : list A) : Forall ok l -> Forall ok (JSArray.sort after l).
Proof.
  induction 1 as [|x l Hx Hl IH]; cbn [JSArray.sort]; [constructor|].
  now apply insert_ok.
Qed.

Lemma insert_sorted (x : A) (l : list A) :
  ok x -> Forall ok l -> StronglySorted ge l ->
  StronglySorted ge (JSArray.insert after x l).
Proof.
  intros Hx Hok Hs. induction Hs as [|y l Hl IH Hy]; cbn [JSArray.insert].
  - repeat constructor.
  - apply Forall_cons_iff in Hok as [Hoky Hokl].
    destruct (after x y) eqn:Hxy.
    + constructor; [now apply IH|].
      apply Forall_forall. intros z Hz.
      destruct (insert_In _ _ _ _ Hz) as [->|Hz'].
      * now apply after_true.
      * rewrite Forall_forall in Hy. now apply Hy.
    + constructor; [now constructor|].
      constructor; [now apply after_false|].
      rewrite Forall_forall in Hy, Hokl |- *. intros z Hz.
      apply (ge_trans x y z); auto.
Qed.

Lemma sort_sorted (l : list A) :
  Forall ok l -> StronglySorted ge (JSArray.sort after l).
Proof.
  induction 1 as [|x l Hx Hl IH]; cbn [JSArray.sort]; [constructor|].
  apply insert_sorted; auto using sort_ok.
Qed.

End SortOrder.

Lemma firstn_sorted {A} (ge : A -> A -> Prop) (n : nat) (l : list A) :
  StronglySorted ge l -> StronglySorted ge (firstn n l).
Proof.
  intros H. revert n.
  induction H as [|y l Hl IH Hy]; intros [|n]; simpl; try constructor.
  - apply IH.
  - rewrite Forall_forall in Hy |- *. intros z Hz.
    apply Hy. exact (In_firstn _ _ _ Hz).
Qed.

Lemma sorted_pair {A} (ge : A -> A -> Prop) (l : list A) (a b : A) :
  StronglySorted ge l -> In a l -> In b l -> a = b \/ ge a b \/ ge b a.
Proof.
  induction 1 as [|y l Hl IH Hy]; [intros []|].
  rewrite Forall_forall in Hy.
  intros [<-|Ha] [<-|Hb]; auto.
Qed.

(** ** The order of the result, in binary64 *)

(** A ranking in non-increasing order of similarity: every entry is at least
    as similar as all the entries after it, by the comparison of binary64
    numbers. *)
Definition ranked (l : list (RelevantNote float)) : Prop :=
  StronglySorted (fun x y => (similarity y <=? similarity x)%float = true) l.

(** No similarity of the ranking is NaN. *)
Definition allNumbers (l : list (RelevantNote float)) : Prop :=
  Forall (fun r => isNumber (similarity r) = true) l.

Lemma bySimilarity_float (x y : RelevantNote float) :
  isNumber (similarity x) = true -> isNumber (similarity y) = true ->
  bySimilarity x y = (similarity x <? similarity y)%float.
Proof. intros Hx Hy. now apply sub_positive. Qed.

Lemma sort_ranked (l : list (RelevantNote float)) :
  allNumbers l -> ranked (JSArray.sort bySimilarity l).
Proof.
  apply sort_sorted.
  - intros x y Hx Hy H. rewrite bySimilarity_float in H by assumption.
    rewrite ltb_key in H by assumption. rewrite leb_key by assumption.
    apply Z.ltb_lt in H. apply Z.leb_le. lia.
  - intros x y Hx Hy H. rewrite bySimilarity_float in H by assumption.
    rewrite ltb_key in H by assumption. rewrite leb_key by assumption.
    apply Z.ltb_ge in H. now apply Z.leb_le.
  - intros x y z Hx Hy Hz. rewrite !leb_key by assumption.
    rewrite !Z.leb_le. lia.
Qed.

Lemma findRelevantNotes_numbers_ranked (vault : list TAbstractFile)
  (noteEmbeddings : list (jsstring * NoteEmbedding float))
  (queryPath : jsstring) (k : Z) :
  (forall cur, JSMap.get queryPath noteEmbeddings = Some cur ->
     allNumbers (similarities vault noteEmbeddings queryPath cur)) ->
  ranked (findRelevantNotes vault noteEmbeddings queryPath k).
Proof.
  intros H. unfold findRelevantNotes.
  destruct (JSMap.get queryPath noteEmbeddings) as [cur|]; [|constructor].
  unfold JSArray.slice0. apply firstn_sorted, sort_ranked, H. reflexivity.
Qed.

(** ** The order of the result, in exact arithmetic *)

(** The same order for similarities read as exact numbers. *)
Definition nonIncreasing (l : list (RelevantNote R)) : Prop :=
  StronglySorted (fun x y => (similarity x >= similarity y)%R) l.

Lemma bySimilarity_exact (x y : RelevantNote R) :
  bySimilarity x y = true <-> (similarity x < similarity y)%R.
Proof.
  unfold bySimilarity, nltb, nsub, nzero; simpl.
  destruct (Rlt_dec 0 (similarity y - similarity x)); split; intros H;
    try reflexivity; try discriminate; lra.
Qed.

Lemma findRelevantNotes_nonIncreasing (vault : list TAbstractFile)
  (noteEmbeddings : list (jsstring * NoteEmbedding R))
  (queryPath : jsstring) (k : Z) :
  nonIncreasing (findRelevantNotes vault noteEmbeddings queryPath k).
Proof.
  unfold findRelevantNotes.
  destruct (JSMap.get queryPath noteEmbeddings); [|constructor].
  unfold JSArray.slice0. apply firstn_sorted.
  apply (sort_sorted bySimilarity (fun _ => True)).
  - intros x y _ _ H. apply bySimilarity_exact in H. lra.
  - intros x y _ _ H.
    destruct (Rlt_dec (similarity x) (similarity y)) as [Hlt|Hnlt]; [|lra].
    apply bySimilarity_exact in Hlt. congruence.
  - intros x y z _ _ _. lra.
  - apply Forall_forall. intros; exact I.
Qed.

(** ** A similarity that is not a number *)

(** Four notes Q, B, C, D; the components of C are finite but so large that
    both the dot product with Q and the squared norm of C overflow, which
    makes the similarity of Q and C the quotient of two infinities. *)
Definition nanVault : list TAbstractFile :=
  [AFile (mkTFile (js "Q") 0 0); AFile (mkTFile (js "B") 0 0);
   AFile (mkTFile (js "C") 0 0); AFile (mkTFile (js "D") 0 0)].

Definition nanStore : list (jsstring * NoteEmbedding float) :=
  [(js "Q", mkNoteEmbedding (js "Q") [] [2; 2]%float 0%float);
   (js "B", mkNoteEmbedding (js "B") [] [2; 0]%float 0%float);
   (js "C", mkNoteEmbedding (js "C") [] [1e308; 1e308]%float 0%float);
   (js "D", mkNoteEmbedding (js "D") [] [2; 2]%float 0%float)].

Definition noteQ : NoteEmbedding float :=
  mkNoteEmbedding (js "Q") [] [2; 2]%float 0%float.

Lemma cosine_overflow_nan :
  cosineSimilarity [2; 2]%float [1e308; 1e308]%float = nan.
Proof. reflexivity. Qed.

(** C2, a store on which the order fails.  The ranking of Q is B (0.707...),
    C (NaN), D (0.999...): D, the most similar note, comes last, and the
    single best note asked with count 1 is B.  No arrangement of these
    three entries is in non-increasing order, NaN being comparable with
    nothing. *)
Lemma ranking_counterexample :
  let result := findRelevantNotes nanVault nanStore (js "Q") 3 in
  result
  = [mkRelevantNote (mkTFile (js "B") 0 0) 0.70710678118654746%float;
     mkRelevantNote (mkTFile (js "C") 0 0) nan;
     mkRelevantNote (mkTFile (js "D") 0 0) 0.99999999999999978%float]
  /\ ~ ranked result
  /\ (forall l, Permutation l (similarities nanVault nanStore (js "Q") noteQ) ->
        ~ ranked l)
  /\ findRelevantNotes nanVault nanStore (js "Q") 1
     = [mkRelevantNote (mkTFile (js "B") 0 0) 0.70710678118654746%float].
Proof.
  assert (Hperm : forall l,
            Permutation l (similarities nanVault nanStore (js "Q") noteQ) ->
            ~ ranked l).
  { intros l Hl Hs.
    set (b := mkRelevantNote (mkTFile (js "B") 0 0) 0.70710678118654746%float).
    set (c := mkRelevantNote (mkTFile (js "C") 0 0) nan).
    assert (Hb : In b l).
    { apply (Permutation_in _ (Permutation_sym Hl)). vm_compute. auto. }
    assert (Hc : In c l).
    { apply (Permutation_in _ (Permutation_sym Hl)). vm_compute. auto. }
    destruct (sorted_pair _ _ _ _ Hs Hb Hc) as [E|[E|E]];
      vm_compute in E; discriminate. }
  cbv zeta. split; [reflexivity|]. split; [|split; [exact Hperm|reflexivity]].
  apply Hperm. vm_compute. apply Permutation_refl.
Qed.

(** C2.  For every embedding store, vault, query path and count [k] (a
    count: not negative), the result of [findRelevantNotes] never contains
    the query path and has at most [k] entries, whatever the arithmetic.  In
    binary64, the arithmetic of the program, it is in non-increasing order
    of similarity whenever none of the computed similarities is NaN; with
    similarities read as exact numbers it always is. *)
Theorem findRelevantNotes_ranked :
  (forall (num : Type) (ops : Number num) (vault : list TAbstractFile)
          (noteEmbeddings : list (jsstring * NoteEmbedding num))
          (queryPath : jsstring) (k : Z),
      (0 <= k)%Z ->
      let result := findRelevantNotes vault noteEmbeddings queryPath k in
      (forall r, In r result -> file_path (file r) <> queryPath)
      /\ (Z.of_nat (length result) <= k)%Z)
  /\ (forall (vault : list TAbstractFile)
             (noteEmbeddings : list (jsstring * NoteEmbedding float))
             (queryPath : jsstring) (k : Z),
        (forall cur, JSMap.get queryPath noteEmbeddings = Some cur ->
           allNumbers (similarities vault noteEmbeddings queryPath cur)) ->
        ranked (findRelevantNotes vault noteEmbeddings queryPath k))
  /\ (forall (vault : list TAbstractFile)
             (noteEmbeddings : list (jsstring * NoteEmbedding R))
             (queryPath : jsstring) (k : Z),
        nonIncreasing (findRelevantNotes vault noteEmbeddings queryPath k)).
Proof.
  split; [|split].
  - intros num ops vault noteEmbeddings queryPath k Hk result. split.
    + intros r. apply findRelevantNotes_exclude.
    + now apply findRelevantNotes_length.
  - exact findRelevantNotes_numbers_ranked.
  - exact findRelevantNotes_nonIncreasing.
Qed.

(** The notes A, B, C of the scenario of the specification, with the
    vectors (1, 0), (0, 1) and (1, 0). *)
Definition scenarioVault : list TAbstractFile :=
  [AFile (mkTFile (js "A") 0 0); AFile (mkTFile (js "B") 0 0);
   AFile (mkTFile (js "C") 0 0)].

Definition scenarioStore : list (jsstring * NoteEmbedding float) :=
  [(js "A", mkNoteEmbedding (js "A") [] [1; 0]%float 0%float);
   (js "B", mkNoteEmbedding (js "B") [] [0; 1]%float 0%float);
   (js "C", mkNoteEmbedding (js "C") [] [1; 0]%float 0%float)].

Lemma findRelevantNotes_ranked_witness :
  let result := findRelevantNotes scenarioVault scenarioStore (js "A") 2 in
  (forall r, In r result -> file_path (file r) <> js "A")
  /\ (Z.of_nat (length result) <= 2)%Z
  /\ ranked result.
Proof.
  destruct findRelevantNotes_ranked as (Hany & Hfloat & _).
  cbv zeta. split; [|split].
  - apply (Hany float float64 scenarioVault scenarioStore (js "A") 2%Z). lia.
  - apply (Hany float float64 scenarioVault scenarioStore (js "A") 2%Z). lia.
  - apply Hfloat. intros cur Hcur. vm_compute in Hcur.
    injection Hcur as <-. repeat constructor.
Defined.

(** The scenario, as the program computes it: C first with similarity 1,
    then B with similarity 0. *)
Example findRelevantNotes_scenario :
  findRelevantNotes scenarioVault scenarioStore (js "A") 2
  = [mkRelevantNote (mkTFile (js "C") 0 0) 1%float;
     mkRelevantNote (mkTFile (js "B") 0 0) 0%float].
Proof. reflexivity. Qed.

End RankingFacts.

(* ================================================================== *)
(** * The budget gate *)
(* ================================================================== *)

Module BudgetFacts.

Import FloatFacts.

Section WithCalendar.
Variable toDateString : Z -> jsstring.



End WithCalendar.


(** A calendar for examples: the day number of an instant, in UTC. *)
Definition utcDay (t : Z) : jsstring := [Z.to_N (t / 86400000)].

Definition budgetSettings (tracking : bool) : SANESettings :=
  mkSettings (js "openai") (js "sk") [] [] [] [] [] (js "gpt-4o-mini") 3 1%float tracking
    true true true true true true.

(** Two entries of half the budget each on day 0. *)
Definition spentBudget : list CostEntry :=
  [mkCostEntry 1000 (js "enhancement") 0.5%float (js "openai");
   mkCostEntry 2000 (js "enhancement") 0.5%float (js "openai")].


End BudgetFacts.

(* ================================================================== *)
(** * The hash-bucket embedding *)
(* ================================================================== *)

Module EmbeddingFacts.

(** ** Words and buckets *)

Lemma splitWs_not_nil (inws : bool) (cur s : jsstring) : splitWs inws cur s <> [].
Proof.
  revert inws cur. induction s as [|c s IH]; intros inws cur; simpl; [discriminate|].
  destruct (isWhiteSpace c); [destruct inws|]; try apply IH. discriminate.
Qed.

Lemma split_whitespace_not_nil (s : jsstring) : split_whitespace s <> [].
Proof. apply splitWs_not_nil. Qed.

Lemma bucket_lt (word : jsstring) : bucket word < dimension.
Proof.
  unfold bucket, dimension.
  pose proof (Z.mod_pos_bound (Z.abs (simpleHash word)) (Z.of_nat 384)).
  lia.
Qed.

(** ** The length of the vector *)

Lemma update_length {A} (i : nat) (f : A -> A) (l : list A) :
  length (JSArray.update i f l) = length l.
Proof.
  revert i. induction l as [|x l IH]; intros [|i]; simpl; auto.
Qed.

Section AnyNumber.
Context {num : Type} {ops : Number num}.

Lemma addWords_length (words : list jsstring) (index : nat) (embedding : list num) :
  length (addWords words index embedding) = length embedding.
Proof.
  revert index embedding. induction words as [|w words IH]; intros index embedding;
    simpl; [reflexivity|].
  now rewrite IH, update_length.
Qed.

Lemma generateSimpleEmbedding_length (toLowerCase : jsstring -> jsstring)
  (content : jsstring) :
  length (generateSimpleEmbedding toLowerCase content) = 384.
Proof.
  unfold generateSimpleEmbedding.
  destruct (nltb _ _); rewrite ?length_map, addWords_length; apply repeat_length.
Qed.

End AnyNumber.

(** ** The magnitude, in exact arithmetic *)

Lemma update_nth (i j : nat) (f : R -> R) (l : list R) :
  nth j (JSArray.update i f l) 0%R
  = if Nat.eqb i j && Nat.ltb j (length l) then f (nth j l 0%R) else nth j l 0%R.
Proof.
  revert i j. induction l as [|x l IH]; intros i j.
  - simpl. rewrite andb_false_r. now destruct i, j.
  - destruct i as [|i], j as [|j]; simpl; try reflexivity. now rewrite IH.
Qed.

Lemma weight_pos (index : nat) : (0 < 1 / INR (index + 1))%R.
Proof.
  apply Rdiv_lt_0_compat; [lra|]. apply lt_0_INR. lia.
Qed.

Lemma addWords_cons (w : jsstring) (words : list jsstring) (index : nat)
  (embedding : list R) :
  addWords (w :: words) index embedding
  = addWords words (S index)
      (JSArray.update (bucket w)
         (fun v => nadd v (ndiv (nofNat 1) (nofNat (index + 1)))) embedding).
Proof. reflexivity. Qed.

Lemma addWords_mono (words : list jsstring) (index : nat) (embedding : list R) (j : nat) :
  (nth j embedding 0 <= nth j (addWords words index embedding) 0)%R.
Proof.
  revert index embedding. induction words as [|w words IH]; intros index embedding;
    [simpl; lra|].
  rewrite addWords_cons.
  eapply Rle_trans; [|apply IH].
  rewrite update_nth. destruct (_ && _); [|lra].
  change (nofNat 1) with 1%R. unfold nadd, ndiv, nofNat; simpl.
  pose proof (weight_pos index). lra.
Qed.

(** The first word adds the weight 1 to its bucket. *)
Lemma addWords_first (w : jsstring) (words : list jsstring) :
  (1 <= nth (bucket w) (addWords (w :: words) 0 (repeat 0%R dimension)) 0)%R.
Proof.
  rewrite addWords_cons. eapply Rle_trans; [|apply addWords_mono].
  rewrite update_nth, repeat_length, Nat.eqb_refl.
  pose proof (bucket_lt w) as Hb. apply Nat.ltb_lt in Hb. rewrite Hb.
  cbn [andb]. rewrite nth_repeat.
  unfold nadd, ndiv, nofNat; simpl. lra.
Qed.

Lemma sumSquares_acc (embedding : list R) (acc : R) :
  fold_left (fun sum val => nadd sum (nmul val val)) embedding acc
  = (acc + sumSquares embedding)%R.
Proof.
  unfold sumSquares. revert acc.
  induction embedding as [|x l IH]; intros acc; cbn [fold_left].
  - simpl. lra.
  - rewrite IH. rewrite (IH (nadd nzero (nmul x x))). simpl. lra.
Qed.

Lemma sumSquares_cons (x : R) (l : list R) :
  sumSquares (x :: l) = (x * x + sumSquares l)%R.
Proof.
  unfold sumSquares at 1. cbn [fold_left]. rewrite sumSquares_acc. simpl. lra.
Qed.

Lemma sumSquares_nonneg (l : list R) : (0 <= sumSquares l)%R.
Proof.
  induction l as [|x l IH]; [unfold sumSquares; simpl; lra|].
  rewrite sumSquares_cons. nra.
Qed.

Lemma sumSquares_ge (x : R) (l : list R) :
  In x l -> (x * x <= sumSquares l)%R.
Proof.
  induction l as [|y l IH]; [intros []|].
  rewrite sumSquares_cons. pose proof (sumSquares_nonneg l) as Hl.
  intros [->|H]; [lra|]. specialize (IH H). nra.
Qed.

Lemma sumSquares_scaled (m : R) (l : list R) :
  m <> 0%R ->
  sumSquares (map (fun val => ndiv val m) l) = (sumSquares l / (m * m))%R.
Proof.
  intros Hm. induction l as [|x l IH].
  - unfold sumSquares; simpl. field. exact Hm.
  - cbn [map]. rewrite !sumSquares_cons, IH. unfold ndiv; simpl. field. exact Hm.
Qed.

(** The sum of squares of the accumulated vector is at least 1. *)
Lemma accumulated_magnitude (toLowerCase : jsstring -> jsstring) (content : jsstring) :
  (1 <= sumSquares
          (addWords (split_whitespace (toLowerCase content)) 0 (repeat 0%R dimension)))%R.
Proof.
  destruct (split_whitespace (toLowerCase content)) as [|w words] eqn:Hw.
  - now apply split_whitespace_not_nil in Hw.
  - pose proof (addWords_first w words) as H1.
    set (e := addWords (w :: words) 0 (repeat 0%R dimension)) in *.
    assert (Hin : In (nth (bucket w) e 0%R) e).
    { apply nth_In. unfold e. rewrite addWords_length, repeat_length.
      apply bucket_lt. }
    apply sumSquares_ge in Hin. nra.
Qed.

(** ** The magnitude, in binary64 *)

Section UpdateFacts.
Context {A : Type}.
Variables P Q : A -> Prop.

Lemma update_Forall (i : nat) (f : A -> A) (l : list A) :
  (forall x, P x -> P (f x)) -> Forall P l -> Forall P (JSArray.update i f l).
Proof.
  intros Hf H. revert i. induction H as [|x l Hx Hl IH]; intros [|i]; simpl;
    constructor; auto.
Qed.

Lemma update_Exists (i : nat) (f : A -> A) (l : list A) :
  (forall x, Q x -> Q (f x)) -> Exists Q l -> Exists Q (JSArray.update i f l).
Proof.
  intros Hf H. revert i. induction H as [x l Hx|x l Hl IH]; intros [|i]; simpl.
  - apply Exists_cons_hd. auto.
  - now apply Exists_cons_hd.
  - now apply Exists_cons_tl.
  - apply Exists_cons_tl. apply IH.
Qed.

Lemma update_hit (i : nat) (f : A -> A) (l : list A) :
  i < length l -> (forall x, P x -> Q (f x)) -> Forall P l ->
  Exists Q (JSArray.update i f l).
Proof.
  intros Hi Hf H. revert i Hi. induction H as [|x l Hx Hl IH]; intros [|i] Hi;
    simpl in *; try lia.
  - apply Exists_cons_hd. auto.
  - apply Exists_cons_tl. apply IH. lia.
Qed.

End UpdateFacts.

Import FloatSign.

(** The weight [1 / (index + 1)] of a word is never negative (and never NaN). *)
Lemma weight_nonneg (index : nat) :
  nonneg (ndiv (nofNat 1) (nofNat (index + 1))) = true.
Proof.
  change (@ndiv float float64) with PrimFloat.div.
  change (@nofNat float float64 1) with 1%float.
  apply one_div_nonneg. cbn [nofNat float64]. apply of_uint63_nonneg.
Qed.

Lemma addWords_step (w : jsstring) (words : list jsstring) (index : nat)
  (embedding : list float) :
  addWords (w :: words) index embedding
  = addWords words (S index)
      (JSArray.update (bucket w)
         (fun v => nadd v (ndiv (nofNat 1) (nofNat (index + 1)))) embedding).
Proof. reflexivity. Qed.

Lemma addWords_nonneg (words : list jsstring) (index : nat) (embedding : list float) :
  Forall (fun v => nonneg v = true) embedding ->
  Forall (fun v => nonneg v = true) (addWords words index embedding).
Proof.
  revert index embedding. induction words as [|w words IH]; intros index embedding H;
    [exact H|].
  rewrite addWords_step. apply IH. apply update_Forall; [|exact H].
  intros x Hx. apply add_nonneg; [exact Hx|apply weight_nonneg].
Qed.

Lemma addWords_geOne (words : list jsstring) (index : nat) (embedding : list float) :
  Forall (fun v => nonneg v = true) embedding ->
  Exists (fun v => geOne v = true) embedding ->
  Exists (fun v => geOne v = true) (addWords words index embedding).
Proof.
  revert index embedding. induction words as [|w words IH]; intros index embedding Hn H;
    [exact H|].
  rewrite addWords_step. apply IH.
  - apply update_Forall; [|exact Hn].
    intros x Hx. apply add_nonneg; [exact Hx|apply weight_nonneg].
  - apply update_Exists; [|exact H].
    intros x Hx. apply add_geOne; [exact Hx|apply weight_nonneg].
Qed.

Lemma zeros_nonneg (n : nat) :
  Forall (fun v => nonneg v = true) (repeat (nzero : float) n).
Proof. apply Forall_forall. intros x Hx. apply repeat_spec in Hx. now subst x. Qed.

(** After the first word, one component is at least one. *)
Lemma addWords_first_float (w : jsstring) (words : list jsstring) :
  Exists (fun v => geOne v = true)
    (addWords (w :: words) 0 (repeat (nzero : float) dimension)).
Proof.
  rewrite addWords_step. apply addWords_geOne.
  - apply update_Forall; [|apply zeros_nonneg].
    intros x Hx. apply add_nonneg; [exact Hx|apply weight_nonneg].
  - apply (update_hit (fun v : float => v = nzero)).
    + rewrite repeat_length. apply bucket_lt.
    + intros x ->. reflexivity.
    + apply Forall_forall. intros x Hx. now apply repeat_spec in Hx.
Qed.

Lemma sumSquares_float (embedding : list float) (acc : float) :
  Forall (fun v => nonneg v = true) embedding ->
  nonneg acc = true ->
  nonneg (fold_left (fun sum val => nadd sum (nmul val val)) embedding acc) = true
  /\ ((0 <? acc)%float = true \/ Exists (fun v => geOne v = true) embedding ->
      (0 <? fold_left (fun sum val => nadd sum (nmul val val)) embedding acc)%float = true).
Proof.
  change (@nadd float float64) with PrimFloat.add.
  change (@nmul float float64) with PrimFloat.mul.
  intros H. revert acc. induction H as [|x l Hx Hl IH]; intros acc Hacc; cbn [fold_left].
  - split; [exact Hacc|]. intros [Hp|He]; [exact Hp|inversion He].
  - pose proof (square_nonneg x Hx) as Hsq.
    destruct (IH (acc + x * x)%float (add_nonneg _ _ Hacc Hsq)) as [IH1 IH2].
    split; [exact IH1|].
    intros [Hp|He]; apply IH2.
    + left. now apply add_positive_l.
    + inversion He as [y l' Hy|y l' Hy]; subst.
      * left. apply add_positive_r; [exact Hacc|now apply square_positive].
      * now right.
Qed.

(** The magnitude of the accumulated vector is above zero: the branch that
    divides by it is the one taken. *)
Lemma magnitude_positive (toLowerCase : jsstring -> jsstring) (content : jsstring) :
  nltb nzero
    (nsqrt (sumSquares
              (addWords (split_whitespace (toLowerCase content)) 0
                 (repeat (nzero : float) dimension)))) = true.
Proof.
  destruct (split_whitespace (toLowerCase content)) as [|w words] eqn:Hw.
  - now apply split_whitespace_not_nil in Hw.
  - apply sqrt_positive. unfold sumSquares.
    apply sumSquares_float.
    + apply addWords_nonneg, zeros_nonneg.
    + reflexivity.
    + right. apply addWords_first_float.
Qed.

(** ** The norm of the output *)

(** The squared Euclidean norm of a vector of real numbers. *)
Fixpoint squaredNorm (v : list R) : R :=
  match v with
  | [] => 0%R
  | x :: v' => (x * x + squaredNorm v')%R
  end.

Lemma sumSquares_squaredNorm (v : list R) : sumSquares v = squaredNorm v.
Proof.
  induction v as [|x v IH]; [reflexivity|].
  rewrite sumSquares_cons, IH. reflexivity.
Qed.

Lemma squaredNorm_scaled (m : R) (v : list R) :
  m <> 0%R ->
  squaredNorm (map (fun val => (val / m)%R) v) = (squaredNorm v / (m * m))%R.
Proof.
  intros Hm. induction v as [|x v IH]; cbn [map squaredNorm].
  - field. exact Hm.
  - rewrite IH. field. exact Hm.
Qed.

(** The value of a finite binary64 number times 2^1074, an integer: no
    finite number has a bit below 2^-1074. *)
Definition scaled (x : float) : Z :=
  match Prim2SF x with
  | S754_finite s m e => ((if s then -1 else 1) * Zpos m * 2 ^ (e + 1074))%Z
  | _ => 0%Z
  end.

(** The squared Euclidean norm of a vector of finite binary64 numbers, times
    2^2148, without rounding. *)
Fixpoint scaledSquaredNorm (v : list float) : Z :=
  match v with
  | [] => 0%Z
  | x :: v' => (scaled x * scaled x + scaledSquaredNorm v')%Z
  end.

(** The vector the program computes for two words: the bucket of the first
    holds 1, the one of the second a half, and the norm of what is returned
    is not 1, neither as the program sums the squares nor without
    rounding. *)
Lemma normalized_run :
  let e := generateSimpleEmbedding (fun s => s) (js "a b") in
  filter (fun x => negb (x =? 0)%float) e
  = [0.89442719099991586; 0.44721359549995793]%float
  /\ forallb (fun x => negb (PrimFloat.is_nan x || PrimFloat.is_infinity x)) e = true
  /\ sumSquares e = 0.99999999999999989%float
  /\ scaledSquaredNorm e <> (2 ^ 2148)%Z.
Proof.
  cbv zeta. split; [vm_compute; reflexivity|]. split; [vm_compute; reflexivity|].
  split; [vm_compute; reflexivity|]. vm_compute. discriminate.
Qed.

(** C10, as stated, fails in binary64, the arithmetic of the program: the
    output for the two words [a b] is not of norm 1. *)
Lemma float_norm_counterexample :
  ~ (forall (toLowerCase : jsstring -> jsstring) (content : jsstring),
       scaledSquaredNorm (generateSimpleEmbedding toLowerCase content) = (2 ^ 2148)%Z).
Proof.
  intros H. apply (proj2 (proj2 (proj2 normalized_run))). apply H.
Qed.

(** C10, amended.  For every input string (the empty one included) and
    whatever the arithmetic, [generateSimpleEmbedding] returns a vector of
    length exactly 384.  Splitting on white space always yields at least one
    token, and the first one adds the weight 1 to its bucket.  In binary64,
    the arithmetic of the program, the magnitude of the accumulated vector
    is therefore above zero, the zero-magnitude branch is never taken and
    the output is the accumulated vector divided by its magnitude.  In exact
    arithmetic the output is the accumulated vector divided by its Euclidean
    norm, and its own Euclidean norm is exactly 1; in binary64 this holds
    up to rounding only. *)
Theorem generateSimpleEmbedding_normalized :
  (forall (num : Type) (ops : Number num) (toLowerCase : jsstring -> jsstring)
          (content : jsstring),
      length (generateSimpleEmbedding toLowerCase content) = 384)
  /\ (forall (toLowerCase : jsstring -> jsstring) (content : jsstring),
        let words := split_whitespace (toLowerCase content) in
        let accumulated := addWords words 0 (repeat 0%float dimension) in
        let magnitude := PrimFloat.sqrt (sumSquares accumulated) in
        words <> []
        /\ (0 <? magnitude)%float = true
        /\ generateSimpleEmbedding toLowerCase content
           = map (fun val => (val / magnitude)%float) accumulated)
  /\ (forall (toLowerCase : jsstring -> jsstring) (content : jsstring),
        let words := split_whitespace (toLowerCase content) in
        let accumulated := addWords words 0 (repeat 0%R dimension) in
        (1 <= squaredNorm accumulated)%R
        /\ generateSimpleEmbedding toLowerCase content
           = map (fun val => (val / sqrt (squaredNorm accumulated))%R) accumulated
        /\ squaredNorm (generateSimpleEmbedding toLowerCase content) = 1%R
        /\ sqrt (squaredNorm (generateSimpleEmbedding toLowerCase content)) = 1%R).
Proof.
  split; [|split].
  - intros num ops toLowerCase content. apply generateSimpleEmbedding_length.
  - intros toLowerCase content words accumulated magnitude.
    pose proof (magnitude_positive toLowerCase content) as Hm.
    split; [apply split_whitespace_not_nil|]. split; [exact Hm|].
    unfold generateSimpleEmbedding. cbv zeta.
    rewrite Hm. reflexivity.
  - intros toLowerCase content words accumulated.
    pose proof (accumulated_magnitude toLowerCase content) as H1.
    fold words in H1. fold accumulated in H1.
    rewrite sumSquares_squaredNorm in H1.
    assert (Hs : (1 <= sqrt (squaredNorm accumulated))%R).
    { rewrite <- sqrt_1. apply sqrt_le_1_alt. exact H1. }
    assert (Hout : generateSimpleEmbedding toLowerCase content
                   = map (fun val => (val / sqrt (squaredNorm accumulated))%R)
                       accumulated).
    { unfold generateSimpleEmbedding. cbv zeta.
      change (@nzero R exact) with 0%R. fold words. fold accumulated.
      rewrite sumSquares_squaredNorm.
      assert (Hlt : nltb 0%R (nsqrt (squaredNorm accumulated)) = true).
      { unfold nltb, nsqrt; simpl. destruct (Rlt_dec _ _); [reflexivity|lra]. }
      rewrite Hlt. reflexivity. }
    assert (Hone : squaredNorm (generateSimpleEmbedding toLowerCase content) = 1%R).
    { rewrite Hout. rewrite squaredNorm_scaled by lra.
      rewrite sqrt_sqrt by lra. field. lra. }
    split; [exact H1|]. split; [exact Hout|]. split; [exact Hone|].
    rewrite Hone. apply sqrt_1.
Qed.

(** The vector the program computes for three words, two of them equal: 384
    components, two of them not zero. *)
Example generateSimpleEmbedding_run :
  let e := generateSimpleEmbedding (fun s => s) (js "hello world hello") in
  length e = 384
  /\ filter (fun x => negb (x =? 0)%float) e
     = [0.3511234415883917; 0.93632917756904455]%float.
Proof. split; reflexivity. Qed.

End EmbeddingFacts.

(* ================================================================== *)
(** * Round trip of the embedding store *)
(* ================================================================== *)

Module PersistenceFacts.

Import RankingFacts.

(** The numbers of a note: the components of its vector and its time stamp. *)
Definition noteExact (note : NoteEmbedding float) : bool :=
  forallb jsonExact (embedding note) && jsonExact (lastUpdated note).

Lemma toJSON_exact (x : float) : jsonExact x = true -> toJSON (VNumber x) = VNumber x.
Proof.
  unfold jsonExact. intros H. apply andb_true_iff in H as [Hf Hz].
  simpl. rewrite Hf. apply negb_true_iff in Hz. now rewrite Hz.
Qed.

Lemma toJSON_exact_list (l : list float) :
  forallb jsonExact l = true -> map toJSON (map VNumber l) = map VNumber l.
Proof.
  induction l as [|x l IH]; [reflexivity|].
  cbn [forallb map]. intros H. apply andb_true_iff in H as [Hx Hl].
  now rewrite toJSON_exact, IH.
Qed.

Lemma toJSON_note (note : NoteEmbedding float) :
  noteExact note = true -> toJSON (noteObject note) = noteObject note.
Proof.
  unfold noteExact. intros H. apply andb_true_iff in H as [He Ht].
  unfold noteObject. cbn [toJSON map fst snd].
  fold (toJSON (VNumber (lastUpdated note))).
  rewrite (toJSON_exact _ Ht).
  change ((fix map (l : list JSValue) : list JSValue :=
             match l with [] => [] | a :: l0 => toJSON a :: map l0 end)
            (map VNumber (embedding note)))
    with (map toJSON (map VNumber (embedding note))).
  now rewrite (toJSON_exact_list _ He).
Qed.

(** Entries with new keys are appended, in order. *)
Lemma runtimeSet_fresh (k : jsstring) (v : option JSValue)
  (m : list (jsstring * NoteEmbedding float)) :
  ~ In k (map fst m) ->
  runtimeSet (Some (VString k)) v (runtimeStore m)
  = runtimeStore m ++ [(Some (VString k), v)].
Proof.
  induction m as [|[k' n'] m IH]; simpl; [reflexivity|].
  intros H. destruct (str_eqb k k') eqn:E.
  - apply str_eqb_eq in E. subst. exfalso. apply H. now left.
  - rewrite IH; [reflexivity|]. intros Hin. apply H. now right.
Qed.

Lemma addEntries_store (done rest : list (jsstring * NoteEmbedding float)) :
  NoDup (map fst (done ++ rest)) ->
  addEntries
    (map (fun e => VArray [VString (fst e); noteObject (snd e)]) rest)
    (runtimeStore done)
  = Ok (runtimeStore (done ++ rest)).
Proof.
  revert done. induction rest as [|[k n] rest IH]; intros done Hnd.
  - now rewrite app_nil_r.
  - cbn [map addEntries entryOf bind nth_error fst snd].
    rewrite runtimeSet_fresh.
    + change (runtimeStore done ++ [(Some (VString k), Some (noteObject n))])
        with (runtimeStore done ++ runtimeStore [(k, n)]).
      unfold runtimeStore at 1 2. rewrite <- map_app. fold (runtimeStore (done ++ [(k, n)])).
      rewrite IH; rewrite <- app_assoc; [reflexivity|exact Hnd].
    + rewrite map_app in Hnd. apply NoDup_remove_2 in Hnd.
      intros Hin. apply Hnd. apply in_or_app. now left.
Qed.

Lemma stringify_store (noteEmbeddings : list (jsstring * NoteEmbedding float)) :
  Forall (fun e => noteExact (snd e) = true) noteEmbeddings ->
  JSON_stringify (entriesArray (runtimeStore noteEmbeddings))
  = VArray (map (fun e => VArray [VString (fst e); noteObject (snd e)]) noteEmbeddings).
Proof.
  intros H. unfold JSON_stringify, entriesArray, runtimeStore.
  cbn [toJSON]. f_equal.
  rewrite !map_map. apply map_ext_in.
  intros [k n] Hin. rewrite Forall_forall in H. specialize (H _ Hin).
  cbn [fst snd] in *. cbn [toJSON map]. fold (toJSON (noteObject n)).
  now rewrite (toJSON_note _ H).
Qed.

Lemma get_set_same {V} (k : jsstring) (v : V) (m : list (jsstring * V)) :
  JSMap.get k (JSMap.set k v m) = Some v.
Proof.
  induction m as [|[k' v'] m IH]; simpl.
  - now rewrite str_eqb_refl.
  - destruct (str_eqb k k') eqn:E; simpl; rewrite E; [reflexivity|exact IH].
Qed.

(** A store with an infinite component: it is written as [null]. *)
Definition infiniteStore : list (jsstring * NoteEmbedding float) :=
  [(js "a.md", mkNoteEmbedding (js "a.md") (js "text") [infinity] 0%float)].

Lemma infiniteStore_loaded :
  loadEmbeddings [] (saveEmbeddings (runtimeStore infiniteStore) [])
  = [(Some (VString (js "a.md")),
      Some (VObject [(js "path", VString (js "a.md"));
                     (js "content", VString (js "text"));
                     (js "embedding", VArray [VNull]);
                     (js "lastUpdated", VNumber 0%float)]))].
Proof. reflexivity. Qed.

(** Negative zero is written as [0]. *)
Lemma negative_zero_written :
  JSON_stringify (VArray [VNumber (-0)%float]) = VArray [VNumber 0%float].
Proof. reflexivity. Qed.

(** C7, as stated, fails: the store [infiniteStore] is not what is loaded
    after it is saved. *)
Lemma roundtrip_counterexample :
  ~ (forall (noteEmbeddings : list (jsstring * NoteEmbedding float))
            (localStorage : Storage),
       NoDup (map fst noteEmbeddings) ->
       loadEmbeddings [] (saveEmbeddings (runtimeStore noteEmbeddings) localStorage)
       = runtimeStore noteEmbeddings).
Proof.
  intros H.
  assert (Hnd : NoDup (map fst infiniteStore)) by (repeat constructor; simpl; tauto).
  specialize (H infiniteStore [] Hnd).
  rewrite infiniteStore_loaded in H. discriminate H.
Qed.

(** C7, amended.  For every embedding store (one entry per path) whose
    numbers are all finite and none of them negative zero, saving the store
    and loading what was saved gives the same map: the same paths in the
    same order with the same notes, every number preserved exactly. *)
Theorem save_load_roundtrip
  (noteEmbeddings : list (jsstring * NoteEmbedding float))
  (current : RuntimeMap) (localStorage : Storage) :
  NoDup (map fst noteEmbeddings) ->
  Forall (fun e => noteExact (snd e) = true) noteEmbeddings ->
  loadEmbeddings current (saveEmbeddings (runtimeStore noteEmbeddings) localStorage)
  = runtimeStore noteEmbeddings.
Proof.
  intros Hnd Hexact. unfold loadEmbeddings, saveEmbeddings.
  rewrite get_set_same, stringify_store by exact Hexact.
  unfold JSON_parse_document. cbn [bind newMap].
  change (@nil (option JSValue * option JSValue)) with (runtimeStore []).
  now rewrite addEntries_store.
Qed.

Lemma save_load_roundtrip_witness :
  loadEmbeddings [] (saveEmbeddings (runtimeStore scenarioStore) [])
  = runtimeStore scenarioStore.
Proof.
  apply (save_load_roundtrip scenarioStore [] []).
  - repeat constructor; simpl; intuition discriminate.
  - repeat constructor.
Defined.

End PersistenceFacts.

(* ================================================================== *)
(** * The provider never throws *)
(* ================================================================== *)

Module ProviderFacts.

Lemma parseAIResponse_returns (parse : jsstring -> Result JSValue) (response : jsstring) :
  exists e, parseAIResponse parse response = Ok e.
Proof.
  unfold parseAIResponse, try_catch.
  destruct (parseStrict parse response); eauto.
Qed.

Lemma parseAnswer_returns (response : JSValue) :
  exists e, parseAnswer response = Ok e.
Proof.
  destruct response; simpl; eauto. apply parseAIResponse_returns.
Qed.

(** The handler shows one notice and returns the empty Enhancement. *)
Lemma enhanceFailed_empty (error : JSError) (w : World) :
  exists message,
    enhanceFailed error w
    = (Ok emptyEnhancement,
       mkWorld (vault w) (noteEmbeddings w) (costEntries w)
         (notices w ++ [message]) (now w) (modified w)).
Proof.
  unfold enhanceFailed, bindM.
  destruct (includes (js "budget") (message error)); eexists; reflexivity.
Qed.

Section WithHost.
Variable host : Host.

(** The provider call fails: it throws. *)
Definition providerFails (p : ProviderState) (prompt : jsstring) : Prop :=
  exists error, callProvider host p prompt = Throw error.

Lemma generateEnhancement_returns (p : ProviderState) (content : jsstring)
  (relatedContent : list jsstring) (w : World) :
  exists e w', generateEnhancement host p content relatedContent w = (Ok e, w').
Proof.
  unfold generateEnhancement, tryCatch, lift, enhance.
  destruct (callProvider host p _) as [response|error]; simpl.
  - destruct (parseAnswer_returns response) as [e ->]. simpl. eauto.
  - destruct (enhanceFailed_empty error w) as [m ->]. eauto.
Qed.

Lemma generateEnhancement_failure (p : ProviderState) (content : jsstring)
  (relatedContent : list jsstring) (w : World) :
  providerFails p (buildPrompt content relatedContent) ->
  exists w', generateEnhancement host p content relatedContent w
             = (Ok emptyEnhancement, w').
Proof.
  intros [error H].
  unfold generateEnhancement, tryCatch, lift, enhance. rewrite H. simpl.
  destruct (enhanceFailed_empty error w) as [m ->]. eauto.
Qed.

Definition supported (name : jsstring) : bool :=
  str_eqb name (js "openai") || str_eqb name (js "google") || str_eqb name (js "grok")
  || str_eqb name (js "azure") || str_eqb name (js "local").

Lemma unsupported_fails (p : ProviderState) (prompt : jsstring) :
  supported (aiProvider (settings p)) = false -> providerFails p prompt.
Proof.
  unfold supported, providerFails, callProvider. intros H.
  repeat (apply orb_false_iff in H as [H ?]).
  repeat match goal with E : str_eqb _ _ = false |- _ => rewrite E; clear E end.
  eauto.
Qed.

(** The url the provider of the settings posts to, for the three providers
    reached through [requestUrl]. *)
Definition endpoint (p : ProviderState) : jsstring :=
  let s := settings p in
  if str_eqb (aiProvider s) (js "grok") then js "https://api.x.ai/v1/chat/completions"
  else if str_eqb (aiProvider s) (js "azure") then
    azureEndpoint s ++ js "/openai/deployments/" ++ llmModel s
    ++ js "/chat/completions?api-version=2024-02-15-preview"
  else localEndpoint s ++ js "/api/generate".

Definition viaRequestUrl (name : jsstring) : bool :=
  str_eqb name (js "grok") || str_eqb name (js "azure") || str_eqb name (js "local").

Lemma viaRequestUrl_cases (p : ProviderState) (prompt : jsstring) :
  viaRequestUrl (aiProvider (settings p)) = true ->
  callProvider host p prompt = callGrok host p prompt /\ endpoint p = js "https://api.x.ai/v1/chat/completions"
  \/ callProvider host p prompt = callAzure host p prompt
     /\ endpoint p = azureEndpoint (settings p) ++ js "/openai/deployments/"
                     ++ llmModel (settings p)
                     ++ js "/chat/completions?api-version=2024-02-15-preview"
  \/ callProvider host p prompt = callLocal host p prompt
     /\ endpoint p = localEndpoint (settings p) ++ js "/api/generate".
Proof.
  unfold viaRequestUrl, callProvider, endpoint.
  destruct (str_eqb (aiProvider (settings p)) (js "grok")) eqn:Eg.
  { apply RankingFacts.str_eqb_eq in Eg. rewrite Eg. simpl. intros _. left. split; reflexivity. }
  destruct (str_eqb (aiProvider (settings p)) (js "azure")) eqn:Ea.
  { apply RankingFacts.str_eqb_eq in Ea. rewrite Ea. simpl. intros _. right. left.
    split; reflexivity. }
  destruct (str_eqb (aiProvider (settings p)) (js "local")) eqn:El; [|discriminate].
  apply RankingFacts.str_eqb_eq in El. rewrite El. simpl. intros _. right. right.
  split; reflexivity.
Qed.

Lemma bad_status_fails (p : ProviderState) (prompt : jsstring) (response : HttpResponse) :
  viaRequestUrl (aiProvider (settings p)) = true ->
  requestUrl host (endpoint p) prompt = Ok response ->
  status response <> 200%Z ->
  providerFails p prompt.
Proof.
  intros Hv Hr Hs. apply Z.eqb_neq in Hs. unfold providerFails.
  destruct (viaRequestUrl_cases p prompt Hv) as [[-> E]|[[-> E]|[-> E]]];
    rewrite E in Hr;
    [unfold callGrok|unfold callAzure|unfold callLocal];
    rewrite Hr; simpl; rewrite Hs; simpl; eauto.
Qed.

Lemma request_exception_fails (p : ProviderState) (prompt : jsstring) (error : JSError) :
  viaRequestUrl (aiProvider (settings p)) = true ->
  requestUrl host (endpoint p) prompt = Throw error ->
  providerFails p prompt.
Proof.
  intros Hv Hr. unfold providerFails.
  destruct (viaRequestUrl_cases p prompt Hv) as [[-> E]|[[-> E]|[-> E]]];
    rewrite E in Hr;
    [unfold callGrok|unfold callAzure|unfold callLocal];
    rewrite Hr; simpl; eauto.
Qed.

Lemma sdk_exception_fails (p : ProviderState) (prompt : jsstring) :
  (aiProvider (settings p) = js "openai"
   /\ (openaiClient p = false \/ exists error, openaiChat host prompt = Throw error))
  \/ (aiProvider (settings p) = js "google"
      /\ (googleClient p = false \/ exists error, googleGenerate host prompt = Throw error)) ->
  providerFails p prompt.
Proof.
  unfold providerFails, callProvider.
  intros [[-> H]|[-> H]]; simpl.
  - unfold callOpenAI. destruct H as [->|[error H]]; simpl; [eauto|].
    destruct (openaiClient p); simpl; [rewrite H|]; simpl; eauto.
  - unfold callGoogle. destruct H as [->|[error H]]; simpl; [eauto|].
    destruct (googleClient p); simpl; [rewrite H|]; simpl; eauto.
Qed.

End WithHost.

(** C9.  [generateEnhancement] never propagates an error: for every host,
    provider state, note and world it returns an Enhancement.  When the
    provider call fails, the Enhancement returned is the all-empty one; and
    the provider call fails in particular for a provider name that is not
    supported, for an answer whose status is not 200, and for an exception
    thrown by the call (of [requestUrl] or of a vendor's client, a client
    that was never made included). *)
Theorem generateEnhancement_never_throws (host : Host) (p : ProviderState)
  (content : jsstring) (relatedContent : list jsstring) (w : World) :
  let prompt := buildPrompt content relatedContent in
  (exists e w', generateEnhancement host p content relatedContent w = (Ok e, w'))
  /\ (providerFails host p prompt ->
      exists w', generateEnhancement host p content relatedContent w
                 = (Ok emptyEnhancement, w'))
  /\ (supported (aiProvider (settings p)) = false -> providerFails host p prompt)
  /\ (forall response,
        viaRequestUrl (aiProvider (settings p)) = true ->
        requestUrl host (endpoint p) prompt = Ok response ->
        status response <> 200%Z ->
        providerFails host p prompt)
  /\ (forall error,
        viaRequestUrl (aiProvider (settings p)) = true ->
        requestUrl host (endpoint p) prompt = Throw error ->
        providerFails host p prompt)
  /\ ((aiProvider (settings p) = js "openai"
       /\ (openaiClient p = false \/ exists error, openaiChat host prompt = Throw error))
      \/ (aiProvider (settings p) = js "google"
          /\ (googleClient p = false
              \/ exists error, googleGenerate host prompt = Throw error)) ->
      providerFails host p prompt).
Proof.
  intros prompt. repeat split.
  - apply generateEnhancement_returns.
  - apply generateEnhancement_failure.
  - apply unsupported_fails.
  - intros response. apply bad_status_fails.
  - intros error. apply request_exception_fails.
  - apply sdk_exception_fails.
Qed.

(** A host for examples: the calendar is UTC day numbers, instants are
    printed as integers, no file fails, and every vendor is unreachable
    unless said otherwise. *)
Definition offline : JSError := Error (js "net::ERR_INTERNET_DISCONNECTED").

Definition exampleHost (post : jsstring -> jsstring -> Result HttpResponse)
  (readFault modifyFault : jsstring -> option JSError) : Host :=
  mkHost BudgetFacts.utcDay (fun t => js "T" ++ decimal t) (fun s => s)
    (fun _ => nan) (fun _ => js "NaN")
    (fun _ => Throw offline) (fun _ => Throw offline) post
    (fun _ => Throw offline) (fun _ => Throw offline) (fun _ => Throw offline)
    readFault modifyFault.

Definition exampleSettings (name : jsstring) (tracking : bool) : SANESettings :=
  mkSettings name (js "key") (js "key") (js "key") (js "key")
    (js "https://example.openai.azure.com") (js "http://localhost:11434")
    (js "model") 3 1%float tracking true true true true false false.

Definition emptyWorld : World := mkWorld [] [] [] [] 0 [].

(** Grok answers with the status 500. *)
Definition grokDown : Host :=
  exampleHost (fun _ _ => Ok (mkResponse 500 VNull)) (fun _ => None) (fun _ => None).

Lemma generateEnhancement_never_throws_witness :
  generateEnhancement grokDown (newProvider (exampleSettings (js "grok") false))
    (js "a note") [] emptyWorld
  = (Ok emptyEnhancement,
     mkWorld [] [] [] [js "Error processing note: Grok API error: 500"] 0 []).
Proof.
  destruct (generateEnhancement_never_throws grokDown
              (newProvider (exampleSettings (js "grok") false)) (js "a note") []
              emptyWorld) as (_ & Hfail & _ & Hstatus & _).
  assert (F : providerFails grokDown (newProvider (exampleSettings (js "grok") false))
                (buildPrompt (js "a note") [])).
  { apply (Hstatus (mkResponse 500 VNull)); [reflexivity|reflexivity|discriminate]. }
  destruct (Hfail F) as [w' Hw]. reflexivity.
Defined.

End ProviderFacts.

(* ================================================================== *)
(** * Applying an empty Enhancement *)
(* ================================================================== *)

Module FrontmatterFacts.

Import RankingFacts.

Lemma get_set_other {V} (k k' : jsstring) (v : V) (m : list (jsstring * V)) :
  k <> k' -> JSMap.get k (JSMap.set k' v m) = JSMap.get k m.
Proof.
  intros Hk. assert (E : str_eqb k k' = false).
  { destruct (str_eqb k k') eqn:E; [|reflexivity]. now apply str_eqb_eq in E. }
  induction m as [|[k0 v0] m IH]; simpl.
  - now rewrite E.
  - destruct (str_eqb k' k0) eqn:E0; simpl.
    + apply str_eqb_eq in E0. subst k0. now rewrite E.
    + now rewrite IH.
Qed.




Section WithHost.
Variable host : Host.




End WithHost.



End FrontmatterFacts.

(* ================================================================== *)
(** * Failures while enhancing the neighbours *)
(* ================================================================== *)

Module PipelineFacts.

Import RankingFacts ProviderFacts.

(** ** The loop *)


Section WithHost.
Variable host : Host.

(** ** The file store *)

Definition inVault (path : jsstring) (w : World) : Prop :=
  findFile path (vault w) <> None.

Lemma findFile_writeFile (q path data : jsstring) (t : Z) (v : list (TFile * jsstring)) :
  findFile q (writeFile path data t v) <> None <-> findFile q v <> None.
Proof.
  induction v as [|[f c] v IH]; simpl; [tauto|].
  destruct (str_eqb (file_path f) path) eqn:E; simpl.
  - destruct (str_eqb (file_path f) q); [split; discriminate|tauto].
  - destruct (str_eqb (file_path f) q); [split; discriminate|exact IH].
Qed.



(** ** One neighbour *)

(** [generateEnhancement] changes nothing but the notices. *)
Lemma generateEnhancement_frame (p : ProviderState) (content : jsstring)
  (relatedContent : list jsstring) (w : World) :
  exists e ns,
    generateEnhancement host p content relatedContent w
    = (Ok e, mkWorld (vault w) (noteEmbeddings w) (costEntries w) ns (now w) (modified w)).
Proof.
  unfold generateEnhancement, tryCatch, lift, enhance.
  destruct (callProvider host p _) as [response|error]; simpl.
  - destruct (parseAnswer_returns response) as [e ->]. simpl.
    destruct w. simpl. eauto.
  - destruct (enhanceFailed_empty error w) as [m ->]. eauto.
Qed.




(** ** The neighbours *)



(** ** The handler of [processNote] *)

(** The catch of [processNote] can read the message of the caught value:
    the value is an [Error], or it has a message that is a string or an
    array. *)
Definition handled (e : JSError) : bool :=
  match messageOf e with
  | Ok m => match includesOf (js "budget") m with
            | Ok _ => true
            | Throw _ => false
            end
  | Throw _ => false
  end.

(** What the vault rejects with is a value the catch can read. *)
Definition faultsHandled : Prop :=
  forall path e,
    readFault host path = Some e \/ modifyFault host path = Some e -> handled e = true.

Lemma handled_Error (text : jsstring) : handled (Error text) = true.
Proof. reflexivity. Qed.

Lemma processNoteFailed_Error (text : jsstring) :
  processNoteFailed host (Error text)
  = if includes (js "budget") text
    then notice (js "Daily budget reached. Processing paused until tomorrow.")
    else notice (js "Error processing note: " ++ text).
Proof.
  unfold processNoteFailed, bindM, lift. cbn [messageOf includesOf stringOf].
  destruct (includes (js "budget") text); reflexivity.
Qed.

(** A value it can read gives a notice; any other makes the handler throw a
    TypeError, and nothing is shown. *)
Lemma processNoteFailed_handled (e : JSError) (w : World) :
  handled e = true ->
  exists text,
    processNoteFailed host e w
    = (Ok tt, mkWorld (vault w) (noteEmbeddings w) (costEntries w)
                (notices w ++ [text]) (now w) (modified w)).
Proof.
  unfold handled, processNoteFailed, bindM, lift.
  destruct (messageOf e) as [m|t]; [|discriminate].
  destruct (includesOf (js "budget") m) as [[|]|t]; [| |discriminate];
    intros _; unfold notice; eauto.
Qed.

Lemma processNoteFailed_throws (e : JSError) (w : World) :
  handled e = false ->
  exists text,
    processNoteFailed host e w = (Throw (Error text), w)
    /\ includes (js "budget") text = false.
Proof.
  unfold handled, processNoteFailed, bindM, lift.
  destruct e as [text|[v|]]; cbn [messageOf].
  - discriminate.
  - destruct v as [|b|x|s|items|props]; cbn [getField includesOf];
      try discriminate; try (intros _; eexists; split; reflexivity).
    destruct (assoc (js "message") props) as [[|b|x|s|items|props']|];
      cbn [includesOf]; try discriminate; intros _; eexists; split; reflexivity.
  - intros _. eexists. split; reflexivity.
Qed.

Lemma processNoteFailed_frame (e : JSError) (w : World) :
  exists ns,
    snd (processNoteFailed host e w)
    = mkWorld (vault w) (noteEmbeddings w) (costEntries w) ns (now w) (modified w).
Proof.
  destruct (handled e) eqn:Eh.
  - destruct (processNoteFailed_handled e w Eh) as [text ->]. cbn [snd]. eauto.
  - destruct (processNoteFailed_throws e w Eh) as (text & -> & _).
    exists (notices w). now destruct w.
Qed.

(** What leaves [updateNoteWithAI] is an [Error] of its own or what the
    vault rejected with. *)
Lemma updateNoteWithAI_thrown (p : ProviderState) (f : TFile)
  (relatedContent : list jsstring) (w w' : World) (e : JSError) :
  faultsHandled ->
  updateNoteWithAI host p f relatedContent w = (Throw e, w') -> handled e = true.
Proof.
  intros Hf. unfold updateNoteWithAI, bindM, vaultRead.
  destruct (readFault host (file_path f)) as [e0|] eqn:Er.
  { intros H. injection H as <- _. apply (Hf (file_path f)). now left. }
  destruct (findFile (file_path f) (vault w)) as [[f0 c0]|].
  2:{ intros H. injection H as <- _. reflexivity. }
  unfold checkBudget. destruct (costTracking (settings p) && _).
  { intros H. injection H as <- _. reflexivity. }
  destruct (generateEnhancement_frame p (cleanContent c0) relatedContent w)
    as (en & ns & ->).
  unfold recordEnhancement, applyEnhancement, vaultModify.
  destruct (costTracking (settings p)); cbn [vault];
    (destruct (modifyFault host (file_path f)) as [e0|] eqn:Em;
     [intros H; injection H as <- _; apply (Hf (file_path f)); now right|];
     destruct (findFile (file_path f) (vault w)); [discriminate|];
     intros H; injection H as <- _; reflexivity).
Qed.

Lemma forEach_thrown {A} (l : list A) (body : A -> M unit) (w w' : World) (e : JSError) :
  (forall x w1 w2 e1, body x w1 = (Throw e1, w2) -> handled e1 = true) ->
  forEach l body w = (Throw e, w') -> handled e = true.
Proof.
  intros Hb. revert w. induction l as [|x l IH]; intros w; cbn [forEach].
  - discriminate.
  - unfold bindM. destruct (body x w) as [[u|e1] w1] eqn:E.
    + apply IH.
    + intros H. injection H as <- _. exact (Hb _ _ _ _ E).
Qed.

Lemma processNoteBody_thrown (p : ProviderState) (f : TFile) (w w' : World)
  (e : JSError) :
  faultsHandled ->
  processNoteBody host p f w = (Throw e, w') -> handled e = true.
Proof.
  intros Hf. unfold processNoteBody, bindM, vaultRead.
  destruct (readFault host (file_path f)) as [e0|] eqn:Er.
  { intros H. injection H as <- _. apply (Hf (file_path f)). now left. }
  destruct (findFile (file_path f) (vault w)) as [[f0 c0]|].
  2:{ intros H. injection H as <- _. reflexivity. }
  destruct (generateEmbedding host p (cleanContent c0) w) as [[v|e0] w1] eqn:Eg.
  2:{ exfalso. unfold generateEmbedding, tryCatch in Eg.
      repeat match type of Eg with
             | context [if ?c then _ else _] => destruct c
             end;
        repeat match type of Eg with
               | context [match ?c with _ => _ end] => destruct c
               end; discriminate Eg. }
  destruct (Nat.eqb (length v) 0); [discriminate|].
  unfold storeEmbedding, rank.
  match goal with
  | |- context [updateNeighbors host p ?c ?l ?w2] =>
      destruct (updateNeighbors host p c l w2) as [[u1|e1] w3] eqn:H3
  end.
  - unfold isInitialization. destruct (Nat.ltb _ 10); [|discriminate].
    apply updateNoteWithAI_thrown, Hf.
  - intros H. injection H as <- _. unfold updateNeighbors in H3.
    apply (forEach_thrown _ _ _ _ _ (fun x w1 w2 e1 => updateNoteWithAI_thrown p _ _ w1 w2 e1 Hf) H3).
Qed.

(** When the vault rejects with values the catch can read, [processNote]
    returns. *)
Lemma processNote_returns (p : ProviderState) (f : TFile) (w : World) :
  faultsHandled ->
  exists w', processNote host p f w = (Ok tt, w').
Proof.
  intros Hf. unfold processNote. destruct (isConfigured p); simpl.
  - unfold tryCatch. destruct (processNoteBody host p f w) as [[[]|e] w1] eqn:E.
    + eauto.
    + destruct (processNoteFailed_handled e w1 (processNoteBody_thrown _ _ _ _ _ Hf E))
        as [text ->]. eauto.
  - unfold notice. eauto.
Qed.

(** In general it returns or throws the TypeError of its catch. *)
Lemma processNote_outcome (p : ProviderState) (f : TFile) (w : World) :
  fst (processNote host p f w) = Ok tt
  \/ exists text,
       fst (processNote host p f w) = Throw (Error text)
       /\ includes (js "budget") text = false.
Proof.
  unfold processNote. destruct (isConfigured p); simpl.
  - unfold tryCatch. destruct (processNoteBody host p f w) as [[[]|e] w1].
    + now left.
    + destruct (handled e) eqn:Eh.
      * destruct (processNoteFailed_handled e w1 Eh) as [text ->]. now left.
      * destruct (processNoteFailed_throws e w1 Eh) as (text & -> & Ht). right.
        exists text. split; [reflexivity|exact Ht].
  - now left.
Qed.

(** A note that cannot be read, the vault rejecting with a value the catch
    cannot read: the TypeError leaves [processNote], and no notice is
    shown. *)
Lemma processNote_throws (p : ProviderState) (f : TFile) (w : World) (e : JSError) :
  isConfigured p = true ->
  readFault host (file_path f) = Some e ->
  handled e = false ->
  exists text, processNote host p f w = (Throw (Error text), w).
Proof.
  intros Hc Hr Hh. unfold processNote. rewrite Hc. cbn [negb].
  unfold tryCatch, processNoteBody, bindM, vaultRead. rewrite Hr.
  destruct (processNoteFailed_throws e w Hh) as (text & -> & _). eauto.
Qed.

End WithHost.

(** ** A run *)

(** Three notes; the notes B and C have vectors already. *)
Definition fileA : TFile := mkTFile (js "A.md") 0 0.
Definition fileB : TFile := mkTFile (js "B.md") 0 0.
Definition fileC : TFile := mkTFile (js "C.md") 0 0.

Definition threeNotes : World :=
  mkWorld [(fileA, js "alpha"); (fileB, js "beta"); (fileC, js "gamma")]
    [(js "B.md", mkNoteEmbedding (js "B.md") (js "beta") [1]%float 0%float);
     (js "C.md", mkNoteEmbedding (js "C.md") (js "gamma") [1]%float 0%float)]
    [] [] 0 [].



Definition allReadable : Host :=
  exampleHost (fun _ _ => Throw offline) (fun _ => None) (fun _ => None).

Definition grok : ProviderState := newProvider (exampleSettings (js "grok") false).


Lemma run_allReadable :
  modified (snd (processNote allReadable grok fileA threeNotes))
  = [js "B.md"; js "C.md"; js "A.md"].
Proof. vm_compute. reflexivity. Qed.



(** Reading the note A is rejected with a text, which is no [Error]. *)
Definition rejectsText : Host :=
  exampleHost (fun _ _ => Throw offline)
    (fun path => if str_eqb path (js "A.md")
                 then Some (Thrown (Some (VString (js "EIO")))) else None)
    (fun _ => None).


End PipelineFacts.

(* ================================================================== *)
(** * The word hash *)
(* ================================================================== *)

Module HashFacts.

Local Open Scope Z_scope.

(** The hash without the conversion to 32 bits: the value of the string as
    a numeral in base 31. *)
Definition poly31 (str : jsstring) : Z :=
  fold_left (fun hash char => 31 * hash + Z.of_N char) str 0.

Lemma toInt32_range (z : Z) : - 2 ^ 31 <= toInt32 z < 2 ^ 31.
Proof.
  unfold toInt32. pose proof (Z.mod_pos_bound (z + 2147483648) 4294967296). lia.
Qed.

Lemma toInt32_mod (a b : Z) :
  a mod 4294967296 = b mod 4294967296 -> toInt32 a = toInt32 b.
Proof.
  intros H. unfold toInt32.
  rewrite <- (Z.add_mod_idemp_l a), <- (Z.add_mod_idemp_l b) by lia.
  now rewrite H.
Qed.

Lemma toInt32_congruent (z : Z) : (toInt32 z) mod 4294967296 = z mod 4294967296.
Proof.
  unfold toInt32.
  replace ((z + 2147483648) mod 4294967296 - 2147483648)
    with ((z + 2147483648) mod 4294967296 + (- 2147483648)) by lia.
  rewrite Z.add_mod_idemp_l by lia. f_equal. lia.
Qed.

Lemma toInt32_fixed (z : Z) : - 2 ^ 31 <= z < 2 ^ 31 -> toInt32 z = z.
Proof.
  intros H. unfold toInt32. rewrite Z.mod_small; lia.
Qed.

Lemma toInt32_offset (z : Z) : exists k, toInt32 z = z + k * 4294967296.
Proof.
  exists (- ((z + 2147483648) / 4294967296)). unfold toInt32.
  pose proof (Z.div_mod (z + 2147483648) 4294967296 ltac:(lia)). lia.
Qed.

(** One round multiplies by 31 and adds the code unit, modulo 2^32. *)
Lemma hashStep_31 (h : Z) (char : N) :
  hashStep (toInt32 h) char = toInt32 (31 * h + Z.of_N char).
Proof.
  unfold hashStep. apply toInt32_mod.
  destruct (toInt32_offset h) as [k1 ->].
  destruct (toInt32_offset ((h + k1 * 4294967296) * 32)) as [k2 ->].
  replace ((h + k1 * 4294967296) * 32 + k2 * 4294967296 - (h + k1 * 4294967296)
           + Z.of_N char)
    with (31 * h + Z.of_N char + (31 * k1 + k2) * 4294967296) by ring.
  apply Z.mod_add. lia.
Qed.

Lemma fold_hashStep (str : jsstring) (h : Z) :
  fold_left hashStep str (toInt32 h)
  = toInt32 (fold_left (fun hash char => 31 * hash + Z.of_N char) str h).
Proof.
  revert h. induction str as [|c str IH]; intros h; cbn [fold_left]; [reflexivity|].
  rewrite hashStep_31. apply IH.
Qed.

Lemma simpleHash_poly31 (str : jsstring) : simpleHash str = toInt32 (poly31 str).
Proof.
  unfold simpleHash, poly31. rewrite <- fold_hashStep. reflexivity.
Qed.

(** X1.  [simpleHash] is the base-31 polynomial hash of the code units, reduced
    to a signed 32-bit integer; [Math.abs(hash) % 384] is an index of the
    embedding vector. *)
Theorem simpleHash_polynomial (str : jsstring) :
  simpleHash str = toInt32 (poly31 str)
  /\ - 2 ^ 31 <= simpleHash str < 2 ^ 31
  /\ (bucket str < dimension)%nat.
Proof.
  pose proof (simpleHash_poly31 str) as H.
  split; [exact H|]. split; [rewrite H; apply toInt32_range|].
  apply EmbeddingFacts.bucket_lt.
Qed.

(** Two words with the same polynomial value modulo 2^32 fall into the same
    bucket, whatever their letters. *)
Lemma bucket_congruent (a b : jsstring) :
  (poly31 a) mod 4294967296 = (poly31 b) mod 4294967296 -> bucket a = bucket b.
Proof.
  intros H. unfold bucket.
  rewrite (simpleHash_poly31 a), (simpleHash_poly31 b).
  now rewrite (toInt32_mod _ _ H).
Qed.

End HashFacts.

(* ================================================================== *)
(** * Clients and embeddings of the provider *)
(* ================================================================== *)

Module ClientFacts.

Import RankingFacts ProviderFacts.

(** ** The SDK clients *)

(** The provider shares the settings object of the plugin: the settings
    tab assigns to its fields ([assign]), and only then does [saveSettings]
    reach [updateSettings]. *)

(** A provider as the plugin can hold one. *)
Inductive reachable : ProviderState -> Prop :=
| reach_new (s : SANESettings) : reachable (newProvider s)
| reach_update (p : ProviderState) (s : SANESettings) :
    reachable p -> reachable (updateSettings p s)
| reach_assign (p : ProviderState) (s : SANESettings) :
    reachable p -> reachable (assign p s).

(** A provider that has just run [initializeClients]: it leaves the
    constructor or [updateSettings]. *)
Inductive initialized : ProviderState -> Prop :=
| init_new (s : SANESettings) : initialized (newProvider s)
| init_update (p : ProviderState) (s : SANESettings) :
    initialized (updateSettings p s).

Lemma initializeClients_settings (p : ProviderState) :
  settings (initializeClients p) = settings p.
Proof.
  unfold initializeClients.
  destruct (_ && _); [reflexivity|]. destruct (_ && _); reflexivity.
Qed.

Lemma initializeClients_openai (p : ProviderState) :
  aiProvider (settings p) = js "openai" -> truthy (openaiApiKey (settings p)) = true ->
  openaiClient (initializeClients p) = true.
Proof.
  intros Hn Hk. unfold initializeClients. rewrite Hn, Hk. reflexivity.
Qed.

Lemma initializeClients_google (p : ProviderState) :
  aiProvider (settings p) = js "google" -> truthy (googleApiKey (settings p)) = true ->
  googleClient (initializeClients p) = true.
Proof.
  intros Hn Hk. unfold initializeClients. rewrite Hn, Hk. reflexivity.
Qed.

Lemma initializeClients_keeps (p : ProviderState) :
  (openaiClient p = true -> openaiClient (initializeClients p) = true)
  /\ (googleClient p = true -> googleClient (initializeClients p) = true).
Proof.
  unfold initializeClients.
  destruct (_ && _); [simpl; auto|]. destruct (_ && _); simpl; auto.
Qed.

Lemma configured_openai (p : ProviderState) :
  aiProvider (settings p) = js "openai" -> isConfigured p = true ->
  truthy (openaiApiKey (settings p)) = true.
Proof. intros Hn. unfold isConfigured. now rewrite Hn. Qed.

Lemma configured_google (p : ProviderState) :
  aiProvider (settings p) = js "google" -> isConfigured p = true ->
  truthy (googleApiKey (settings p)) = true.
Proof. intros Hn. unfold isConfigured. now rewrite Hn. Qed.

Lemma isConfigured_settings (p q : ProviderState) :
  settings p = settings q -> isConfigured p = isConfigured q.
Proof. intros H. unfold isConfigured. now rewrite H. Qed.

(** X2.  Right after the constructor or [updateSettings], a configured
    provider has the client of its vendor, so that the [openai] and [google]
    calls do not fail with the client-not-initialized error.  A client, once
    made, stays: neither [updateSettings] nor an assignment to the settings
    removes one.  But between an assignment to the shared settings and
    [updateSettings] the provider can be configured without a client: then
    [callOpenAI] throws that error. *)
Theorem configured_has_client :
  (forall p, initialized p -> isConfigured p = true ->
     (aiProvider (settings p) = js "openai" -> openaiClient p = true)
     /\ (aiProvider (settings p) = js "google" -> googleClient p = true))
  /\ (forall p s,
        (openaiClient p = true ->
         openaiClient (updateSettings p s) = true /\ openaiClient (assign p s) = true)
        /\ (googleClient p = true ->
            googleClient (updateSettings p s) = true /\ googleClient (assign p s) = true))
  /\ (forall (host : Host) (prompt : jsstring),
        exists p s,
          reachable p
          /\ isConfigured (assign p s) = true
          /\ aiProvider (settings (assign p s)) = js "openai"
          /\ callOpenAI host (assign p s) prompt
             = Throw (Error (js "OpenAI client not initialized"))).
Proof.
  split; [|split].
  - intros p Hp Hc.
    assert (H : forall q, isConfigured (initializeClients q) = true ->
              (aiProvider (settings (initializeClients q)) = js "openai" ->
               openaiClient (initializeClients q) = true)
              /\ (aiProvider (settings (initializeClients q)) = js "google" ->
                  googleClient (initializeClients q) = true)).
    { intros q Hq. rewrite (isConfigured_settings _ q) in Hq
        by apply initializeClients_settings.
      rewrite initializeClients_settings. split; intros Hn.
      - apply initializeClients_openai; [exact Hn|]. now apply configured_openai.
      - apply initializeClients_google; [exact Hn|]. now apply configured_google. }
    destruct Hp as [s|q s]; apply H; exact Hc.
  - intros p s. unfold updateSettings.
    destruct (initializeClients_keeps
                (mkProvider s (openaiClient p) (googleClient p))) as [H1 H2].
    split; intros H; (split; [|exact H]); [apply H1|apply H2]; exact H.
  - intros host prompt.
    exists (newProvider (exampleSettings (js "grok") false)),
           (exampleSettings (js "openai") false).
    split; [apply reach_new|]. repeat split.
Qed.

(** ** Embeddings *)

Section WithHost.
Variable host : Host.

(** The providers with an embedding endpoint of their own. *)
Definition embeds (name : jsstring) : bool :=
  str_eqb name (js "openai") || str_eqb name (js "google") || str_eqb name (js "local").

(** The call of the vendor inside [generateEmbedding]. *)
Definition vendorEmbedding (p : ProviderState) (content : jsstring) : Result (list float) :=
  let name := aiProvider (settings p) in
  if str_eqb name (js "openai") then
    (if negb (openaiClient p) then Throw (Error (js "OpenAI client not initialized"))
     else openaiEmbedding host content)
  else if str_eqb name (js "google") then
    (if negb (googleClient p) then Throw (Error (js "Google client not initialized"))
     else googleEmbedding host content)
  else generateLocalEmbedding host content.

Lemma generateEmbedding_cases (p : ProviderState) (content : jsstring) (w : World) :
  generateEmbedding host p content w
  = if embeds (aiProvider (settings p)) then
      match vendorEmbedding p content with
      | Ok v => (Ok v, w)
      | Throw error =>
          (Ok [],
           mkWorld (vault w) (noteEmbeddings w) (costEntries w)
             (notices w ++ [js "Failed to generate embedding: " ++ message error])
             (now w) (modified w))
      end
    else (Ok (generateSimpleEmbedding (toLowerCase host) content), w).
Proof.
  unfold generateEmbedding, embeds, vendorEmbedding, tryCatch, lift.
  destruct (str_eqb (aiProvider (settings p)) (js "openai")); cbn [orb].
  { destruct (if negb (openaiClient p) then _ else _); reflexivity. }
  destruct (str_eqb (aiProvider (settings p)) (js "google")); cbn [orb].
  { destruct (if negb (googleClient p) then _ else _); reflexivity. }
  destruct (str_eqb (aiProvider (settings p)) (js "local")); cbn [orb].
  { destruct (generateLocalEmbedding host content); reflexivity. }
  reflexivity.
Qed.

Lemma generateEmbedding_frame (p : ProviderState) (content : jsstring) (w : World) :
  exists v ns,
    generateEmbedding host p content w
    = (Ok v, mkWorld (vault w) (noteEmbeddings w) (costEntries w) ns (now w) (modified w)).
Proof.
  rewrite generateEmbedding_cases.
  destruct (embeds _); [destruct (vendorEmbedding p content)|];
    destruct w; simpl; eauto.
Qed.

(** X3.  [generateEmbedding] never throws and touches nothing but the notices.
    For a provider without an embedding endpoint ([grok], [azure], any other
    name) it asks no vendor: the vector is the hash embedding, of length
    384.  For the three others a failure of the vendor, a missing client or
    a status other than 200 gives the empty vector and one notice that
    carries the message of the error. *)
Theorem generateEmbedding_total (p : ProviderState) (content : jsstring) (w : World) :
  (exists v ns,
     generateEmbedding host p content w
     = (Ok v, mkWorld (vault w) (noteEmbeddings w) (costEntries w) ns (now w) (modified w)))
  /\ (embeds (aiProvider (settings p)) = false ->
      generateEmbedding host p content w
      = (Ok (generateSimpleEmbedding (toLowerCase host) content), w)
      /\ length (generateSimpleEmbedding (toLowerCase host) content) = 384)
  /\ (forall error,
        embeds (aiProvider (settings p)) = true ->
        vendorEmbedding p content = Throw error ->
        generateEmbedding host p content w
        = (Ok [],
           mkWorld (vault w) (noteEmbeddings w) (costEntries w)
             (notices w ++ [js "Failed to generate embedding: " ++ message error])
             (now w) (modified w)))
  /\ (forall response,
        aiProvider (settings p) = js "local" ->
        localEmbedding host content = Ok response ->
        fst response <> 200%Z ->
        vendorEmbedding p content
        = Throw (Error (js "Local embedding error: " ++ decimal (fst response)))).
Proof.
  split; [apply generateEmbedding_frame|].
  rewrite generateEmbedding_cases. repeat split.
  - now rewrite H.
  - apply EmbeddingFacts.generateSimpleEmbedding_length.
  - intros error He Hv. now rewrite He, Hv.
  - intros response Hn Hr Hs. unfold vendorEmbedding, generateLocalEmbedding.
    rewrite Hn, Hr. simpl. apply Z.eqb_neq in Hs. now rewrite Hs.
Qed.

End WithHost.

(** The local endpoint answers the embedding request with the status 503. *)
Definition localDown : Host :=
  mkHost BudgetFacts.utcDay (fun t => js "T" ++ decimal t) (fun s => s)
    (fun _ => nan) (fun _ => js "NaN")
    (fun _ => Throw offline) (fun _ => Throw offline) (fun _ _ => Throw offline)
    (fun _ => Throw offline) (fun _ => Throw offline) (fun _ => Ok (503%Z, []))
    (fun _ => None) (fun _ => None).

Lemma generateEmbedding_total_witness :
  generateEmbedding localDown (newProvider (exampleSettings (js "local") false))
    (js "a note") emptyWorld
  = (Ok [],
     mkWorld [] [] [] [js "Failed to generate embedding: Local embedding error: 503"] 0 [])
  /\ length (generateSimpleEmbedding (toLowerCase localDown) (js "a note")) = 384.
Proof.
  set (p := newProvider (exampleSettings (js "local") false)).
  destruct (generateEmbedding_total localDown p (js "a note") emptyWorld)
    as (_ & _ & Hfail & Hstatus).
  destruct (generateEmbedding_total localDown
              (newProvider (exampleSettings (js "grok") false)) (js "a note") emptyWorld)
    as (_ & Hhash & _).
  split.
  - rewrite (Hfail (Error (js "Local embedding error: " ++ decimal 503)));
      [reflexivity|reflexivity|].
    apply (Hstatus (503%Z, [])); [reflexivity|reflexivity|discriminate].
  - apply Hhash. reflexivity.
Defined.

End ClientFacts.

(* ================================================================== *)
(** * How the patterns of the sources match *)
(* ================================================================== *)

Module RegexFacts.

Import RankingFacts ParserFacts.

(** ** One step of the matcher *)

Lemma rmatch_seq (start : nat) (r1 r2 : regex) (st : mstate)
  (k : mstate -> option mstate) :
  rmatch start (Seq r1 r2) st k = rmatch start r1 st (fun st' => rmatch start r2 st' k).
Proof. reflexivity. Qed.

Lemma rmatch_alt (start : nat) (r1 r2 : regex) (st : mstate)
  (k : mstate -> option mstate) :
  rmatch start (Alt r1 r2) st k = orElse (rmatch start r1 st k) (rmatch start r2 st k).
Proof. reflexivity. Qed.

Lemma rmatch_group (start i : nat) (r : regex) (st : mstate)
  (k : mstate -> option mstate) :
  rmatch start (Group i r) st k
  = rmatch start r st
      (fun st' =>
         k (MState (pos st') (rest st')
              ((i, firstn (pos st' - pos st) (rest st)) :: caps st'))).
Proof. reflexivity. Qed.

Lemma rmatch_bol (start : nat) (st : mstate) (k : mstate -> option mstate) :
  rmatch start Bol st k = if Nat.eqb (start + pos st) 0 then k st else None.
Proof. reflexivity. Qed.

Lemma rmatch_chr (start : nat) (p : N -> bool) (st : mstate)
  (k : mstate -> option mstate) :
  rmatch start (Chr p) st k
  = match rest st with
    | c :: _ => if p c then k (advance st) else None
    | [] => None
    end.
Proof. reflexivity. Qed.

(** ** Literals *)



Lemma rmatch_lit (start : nat) (l : jsstring) (st : mstate) (k : mstate -> option mstate) :
  rmatch start (lit l) st k
  = if startsWith l (rest st)
    then k (MState (pos st + length l) (skipn (length l) (rest st)) (caps st))
    else None.
Proof.
  revert st. induction l as [|c l IH]; intros [p s cs].
  - simpl. now rewrite Nat.add_0_r.
  - destruct l as [|d l].
    + cbn [lit chr rmatch rest startsWith length]. destruct s as [|y s]; [reflexivity|].
      cbn [startsWith]. rewrite andb_true_r.
      destruct (N.eqb c y); [|reflexivity].
      unfold advance. cbn [pos rest caps tl skipn]. now rewrite Nat.add_1_r.
    + change (lit (c :: d :: l)) with (Seq (chr c) (lit (d :: l))).
      cbn [rmatch chr rest]. destruct s as [|y s]; [reflexivity|].
      change (startsWith (c :: d :: l) (y :: s))
        with (N.eqb c y && startsWith (d :: l) s).
      destruct (N.eqb c y); cbn [andb]; [|reflexivity].
      rewrite IH. unfold advance. cbn [pos rest caps tl].
      destruct (startsWith (d :: l) s); [|reflexivity].
      change (length (c :: d :: l)) with (S (length (d :: l))).
      cbn [skipn]. f_equal. f_equal. lia.
Qed.

(** ** Repetitions of one class of code units *)

(** The loop of a repetition, with its fuel. *)
Definition starLoop (m : mstate -> (mstate -> option mstate) -> option mstate)
  (greedy : bool) (k : mstate -> option mstate) : nat -> mstate -> option mstate :=
  fix loop (fuel : nat) (st : mstate) {struct fuel} : option mstate :=
    match fuel with
    | O => k st
    | S fuel' =>
        let again :=
          m st (fun st' => if Nat.ltb (pos st) (pos st') then loop fuel' st' else None) in
        if greedy then orElse again (k st) else orElse (k st) again
    end.

Lemma rmatch_star (start : nat) (greedy : bool) (r : regex) (st : mstate)
  (k : mstate -> option mstate) :
  rmatch start (Star greedy r) st k
  = starLoop (rmatch start r) greedy k (S (length (rest st))) st.
Proof. reflexivity. Qed.

(** A lazy repetition tries the continuation first, then one more unit. *)
Fixpoint lazyScan (p : N -> bool) (k : mstate -> option mstate)
  (i : nat) (s : jsstring) (cs : list (nat * jsstring)) {struct s} : option mstate :=
  match k (MState i s cs) with
  | Some r => Some r
  | None =>
      match s with
      | c :: s' => if p c then lazyScan p k (S i) s' cs else None
      | [] => None
      end
  end.

(** A greedy repetition takes one more unit first, then the continuation. *)
Fixpoint greedyScan (p : N -> bool) (k : mstate -> option mstate)
  (i : nat) (s : jsstring) (cs : list (nat * jsstring)) {struct s} : option mstate :=
  match s with
  | c :: s' =>
      if p c then orElse (greedyScan p k (S i) s' cs) (k (MState i s cs))
      else k (MState i s cs)
  | [] => k (MState i s cs)
  end.

Lemma starLoop_lazy (start : nat) (p : N -> bool) (k : mstate -> option mstate)
  (fuel i : nat) (s : jsstring) (cs : list (nat * jsstring)) :
  length s < fuel ->
  starLoop (rmatch start (Chr p)) false k fuel (MState i s cs) = lazyScan p k i s cs.
Proof.
  revert fuel i. induction s as [|c s IH]; intros fuel i Hf;
    (destruct fuel as [|fuel]; [simpl in Hf; lia|]); cbn [starLoop lazyScan].
  - cbn [rmatch rest]. now destruct (k _).
  - cbn [rmatch rest]. destruct (k (MState i (c :: s) cs)); [reflexivity|].
    cbn [orElse]. destruct (p c); [|reflexivity].
    unfold advance. cbn [pos rest caps tl].
    assert (E : Nat.ltb i (S i) = true) by (apply Nat.ltb_lt; lia).
    rewrite E. apply IH. simpl in Hf. lia.
Qed.

Lemma starLoop_greedy (start : nat) (p : N -> bool) (k : mstate -> option mstate)
  (fuel i : nat) (s : jsstring) (cs : list (nat * jsstring)) :
  length s < fuel ->
  starLoop (rmatch start (Chr p)) true k fuel (MState i s cs) = greedyScan p k i s cs.
Proof.
  revert fuel i. induction s as [|c s IH]; intros fuel i Hf;
    (destruct fuel as [|fuel]; [simpl in Hf; lia|]); cbn [starLoop greedyScan].
  - cbn [rmatch rest]. reflexivity.
  - cbn [rmatch rest]. destruct (p c); [|reflexivity].
    unfold advance. cbn [pos rest caps tl].
    assert (E : Nat.ltb i (S i) = true) by (apply Nat.ltb_lt; lia).
    rewrite E. rewrite IH by (simpl in Hf; lia). reflexivity.
Qed.

Lemma rmatch_lazy (start : nat) (p : N -> bool) (st : mstate)
  (k : mstate -> option mstate) :
  rmatch start (Star false (Chr p)) st k = lazyScan p k (pos st) (rest st) (caps st).
Proof.
  rewrite rmatch_star. destruct st as [i s cs]. cbn [pos rest caps].
  apply starLoop_lazy. lia.
Qed.

Lemma rmatch_greedy (start : nat) (p : N -> bool) (st : mstate)
  (k : mstate -> option mstate) :
  rmatch start (Star true (Chr p)) st k = greedyScan p k (pos st) (rest st) (caps st).
Proof.
  rewrite rmatch_star. destruct st as [i s cs]. cbn [pos rest caps].
  apply starLoop_greedy. lia.
Qed.

(** The lazy repetition stops at the first place where the continuation
    succeeds. *)
Lemma lazyScan_skip (p : N -> bool) (k : mstate -> option mstate)
  (pre s : jsstring) (i : nat) (cs : list (nat * jsstring)) :
  forallb p pre = true ->
  (forall j, j < length pre -> k (MState (i + j) (skipn j (pre ++ s)) cs) = None) ->
  lazyScan p k i (pre ++ s) cs = lazyScan p k (i + length pre) s cs.
Proof.
  revert i. induction pre as [|c pre IH]; intros i Hp H.
  - simpl. now rewrite Nat.add_0_r.
  - cbn [forallb] in Hp. apply andb_true_iff in Hp as [Hc Hp].
    change ((c :: pre) ++ s) with (c :: pre ++ s). cbn [lazyScan].
    pose proof (H 0 (Nat.lt_0_succ _)) as H0. rewrite Nat.add_0_r in H0.
    cbn [skipn] in H0. change ((c :: pre) ++ s) with (c :: pre ++ s) in H0.
    rewrite H0, Hc. rewrite IH; [f_equal; simpl; lia|exact Hp|].
    intros j Hj. specialize (H (S j) (proj1 (Nat.succ_lt_mono _ _) Hj)).
    cbn [skipn] in H. change ((c :: pre) ++ s) with (c :: pre ++ s) in H.
    rewrite <- H. f_equal. f_equal. lia.
Qed.

Lemma lazyScan_hit (p : N -> bool) (k : mstate -> option mstate)
  (i : nat) (s : jsstring) (cs : list (nat * jsstring)) (r : mstate) :
  k (MState i s cs) = Some r -> lazyScan p k i s cs = Some r.
Proof. intros H. destruct s; simpl; now rewrite H. Qed.


Lemma greedyScan_none (p : N -> bool) (k : mstate -> option mstate)
  (i : nat) (s : jsstring) (cs : list (nat * jsstring)) :
  (forall j, j <= length s -> k (MState (i + j) (skipn j s) cs) = None) ->
  greedyScan p k i s cs = None.
Proof.
  revert i. induction s as [|c s IH]; intros i H.
  - simpl. specialize (H 0 (Nat.le_refl _)). rewrite Nat.add_0_r in H. exact H.
  - cbn [greedyScan]. pose proof (H 0 (Nat.le_0_l _)) as H0.
    rewrite Nat.add_0_r in H0. cbn [skipn] in H0. rewrite H0.
    destruct (p c); [|reflexivity]. rewrite IH; [reflexivity|].
    intros j Hj. specialize (H (S j)). cbn [skipn length] in H.
    rewrite <- H by lia. f_equal. f_equal. lia.
Qed.

(** The greedy repetition of any unit stops at the last place where the
    continuation succeeds. *)
Lemma greedyScan_last (k : mstate -> option mstate)
  (pre s : jsstring) (i : nat) (cs : list (nat * jsstring)) (r : mstate) :
  k (MState (i + length pre) s cs) = Some r ->
  (forall j, 0 < j -> j <= length s ->
     k (MState (i + length pre + j) (skipn j s) cs) = None) ->
  greedyScan (fun _ => true) k i (pre ++ s) cs = Some r.
Proof.
  revert i. induction pre as [|c pre IH]; intros i Hk Hn.
  - simpl in *. rewrite Nat.add_0_r in *.
    destruct s as [|c s]; cbn [greedyScan]; [exact Hk|].
    rewrite greedyScan_none; [exact Hk|].
    intros j Hj. specialize (Hn (S j)). cbn [skipn length] in Hn.
    rewrite <- Hn by lia. f_equal. f_equal. lia.
  - change ((c :: pre) ++ s) with (c :: pre ++ s). cbn [greedyScan].
    rewrite (IH (S i)); [reflexivity| |].
    + rewrite <- Hk. f_equal. f_equal. simpl. lia.
    + intros j Hj1 Hj2. rewrite <- (Hn j Hj1 Hj2). f_equal. f_equal. simpl. lia.
Qed.

(** ** Anchors *)

(** A pattern without the anchor of the beginning matches the same way
    wherever the attempt starts. *)
Fixpoint anchorFree (r : regex) : bool :=
  match r with
  | Bol => false
  | Seq r1 r2 | Alt r1 r2 => anchorFree r1 && anchorFree r2
  | Star _ r' | Group _ r' => anchorFree r'
  | _ => true
  end.

Lemma starLoop_ext (m m' : mstate -> (mstate -> option mstate) -> option mstate)
  (greedy : bool) (k : mstate -> option mstate) (fuel : nat) (st : mstate) :
  (forall st0 k1 k2, (forall x, k1 x = k2 x) -> m st0 k1 = m' st0 k2) ->
  starLoop m greedy k fuel st = starLoop m' greedy k fuel st.
Proof.
  intros Hm. revert st. induction fuel as [|fuel IH]; intros st; cbn [starLoop];
    [reflexivity|].
  rewrite (Hm st _ (fun st' => if Nat.ltb (pos st) (pos st')
                               then starLoop m' greedy k fuel st' else None)).
  - reflexivity.
  - intros x. destruct (Nat.ltb _ _); [apply IH|reflexivity].
Qed.

Lemma rmatch_anchorFree (r : regex) (start start' : nat) (st : mstate)
  (k k' : mstate -> option mstate) :
  anchorFree r = true -> (forall x, k x = k' x) ->
  rmatch start r st k = rmatch start' r st k'.
Proof.
  revert start start' st k k'.
  induction r as [|p|r1 IH1 r2 IH2|r1 IH1 r2 IH2|g r IH|i r IH| |];
    intros start start' st k k' Ha Hk; cbn [anchorFree] in Ha; try discriminate.
  - cbn [rmatch]. apply Hk.
  - cbn [rmatch]. destruct (rest st); [reflexivity|]. destruct (p _); [apply Hk|reflexivity].
  - apply andb_true_iff in Ha as [Ha1 Ha2]. cbn [rmatch].
    apply IH1; [exact Ha1|]. intros x. now apply IH2.
  - apply andb_true_iff in Ha as [Ha1 Ha2]. cbn [rmatch].
    rewrite (IH1 start start' st k k' Ha1 Hk), (IH2 start start' st k k' Ha2 Hk).
    reflexivity.
  - rewrite !rmatch_star.
    transitivity (starLoop (rmatch start r) g k' (S (length (rest st))) st).
    + generalize (S (length (rest st))). intros fuel. revert st.
      induction fuel as [|fuel IHf]; intros st; cbn [starLoop]; [apply Hk|].
      rewrite Hk.
      rewrite (IH start start st _
                 (fun st' => if Nat.ltb (pos st) (pos st')
                             then starLoop (rmatch start r) g k' fuel st'
                             else None) Ha).
      * reflexivity.
      * intros x. destruct (Nat.ltb _ _); [apply IHf|reflexivity].
    + apply starLoop_ext. intros st0 k1 k2 H12. now apply IH.
  - cbn [rmatch]. apply IH; [exact Ha|]. intros x. apply Hk.
  - cbn [rmatch]. destruct (rest st); [apply Hk|reflexivity].
Qed.

Lemma exec_at_anchorFree (r : regex) (i j : nat) (s : jsstring) :
  anchorFree r = true ->
  exec_at r i s
  = match exec_at r j s with
    | Some m => Some (Match i (m_text m) (m_groups m))
    | None => None
    end.
Proof.
  intros Ha. unfold exec_at.
  rewrite (rmatch_anchorFree r i j _ _ (fun st => Some st) Ha (fun x => eq_refl)).
  now destruct (rmatch j r _ _).
Qed.

(** A pattern that begins with the anchor matches at the index 0 only. *)
Lemma exec_at_Bol (r : regex) (i : nat) (s : jsstring) :
  exec_at (Seq Bol r) (S i) s = None.
Proof. reflexivity. Qed.

Lemma search_from_Bol (r : regex) (i : nat) (s : jsstring) :
  search_from (Seq Bol r) (S i) s = None.
Proof.
  revert i. induction s as [|c s IH]; intros i; cbn [search_from];
    rewrite exec_at_Bol; [reflexivity|apply IH].
Qed.

Lemma str_match_Bol (r : regex) (s : jsstring) :
  str_match (Seq Bol r) s = exec_at (Seq Bol r) 0 s.
Proof.
  unfold str_match. destruct s as [|c s]; cbn [search_from].
  - now destruct (exec_at _ 0 []).
  - destruct (exec_at _ 0 (c :: s)); [reflexivity|apply search_from_Bol].
Qed.

End RegexFacts.

(* ================================================================== *)
(** * More on the response parser *)
(* ================================================================== *)

Module ResponseFacts.

Import RankingFacts ParserFacts RegexFacts.

(** ** The JSON object inside a response *)

Definition openBrace : N := ch "{".
Definition closeBrace : N := ch "}".

Lemma skipn_head_not_in {A} (x : A) (j : nat) (l : list A) :
  ~ In x l ->
  match skipn j l with
  | [] => True
  | y :: _ => y <> x
  end.
Proof.
  intros H. destruct (skipn j l) as [|y t] eqn:E; [exact I|].
  intros ->. apply H. rewrite <- (firstn_skipn j l), E.
  apply in_or_app. right. now left.
Qed.

(** An attempt where the text does not begin with an opening brace fails. *)
Lemma exec_at_no_brace (i : nat) (s : jsstring) :
  match s with [] => True | c :: _ => c <> openBrace end ->
  exec_at jsonObjectRe i s = None.
Proof.
  intros H. unfold exec_at, jsonObjectRe. cbn [seqs rmatch chr rest].
  destruct s as [|c s]; [reflexivity|].
  destruct (N.eqb (ch "{") c) eqn:E; [|reflexivity].
  apply N.eqb_eq in E. now elim H.
Qed.

(** At an opening brace the match runs to the last closing brace. *)
Lemma exec_at_braces (i : nat) (mid post : jsstring) :
  ~ In closeBrace post ->
  exec_at jsonObjectRe i (openBrace :: mid ++ closeBrace :: post)
  = Some (Match i (openBrace :: mid ++ [closeBrace]) []).
Proof.
  intros Hpost. unfold exec_at, jsonObjectRe. cbn [seqs].
  change (rmatch i (Seq (chr (ch "{")) (Seq (Star true any) (chr (ch "}"))))
            (MState 0 (openBrace :: mid ++ closeBrace :: post) []) (fun st => Some st))
    with (rmatch i (Star true any) (MState 1 (mid ++ closeBrace :: post) [])
            (fun st' => rmatch i (chr (ch "}")) st' (fun st => Some st))).
  unfold any. rewrite rmatch_greedy. cbn [pos rest caps].
  rewrite (greedyScan_last _ mid (closeBrace :: post) 1 []
             (MState (S (1 + length mid)) post [])).
  - cbn [pos]. f_equal. f_equal.
    change (openBrace :: mid ++ closeBrace :: post)
      with ((openBrace :: mid) ++ closeBrace :: post).
    replace (S (1 + length mid)) with (length ((openBrace :: mid) ++ [closeBrace]))
      by (rewrite length_app; simpl; lia).
    replace ((openBrace :: mid) ++ closeBrace :: post)
      with (((openBrace :: mid) ++ [closeBrace]) ++ post)
      by (now rewrite <- app_assoc).
    rewrite firstn_app, firstn_all, Nat.sub_diag. simpl. now rewrite app_nil_r.
  - reflexivity.
  - intros j Hj1 Hj2. destruct j as [|j]; [lia|].
    cbn [skipn rmatch chr rest].
    pose proof (skipn_head_not_in closeBrace j post Hpost) as Hh.
    destruct (skipn j post) as [|y t]; [reflexivity|].
    destruct (N.eqb (ch "}") y) eqn:E; [|reflexivity].
    apply N.eqb_eq in E. now elim Hh.
Qed.

Lemma search_no_brace (i : nat) (s : jsstring) :
  ~ In openBrace s -> search_from jsonObjectRe i s = None.
Proof.
  revert i. induction s as [|c s IH]; intros i H; cbn [search_from].
  - now rewrite exec_at_no_brace.
  - rewrite exec_at_no_brace; [apply IH|]; intros E; apply H; [now right|now left].
Qed.

(** X4.  The object handed to [JSON.parse] runs from the first opening brace of
    the text to its last closing brace: what comes before and after is
    dropped.  A text without an opening brace is kept whole. *)
Theorem extractJsonObject_span (pre mid post : jsstring) :
  ~ In openBrace pre -> ~ In closeBrace post ->
  extractJsonObject (pre ++ openBrace :: mid ++ closeBrace :: post)
  = openBrace :: mid ++ [closeBrace]
  /\ extractJsonObject pre = pre.
Proof.
  intros Hpre Hpost. unfold extractJsonObject, str_match. split.
  - rewrite search_from_skip.
    + rewrite (search_from_hit _ _ _ _ (exec_at_braces _ mid post Hpost)). reflexivity.
    + intros j Hj. apply exec_at_no_brace.
      assert (E : skipn j (pre ++ openBrace :: mid ++ closeBrace :: post)
                  = skipn j pre ++ openBrace :: mid ++ closeBrace :: post).
      { rewrite skipn_app. replace (j - length pre) with 0 by lia. reflexivity. }
      rewrite E. pose proof (skipn_head_not_in openBrace j pre Hpre) as Hh.
      destruct (skipn j pre) as [|y t] eqn:Ey.
      * exfalso. apply (f_equal (@length N)) in Ey. rewrite length_skipn in Ey.
        simpl in Ey. lia.
      * exact Hh.
  - now rewrite search_no_brace.
Qed.

Lemma extractJsonObject_span_witness :
  extractJsonObject (js "Sure: {a} and {b}. Bye") = js "{a} and {b}"
  /\ extractJsonObject (js "Sure: ") = js "Sure: ".
Proof.
  apply (extractJsonObject_span (js "Sure: ") (js "a} and {b") (js ". Bye"));
    simpl; unfold openBrace, closeBrace, ch; simpl;
    intros H; repeat (destruct H as [H|H]; [discriminate H|]); exact H.
Defined.

End ResponseFacts.

(* ================================================================== *)
(** * The front matter in the text of a note *)
(* ================================================================== *)

Module NoteTextFacts.

Import RankingFacts ParserFacts RegexFacts.

(** ** Strings *)

Lemma indexOf_from_none (i : Z) (p s : jsstring) (j : nat) :
  (0 <= i)%Z -> indexOf_from i p s = (-1)%Z -> startsWith p (skipn j s) = false.
Proof.
  revert i j. induction s as [|c s IH]; intros i j Hi H; cbn [indexOf_from] in H.
  - destruct (startsWith p []) eqn:E; [lia|]. now destruct j.
  - destruct (startsWith p (c :: s)) eqn:E; [lia|].
    destruct j as [|j]; [exact E|]. cbn [skipn]. apply (IH (i + 1)%Z); [lia|exact H].
Qed.

Lemma includes_false (p s : jsstring) (j : nat) :
  includes p s = false -> startsWith p (skipn j s) = false.
Proof.
  unfold includes, indexOf. intros H. apply negb_false_iff, Z.eqb_eq in H.
  now apply (indexOf_from_none 0).
Qed.

Lemma startsWith_prefix (p a b : jsstring) :
  length p <= length a -> startsWith p (a ++ b) = startsWith p a.
Proof.
  revert a. induction p as [|x p IH]; intros a H; [reflexivity|].
  destruct a as [|y a]; [simpl in H; lia|].
  cbn [app startsWith]. rewrite IH; [reflexivity|]. simpl in H. lia.
Qed.

Lemma substring_suffix (a b : jsstring) :
  substring (Z.of_nat (length a)) (Z.of_nat (length (a ++ b))) (a ++ b) = b.
Proof.
  unfold substring, clampIndex. rewrite length_app.
  rewrite !Z.max_l by lia. rewrite Z.min_l, Z.min_r by lia.
  rewrite !Nat2Z.id. rewrite Nat.min_l, Nat.max_r by lia.
  rewrite skipn_app, skipn_all, Nat.sub_diag. cbn [skipn app].
  replace (length a + length b - length a) with (length b) by lia.
  apply firstn_all.
Qed.

Lemma substring_whole (s : jsstring) :
  substring 0 (Z.of_nat (length s)) s = s.
Proof. exact (substring_suffix [] s). Qed.

Lemma forallb_any (s : jsstring) : forallb (fun _ : N => true) s = true.
Proof. now induction s. Qed.

Lemma join_cons (sep x : jsstring) (l : list jsstring) :
  l <> [] -> join sep (x :: l) = x ++ sep ++ join sep l.
Proof. destruct l; [congruence|reflexivity]. Qed.

Lemma join_snoc (sep x : jsstring) (l : list jsstring) :
  l <> [] -> join sep (l ++ [x]) = join sep l ++ sep ++ x.
Proof.
  induction l as [|y l IH]; [congruence|]. intros _.
  destruct l as [|z l]; [reflexivity|].
  change ((y :: z :: l) ++ [x]) with (y :: (z :: l) ++ [x]).
  rewrite join_cons by (destruct l; discriminate).
  rewrite IH by discriminate.
  rewrite (join_cons sep y (z :: l)) by discriminate.
  now rewrite <- !app_assoc.
Qed.

(** ** Where the front matter ends *)

Definition opening : jsstring := js "---" ++ [lf].
Definition closing : jsstring := lf :: js "---".
Definition dashes : jsstring := js "---".

(** The one line feed the patterns take after the closing dashes. *)
Definition afterClosing (rest : jsstring) : jsstring :=
  match rest with
  | c :: rest' => if N.eqb lf c then rest' else rest
  | [] => []
  end.

(** A window that holds a line feed where the pattern has a dash. *)
Lemma closing_not_across (block rest : jsstring) (j : nat) :
  includes closing block = false -> j < length block ->
  startsWith closing (skipn j (block ++ closing ++ rest)) = false.
Proof.
  intros Hb Hj. pose proof (includes_false closing block j Hb) as H.
  rewrite skipn_app. replace (j - length block) with 0 by lia. cbn [skipn].
  remember (skipn j block) as t eqn:Et.
  destruct t as [|a [|b [|c [|d t]]]].
  - apply (f_equal (@length N)) in Et. rewrite length_skipn in Et. simpl in Et. lia.
  - unfold closing. cbn. now rewrite andb_false_r.
  - unfold closing. cbn. now rewrite !andb_false_r.
  - unfold closing. cbn. now rewrite !andb_false_r.
  - rewrite <- H. unfold closing. cbn. now rewrite !andb_true_r.
Qed.

Lemma dashes_not_across (block rest : jsstring) (j : nat) :
  includes dashes block = false -> j < length (lf :: block ++ [lf]) ->
  startsWith dashes (skipn j ((lf :: block ++ [lf]) ++ dashes ++ rest)) = false.
Proof.
  intros Hb Hj. destruct j as [|j]; [reflexivity|].
  cbn [app skipn]. rewrite <- app_assoc.
  cbn [length] in Hj. rewrite length_app in Hj. cbn [length] in Hj.
  pose proof (includes_false dashes block j Hb) as H.
  rewrite skipn_app.
  remember (skipn j block) as t eqn:Et.
  assert (Hl : length t = length block - j) by (subst t; apply length_skipn).
  destruct t as [|a [|b [|c t]]].
  - replace (j - length block) with 0 by (simpl in Hl; lia). reflexivity.
  - replace (j - length block) with 0 by (simpl in Hl; lia).
    unfold dashes. cbn. now rewrite andb_false_r.
  - replace (j - length block) with 0 by (simpl in Hl; lia).
    unfold dashes. cbn. now rewrite !andb_false_r.
  - replace (j - length block) with 0 by (simpl in Hl; lia).
    rewrite <- H. unfold dashes. cbn. now rewrite !andb_true_r.
Qed.

(** The end of both patterns: one line feed, if there is one. *)
Lemma rmatch_optional_lf (start i : nat) (tail : jsstring) (cs : list (nat * jsstring)) :
  rmatch start (Alt (chr lf) Empty) (MState i tail cs) (fun st => Some st)
  = Some (MState (i + (length tail - length (afterClosing tail))) (afterClosing tail) cs).
Proof.
  cbn [rmatch chr rest]. destruct tail as [|c tail']; cbn [afterClosing orElse].
  - now rewrite Nat.add_0_r.
  - destruct (N.eqb lf c); cbn [orElse length].
    + unfold advance. cbn [pos rest caps tl]. f_equal. f_equal. lia.
    + f_equal. f_equal. lia.
Qed.

Lemma afterClosing_length (rest : jsstring) : length (afterClosing rest) <= length rest.
Proof.
  destruct rest as [|c r]; cbn [afterClosing length]; [lia|].
  destruct (N.eqb lf c); cbn [length]; lia.
Qed.

Lemma afterClosing_suffix (rest : jsstring) :
  skipn (length rest - length (afterClosing rest)) rest = afterClosing rest.
Proof.
  destruct rest as [|c r]; [reflexivity|]. cbn [afterClosing].
  destruct (N.eqb lf c); cbn [length].
  - replace (S (length r) - length r) with 1 by lia. reflexivity.
  - rewrite Nat.sub_diag. reflexivity.
Qed.

Section WithHost.
Variable host : Host.

(** The match of line 340 on a text that opens with a front matter. *)
Lemma exec_frontmatter (block rest : jsstring) :
  includes closing block = false ->
  exec_at frontmatterRe 0 (opening ++ block ++ closing ++ rest)
  = Some (Match 0
            (firstn (length (opening ++ block ++ closing)
                     + (length rest - length (afterClosing rest)))
               (opening ++ block ++ closing ++ rest))
            [(1, block)]).
Proof.
  intros Hb. unfold exec_at, frontmatterRe, any. cbn [seqs].
  rewrite rmatch_seq, rmatch_bol. cbn [Nat.add Nat.eqb pos].
  rewrite rmatch_seq, rmatch_lit. cbn [Regex.rest pos caps].
  fold opening. rewrite startsWith_app.
  rewrite skipn_app, skipn_all, Nat.sub_diag. cbn [skipn app].
  rewrite rmatch_seq, rmatch_group, rmatch_lazy. cbn [pos Regex.rest caps].
  rewrite lazyScan_skip.
  - erewrite lazyScan_hit.
    2:{ cbn [pos Regex.rest caps]. rewrite rmatch_seq, rmatch_lit.
        cbn [pos Regex.rest caps].
        fold closing. rewrite startsWith_app.
        rewrite skipn_app, skipn_all, Nat.sub_diag. cbn [skipn app].
        apply rmatch_optional_lf. }
    cbn [pos caps]. f_equal. f_equal.
    + f_equal. rewrite !length_app. lia.
    + f_equal. f_equal.
      replace (0 + length opening + length block - (0 + length opening))
        with (length block) by lia.
      rewrite firstn_app, firstn_all, Nat.sub_diag. cbn. apply app_nil_r.
  - apply forallb_any.
  - intros j Hj. cbn [pos Regex.rest caps]. rewrite rmatch_seq, rmatch_lit.
    cbn [Regex.rest].
    fold closing. now rewrite closing_not_across.
Qed.

Lemma firstn_frontmatter (a rest : jsstring) :
  firstn (length a + (length rest - length (afterClosing rest))) (a ++ rest)
  = a ++ firstn (length rest - length (afterClosing rest)) rest.
Proof.
  rewrite firstn_app. rewrite firstn_all2 by lia. f_equal. f_equal. lia.
Qed.

Lemma splitFrontmatter_opened (block rest : jsstring) :
  includes closing block = false ->
  splitFrontmatter host (opening ++ block ++ closing ++ rest)
  = (fold_left (parseLine host) (split lf block) [], afterClosing rest).
Proof.
  intros Hb.
  unfold splitFrontmatter, frontmatterRe. cbn [seqs]. rewrite str_match_Bol.
  change (Seq Bol
            (Seq (lit (js "---" ++ [lf]))
               (Seq (Group 1 (Star false any))
                  (Seq (lit ([lf] ++ js "---")) (Alt (chr lf) Empty)))))
    with frontmatterRe.
  rewrite exec_frontmatter by exact Hb.
  unfold group. cbn [m_groups lookup Nat.eqb m_text]. f_equal.
  replace (opening ++ block ++ closing ++ rest)
    with ((opening ++ block ++ closing) ++ rest) by (now rewrite <- !app_assoc).
  rewrite firstn_frontmatter.
  set (a := opening ++ block ++ closing).
  set (n := length rest - length (afterClosing rest)).
  assert (Hn : n <= length rest) by (unfold n; lia).
  rewrite <- (firstn_skipn n rest) at 2 3.
  rewrite (app_assoc a). rewrite substring_suffix.
  unfold n. apply afterClosing_suffix.
Qed.

Lemma splitFrontmatter_plain (text : jsstring) :
  startsWith opening text = false -> splitFrontmatter host text = ([], text).
Proof.
  intros Ht. unfold splitFrontmatter, frontmatterRe. cbn [seqs].
  rewrite str_match_Bol. unfold exec_at.
  rewrite rmatch_seq, rmatch_bol. cbn [Nat.add Nat.eqb pos].
  rewrite rmatch_seq, rmatch_lit. cbn [Regex.rest]. fold opening. now rewrite Ht.
Qed.

(** X5.  [applyEnhancement] on a text that opens with a front matter: the
    object is read from the lines between the two lines of dashes, the first
    such closing line ending the block, and the content is what follows it,
    less one line feed.  A text that does not open with a line of three
    dashes has no front matter: its object is empty and all of it is
    content. *)
Theorem splitFrontmatter_block (block rest : jsstring) :
  includes closing block = false ->
  splitFrontmatter host (opening ++ block ++ closing ++ rest)
  = (fold_left (parseLine host) (split lf block) [], afterClosing rest)
  /\ (forall text, startsWith opening text = false ->
        splitFrontmatter host text = ([], text)).
Proof.
  intros Hb. split; [now apply splitFrontmatter_opened|apply splitFrontmatter_plain].
Qed.

(** ** What [applyEnhancement] writes *)

Lemma set_In {V} (k : jsstring) (v : V) (m : list (jsstring * V)) :
  In (k, v) (JSMap.set k v m).
Proof.
  induction m as [|[k' v'] m IH]; simpl; [now left|].
  destruct (str_eqb k k') eqn:E.
  - apply str_eqb_eq in E. subst k'. now left.
  - now right.
Qed.

(** The lines between the two lines of dashes. *)
Definition blockOf (o : FrontmatterObject) : jsstring :=
  join [lf] (flat_map (frontmatterLine host) (entries o)).

Lemma enhanced_lines (settings : SANESettings) (file : TFile)
  (enhancement : Enhancement) (now : Z) (o : FrontmatterObject) :
  flat_map (frontmatterLine host)
    (entries (enhanceFrontmatter host settings file enhancement now o)) <> [].
Proof.
  set (o' := enhanceFrontmatter host settings file enhancement now o).
  assert (Hin : In (js "sane_version", FString (js "1.0")) (entries o')).
  { unfold entries. apply in_or_app. right. apply filter_In. split; [|reflexivity].
    unfold o', enhanceFrontmatter. cbv zeta. unfold fmSet at 1.
    change (str_eqb (js "sane_version") (js "__proto__")) with false.
    cbv iota. apply set_In. }
  intros E.
  assert (H : In (js "sane_version" ++ js ": " ++ dq :: js "1.0" ++ [dq])
                (flat_map (frontmatterLine host) (entries o'))).
  { apply in_flat_map. eexists. split; [exact Hin|]. now left. }
  rewrite E in H. destruct H.
Qed.

Lemma generateFrontmatter_shape (o : FrontmatterObject) :
  flat_map (frontmatterLine host) (entries o) <> [] ->
  generateFrontmatter host o = opening ++ blockOf o ++ closing.
Proof.
  intros H. unfold generateFrontmatter, blockOf.
  set (lines := flat_map (frontmatterLine host) (entries o)) in *.
  change ([js "---"] ++ lines ++ [js "---"]) with (js "---" :: lines ++ [js "---"]).
  rewrite join_cons by (destruct lines; discriminate).
  rewrite join_snoc by exact H.
  unfold opening, closing. now rewrite <- !app_assoc.
Qed.

(** X6.  When no line that [applyEnhancement] writes between the dashes begins
    with three dashes (the block written holds no line feed followed by
    three dashes), a pass over the note it has written puts one more line
    feed before the body: the pattern that finds the front matter takes one
    of the two line feeds written after it, and two are written again.  The
    object of that pass is read from the lines written. *)
Theorem reenhance_adds_line_feed (settings : SANESettings) (file : TFile)
  (originalContent : jsstring) (enhancement : Enhancement) (now : Z) :
  let body := snd (splitFrontmatter host originalContent) in
  let written :=
    enhanceFrontmatter host settings file enhancement now
      (fst (splitFrontmatter host originalContent)) in
  let once := enhancedContent host settings file originalContent enhancement now in
  includes closing (blockOf written) = false ->
  once = opening ++ blockOf written ++ closing ++ [lf; lf] ++ body
  /\ splitFrontmatter host once
     = (fold_left (parseLine host) (split lf (blockOf written)) [], lf :: body)
  /\ (forall settings' file' enhancement' now',
        enhancedContent host settings' file' once enhancement' now'
        = generateFrontmatter host
            (enhanceFrontmatter host settings' file' enhancement' now'
               (fold_left (parseLine host) (split lf (blockOf written)) []))
          ++ [lf; lf; lf] ++ body).
Proof.
  intros body written once Hb.
  assert (Honce : once = opening ++ blockOf written ++ closing ++ [lf; lf] ++ body).
  { unfold once, enhancedContent, written, body.
    destruct (splitFrontmatter host originalContent) as [fm c]. cbn [fst snd].
    rewrite generateFrontmatter_shape by apply enhanced_lines.
    now rewrite <- !app_assoc. }
  assert (Hsplit : splitFrontmatter host once
                   = (fold_left (parseLine host) (split lf (blockOf written)) [],
                      lf :: body)).
  { rewrite Honce.
    rewrite (splitFrontmatter_opened (blockOf written) ([lf; lf] ++ body) Hb).
    reflexivity. }
  split; [exact Honce|]. split; [exact Hsplit|].
  intros settings' file' enhancement' now'.
  unfold enhancedContent at 1. rewrite Hsplit. reflexivity.
Qed.

(** ** The text that is embedded *)

(** The second half of [cleanContent]: embeds and code blocks removed, the
    result trimmed. *)
Definition cleanBody (content : jsstring) : jsstring :=
  trim (removeAll codeBlockRe (removeAll imageEmbedRe content)).

Lemma exec_at_length (r : regex) (i : nat) (s : jsstring) (m : MatchResult) :
  exec_at r i s = Some m -> length (m_text m) <= length s.
Proof.
  unfold exec_at. destruct (rmatch _ _ _ _); [|discriminate].
  intros H. injection H as <-. cbn [m_text]. rewrite length_firstn. lia.
Qed.

Lemma removeAll_from_indep (r : regex) (fuel fuel' i i' : nat) (s : jsstring) :
  anchorFree r = true -> length s < fuel -> length s < fuel' ->
  removeAll_from fuel r i s = removeAll_from fuel' r i' s.
Proof.
  intros Ha. revert fuel' i i' s.
  induction fuel as [|fuel IH]; intros fuel' i i' s Hf Hf'; [lia|].
  destruct fuel' as [|fuel']; [lia|]. cbn [removeAll_from].
  rewrite (exec_at_anchorFree r i i' s Ha).
  assert (Hskip : match s with
                  | [] => []
                  | c :: s' => c :: removeAll_from fuel r (S i) s'
                  end
                  = match s with
                    | [] => []
                    | c :: s' => c :: removeAll_from fuel' r (S i') s'
                    end).
  { destruct s as [|c s']; [reflexivity|]. f_equal. simpl in Hf, Hf'.
    apply IH; lia. }
  destruct (exec_at r i' s) as [m|] eqn:E; [|exact Hskip].
  cbn [m_text]. destruct (Nat.eqb (length (m_text m)) 0) eqn:En; [exact Hskip|].
  apply Nat.eqb_neq in En. pose proof (exec_at_length _ _ _ _ E) as Hl.
  apply IH; rewrite length_skipn; lia.
Qed.

Lemma removeAll_from_miss (fuel : nat) (r : regex) (i : nat) (c : N) (s : jsstring) :
  exec_at r i (c :: s) = None ->
  removeAll_from (S fuel) r i (c :: s) = c :: removeAll_from fuel r (S i) s.
Proof. intros H. cbn [removeAll_from]. now rewrite H. Qed.

(** A code unit at which a pattern without anchor does not match is kept. *)
Lemma removeAll_keep (r : regex) (c : N) (s : jsstring) :
  anchorFree r = true -> exec_at r 0 (c :: s) = None ->
  removeAll r (c :: s) = c :: removeAll r s.
Proof.
  intros Ha H. unfold removeAll. cbn [length].
  rewrite removeAll_from_miss by exact H.
  f_equal. apply removeAll_from_indep; [exact Ha|lia|lia].
Qed.

Lemma cleanBody_lf (content : jsstring) : cleanBody (lf :: content) = cleanBody content.
Proof.
  unfold cleanBody.
  rewrite (removeAll_keep imageEmbedRe) by reflexivity.
  rewrite (removeAll_keep codeBlockRe) by reflexivity.
  reflexivity.
Qed.

Lemma startsWith_app_false (p q s : jsstring) :
  startsWith p s = false -> startsWith (p ++ q) s = false.
Proof.
  revert s. induction p as [|x p IH]; intros s; [discriminate|].
  destruct s as [|y s]; [reflexivity|]. cbn [app startsWith].
  destruct (N.eqb x y); [apply IH|reflexivity].
Qed.

(** The match of line 427 on a text that opens with a front matter. *)
Lemma exec_leadingBlock (inner rest : jsstring) :
  (forall j, j < length inner ->
     startsWith dashes (skipn j (inner ++ dashes ++ rest)) = false) ->
  exec_at leadingBlockRe 0 (dashes ++ inner ++ dashes ++ rest)
  = Some (Match 0
            (firstn (length (dashes ++ inner ++ dashes)
                     + (length rest - length (afterClosing rest)))
               (dashes ++ inner ++ dashes ++ rest))
            []).
Proof.
  intros Hb. unfold exec_at, leadingBlockRe, any. cbn [seqs].
  rewrite rmatch_seq, rmatch_bol. cbn [Nat.add Nat.eqb pos].
  rewrite rmatch_seq, rmatch_lit. cbn [Regex.rest pos caps].
  fold dashes. rewrite startsWith_app.
  rewrite skipn_app, skipn_all, Nat.sub_diag. cbn [skipn app].
  rewrite rmatch_seq, rmatch_lazy. cbn [pos Regex.rest caps].
  rewrite lazyScan_skip.
  - erewrite lazyScan_hit.
    2:{ rewrite rmatch_seq, rmatch_lit. cbn [pos Regex.rest caps].
        fold dashes. rewrite startsWith_app.
        rewrite skipn_app, skipn_all, Nat.sub_diag. cbn [skipn app].
        apply rmatch_optional_lf. }
    cbn [pos caps]. f_equal. f_equal. f_equal. rewrite !length_app. lia.
  - apply forallb_any.
  - intros j Hj. rewrite rmatch_seq, rmatch_lit. cbn [Regex.rest].
    fold dashes. now rewrite Hb.
Qed.

Lemma removeFirst_leadingBlock (inner rest : jsstring) :
  (forall j, j < length inner ->
     startsWith dashes (skipn j (inner ++ dashes ++ rest)) = false) ->
  removeFirst leadingBlockRe (dashes ++ inner ++ dashes ++ rest) = afterClosing rest.
Proof.
  intros Hb. unfold removeFirst, leadingBlockRe. cbn [seqs]. rewrite str_match_Bol.
  change (Seq Bol
            (Seq (lit (js "---"))
               (Seq (Star false any) (Seq (lit (js "---")) (Alt (chr lf) Empty)))))
    with leadingBlockRe.
  rewrite exec_leadingBlock by exact Hb. cbn [m_index m_text firstn app Nat.add].
  replace (dashes ++ inner ++ dashes ++ rest)
    with ((dashes ++ inner ++ dashes) ++ rest) by (now rewrite <- !app_assoc).
  rewrite firstn_frontmatter.
  set (a := dashes ++ inner ++ dashes).
  set (n := length rest - length (afterClosing rest)).
  rewrite length_app, length_firstn.
  pose proof (afterClosing_length rest) as Hl.
  rewrite Nat.min_l by (unfold n; lia).
  rewrite skipn_app. rewrite skipn_all2 by lia.
  replace (length a + n - length a) with n by lia.
  apply afterClosing_suffix.
Qed.

Lemma removeFirst_plain (text : jsstring) :
  startsWith dashes text = false -> removeFirst leadingBlockRe text = text.
Proof.
  intros Ht. unfold removeFirst, leadingBlockRe. cbn [seqs]. rewrite str_match_Bol.
  unfold exec_at. rewrite rmatch_seq, rmatch_bol. cbn [Nat.add Nat.eqb pos].
  rewrite rmatch_seq, rmatch_lit. cbn [Regex.rest]. fold dashes. now rewrite Ht.
Qed.

(** X7.  The front matter never reaches the text that is embedded and sent to
    the model: [cleanContent] drops a leading front matter whose lines hold
    no three dashes in a row.  So enhancing a note without front matter
    leaves the text embedded for it as it was. *)
Theorem cleanContent_frontmatter :
  (forall block rest,
     includes dashes block = false ->
     cleanContent (opening ++ block ++ closing ++ rest) = cleanBody (afterClosing rest))
  /\ (forall settings file originalContent enhancement now,
        startsWith dashes originalContent = false ->
        includes dashes
          (blockOf (enhanceFrontmatter host settings file enhancement now [])) = false ->
        cleanContent (enhancedContent host settings file originalContent enhancement now)
        = cleanContent originalContent).
Proof.
  assert (Hstrip : forall block tail,
            includes dashes block = false ->
            cleanContent (opening ++ block ++ closing ++ tail)
            = cleanBody (afterClosing tail)).
  { intros block tail Hb. unfold cleanContent. fold (cleanBody
      (removeFirst leadingBlockRe (opening ++ block ++ closing ++ tail))).
    f_equal.
    replace (opening ++ block ++ closing ++ tail)
      with (dashes ++ (lf :: block ++ [lf]) ++ dashes ++ tail).
    2:{ unfold opening, closing, dashes. cbn [app].
        rewrite <- !app_assoc. reflexivity. }
    apply removeFirst_leadingBlock. intros j Hj. now apply dashes_not_across. }
  split; [exact Hstrip|].
  intros settings file originalContent enhancement now Hplain Hblock.
  assert (Hsplit : splitFrontmatter host originalContent = ([], originalContent)).
  { apply splitFrontmatter_plain.
    unfold opening. now apply startsWith_app_false. }
  unfold enhancedContent. rewrite Hsplit.
  rewrite generateFrontmatter_shape by apply enhanced_lines.
  rewrite <- !app_assoc.
  rewrite Hstrip by exact Hblock.
  cbn [app afterClosing]. change (N.eqb lf lf) with true. cbv iota.
  rewrite cleanBody_lf.
  unfold cleanContent. rewrite removeFirst_plain by exact Hplain. reflexivity.
Qed.

(** ** Reading back a line that was written *)

Lemma trimStart_fixed (c : N) (s : jsstring) :
  isWhiteSpace c = false -> trimStart (c :: s) = c :: s.
Proof. intros H. cbn [trimStart]. now rewrite H. Qed.

Lemma trim_fixed (s : jsstring) : isTrimmed s = true -> trim s = s.
Proof.
  destruct s as [|c s]; [reflexivity|]. unfold isTrimmed. intros H.
  apply andb_true_iff in H as [Hc Hl]. apply negb_true_iff in Hc, Hl.
  unfold trim, trimEnd. rewrite trimStart_fixed by exact Hc.
  assert (Hne : c :: s <> []) by discriminate.
  rewrite (app_removelast_last c Hne) at 1. rewrite rev_app_distr. cbn [rev app].
  rewrite trimStart_fixed by exact Hl.
  change (last (c :: s) c :: rev (removelast (c :: s)))
    with (rev [last (c :: s) c] ++ rev (removelast (c :: s))).
  rewrite <- rev_app_distr, rev_involutive.
  symmetry. apply app_removelast_last. exact Hne.
Qed.

Lemma trim_skip (c : N) (s : jsstring) :
  isWhiteSpace c = true -> trim (c :: s) = trim s.
Proof. intros H. unfold trim. cbn [trimStart]. now rewrite H. Qed.

Lemma indexOf_from_first (c : N) (pre post : jsstring) (i : Z) :
  ~ In c pre ->
  indexOf_from i [c] (pre ++ c :: post) = (i + Z.of_nat (length pre))%Z.
Proof.
  revert i. induction pre as [|x pre IH]; intros i H.
  - cbn [app indexOf_from startsWith]. rewrite N.eqb_refl. cbn. lia.
  - cbn [app indexOf_from startsWith].
    destruct (N.eqb c x) eqn:E.
    + apply N.eqb_eq in E. subst x. elim H. now left.
    + cbn [andb]. rewrite IH by (intros Hin; apply H; now right).
      cbn [length]. lia.
Qed.

Lemma substring_prefix (a b : jsstring) :
  substring 0 (Z.of_nat (length a)) (a ++ b) = a.
Proof.
  unfold substring, clampIndex. rewrite length_app.
  rewrite Z.max_l, Z.min_l by lia. rewrite Z.max_l, Z.min_l by lia.
  rewrite Nat2Z.id. cbn [Z.to_nat]. rewrite Nat.min_l, Nat.max_r by lia.
  cbn [skipn]. rewrite Nat.sub_0_r.
  rewrite firstn_app, firstn_all, Nat.sub_diag. cbn. apply app_nil_r.
Qed.

(** A key that is read back as it was written. *)
Definition plainKey (key : jsstring) : Prop :=
  key <> [] /\ ~ In (ch ":") key /\ isTrimmed key = true.

Lemma parseLine_written (o : FrontmatterObject) (key printed : jsstring) :
  plainKey key -> isTrimmed printed = true ->
  parseLine host o (key ++ js ": " ++ printed)
  = fmSet key (parseYamlValue host printed) o.
Proof.
  intros (Hne & Hcolon & Htrim) Hp. unfold parseLine.
  change (js ": " ++ printed) with (ch ":" :: ch " " :: printed).
  change (js ":") with [ch ":"].
  unfold indexOf. rewrite indexOf_from_first by exact Hcolon.
  cbn [Z.add].
  assert (Hpos : (Z.of_nat (length key) >? 0)%Z = true).
  { destruct key; [congruence|]. cbn [length]. apply Z.gtb_lt. lia. }
  rewrite Hpos.
  rewrite substring_prefix, (trim_fixed key Htrim).
  replace (key ++ ch ":" :: ch " " :: printed)
    with ((key ++ [ch ":"]) ++ ch " " :: printed) by (now rewrite <- app_assoc).
  replace (Z.of_nat (length key) + 1)%Z with (Z.of_nat (length (key ++ [ch ":"])))
    by (rewrite length_app; cbn [length]; lia).
  rewrite substring_suffix.
  rewrite trim_skip by reflexivity. now rewrite (trim_fixed printed Hp).
Qed.

Definition quote (s : jsstring) : jsstring := dq :: s ++ [dq].

Lemma quote_trimmed (s : jsstring) : isTrimmed (quote s) = true.
Proof.
  unfold quote, isTrimmed.
  change (dq :: s ++ [dq]) with ((dq :: s) ++ [dq]).
  rewrite last_last. reflexivity.
Qed.

Lemma strSlice_inner (a b : N) (s : jsstring) :
  strSlice 1 (-1) (a :: s ++ [b]) = s.
Proof.
  unfold strSlice. cbn [length]. rewrite length_app. cbn [length].
  change (1 <? 0)%Z with false. change (-1 <? 0)%Z with true. cbv iota.
  replace (Z.to_nat (Z.min 1 (Z.of_nat (S (length s + 1))))) with 1 by lia.
  cbn [skipn].
  match goal with
  | |- firstn ?n _ = _ => replace n with (length s) by lia
  end.
  rewrite firstn_app, firstn_all, Nat.sub_diag. cbn. apply app_nil_r.
Qed.

Lemma parseYamlValue_string (s : jsstring) :
  parseYamlValue host (quote s) = FString s.
Proof.
  unfold parseYamlValue, quote.
  change (startsWith (js "[") (dq :: s ++ [dq])) with false. cbn [andb].
  change (startsWith [dq] (dq :: s ++ [dq])) with true.
  change (dq :: s ++ [dq]) with ((dq :: s) ++ [dq]) at 1.
  rewrite endsWith_app. cbn [andb orb].
  now rewrite strSlice_inner.
Qed.

Lemma parseYamlValue_bool (b : bool) :
  parseYamlValue host (if b then js "true" else js "false") = FBool b.
Proof. now destruct b. Qed.

(** The pattern of line 393 takes the two outer quotes of a quoted item and
    nothing else. *)
Lemma exec_outerQuote_inside (i : nat) (c : N) (s : jsstring) :
  s <> [] -> exec_at outerQuoteRe (S i) (c :: s) = None.
Proof.
  intros Hs. unfold exec_at, outerQuoteRe.
  rewrite rmatch_alt, rmatch_seq, rmatch_bol. cbn [Nat.add Nat.eqb pos orElse].
  rewrite rmatch_seq, rmatch_chr. cbn [Regex.rest].
  destruct (isQuote c); [|reflexivity].
  unfold advance. cbn [rmatch pos Regex.rest caps tl].
  destruct s; [congruence|reflexivity].
Qed.

Lemma removeAll_from_item (fuel i : nat) (s : jsstring) :
  length s < fuel ->
  removeAll_from (S fuel) outerQuoteRe (S i) (s ++ [dq]) = s.
Proof.
  revert fuel i. induction s as [|c s IH]; intros fuel i Hf.
  - destruct fuel as [|fuel]; [simpl in Hf; lia|]. reflexivity.
  - destruct fuel as [|fuel]; [simpl in Hf; lia|].
    change ((c :: s) ++ [dq]) with (c :: s ++ [dq]).
    rewrite removeAll_from_miss
      by (apply exec_outerQuote_inside; destruct s; discriminate).
    f_equal. apply IH. simpl in Hf. lia.
Qed.

Lemma removeAll_quote (s : jsstring) : removeAll outerQuoteRe (quote s) = s.
Proof.
  unfold removeAll, quote. cbn [length]. rewrite length_app. cbn [length].
  replace (S (S (length s + 1))) with (S (S (S (length s)))) by lia.
  change (removeAll_from (S (S (S (length s)))) outerQuoteRe 0 (dq :: s ++ [dq]))
    with (removeAll_from (S (S (length s))) outerQuoteRe 1 (s ++ [dq])).
  apply removeAll_from_item. lia.
Qed.

Definition comma : N := ch ",".

Lemma split_no_sep (c : N) (a : jsstring) : ~ In c a -> split c a = [a].
Proof.
  induction a as [|x a IH]; intros H; [reflexivity|]. cbn [split].
  destruct (N.eqb x c) eqn:E.
  - apply N.eqb_eq in E. subst x. elim H. now left.
  - rewrite IH by (intros Hin; apply H; now right). reflexivity.
Qed.

Lemma split_app_sep (c : N) (a b : jsstring) :
  ~ In c a -> split c (a ++ c :: b) = a :: split c b.
Proof.
  induction a as [|x a IH]; intros H.
  - cbn [app split]. now rewrite N.eqb_refl.
  - cbn [app split]. destruct (N.eqb x c) eqn:E.
    + apply N.eqb_eq in E. subst x. elim H. now left.
    + rewrite IH by (intros Hin; apply H; now right). reflexivity.
Qed.

Lemma quote_no_comma (s : jsstring) : ~ In comma s -> ~ In comma (ch " " :: quote s).
Proof.
  intros H Hin. unfold quote in Hin. destruct Hin as [E|[E|Hin]]; try discriminate E.
  apply in_app_or in Hin as [Hin|[E|[]]]; [now apply H|discriminate E].
Qed.

Lemma split_items (items : list jsstring) :
  items <> [] -> Forall (fun item => ~ In comma item) items ->
  split comma (ch " " :: join (js ", ") (map quote items))
  = map (fun item => ch " " :: quote item) items.
Proof.
  induction items as [|x items IH]; [congruence|]. intros _ H.
  apply Forall_cons_iff in H as [Hx Hl].
  destruct items as [|y items].
  - cbn [map join]. apply split_no_sep. now apply quote_no_comma.
  - change (map quote (x :: y :: items)) with (quote x :: map quote (y :: items)).
    rewrite join_cons by discriminate.
    change (ch " " :: quote x ++ js ", " ++ join (js ", ") (map quote (y :: items)))
      with ((ch " " :: quote x)
            ++ comma :: ch " " :: join (js ", ") (map quote (y :: items))).
    rewrite split_app_sep by (now apply quote_no_comma).
    rewrite IH by (try discriminate; exact Hl). reflexivity.
Qed.

Lemma parseYamlValue_array (items : list jsstring) :
  items <> [] -> Forall (fun item => ~ In comma item) items ->
  parseYamlValue host (js "[" ++ join (js ", ") (map quote items) ++ js "]")
  = FArray items.
Proof.
  intros Hne Hc. unfold parseYamlValue.
  set (inner := join (js ", ") (map quote items)).
  change (startsWith (js "[") (js "[" ++ inner ++ js "]")) with true.
  replace (js "[" ++ inner ++ js "]") with ((js "[" ++ inner) ++ js "]")
    by (now rewrite <- app_assoc).
  rewrite endsWith_app. cbn [andb].
  change ((js "[" ++ inner) ++ js "]") with (ch "[" :: inner ++ [ch "]"]).
  rewrite strSlice_inner. f_equal.
  destruct items as [|x items]; [congruence|].
  apply Forall_cons_iff in Hc as [Hx Hl].
  assert (Hsplit : split (ch ",") inner
                   = quote x :: map (fun item => ch " " :: quote item) items).
  { unfold inner. destruct items as [|y items].
    - cbn [map join]. apply split_no_sep.
      intros Hin. apply (quote_no_comma x Hx). now right.
    - change (map quote (x :: y :: items)) with (quote x :: map quote (y :: items)).
      rewrite join_cons by discriminate.
      change (quote x ++ js ", " ++ join (js ", ") (map quote (y :: items)))
        with (quote x ++ comma :: ch " " :: join (js ", ") (map quote (y :: items))).
      rewrite split_app_sep
        by (intros Hin; apply (quote_no_comma x Hx); now right).
      now rewrite split_items by (try discriminate; exact Hl). }
  rewrite Hsplit. cbn [map]. f_equal.
  - rewrite (trim_fixed _ (quote_trimmed x)). apply removeAll_quote.
  - rewrite map_map. rewrite <- (map_id items) at 2. apply map_ext.
    intros item. rewrite trim_skip by reflexivity.
    rewrite (trim_fixed _ (quote_trimmed item)). apply removeAll_quote.
Qed.

(** A value that a line carries back: a string without a line feed, a
    boolean, or an array that is not empty and whose items hold neither a
    comma nor a line feed. *)
Definition readable (value : FMValue) : Prop :=
  match value with
  | FString s => ~ In lf s
  | FBool _ => True
  | FArray items =>
      items <> [] /\ Forall (fun item => ~ In comma item /\ ~ In lf item) items
  | FNumber _ => False
  end.

Lemma quote_one_line (s : jsstring) : ~ In lf s -> ~ In lf (quote s).
Proof.
  intros H Hin. unfold quote in Hin. destruct Hin as [E|Hin]; [discriminate E|].
  apply in_app_or in Hin as [Hin|[E|[]]]; [now apply H|discriminate E].
Qed.

Lemma join_one_line (items : list jsstring) :
  Forall (fun item => ~ In lf item) items ->
  ~ In lf (join (js ", ") (map quote items)).
Proof.
  induction items as [|x items IH]; intros H; [intros []|].
  apply Forall_cons_iff in H as [Hx Hl].
  destruct items as [|y items]; [cbn [map join]; now apply quote_one_line|].
  change (map quote (x :: y :: items)) with (quote x :: map quote (y :: items)).
  rewrite join_cons by discriminate. intros Hin.
  apply in_app_or in Hin as [Hin|Hin]; [now apply (quote_one_line x Hx)|].
  apply in_app_or in Hin as [Hin|Hin]; [|now apply (IH Hl)].
  cbn in Hin. destruct Hin as [E|[E|[]]]; discriminate E.
Qed.

Lemma written_one_line (key printed : jsstring) :
  ~ In lf key -> ~ In lf printed -> ~ In lf (key ++ js ": " ++ printed).
Proof.
  intros Hk Hp Hin. apply in_app_or in Hin as [Hin|Hin]; [now apply Hk|].
  apply in_app_or in Hin as [Hin|Hin]; [|now apply Hp].
  cbn in Hin. destruct Hin as [E|[E|[]]]; discriminate E.
Qed.

(** X8.  The line [generateFrontmatter] writes for a key and a value is read
    back by [applyEnhancement], which splits the block on line feeds and
    then reads each line, as the same key and the same value, when neither
    holds a line feed: strings, booleans, and arrays of items without a
    comma. *)
Theorem frontmatter_line_read_back (key : jsstring) (value : FMValue) :
  plainKey key -> ~ In lf key -> readable value ->
  exists line,
    frontmatterLine host (key, value) = [line]
    /\ split lf line = [line]
    /\ forall o, fold_left (parseLine host) (split lf line) o = fmSet key value o.
Proof.
  intros Hk Hlf Hv.
  assert (H : exists line,
            frontmatterLine host (key, value) = [line]
            /\ ~ In lf line
            /\ forall o, parseLine host o line = fmSet key value o).
  { destruct value as [items|s|b|x]; cbn [readable] in Hv.
    - destruct Hv as [Hne Hc].
      assert (Hcomma : Forall (fun item => ~ In comma item) items).
      { apply Forall_forall. intros item Hi.
        now apply (proj1 (Forall_forall _ _) Hc item Hi). }
      assert (Hline : Forall (fun item => ~ In lf item) items).
      { apply Forall_forall. intros item Hi.
        now apply (proj1 (Forall_forall _ _) Hc item Hi). }
      exists (key ++ js ": " ++ (js "[" ++ join (js ", ") (map quote items) ++ js "]")).
      split; [|split].
      + unfold frontmatterLine. cbn [fst snd].
        destruct items as [|x items]; [congruence|].
        reflexivity.
      + apply written_one_line; [exact Hlf|]. intros Hin.
        change (js "[" ++ join (js ", ") (map quote items) ++ js "]")
          with (ch "[" :: join (js ", ") (map quote items) ++ [ch "]"]) in Hin.
        destruct Hin as [E|Hin]; [discriminate E|].
        apply in_app_or in Hin as [Hin|[E|[]]]; [|discriminate E].
        now apply (join_one_line items Hline).
      + intros o. rewrite parseLine_written; [|exact Hk|].
        * now rewrite parseYamlValue_array.
        * unfold isTrimmed.
          change (js "[" ++ join (js ", ") (map quote items) ++ js "]")
            with ((ch "[" :: join (js ", ") (map quote items)) ++ [ch "]"]).
          cbn [app].
          change (ch "[" :: join (js ", ") (map quote items) ++ [ch "]"])
            with ((ch "[" :: join (js ", ") (map quote items)) ++ [ch "]"]).
          rewrite last_last. reflexivity.
    - exists (key ++ js ": " ++ quote s). split; [reflexivity|]. split.
      + apply written_one_line; [exact Hlf|now apply quote_one_line].
      + intros o. rewrite parseLine_written; [|exact Hk|apply quote_trimmed].
        now rewrite parseYamlValue_string.
    - exists (key ++ js ": " ++ (if b then js "true" else js "false")).
      split; [reflexivity|]. split.
      + apply written_one_line; [exact Hlf|].
        destruct b; cbn; intros Hin;
          repeat (destruct Hin as [E|Hin]; [discriminate E|]); exact Hin.
      + intros o. rewrite parseLine_written; [|exact Hk|now destruct b].
        now rewrite parseYamlValue_bool.
    - destruct Hv. }
  destruct H as (line & Hw & Hone & Hread). exists line.
  split; [exact Hw|]. rewrite (split_no_sep lf line Hone).
  split; [reflexivity|]. intros o. cbn [fold_left]. apply Hread.
Qed.

End WithHost.

(** ** Examples *)

Definition exampleFile : TFile := mkTFile (js "n.md") 0 0.

Lemma splitFrontmatter_block_witness :
  splitFrontmatter ProviderFacts.grokDown
    (opening ++ js "title: x" ++ closing ++ lf :: js "Body")
  = ([(js "title", FString (js "x"))], js "Body").
Proof.
  exact (proj1 (splitFrontmatter_block ProviderFacts.grokDown (js "title: x")
                  (lf :: js "Body") eq_refl)).
Defined.

Lemma reenhance_adds_line_feed_witness :
  let host := ProviderFacts.grokDown in
  let settings := ProviderFacts.exampleSettings (js "grok") false in
  snd (splitFrontmatter host
         (enhancedContent host settings exampleFile (js "hello") emptyEnhancement 42))
  = lf :: js "hello".
Proof.
  intros host settings.
  destruct (reenhance_adds_line_feed host settings exampleFile (js "hello")
              emptyEnhancement 42 eq_refl) as (_ & H & _).
  rewrite H. reflexivity.
Defined.

Lemma cleanContent_frontmatter_witness :
  let host := ProviderFacts.grokDown in
  let settings := ProviderFacts.exampleSettings (js "grok") false in
  cleanContent
    (enhancedContent host settings exampleFile (js "hello") emptyEnhancement 42)
  = cleanContent (js "hello")
  /\ cleanContent (opening ++ js "title: x" ++ closing ++ lf :: js "Body") = js "Body".
Proof.
  intros host settings. split.
  - apply (proj2 (cleanContent_frontmatter host)); reflexivity.
  - rewrite (proj1 (cleanContent_frontmatter host) (js "title: x") (lf :: js "Body")
               eq_refl).
    reflexivity.
Defined.

(** The tags come back; a summary of two lines does not: its second line is
    read as a line of its own. *)
Lemma frontmatter_line_read_back_witness :
  (exists line,
     frontmatterLine ProviderFacts.grokDown (js "sane_tags", FArray [js "a"; js "b"])
     = [line]
     /\ split lf line = [line]
     /\ forall o,
          fold_left (parseLine ProviderFacts.grokDown) (split lf line) o
          = fmSet (js "sane_tags") (FArray [js "a"; js "b"]) o)
  /\ fold_left (parseLine ProviderFacts.grokDown)
       (split lf (js "sane_summary: " ++ quote (js "a" ++ [lf] ++ js "b"))) []
     <> fmSet (js "sane_summary") (FString (js "a" ++ [lf] ++ js "b")) [].
Proof.
  split.
  - apply frontmatter_line_read_back.
    + split; [discriminate|]. split; [|reflexivity].
      cbn. intros H. repeat (destruct H as [H|H]; [discriminate H|]). exact H.
    + cbn. intros H. repeat (destruct H as [H|H]; [discriminate H|]). exact H.
    + split; [discriminate|]. repeat constructor;
        cbn; intros H; repeat (destruct H as [H|H]; [discriminate H|]); exact H.
  - vm_compute. discriminate.
Defined.

End NoteTextFacts.
(* ================================================================== *)
(** * The empty enhancement in the text of a note *)
(* ================================================================== *)

Module EmptyEnhancementFacts.

Import RankingFacts ParserFacts RegexFacts NoteTextFacts FrontmatterFacts.

(** ** The first closing line *)





Section WithHost.
Variable host : Host.






End WithHost.



End EmptyEnhancementFacts.

(* ================================================================== *)
(** * The store, the ledger and the saved map *)
(* ================================================================== *)

Module StoreFacts.

Import RankingFacts.

(** ** What a ranking can hold *)

Section AnyNumber.
Context {num : Type} {ops : Number num}.

Lemma get_In {V} (k : jsstring) (v : V) (m : list (jsstring * V)) :
  JSMap.get k m = Some v -> In (k, v) m.
Proof.
  induction m as [|[k' v'] m IH]; simpl; [discriminate|].
  destruct (str_eqb k k') eqn:E.
  - intros H. injection H as ->. apply str_eqb_eq in E. subst k'. now left.
  - intros H. right. now apply IH.
Qed.

Lemma similarities_sound (vault : list TAbstractFile)
  (noteEmbeddings : list (jsstring * NoteEmbedding num))
  (excludePath : jsstring) (cur : NoteEmbedding num) (r : RelevantNote num) :
  In r (similarities vault noteEmbeddings excludePath cur) ->
  exists noteEmbedding,
    In (file_path (file r), noteEmbedding) noteEmbeddings
    /\ In (AFile (file r)) vault
    /\ similarity r = cosineSimilarity (embedding cur) (embedding noteEmbedding).
Proof.
  unfold similarities. intros H.
  apply in_flat_map in H as ([p ne] & Hin & H).
  destruct (str_eqb p excludePath); [destruct H|].
  destruct (getAbstractFileByPath vault p) as [[f|fp]|] eqn:Hf; [|destruct H|destruct H].
  destruct H as [<-|[]]. cbn [file similarity].
  unfold getAbstractFileByPath in Hf. apply find_some in Hf as [Hv Hp].
  cbn [abstractPath] in Hp. apply str_eqb_eq in Hp. subst p.
  exists ne. auto.
Qed.

Lemma ranked_sound (vault : list TAbstractFile)
  (noteEmbeddings : list (jsstring * NoteEmbedding num))
  (queryPath : jsstring) (k : Z) (r : RelevantNote num) :
  In r (findRelevantNotes vault noteEmbeddings queryPath k) ->
  exists cur noteEmbedding,
    JSMap.get queryPath noteEmbeddings = Some cur
    /\ In (file_path (file r), noteEmbedding) noteEmbeddings
    /\ In (AFile (file r)) vault
    /\ file_path (file r) <> queryPath
    /\ similarity r = cosineSimilarity (embedding cur) (embedding noteEmbedding).
Proof.
  intros Hr. pose proof (findRelevantNotes_exclude _ _ _ _ _ Hr) as Hx.
  unfold findRelevantNotes in Hr.
  destruct (JSMap.get queryPath noteEmbeddings) as [cur|]; [|destruct Hr].
  apply slice0_In, sort_In in Hr.
  destruct (similarities_sound _ _ _ _ _ Hr) as (ne & H1 & H2 & H3).
  exists cur, ne. auto.
Qed.

(** X9.  Every note of a ranking is a file of the vault that has an embedding in
    the store under its own path, other than the query, and its similarity
    is the cosine of the two stored vectors.  A query path without an
    embedding gives the empty ranking, and so does the count 0. *)
Theorem findRelevantNotes_sound (vault : list TAbstractFile)
  (noteEmbeddings : list (jsstring * NoteEmbedding num))
  (queryPath : jsstring) (k : Z) :
  (forall r, In r (findRelevantNotes vault noteEmbeddings queryPath k) ->
     exists cur noteEmbedding,
       JSMap.get queryPath noteEmbeddings = Some cur
       /\ In (file_path (file r), noteEmbedding) noteEmbeddings
       /\ In (AFile (file r)) vault
       /\ file_path (file r) <> queryPath
       /\ similarity r = cosineSimilarity (embedding cur) (embedding noteEmbedding))
  /\ (JSMap.get queryPath noteEmbeddings = None ->
      findRelevantNotes vault noteEmbeddings queryPath k = [])
  /\ findRelevantNotes vault noteEmbeddings queryPath 0 = [].
Proof.
  split; [|split].
  - intros r. apply ranked_sound.
  - intros H. unfold findRelevantNotes. now rewrite H.
  - unfold findRelevantNotes. destruct (JSMap.get queryPath noteEmbeddings);
      [|reflexivity].
    unfold JSArray.slice0. change (0 <? 0)%Z with false. cbv iota.
    rewrite Z.min_l by lia. reflexivity.
Qed.

(** A path that has no embedding is never ranked. *)
Lemma unindexed_not_ranked (vault : list TAbstractFile)
  (noteEmbeddings : list (jsstring * NoteEmbedding num))
  (queryPath path : jsstring) (k : Z) (r : RelevantNote num) :
  JSMap.get path noteEmbeddings = None ->
  In r (findRelevantNotes vault noteEmbeddings queryPath k) ->
  file_path (file r) <> path.
Proof.
  intros Hnone Hr E.
  destruct (ranked_sound vault noteEmbeddings queryPath k r Hr)
    as (cur & ne & _ & Hin & _).
  rewrite E in Hin. clear - Hnone Hin.
  induction noteEmbeddings as [|[k' v'] m IH]; [destruct Hin|].
  simpl in Hnone. destruct (str_eqb path k') eqn:Ek; [discriminate|].
  destruct Hin as [H|H]; [|now apply IH].
  injection H as -> _. now rewrite str_eqb_refl in Ek.
Qed.

End AnyNumber.

Lemma findRelevantNotes_sound_witness :
  let r := mkRelevantNote (mkTFile (js "C") 0 0) 1%float in
  exists cur noteEmbedding,
    JSMap.get (js "A") scenarioStore = Some cur
    /\ In (file_path (file r), noteEmbedding) scenarioStore
    /\ In (AFile (file r)) scenarioVault
    /\ file_path (file r) <> js "A"
    /\ similarity r = cosineSimilarity (embedding cur) (embedding noteEmbedding).
Proof.
  intros r.
  apply (proj1 (findRelevantNotes_sound scenarioVault scenarioStore (js "A") 2) r).
  left. reflexivity.
Defined.

(** ** The ledger *)

Definition thirtyDays : Z := 30 * 24 * 60 * 60 * 1000.

Lemma recordCost_filter (settings : SANESettings) (costEntries : list CostEntry)
  (now : Z) (operation : jsstring) (tokens : float) :
  recordCost settings costEntries now operation tokens
  = filter (fun e => (now - thirtyDays <=? timestamp e)%Z) costEntries
    ++ [mkCostEntry now operation (estimateCost (aiProvider settings) tokens)
          (aiProvider settings)].
Proof.
  unfold recordCost. cbv zeta. rewrite filter_app. f_equal.
  cbn [filter timestamp].
  destruct (_ <=? _)%Z eqn:E; [reflexivity|]. apply Z.leb_gt in E. lia.
Qed.

(** X10.  [recordCost] appends the new entry, priced by [estimateCost], and keeps
    of the earlier entries exactly those of the last thirty days, in their
    order: after it no entry of the ledger is older than thirty days. *)
Theorem recordCost_window (settings : SANESettings) (costEntries : list CostEntry)
  (now : Z) (operation : jsstring) (tokens : float) :
  let entry :=
    mkCostEntry now operation (estimateCost (aiProvider settings) tokens)
      (aiProvider settings) in
  let ledger := recordCost settings costEntries now operation tokens in
  ledger
  = filter (fun e => (now - thirtyDays <=? timestamp e)%Z) costEntries ++ [entry]
  /\ Forall (fun e => (now - thirtyDays <= timestamp e)%Z) ledger
  /\ (Forall (fun e => (now - thirtyDays <= timestamp e)%Z) costEntries ->
      ledger = costEntries ++ [entry]).
Proof.
  intros entry ledger.
  assert (H : ledger
              = filter (fun e => (now - thirtyDays <=? timestamp e)%Z) costEntries
                ++ [entry]).
  { apply recordCost_filter. }
  split; [exact H|]. split.
  - rewrite H. apply Forall_app. split.
    + apply Forall_forall. intros e He. apply filter_In in He as [_ He].
      now apply Z.leb_le.
    + constructor; [|constructor]. unfold entry. cbn [timestamp].
      unfold thirtyDays. lia.
  - intros Hall. rewrite H. f_equal. clear H ledger.
    induction Hall as [|e l He Hl IH]; [reflexivity|]. cbn [filter].
    apply Z.leb_le in He. rewrite He. now f_equal.
Qed.

Lemma recordCost_window_witness :
  recordCost (BudgetFacts.budgetSettings true) BudgetFacts.spentBudget 3000
    (js "enhancement") 4000%float
  = BudgetFacts.spentBudget
    ++ [mkCostEntry 3000 (js "enhancement") (estimateCost (js "openai") 4000)
          (js "openai")].
Proof.
  destruct (recordCost_window (BudgetFacts.budgetSettings true) BudgetFacts.spentBudget
              3000 (js "enhancement") 4000%float) as (_ & _ & H).
  apply H. repeat constructor; cbn; unfold thirtyDays; lia.
Defined.

Section WithCalendar.
Variable toDateString : Z -> jsstring.

Lemma fold_left_snoc {A B} (f : A -> B -> A) (l : list B) (x : B) (a : A) :
  fold_left f (l ++ [x]) a = f (fold_left f l a) x.
Proof. now rewrite fold_left_app. Qed.

(** X11.  What is recorded counts at once against the budget of the day: after
    [recordCost] the costs of today are those of before plus the cost just
    estimated, and [canAffordProcessing] compares that sum with the budget.
    (The entries of today are assumed to be of the last thirty days, as they
    are for any calendar.) *)
Theorem recordCost_counts_today (settings : SANESettings)
  (costEntries : list CostEntry) (now : Z) (operation : jsstring) (tokens : float) :
  Forall (fun e => toDateString (timestamp e) = toDateString now ->
                   (now - thirtyDays <= timestamp e)%Z) costEntries ->
  let ledger := recordCost settings costEntries now operation tokens in
  let price := estimateCost (aiProvider settings) tokens in
  todayCosts toDateString ledger now
  = (todayCosts toDateString costEntries now + price)%float
  /\ (costTracking settings = true ->
      canAffordProcessing toDateString settings ledger now
      = (todayCosts toDateString costEntries now + price <? dailyBudget settings)%float).
Proof.
  intros Hcal ledger price.
  assert (H : todayCosts toDateString ledger now
              = (todayCosts toDateString costEntries now + price)%float).
  { unfold ledger.
    rewrite recordCost_filter.
    unfold todayCosts. rewrite filter_app. cbn [filter timestamp].
    rewrite str_eqb_refl. rewrite fold_left_snoc. cbn [cost]. f_equal. f_equal.
    induction Hcal as [|e l He Hl IH]; [reflexivity|]. cbn [filter].
    destruct (str_eqb (toDateString (timestamp e)) (toDateString now)) eqn:Ed.
    - apply str_eqb_eq in Ed. specialize (He Ed). apply Z.leb_le in He.
      rewrite He. cbn [filter]. rewrite (proj2 (str_eqb_eq _ _) Ed). now f_equal.
    - destruct (_ <=? _)%Z; [cbn [filter]; rewrite Ed|]; exact IH. }
  split; [exact H|]. intros Ht.
  unfold canAffordProcessing. rewrite Ht. cbn [negb]. now rewrite H.
Qed.

End WithCalendar.

Lemma recordCost_counts_today_witness :
  todayCosts BudgetFacts.utcDay
    (recordCost (BudgetFacts.budgetSettings true) BudgetFacts.spentBudget 3000
       (js "enhancement") 4000%float) 3000
  = (todayCosts BudgetFacts.utcDay BudgetFacts.spentBudget 3000
     + estimateCost (js "openai") 4000)%float.
Proof.
  apply (recordCost_counts_today BudgetFacts.utcDay (BudgetFacts.budgetSettings true)
           BudgetFacts.spentBudget 3000 (js "enhancement") 4000%float).
  repeat constructor; cbn; unfold thirtyDays; lia.
Defined.

(** ** Loading the saved map *)

(** An item [new Map] can take an entry from. *)
Definition isEntryObject (item : JSValue) : bool :=
  match item with
  | VArray _ | VObject _ => true
  | _ => false
  end.

Lemma addEntries_bad_item (items : list JSValue) (m : RuntimeMap) :
  existsb (fun item => negb (isEntryObject item)) items = true ->
  exists e, addEntries items m = Throw e.
Proof.
  revert m. induction items as [|item items IH]; intros m H; [discriminate|].
  cbn [existsb] in H. cbn [addEntries].
  destruct item; cbn [entryOf bind isEntryObject negb orb] in *; eauto.
Qed.

(** X12.  [loadEmbeddings] takes all of the saved entries or none: when
    nothing is saved, when the saved document is a number, a boolean or an
    object, or a string that is not empty, or when one item of the saved
    array is not an entry (a number, a string, a boolean, null), the map
    stays as it was, and no exception leaves the function.  A saved null
    and a saved empty string hold no entries, as the empty array does: the
    map is replaced by the empty map. *)
Theorem loadEmbeddings_all_or_nothing (noteEmbeddings : RuntimeMap)
  (localStorage : Storage) :
  (JSMap.get storageKey localStorage = None ->
   loadEmbeddings noteEmbeddings localStorage = noteEmbeddings)
  /\ (forall items,
        JSMap.get storageKey localStorage = Some (VArray items) ->
        existsb (fun item => negb (isEntryObject item)) items = true ->
        loadEmbeddings noteEmbeddings localStorage = noteEmbeddings)
  /\ (forall stored,
        JSMap.get storageKey localStorage = Some stored ->
        match stored with
        | VArray _ | VString [] | VNull => False
        | _ => True
        end ->
        loadEmbeddings noteEmbeddings localStorage = noteEmbeddings)
  /\ (forall stored,
        JSMap.get storageKey localStorage = Some stored ->
        stored = VNull \/ stored = VString [] \/ stored = VArray [] ->
        loadEmbeddings noteEmbeddings localStorage = []).
Proof.
  unfold loadEmbeddings. split; [|split; [|split]].
  - intros H. now rewrite H.
  - intros items H Hbad. rewrite H. cbn [JSON_parse_document bind newMap].
    destruct (addEntries_bad_item items [] Hbad) as [e ->]. reflexivity.
  - intros stored H Hs. rewrite H.
    destruct stored as [| | |[|]| |]; cbn in *; try reflexivity; destruct Hs.
  - intros stored H [->|[->| ->]]; rewrite H; reflexivity.
Qed.

Lemma loadEmbeddings_all_or_nothing_witness :
  let kept := runtimeStore scenarioStore in
  loadEmbeddings kept
    [(storageKey, VArray [VArray [VString (js "a.md"); VNull]; VNumber 5])]
  = kept
  /\ loadEmbeddings kept [(storageKey, VNull)] = [].
Proof.
  intros kept.
  destruct (loadEmbeddings_all_or_nothing kept
              [(storageKey, VArray [VArray [VString (js "a.md"); VNull]; VNumber 5])])
    as (_ & H & _).
  destruct (loadEmbeddings_all_or_nothing kept [(storageKey, VNull)])
    as (_ & _ & _ & Hnull).
  split.
  - apply (H [VArray [VString (js "a.md"); VNull]; VNumber 5]); reflexivity.
  - apply (Hnull VNull); [reflexivity|now left].
Defined.

End StoreFacts.

(* ================================================================== *)
(** * What processing a note can change *)
(* ================================================================== *)

Module EffectFacts.

Import RankingFacts ProviderFacts PipelineFacts ClientFacts StoreFacts.

(** [touches w w' written]: from [w] to [w'] the store of embeddings and the
    clock are as they were, the files of the vault are the same files, and
    [vault.modify] was called on the paths [written], in this order. *)
Definition touches (w w' : World) (written : list jsstring) : Prop :=
  noteEmbeddings w' = noteEmbeddings w
  /\ now w' = now w
  /\ modified w' = modified w ++ written
  /\ (forall q, inVault q w' <-> inVault q w)
  /\ map (fun e => file_path (fst e)) (vault w')
     = map (fun e => file_path (fst e)) (vault w).

Lemma touches_refl (w : World) : touches w w [].
Proof.
  unfold touches. rewrite app_nil_r. repeat split; auto.
Qed.

Lemma touches_trans (w w1 w2 : World) (l1 l2 : list jsstring) :
  touches w w1 l1 -> touches w1 w2 l2 -> touches w w2 (l1 ++ l2).
Proof.
  intros (A1 & B1 & C1 & D1 & E1) (A2 & B2 & C2 & D2 & E2). unfold touches.
  rewrite A2, B2, C2, C1, E2, app_assoc. repeat split; auto.
  - intros H. apply D1, D2, H.
  - intros H. apply D2, D1, H.
Qed.

Lemma writeFile_paths (path data : jsstring) (t : Z) (v : list (TFile * jsstring)) :
  map (fun e => file_path (fst e)) (writeFile path data t v)
  = map (fun e => file_path (fst e)) v.
Proof.
  induction v as [|[f c] v IH]; [reflexivity|]. cbn [writeFile].
  destruct (str_eqb (file_path f) path); cbn [map fst file_path]; now rewrite ?IH.
Qed.

Section WithHost.
Variable host : Host.

Lemma vaultModify_touches (f : TFile) (data : jsstring) (w w' : World)
  (res : Result unit) :
  vaultModify host f data w = (res, w') ->
  (touches w w' [] /\ (exists e, res = Throw e))
  \/ (touches w w' [file_path f] /\ res = Ok tt).
Proof.
  unfold vaultModify.
  destruct (modifyFault host (file_path f)) as [e|].
  { intros H. injection H as <- <-. left. split; [apply touches_refl|eauto]. }
  destruct (findFile (file_path f) (vault w)) as [x|] eqn:Hf.
  - intros H. injection H as <- <-. right. split; [|reflexivity].
    unfold touches. cbn [noteEmbeddings now modified vault]. repeat split.
    + unfold inVault. cbn [vault]. intros Hq. now apply findFile_writeFile in Hq.
    + unfold inVault. cbn [vault]. intros Hq. now apply findFile_writeFile.
    + apply writeFile_paths.
  - intros H. injection H as <- <-. left. split; [apply touches_refl|eauto].
Qed.

(** Enhancing one note writes that note, or nothing. *)
Lemma updateNoteWithAI_touches (p : ProviderState) (f : TFile)
  (relatedContent : list jsstring) (w w' : World) (res : Result unit) :
  updateNoteWithAI host p f relatedContent w = (res, w') ->
  touches w w' [] \/ touches w w' [file_path f].
Proof.
  unfold updateNoteWithAI, bindM, vaultRead.
  destruct (readFault host (file_path f)) as [e|].
  { intros H. injection H as <- <-. left. apply touches_refl. }
  destruct (findFile (file_path f) (vault w)) as [[f0 c0]|] eqn:Hf.
  2:{ intros H. injection H as <- <-. left. apply touches_refl. }
  unfold checkBudget.
  destruct (costTracking (settings p) && _).
  { intros H. injection H as <- <-. left. apply touches_refl. }
  destruct (generateEnhancement_frame host p (cleanContent c0) relatedContent w)
    as (e & ns & ->).
  set (w1 := mkWorld (vault w) (noteEmbeddings w) (costEntries w) ns (now w) (modified w)).
  assert (H1 : touches w w1 []).
  { unfold touches, w1. cbn. rewrite app_nil_r. repeat split; auto. }
  unfold recordEnhancement, applyEnhancement.
  destruct (costTracking (settings p)).
  - match goal with
    | |- vaultModify host f ?d ?w2 = _ -> _ =>
        intros H; assert (H2 : touches w1 w2 [])
    end.
    { unfold touches, w1. cbn. rewrite app_nil_r. repeat split; auto. }
    apply vaultModify_touches in H as [[H _]|[H _]].
    + left. exact (touches_trans _ _ _ [] [] (touches_trans _ _ _ [] [] H1 H2) H).
    + right.
      exact (touches_trans _ _ _ [] [file_path f] (touches_trans _ _ _ [] [] H1 H2) H).
  - intros H. apply vaultModify_touches in H as [[H _]|[H _]].
    + left. exact (touches_trans _ _ _ [] [] H1 H).
    + right. exact (touches_trans _ _ _ [] [file_path f] H1 H).
Qed.

(** The loop over the neighbours writes some of them, each at most once
    and in the order of the ranking. *)
Lemma updateNeighbors_touches (p : ProviderState) (cleanContent : jsstring)
  (l : list (RelevantNote float)) (w w' : World) (res : Result unit) :
  updateNeighbors host p cleanContent l w = (res, w') ->
  exists written,
    touches w w' written
    /\ incl written (map (fun r => file_path (file r)) l)
    /\ length written <= length l.
Proof.
  unfold updateNeighbors. revert w. induction l as [|r l IH]; intros w H.
  - cbn in H. injection H as <- <-. exists []. split; [apply touches_refl|].
    split; [apply incl_nil_l|apply Nat.le_refl].
  - cbn [forEach] in H. unfold bindM in H.
    destruct (updateNoteWithAI host p (file r) [cleanContent] w) as [[u|e] w1] eqn:H1.
    + apply updateNoteWithAI_touches in H1.
      destruct (IH w1 H) as (written & Ht & Hi & Hl).
      destruct H1 as [H1|H1].
      * exists written. split; [eapply (touches_trans _ _ _ [] written); eassumption|].
        split; [now apply incl_tl|cbn [length]; lia].
      * exists (file_path (file r) :: written).
        split; [eapply (touches_trans _ _ _ [file_path (file r)] written); eassumption|].
        split; [|cbn [length]; lia].
        cbn [map]. intros q [<-|Hq]; [now left|right; now apply Hi].
    + injection H as <- <-. apply updateNoteWithAI_touches in H1.
      destruct H1 as [H1|H1].
      * exists []. split; [exact H1|]. split; [apply incl_nil_l|cbn; lia].
      * exists [file_path (file r)]. split; [exact H1|].
        split; [|cbn [length]; lia].
        cbn [map]. intros q [<-|[]]. now left.
Qed.

(** The world after the embedding of the note was stored. *)
Definition stored (f : TFile) (content : jsstring) (embedding : list float)
  (w : World) : list (jsstring * NoteEmbedding float) :=
  JSMap.set (file_path f)
    (mkNoteEmbedding (file_path f) (cleanContent content) embedding
       (PrimFloat.of_uint63 (Uint63.of_Z (now w))))
    (noteEmbeddings w).

Lemma notice_touches (message : jsstring) (w : World) :
  touches w (snd (notice message w)) [].
Proof.
  unfold touches. cbn. rewrite app_nil_r. repeat split; auto.
Qed.

Lemma vaultIndex_In (w : World) (file : TFile) :
  In (AFile file) (vaultIndex w) ->
  In (file_path file) (map (fun e => file_path (fst e)) (vault w)).
Proof.
  unfold vaultIndex. intros H. apply in_map_iff in H as ([f c] & E & Hin).
  injection E as ->. apply in_map_iff. exists (file, c). auto.
Qed.

Lemma set_length {V} (k : jsstring) (v : V) (m : list (jsstring * V)) :
  length m <= length (JSMap.set k v m).
Proof.
  induction m as [|[k' v'] m IH]; cbn [JSMap.set length]; [lia|].
  destruct (str_eqb k k'); cbn [length]; lia.
Qed.

(** What [processNote] has done when it leaves the world [w1]. *)
Definition outcome (p : ProviderState) (f : TFile) (w w1 : World) : Prop :=
  (noteEmbeddings w1 = noteEmbeddings w
   \/ exists content embedding,
        findFile (file_path f) (vault w) = Some (content)
        /\ embedding <> []
        /\ noteEmbeddings w1 = stored f (snd content) embedding w)
  /\ (exists written,
        modified w1 = modified w ++ written
        /\ (forall q, In q written ->
              q = file_path f
              \/ (JSMap.get q (noteEmbeddings w1) <> None
                  /\ In q (map (fun e => file_path (fst e)) (vault w))))
        /\ ((0 <= relevantNotesCount (settings p))%Z ->
            (Z.of_nat (length written) <= relevantNotesCount (settings p) + 1)%Z)
        /\ (10 <= length (noteEmbeddings w) -> ~ In (file_path f) written))
  /\ map (fun e => file_path (fst e)) (vault w1)
     = map (fun e => file_path (fst e)) (vault w)
  /\ now w1 = now w.

Lemma outcome_nothing (p : ProviderState) (f : TFile) (w w1 : World) :
  touches w w1 [] -> outcome p f w w1.
Proof.
  intros (A & B & C & D & E). split; [now left|]. split; [|auto].
  exists []. split; [exact C|]. split; [intros q []|]. split; [cbn [length]; lia|].
  intros _ [].
Qed.

(** The outcome when the embedding [v] was stored in [w2] and the loops
    wrote [written ++ last] up to [w1]. *)
Lemma outcome_stored (p : ProviderState) (f f0 : TFile) (c0 : jsstring)
  (v : list float) (w w2 w1 : World) (written last : list jsstring) :
  findFile (file_path f) (vault w) = Some (f0, c0) ->
  v <> [] ->
  noteEmbeddings w2 = stored f c0 v w ->
  now w2 = now w ->
  modified w2 = modified w ->
  map (fun e => file_path (fst e)) (vault w2) = map (fun e => file_path (fst e)) (vault w) ->
  touches w2 w1 (written ++ last) ->
  incl written
    (map (fun r => file_path (file r))
       (findRelevantNotes (vaultIndex w2) (noteEmbeddings w2) (file_path f)
          (relevantNotesCount (settings p)))) ->
  length written
  <= length (findRelevantNotes (vaultIndex w2) (noteEmbeddings w2) (file_path f)
               (relevantNotesCount (settings p))) ->
  (last = [] \/ (last = [file_path f] /\ length (noteEmbeddings w2) < 10)) ->
  outcome p f w w1.
Proof.
  intros Hf Hv Hs Hn2 Hm2 Hp2 (A & B & C & D & E) Hi Hl Hlast.
  assert (Hwr : forall q, In q written ->
            JSMap.get q (noteEmbeddings w2) <> None
            /\ In q (map (fun e => file_path (fst e)) (vault w))
            /\ q <> file_path f).
  { intros q Hq. apply Hi in Hq. apply in_map_iff in Hq as (r & <- & Hr).
    destruct (ranked_sound (vaultIndex w2) (noteEmbeddings w2)
                (file_path f) (relevantNotesCount (settings p)) r Hr)
      as (cur & ne & _ & Hin & Hvault & Hneq & _).
    split; [|split; [|exact Hneq]].
    - intros Hg. exact (unindexed_not_ranked _ _ _ _ _ r Hg Hr eq_refl).
    - apply vaultIndex_In in Hvault. now rewrite Hp2 in Hvault. }
  split; [right; exists (f0, c0), v; rewrite A; auto|].
  split; [|split; [rewrite E; exact Hp2|rewrite B; exact Hn2]].
  exists (written ++ last). split; [rewrite C, Hm2; reflexivity|]. split; [|split].
  - intros q Hq. apply in_app_or in Hq as [Hq|Hq].
    + right. rewrite A. destruct (Hwr q Hq) as (H1 & H2 & _). auto.
    + left. destruct Hlast as [->|[-> _]]; [destruct Hq|].
      destruct Hq as [<-|[]]. reflexivity.
  - intros Hk. pose proof (findRelevantNotes_length (vaultIndex w2) (noteEmbeddings w2)
                             (file_path f) (relevantNotesCount (settings p)) Hk) as Hlen.
    rewrite length_app. destruct Hlast as [->|[-> _]]; cbn [length]; lia.
  - intros Hten Hin. apply in_app_or in Hin as [Hin|Hin].
    + destruct (Hwr _ Hin) as (_ & _ & Hne). now apply Hne.
    + destruct Hlast as [->|[-> Hlt]]; [destruct Hin|].
      rewrite Hs in Hlt. unfold stored in Hlt.
      pose proof (set_length (file_path f)
                    (mkNoteEmbedding (file_path f) (cleanContent c0) v
                       (PrimFloat.of_uint63 (Uint63.of_Z (now w))))
                    (noteEmbeddings w)) as Hge.
      lia.
Qed.

Lemma processNote_changes (p : ProviderState) (f : TFile) (w : World) :
  outcome p f w (snd (processNote host p f w)).
Proof.
  unfold processNote.
  destruct (isConfigured p); cbn [negb].
  2:{ apply outcome_nothing, notice_touches. }
  assert (Hbody : outcome p f w (snd (processNoteBody host p f w))).
  { unfold processNoteBody, bindM, vaultRead.
    destruct (readFault host (file_path f)) as [e0|];
      [apply outcome_nothing, touches_refl|].
    destruct (findFile (file_path f) (vault w)) as [[f0 c0]|] eqn:Hf;
      [|apply outcome_nothing, touches_refl].
    destruct (generateEmbedding_frame host p (cleanContent c0) w) as (v & ns & ->).
    set (wn := mkWorld (vault w) (noteEmbeddings w) (costEntries w) ns (now w)
                 (modified w)).
    assert (Hn : touches w wn []).
    { unfold touches, wn. cbn. rewrite app_nil_r. repeat split; auto. }
    destruct (Nat.eqb (length v) 0) eqn:Hv; [apply outcome_nothing, Hn|].
    assert (Hv' : v <> []) by (intros ->; discriminate Hv).
    unfold storeEmbedding.
    set (w2 := mkWorld (vault wn) _ (costEntries wn) (notices wn) (now wn) (modified wn)).
    unfold rank.
    set (ranking := findRelevantNotes (vaultIndex w2) (noteEmbeddings w2) (file_path f)
                      (relevantNotesCount (settings p))).
    destruct (updateNeighbors host p (cleanContent c0) ranking w2) as [[u1|e1] w3] eqn:H3;
      apply updateNeighbors_touches in H3 as (written & Ht & Hi & Hl).
    - unfold isInitialization.
      destruct (Nat.ltb (length (noteEmbeddings w3)) 10) eqn:Hten.
      + destruct (updateNoteWithAI host p f _ w3) as [r4 w4] eqn:H4.
        apply updateNoteWithAI_touches in H4.
        assert (H5 : snd (match r4 with
                          | Ok a => (Ok a, w4)
                          | Throw e => (@Throw unit e, w4)
                          end) = w4) by (now destruct r4).
        assert (Hlt : length (noteEmbeddings w2) < 10).
        { destruct Ht as (A & _). rewrite <- A. now apply Nat.ltb_lt. }
        destruct r4 as [u4|e4]; cbn [snd];
          (destruct H4 as [H4|H4];
           [apply (outcome_stored p f f0 c0 v w w2 w4 written []);
            [exact Hf|exact Hv'|reflexivity|reflexivity|reflexivity|reflexivity
            |exact (touches_trans _ _ _ written [] Ht H4)|exact Hi|exact Hl|now left]
           |apply (outcome_stored p f f0 c0 v w w2 w4 written [file_path f]);
            [exact Hf|exact Hv'|reflexivity|reflexivity|reflexivity|reflexivity
            |exact (touches_trans _ _ _ written [file_path f] Ht H4)|exact Hi|exact Hl
            |right; split; [reflexivity|exact Hlt]]]).
      + cbn [snd]. apply (outcome_stored p f f0 c0 v w w2 w3 written []);
          [exact Hf|exact Hv'|reflexivity|reflexivity|reflexivity|reflexivity
          |now rewrite app_nil_r|exact Hi|exact Hl|now left].
    - cbn [snd]. apply (outcome_stored p f f0 c0 v w w2 w3 written []);
        [exact Hf|exact Hv'|reflexivity|reflexivity|reflexivity|reflexivity
        |now rewrite app_nil_r|exact Hi|exact Hl|now left]. }
  unfold tryCatch. destruct (processNoteBody host p f w) as [[u|e] w1]; cbn [snd] in *.
  - exact Hbody.
  - destruct (processNoteFailed_frame host e w1) as [ns ->]. exact Hbody.
Qed.

(** X13.  What one call of [processNote] can change.  The store of embeddings
    changes by one insertion at most: the embedding of the note itself, put
    under its path before any note is enhanced and kept whatever happens
    afterwards.  The files written are neighbours of the ranking, each once
    at most, and then possibly the note itself: every file written other
    than the note has an embedding in the store and is a file of the vault,
    and no more than [relevantNotesCount + 1] files are written.  No file is
    created or removed. *)
Theorem processNote_effects (p : ProviderState) (f : TFile) (w : World) :
  let w' := snd (processNote host p f w) in
  (noteEmbeddings w' = noteEmbeddings w
   \/ exists content embedding,
        findFile (file_path f) (vault w) = Some (content)
        /\ embedding <> []
        /\ noteEmbeddings w' = stored f (snd content) embedding w)
  /\ (exists written,
        modified w' = modified w ++ written
        /\ (forall q, In q written ->
              q = file_path f
              \/ (JSMap.get q (noteEmbeddings w') <> None
                  /\ In q (map (fun e => file_path (fst e)) (vault w))))
        /\ ((0 <= relevantNotesCount (settings p))%Z ->
            (Z.of_nat (length written) <= relevantNotesCount (settings p) + 1)%Z))
  /\ map (fun e => file_path (fst e)) (vault w')
     = map (fun e => file_path (fst e)) (vault w)
  /\ now w' = now w.
Proof.
  intros w'. destruct (processNote_changes p f w)
    as (H1 & (written & Hm & Hq & Hk & _) & H3 & H4).
  split; [exact H1|]. split; [|split; [exact H3|exact H4]].
  exists written. auto.
Qed.

(** X24.  Once ten notes have embeddings, [processNote] never writes the note it
    processes: the files it writes are neighbours, and the ranking leaves
    the note itself out.  Only while fewer than ten embeddings are stored
    (the one just made included) is the note itself enhanced, last. *)
Theorem processNote_spares_itself (p : ProviderState) (f : TFile) (w : World)
  (written : list jsstring) :
  10 <= length (noteEmbeddings w) ->
  modified (snd (processNote host p f w)) = modified w ++ written ->
  ~ In (file_path f) written.
Proof.
  intros Hten Hm.
  destruct (processNote_changes p f w) as (_ & (written' & Hm' & _ & _ & Hs) & _).
  rewrite Hm' in Hm. apply app_inv_head in Hm. subst written'. now apply Hs.
Qed.

Lemma updateNoteWithAI_store (p : ProviderState) (f : TFile)
  (relatedContent : list jsstring) (w : World) :
  noteEmbeddings (snd (updateNoteWithAI host p f relatedContent w)) = noteEmbeddings w.
Proof.
  destruct (updateNoteWithAI host p f relatedContent w) as [res w'] eqn:E.
  apply updateNoteWithAI_touches in E. cbn [snd]. destruct E as [E|E]; apply E.
Qed.

(** X28.  When the provider is configured, the note can be read and its
    embedding is not empty, [processNote] stores that embedding under the
    path of the note, with the cleaned content, whatever happens afterwards:
    a neighbour that cannot be read or written, a spent budget. *)
Theorem processNote_stores_embedding (p : ProviderState) (f f0 : TFile)
  (c0 : jsstring) (v : list float) (w : World) :
  isConfigured p = true ->
  readFault host (file_path f) = None ->
  findFile (file_path f) (vault w) = Some (f0, c0) ->
  fst (generateEmbedding host p (cleanContent c0) w) = Ok v ->
  v <> [] ->
  noteEmbeddings (snd (processNote host p f w)) = stored f c0 v w.
Proof.
  intros Hc Hr Hf Hg Hv. unfold processNote. rewrite Hc. cbn [negb].
  assert (Hbody : noteEmbeddings (snd (processNoteBody host p f w)) = stored f c0 v w).
  { unfold processNoteBody, bindM, vaultRead. rewrite Hr, Hf.
    destruct (generateEmbedding_frame host p (cleanContent c0) w) as (v' & ns & Hg').
    rewrite Hg' in Hg. cbn [fst] in Hg. injection Hg as ->. rewrite Hg'.
    destruct (Nat.eqb (length v) 0) eqn:El.
    { destruct v; [now destruct Hv|discriminate El]. }
    unfold storeEmbedding, rank.
    match goal with
    | |- context [updateNeighbors host p ?c ?l ?w2] =>
        destruct (updateNeighbors host p c l w2) as [[u1|e1] w3] eqn:H3;
          apply updateNeighbors_touches in H3 as (written & (A & _) & _)
    end.
    - unfold isInitialization. destruct (Nat.ltb _ 10).
      + match goal with
        | |- context [updateNoteWithAI host p f ?rel w3] =>
            pose proof (updateNoteWithAI_store p f rel w3) as H4;
              destruct (updateNoteWithAI host p f rel w3) as [[u4|e4] w4]
        end; cbn [snd] in *; rewrite H4, A; reflexivity.
      + unfold ret. cbn [snd]. rewrite A. reflexivity.
    - cbn [snd]. rewrite A. reflexivity. }
  unfold tryCatch. destruct (processNoteBody host p f w) as [[u|e] w1]; cbn [snd] in *.
  - exact Hbody.
  - rewrite <- Hbody. destruct (processNoteFailed_frame host e w1) as [ns ->].
    reflexivity.
Qed.

End WithHost.

(** The budget of the day is spent; the provider needs no endpoint for its
    embeddings and tracks its costs. *)
Definition spentWorld : World :=
  mkWorld (vault threeNotes) (noteEmbeddings threeNotes)
    [mkCostEntry 1000 (js "enhancement") 2%float (js "grok")] [] 3000 [].

Definition grokTracked : ProviderState := newProvider (exampleSettings (js "grok") true).

Lemma processNote_stores_embedding_witness :
  canAffordProcessing (toDateString allReadable) (settings grokTracked)
    (costEntries spentWorld) (now spentWorld) = false
  /\ noteEmbeddings (snd (processNote allReadable grokTracked fileA spentWorld))
     = stored fileA (js "alpha")
         (generateSimpleEmbedding (toLowerCase allReadable) (cleanContent (js "alpha")))
         spentWorld.
Proof.
  split; [reflexivity|].
  apply (processNote_stores_embedding allReadable grokTracked fileA fileA (js "alpha")).
  - reflexivity.
  - reflexivity.
  - reflexivity.
  - reflexivity.
  - intros E. apply (f_equal (@length float)) in E.
    rewrite EmbeddingFacts.generateSimpleEmbedding_length in E. discriminate E.
Defined.

Lemma processNote_effects_witness :
  (Z.of_nat (length (modified (snd (processNote allReadable grok fileA threeNotes))))
   <= 3 + 1)%Z.
Proof.
  destruct (processNote_effects allReadable grok fileA threeNotes)
    as (_ & (written & Hm & _ & Hlen) & _).
  rewrite Hm. cbn [modified threeNotes app].
  apply Hlen. cbn. lia.
Defined.

(** Ten embeddings are stored: the one of the note B and nine of notes
    that are files no more. *)
Definition tenEmbeddings : World :=
  mkWorld (vault threeNotes)
    ((js "B.md", mkNoteEmbedding (js "B.md") (js "beta") [1]%float 0%float)
     :: map (fun i => ([N.of_nat i], mkNoteEmbedding [N.of_nat i] [] [1]%float 0%float))
          (seq 48 9))
    [] [] 0 [].

Lemma processNote_spares_itself_witness :
  modified (snd (processNote allReadable grok fileA tenEmbeddings)) = [js "B.md"]
  /\ ~ In (js "A.md") [js "B.md"].
Proof.
  assert (H : modified (snd (processNote allReadable grok fileA tenEmbeddings))
              = [js "B.md"]) by (vm_compute; reflexivity).
  split; [exact H|].
  apply (processNote_spares_itself allReadable grok fileA tenEmbeddings [js "B.md"]).
  - cbn. lia.
  - exact H.
Defined.

End EffectFacts.

(* ================================================================== *)
(** * Events, the queue and the timers *)
(* ================================================================== *)

Module EventFacts.

Import RankingFacts ProviderFacts PipelineFacts StoreFacts EffectFacts.

(** The pending timeouts of one of the two functions that run the queue. *)
Definition timersOf (cb : Callback) (p : Plugin) : list Timer :=
  filter (fun t => match cb, callback t with
                   | DelayedCallback, DelayedCallback => true
                   | ScheduledCallback, ScheduledCallback => true
                   | _, _ => false
                   end) (pending p).

(** What the plugin keeps of its queue and its timers: no path is queued
    twice, no handle is pending twice, a handle given is below the next one,
    a pending timeout that runs the queue is the one its field of the
    plugin names, the pause of [initializeAllNotes] is named by neither
    field, and the two fields never name the same timeout. *)
Definition wellFormed (p : Plugin) : Prop :=
  NoDup (processingQueue p)
  /\ NoDup (map handle (pending p))
  /\ Forall (fun t => (handle t < nextHandle p)%Z) (pending p)
  /\ Forall (fun t => match callback t with
                      | DelayedCallback => delayedProcessingTimer p = Some (handle t)
                      | ScheduledCallback => scheduledProcessingTimer p = Some (handle t)
                      | ResumeCallback _ _ _ =>
                          delayedProcessingTimer p <> Some (handle t)
                          /\ scheduledProcessingTimer p <> Some (handle t)
                      end) (pending p)
  /\ (forall h, delayedProcessingTimer p = Some h ->
        (h < nextHandle p)%Z /\ scheduledProcessingTimer p <> Some h)
  /\ (forall h, scheduledProcessingTimer p = Some h -> (h < nextHandle p)%Z).

(** The plugin object as its class builds it (lines 12-20), around a
    provider and settings. *)
Definition constructed (w : World) (s : SANESettings) (t : TriggerSettings) : Plugin :=
  mkPlugin w (newProvider s) t [] None None [] 1%Z.

Lemma constructed_wellFormed (w : World) (s : SANESettings) (t : TriggerSettings) :
  wellFormed (constructed w s t).
Proof.
  unfold wellFormed, constructed. cbn.
  split; [constructor|]. split; [constructor|]. split; [constructor|].
  split; [constructor|]. split; intros h E; discriminate E.
Qed.

(** ** Sets and filters *)

Lemma existsb_str_eqb (x : jsstring) (s : list jsstring) :
  existsb (str_eqb x) s = true <-> In x s.
Proof.
  rewrite existsb_exists. split.
  - intros (y & Hy & E). apply str_eqb_eq in E. now subst.
  - intros H. exists x. split; [exact H|apply str_eqb_refl].
Qed.

Lemma setAdd_In (x : jsstring) (s : list jsstring) : In x (setAdd x s).
Proof.
  unfold setAdd. destruct (existsb (str_eqb x) s) eqn:E.
  - now apply existsb_str_eqb.
  - apply in_or_app. right. now left.
Qed.

Lemma setAdd_incl (x : jsstring) (s : list jsstring) : incl s (setAdd x s).
Proof.
  unfold setAdd. destruct (existsb (str_eqb x) s); [apply incl_refl|].
  now apply incl_appl, incl_refl.
Qed.

Lemma setAdd_NoDup (x : jsstring) (s : list jsstring) : NoDup s -> NoDup (setAdd x s).
Proof.
  intros H. unfold setAdd. destruct (existsb (str_eqb x) s) eqn:E; [exact H|].
  assert (Hx : ~ In x s).
  { intros Hin. apply existsb_str_eqb in Hin. congruence. }
  clear E. induction H as [|y l Hy Hl IH]; cbn [app].
  - constructor; [intros []|constructor].
  - constructor.
    + intros Hin. apply in_app_or in Hin as [Hin|[->|[]]]; [now apply Hy|].
      apply Hx. now left.
    + apply IH. intros Hin. apply Hx. now right.
Qed.

Lemma NoDup_map_filter {A B} (f : A -> B) (g : A -> bool) (l : list A) :
  NoDup (map f l) -> NoDup (map f (filter g l)).
Proof.
  induction l as [|a l IH]; cbn [map filter]; [auto|].
  intros H. inversion H as [|? ? Hn Hd]; subst.
  destruct (g a); [|now apply IH]. cbn [map]. constructor; [|now apply IH].
  intros Hin. apply Hn. apply in_map_iff in Hin as (y & E & Hy).
  apply filter_In in Hy as [Hy _]. apply in_map_iff. eauto.
Qed.

Lemma Forall_filter {A} (P : A -> Prop) (g : A -> bool) (l : list A) :
  Forall P l -> Forall P (filter g l).
Proof.
  intros H. apply Forall_forall. intros x Hx. apply filter_In in Hx as [Hx _].
  revert x Hx. now apply Forall_forall.
Qed.

Lemma NoDup_app_snoc {A} (l : list A) (x : A) :
  NoDup l -> ~ In x l -> NoDup (l ++ [x]).
Proof.
  intros Hl Hx. induction Hl as [|y l Hy Hl IH]; cbn [app].
  - constructor; [intros []|constructor].
  - constructor.
    + intros Hin. apply in_app_or in Hin as [Hin|[->|[]]]; [now apply Hy|].
      apply Hx. now left.
    + apply IH. intros Hin. apply Hx. now right.
Qed.

Lemma filter_filter_keep {A} (f g : A -> bool) (l : list A) :
  (forall x, In x l -> f x = true -> g x = true) ->
  filter f (filter g l) = filter f l.
Proof.
  induction l as [|a l IH]; intros H; cbn [filter]; [reflexivity|].
  destruct (g a) eqn:Eg; cbn [filter].
  - destruct (f a); [f_equal|]; apply IH; intros x Hx; apply H; now right.
  - destruct (f a) eqn:Ef.
    + rewrite (H a (or_introl eq_refl) Ef) in Eg. discriminate.
    + apply IH. intros x Hx. apply H. now right.
Qed.

Lemma filter_filter_none {A} (f g : A -> bool) (l : list A) :
  (forall x, In x l -> f x = true -> g x = false) ->
  filter f (filter g l) = [].
Proof.
  induction l as [|a l IH]; intros H; cbn [filter]; [reflexivity|].
  destruct (g a) eqn:Eg; cbn [filter].
  - destruct (f a) eqn:Ef.
    + rewrite (H a (or_introl eq_refl) Ef) in Eg. discriminate.
    + apply IH. intros x Hx. apply H. now right.
  - apply IH. intros x Hx. apply H. now right.
Qed.

Lemma filter_none {A} (f : A -> bool) (l : list A) :
  (forall x, In x l -> f x = false) -> filter f l = [].
Proof.
  induction l as [|a l IH]; intros H; cbn [filter]; [reflexivity|].
  rewrite (H a (or_introl eq_refl)). apply IH. intros x Hx. apply H. now right.
Qed.

(** ** The timers *)

Definition isDelayed (t : Timer) : bool :=
  match callback t with DelayedCallback => true | _ => false end.

Definition isScheduled (t : Timer) : bool :=
  match callback t with ScheduledCallback => true | _ => false end.

Definition isResume (t : Timer) : bool :=
  match callback t with ResumeCallback _ _ _ => true | _ => false end.

Lemma timersOf_delayed (p : Plugin) :
  timersOf DelayedCallback p = filter isDelayed (pending p).
Proof. reflexivity. Qed.

Lemma timersOf_scheduled (p : Plugin) :
  timersOf ScheduledCallback p = filter isScheduled (pending p).
Proof. reflexivity. Qed.

Lemma clearTimeout_wellFormed (h : Z) (p : Plugin) :
  wellFormed p -> wellFormed (clearTimeout h p).
Proof.
  intros (Hq & Hd & Hb & Hn & Hf). unfold wellFormed, clearTimeout.
  cbn [processingQueue pending nextHandle delayedProcessingTimer
       scheduledProcessingTimer].
  split; [exact Hq|]. split; [now apply NoDup_map_filter|].
  split; [now apply Forall_filter|]. split; [now apply Forall_filter|exact Hf].
Qed.

(** [scheduleDelayedProcessing] leaves one pending timeout of its kind, the
    new one; the other timeouts stay. *)
Lemma scheduleDelayedProcessing_timer (p : Plugin) :
  wellFormed p ->
  let p' := scheduleDelayedProcessing p in
  wellFormed p'
  /\ timersOf DelayedCallback p'
     = [mkTimer (nextHandle p) DelayedCallback (delayMinutes (triggers p) * 60 * 1000)
          (now (world p))]
  /\ timersOf ScheduledCallback p' = timersOf ScheduledCallback p
  /\ world p' = world p /\ processingQueue p' = processingQueue p
  /\ triggers p' = triggers p /\ service p' = service p.
Proof.
  intros (Hq & Hd & Hb & Hn & Hfd & Hfs).
  destruct p as [w sv tr q dt st pd nh].
  cbn [processingQueue pending nextHandle delayedProcessingTimer
       scheduledProcessingTimer world triggers service] in *.
  rewrite Forall_forall in Hb, Hn.
  assert (Hone : forall pd', incl pd' pd -> NoDup (map handle pd') ->
            (forall t, In t pd' -> isDelayed t = false) ->
            forall ms at',
            wellFormed (mkPlugin w sv tr q (Some nh) st
                          (pd' ++ [mkTimer nh DelayedCallback ms at']) (nh + 1)%Z)).
  { intros pd' Hi Hd' Hk ms at'. unfold wellFormed.
    cbn [processingQueue pending nextHandle delayedProcessingTimer
         scheduledProcessingTimer].
    split; [exact Hq|]. split; [|split; [|split; [|split]]].
    - rewrite map_app. cbn [map handle]. apply NoDup_app_snoc; [exact Hd'|].
      intros Hin. apply in_map_iff in Hin as (t & E & Ht).
      specialize (Hb t (Hi t Ht)). lia.
    - apply Forall_app. split.
      + apply Forall_forall. intros t Ht. specialize (Hb t (Hi t Ht)). lia.
      + constructor; [cbn [handle]; lia|constructor].
    - apply Forall_app. split.
      + apply Forall_forall. intros t Ht. specialize (Hn t (Hi t Ht)).
        specialize (Hb t (Hi t Ht)).
        pose proof (Hk t Ht) as Hc. unfold isDelayed in Hc.
        destruct (callback t); [discriminate|exact Hn|].
        split; [intros E; injection E as E; lia|apply Hn].
      + constructor; [reflexivity|constructor].
    - intros h' E. injection E as <-. split; [lia|].
      intros E. specialize (Hfs _ E). lia.
    - intros h' E. specialize (Hfs _ E). lia. }
  unfold scheduleDelayedProcessing.
  destruct dt as [h|];
    cbn [delayedProcessingTimer clearTimeout setTimeout processingQueue pending
         nextHandle scheduledProcessingTimer world triggers service];
    rewrite ?timersOf_delayed, ?timersOf_scheduled; cbn [pending];
    rewrite !filter_app; cbn [filter isDelayed isScheduled callback app].
  - destruct (Hfd h eq_refl) as [Hlt Hne].
    assert (Hk : forall t, In t pd -> isDelayed t = true -> Z.eqb (handle t) h = true).
    { intros t Ht Hc. specialize (Hn t Ht). unfold isDelayed in Hc.
      destruct (callback t); try discriminate. injection Hn as ->. apply Z.eqb_refl. }
    assert (Hs : forall t, In t pd -> isScheduled t = true -> Z.eqb (handle t) h = false).
    { intros t Ht Hc. specialize (Hn t Ht). unfold isScheduled in Hc.
      destruct (callback t); try discriminate. apply Z.eqb_neq. intros E. apply Hne.
      now rewrite Hn, E. }
    assert (Hno : forall t, In t (filter (fun t => negb (Z.eqb (handle t) h)) pd) ->
              isDelayed t = false).
    { intros t Ht. apply filter_In in Ht as [Ht Hh].
      destruct (isDelayed t) eqn:Ec; [|reflexivity].
      now rewrite (Hk t Ht Ec) in Hh. }
    split; [|split; [|split; [|repeat split]]].
    + apply Hone; [|now apply NoDup_map_filter|exact Hno].
      intros t Ht. now apply filter_In in Ht as [Ht _].
    + now rewrite (filter_none _ _ Hno).
    + rewrite app_nil_r. apply filter_filter_keep.
      intros t Ht Hc. now rewrite (Hs t Ht Hc).
  - assert (Hno : forall t, In t pd -> isDelayed t = false).
    { intros t Ht. specialize (Hn t Ht). unfold isDelayed.
      destruct (callback t); [discriminate|reflexivity|reflexivity]. }
    split; [|split; [|split; [|repeat split]]].
    + apply Hone; [apply incl_refl|exact Hd|exact Hno].
    + now rewrite (filter_none _ _ Hno).
    + now rewrite app_nil_r.
Qed.

Section WithCalendar.
Variable setHours : Z -> Z -> Z.
Variable nextDate : Z -> Z.

(** The delay [scheduleProcessing] asks for. *)
Definition timeUntilScheduled (now hour : Z) : Z :=
  let scheduled := setHours now hour in
  ((if (scheduled <=? now)%Z then nextDate scheduled else scheduled) - now)%Z.

(** The delay is positive when the day after the scheduled hour of today
    is ahead, as it is for an hour of the day. *)
Lemma timeUntilScheduled_positive (now hour : Z) :
  ((setHours now hour <= now)%Z -> (now < nextDate (setHours now hour))%Z) ->
  (0 < timeUntilScheduled now hour)%Z.
Proof.
  intros H. unfold timeUntilScheduled. cbv zeta.
  destruct (setHours now hour <=? now)%Z eqn:E.
  - apply Z.leb_le in E. specialize (H E). lia.
  - apply Z.leb_gt in E. lia.
Qed.

(** [scheduleProcessing] clears the pending timeout of its kind and, when
    the trigger is [scheduled], asks for a new one; the timeouts of the
    other kind stay. *)
Lemma scheduleProcessing_timer (p : Plugin) :
  wellFormed p ->
  let p' := scheduleProcessing setHours nextDate p in
  wellFormed p'
  /\ timersOf DelayedCallback p' = timersOf DelayedCallback p
  /\ timersOf ScheduledCallback p'
     = (if str_eqb (processingTrigger (triggers p)) (js "scheduled")
        then [mkTimer (nextHandle p) ScheduledCallback
                (timeUntilScheduled (now (world p)) (scheduleHour (triggers p)))
                (now (world p))]
        else [])
  /\ world p' = world p /\ processingQueue p' = processingQueue p
  /\ triggers p' = triggers p /\ service p' = service p.
Proof.
  intros Hw. pose proof Hw as (Hq & Hd & Hb & Hn & Hfd & Hfs).
  destruct p as [w sv tr q dt st pd nh].
  unfold timeUntilScheduled.
  cbn [processingQueue pending nextHandle delayedProcessingTimer
       scheduledProcessingTimer world triggers service] in Hq, Hd, Hb, Hn, Hfd, Hfs |- *.
  unfold scheduleProcessing.
  rewrite Forall_forall in Hb, Hn.
  assert (Hone : forall pd', incl pd' pd -> NoDup (map handle pd') ->
            (forall t, In t pd' -> isScheduled t = false) ->
            forall ms at',
            wellFormed (mkPlugin w sv tr q dt (Some nh)
                          (pd' ++ [mkTimer nh ScheduledCallback ms at']) (nh + 1)%Z)).
  { intros pd' Hi Hd' Hk ms at'. unfold wellFormed.
    cbn [processingQueue pending nextHandle delayedProcessingTimer
         scheduledProcessingTimer].
    split; [exact Hq|]. split; [|split; [|split; [|split]]].
    - rewrite map_app. cbn [map handle]. apply NoDup_app_snoc; [exact Hd'|].
      intros Hin. apply in_map_iff in Hin as (t & E & Ht).
      specialize (Hb t (Hi t Ht)). lia.
    - apply Forall_app. split.
      + apply Forall_forall. intros t Ht. specialize (Hb t (Hi t Ht)). lia.
      + constructor; [cbn [handle]; lia|constructor].
    - apply Forall_app. split.
      + apply Forall_forall. intros t Ht. specialize (Hn t (Hi t Ht)).
        specialize (Hb t (Hi t Ht)).
        pose proof (Hk t Ht) as Hc. unfold isScheduled in Hc.
        destruct (callback t); [exact Hn|discriminate|].
        split; [apply Hn|intros E; injection E as E; lia].
      + constructor; [reflexivity|constructor].
    - intros h' E. destruct (Hfd h' E) as [Hlt _]. split; [lia|].
      intros E'. injection E' as E'. lia.
    - intros h' E. injection E as <-. lia. }
  destruct st as [h|];
    cbn [delayedProcessingTimer clearTimeout setTimeout processingQueue pending
         nextHandle scheduledProcessingTimer world triggers service].
  - assert (Hne : dt <> Some h).
    { intros E. destruct (Hfd h E) as [_ Hc]. now apply Hc. }
    assert (Hk : forall t, In t pd -> isScheduled t = true -> Z.eqb (handle t) h = true).
    { intros t Ht Hc. specialize (Hn t Ht). unfold isScheduled in Hc.
      destruct (callback t); try discriminate. injection Hn as ->. apply Z.eqb_refl. }
    assert (Hs : forall t, In t pd -> isDelayed t = true -> Z.eqb (handle t) h = false).
    { intros t Ht Hc. specialize (Hn t Ht). unfold isDelayed in Hc.
      destruct (callback t); try discriminate. apply Z.eqb_neq. intros E. apply Hne.
      now rewrite Hn, E. }
    assert (Hno : forall t, In t (filter (fun t => negb (Z.eqb (handle t) h)) pd) ->
              isScheduled t = false).
    { intros t Ht. apply filter_In in Ht as [Ht Hh].
      destruct (isScheduled t) eqn:Ec; [|reflexivity].
      now rewrite (Hk t Ht Ec) in Hh. }
    destruct (str_eqb (processingTrigger tr) (js "scheduled"));
      cbn [delayedProcessingTimer clearTimeout setTimeout processingQueue pending
           nextHandle scheduledProcessingTimer world triggers service];
      rewrite ?timersOf_delayed, ?timersOf_scheduled; cbn [pending];
      rewrite ?filter_app; cbn [filter isDelayed isScheduled callback app].
    + split; [|split; [|split; [|repeat split]]].
      * apply Hone; [|now apply NoDup_map_filter|exact Hno].
        intros t Ht. now apply filter_In in Ht as [Ht _].
      * rewrite app_nil_r. apply filter_filter_keep.
        intros t Ht Hc. now rewrite (Hs t Ht Hc).
      * now rewrite (filter_none _ _ Hno).
    + split; [|split; [|split; [|repeat split]]].
      * exact (clearTimeout_wellFormed h _ Hw).
      * apply filter_filter_keep. intros t Ht Hc. now rewrite (Hs t Ht Hc).
      * apply (filter_none _ _ Hno).
  - assert (Hno : forall t, In t pd -> isScheduled t = false).
    { intros t Ht. specialize (Hn t Ht). unfold isScheduled.
      destruct (callback t); [reflexivity|discriminate|reflexivity]. }
    destruct (str_eqb (processingTrigger tr) (js "scheduled"));
      cbn [delayedProcessingTimer clearTimeout setTimeout processingQueue pending
           nextHandle scheduledProcessingTimer world triggers service];
      rewrite ?timersOf_delayed, ?timersOf_scheduled; cbn [pending];
      rewrite ?filter_app; cbn [filter isDelayed isScheduled callback app].
    + split; [|split; [|split; [|repeat split]]].
      * apply Hone; [apply incl_refl|exact Hd|exact Hno].
      * now rewrite app_nil_r.
      * now rewrite (filter_none _ _ Hno).
    + split; [|split; [|split; [|repeat split]]].
      * exact Hw.
      * reflexivity.
      * apply (filter_none _ _ Hno).
Qed.

End WithCalendar.

(** At most one timeout of each kind is pending. *)
Lemma one_named (f : Timer -> bool) (h : Z) (l : list Timer) :
  NoDup (map handle l) ->
  (forall t, In t l -> f t = true -> handle t = h) ->
  length (filter f l) <= 1.
Proof.
  induction l as [|a l IH]; intros Hd Hh; cbn [filter]; [cbn; lia|].
  cbn [map] in Hd. inversion Hd as [|? ? Hn Hd']; subst.
  destruct (f a) eqn:Ea.
  - rewrite filter_none; [cbn; lia|].
    intros x Hx. destruct (f x) eqn:Ex; [|reflexivity]. exfalso. apply Hn.
    rewrite (Hh a (or_introl eq_refl) Ea).
    rewrite <- (Hh x (or_intror Hx) Ex). now apply in_map.
  - apply IH; [exact Hd'|]. intros t Ht. apply Hh. now right.
Qed.

Lemma wellFormed_one (p : Plugin) (cb : Callback) :
  wellFormed p -> length (timersOf cb p) <= 1.
Proof.
  intros (_ & Hd & _ & Hn & _). rewrite Forall_forall in Hn.
  destruct cb as [| |total i l];
    [rewrite timersOf_delayed|rewrite timersOf_scheduled|].
  - destruct (delayedProcessingTimer p) as [h|] eqn:E.
    + apply (one_named _ h); [exact Hd|]. intros t Ht Hc. specialize (Hn t Ht).
      unfold isDelayed in Hc. destruct (callback t); try discriminate.
      now injection Hn.
    + rewrite filter_none; [cbn; lia|]. intros t Ht. specialize (Hn t Ht).
      unfold isDelayed. destruct (callback t); [discriminate|reflexivity|reflexivity].
  - destruct (scheduledProcessingTimer p) as [h|] eqn:E.
    + apply (one_named _ h); [exact Hd|]. intros t Ht Hc. specialize (Hn t Ht).
      unfold isScheduled in Hc. destruct (callback t); try discriminate.
      now injection Hn.
    + rewrite filter_none; [cbn; lia|]. intros t Ht. specialize (Hn t Ht).
      unfold isScheduled. destruct (callback t); [reflexivity|discriminate|reflexivity].
  - unfold timersOf. rewrite filter_none; [cbn; lia|]. reflexivity.
Qed.

Lemma setWorld_wellFormed (w : World) (p : Plugin) :
  wellFormed p -> wellFormed (setWorld w p).
Proof. exact (fun H => H). Qed.

Lemma setQueue_wellFormed (q : list jsstring) (p : Plugin) :
  NoDup q -> wellFormed p -> wellFormed (setQueue q p).
Proof.
  intros Hq (_ & H). split; [exact Hq|exact H].
Qed.

Lemma inWorld_snd {A} (c : M A) (p : Plugin) :
  snd (inWorld c p) = setWorld (snd (c (world p))) p.
Proof.
  unfold inWorld. now destruct (c (world p)).
Qed.

Lemma inWorld_fst {A} (c : M A) (p : Plugin) :
  fst (inWorld c p) = fst (c (world p)).
Proof.
  unfold inWorld. now destruct (c (world p)).
Qed.

Lemma setWorld_same (p : Plugin) : setWorld (world p) p = p.
Proof. now destruct p. Qed.

(** The pause of [initializeAllNotes] is a timeout of neither kind. *)
Lemma setTimeout_resume_wellFormed (total i : nat) (l : list TFile) (ms : Z) (p : Plugin) :
  wellFormed p -> wellFormed (snd (setTimeout (ResumeCallback total i l) ms p)).
Proof.
  intros (Hq & Hd & Hb & Hn & Hfd & Hfs). unfold setTimeout, wellFormed.
  cbn [snd processingQueue pending nextHandle delayedProcessingTimer
       scheduledProcessingTimer].
  rewrite Forall_forall in Hb.
  split; [exact Hq|]. split; [|split; [|split; [|split]]].
  - rewrite map_app. cbn [map handle]. apply NoDup_app_snoc; [exact Hd|].
    intros Hin. apply in_map_iff in Hin as (t & E & Ht). specialize (Hb t Ht). lia.
  - apply Forall_app. split.
    + apply Forall_forall. intros t Ht. specialize (Hb t Ht). lia.
    + constructor; [cbn [handle]; lia|constructor].
  - apply Forall_app. split; [exact Hn|].
    constructor; [|constructor]. cbn [callback handle]. split.
    + intros E. destruct (Hfd _ E). lia.
    + intros E. specialize (Hfs _ E). lia.
  - intros h E. destruct (Hfd h E) as [Hlt Hne]. split; [lia|exact Hne].
  - intros h E. specialize (Hfs h E). lia.
Qed.

Lemma setTimeout_resume_timers (total i : nat) (l : list TFile) (ms : Z) (p : Plugin) :
  let p' := snd (setTimeout (ResumeCallback total i l) ms p) in
  timersOf DelayedCallback p' = timersOf DelayedCallback p
  /\ timersOf ScheduledCallback p' = timersOf ScheduledCallback p.
Proof.
  cbv zeta. rewrite !timersOf_delayed, !timersOf_scheduled. unfold setTimeout.
  cbn [snd pending]. rewrite !filter_app.
  cbn [filter isDelayed isScheduled callback]. now rewrite !app_nil_r.
Qed.

(** No timeout that runs the queue is pending. *)
Definition quiet (p : Plugin) : Prop :=
  timersOf DelayedCallback p = [] /\ timersOf ScheduledCallback p = [].

Lemma filter_filter_nil {A} (f g : A -> bool) (l : list A) :
  filter f l = [] -> filter f (filter g l) = [].
Proof.
  intros H. apply filter_none. intros x Hx. apply filter_In in Hx as [Hx _].
  destruct (f x) eqn:E; [|reflexivity].
  assert (Hin : In x (filter f l)) by (apply filter_In; auto).
  rewrite H in Hin. destruct Hin.
Qed.

Lemma quiet_clearTimeout (h : Z) (p : Plugin) : quiet p -> quiet (clearTimeout h p).
Proof.
  unfold quiet. rewrite !timersOf_delayed, !timersOf_scheduled. cbn [clearTimeout pending].
  intros [Hd Hs]. split; now apply filter_filter_nil.
Qed.

Lemma quiet_resume (total i : nat) (l : list TFile) (ms : Z) (p : Plugin) :
  quiet p -> quiet (snd (setTimeout (ResumeCallback total i l) ms p)).
Proof.
  intros [Hd Hs]. destruct (setTimeout_resume_timers total i l ms p) as [Ed Es].
  split; [now rewrite Ed|now rewrite Es].
Qed.

(** The paths of the files of the vault. *)
Definition paths (w : World) : list jsstring :=
  map (fun e => file_path (fst e)) (vault w).

Lemma getAbstractFileByPath_file (w : World) (path : jsstring) (f : TFile) :
  getAbstractFileByPath (vaultIndex w) path = Some (AFile f) ->
  file_path f = path /\ In path (paths w).
Proof.
  unfold getAbstractFileByPath. intros H. apply find_some in H as [Hin He].
  cbn [abstractPath] in He. apply str_eqb_eq in He. split; [exact He|].
  rewrite <- He. now apply vaultIndex_In.
Qed.

Lemma get_set_some {V} (q k : jsstring) (v : V) (m : list (jsstring * V)) :
  JSMap.get q (JSMap.set k v m) <> None -> q = k \/ JSMap.get q m <> None.
Proof.
  intros H. destruct (str_eqb q k) eqn:E.
  - left. now apply str_eqb_eq.
  - right. rewrite FrontmatterFacts.get_set_other in H; [exact H|].
    intros ->. now rewrite str_eqb_refl in E.
Qed.

Lemma same_handle (l : list Timer) (t t' : Timer) :
  NoDup (map handle l) -> In t l -> In t' l -> handle t = handle t' -> t = t'.
Proof.
  induction l as [|a l IH]; intros Hd Ht Ht' E; [destruct Ht|].
  cbn [map] in Hd. inversion Hd as [|? ? Hn Hd']; subst.
  destruct Ht as [->|Ht], Ht' as [->|Ht'].
  - reflexivity.
  - exfalso. apply Hn. rewrite E. now apply in_map.
  - exfalso. apply Hn. rewrite <- E. now apply in_map.
  - now apply IH.
Qed.

Lemma find_handle (p : Plugin) (t : Timer) :
  wellFormed p -> In t (pending p) ->
  find (fun t' => Z.eqb (handle t') (handle t)) (pending p) = Some t.
Proof.
  intros (_ & Hd & _) Ht.
  destruct (find _ (pending p)) as [t'|] eqn:E.
  - apply find_some in E as [Hin He]. apply Z.eqb_eq in He.
    f_equal. now apply (same_handle (pending p)).
  - apply (find_none _ _ E) in Ht. now rewrite Z.eqb_refl in Ht.
Qed.

(** Clearing a pending timeout leaves none of its kind, when it runs the
    queue, and all of the other kinds. *)
Lemma clearTimeout_kind (p : Plugin) (t : Timer) :
  wellFormed p -> In t (pending p) ->
  let p1 := clearTimeout (handle t) p in
  match callback t with
  | DelayedCallback =>
      timersOf DelayedCallback p1 = []
      /\ timersOf ScheduledCallback p1 = timersOf ScheduledCallback p
  | ScheduledCallback =>
      timersOf DelayedCallback p1 = timersOf DelayedCallback p
      /\ timersOf ScheduledCallback p1 = []
  | ResumeCallback _ _ _ =>
      timersOf DelayedCallback p1 = timersOf DelayedCallback p
      /\ timersOf ScheduledCallback p1 = timersOf ScheduledCallback p
  end.
Proof.
  intros (_ & Hd & _ & Hn & Hfd & _) Ht p1. unfold p1.
  rewrite !timersOf_delayed, !timersOf_scheduled. unfold clearTimeout. cbn [pending].
  rewrite Forall_forall in Hn. pose proof (Hn t Ht) as Hc.
  destruct (callback t) eqn:Ec.
  - destruct (Hfd _ Hc) as [_ Hne]. split.
    + apply filter_filter_none. intros x Hx Hk. specialize (Hn x Hx).
      unfold isDelayed in Hk. destruct (callback x); try discriminate.
      rewrite Hc in Hn. injection Hn as ->. now rewrite Z.eqb_refl.
    + apply filter_filter_keep. intros x Hx Hk. specialize (Hn x Hx).
      unfold isScheduled in Hk. destruct (callback x); try discriminate.
      apply negb_true_iff, Z.eqb_neq. intros E. apply Hne. now rewrite Hn, E.
  - split.
    + apply filter_filter_keep. intros x Hx Hk. specialize (Hn x Hx).
      unfold isDelayed in Hk. destruct (callback x); try discriminate.
      apply negb_true_iff, Z.eqb_neq. intros E.
      destruct (Hfd _ Hn) as [_ Hne]. apply Hne. now rewrite Hc, E.
    + apply filter_filter_none. intros x Hx Hk. specialize (Hn x Hx).
      unfold isScheduled in Hk. destruct (callback x); try discriminate.
      rewrite Hc in Hn. injection Hn as ->. now rewrite Z.eqb_refl.
  - destruct Hc as [Hcd Hcs]. split.
    + apply filter_filter_keep. intros x Hx Hk. specialize (Hn x Hx).
      unfold isDelayed in Hk. destruct (callback x); try discriminate.
      apply negb_true_iff, Z.eqb_neq. intros E. apply Hcd. now rewrite Hn, E.
    + apply filter_filter_keep. intros x Hx Hk. specialize (Hn x Hx).
      unfold isScheduled in Hk. destruct (callback x); try discriminate.
      apply negb_true_iff, Z.eqb_neq. intros E. apply Hcs. now rewrite Hn, E.
Qed.

Section WithHost.
Variable host : Host.
Variable extension : TFile -> jsstring.
Variable parentPath : TFile -> option jsstring.
Variable setHours : Z -> Z -> Z.
Variable nextDate : Z -> Z.

Local Abbreviation handler := (handler host extension parentPath setHours nextDate).
Local Abbreviation deliver := (deliver host extension parentPath setHours nextDate).
Local Abbreviation run := (run host extension parentPath setHours nextDate).
Local Abbreviation onChange := (onChange host extension parentPath).
Local Abbreviation shouldProcessFile := (shouldProcessFile extension parentPath).
Local Abbreviation scheduleProcessing := (scheduleProcessing setHours nextDate).
Local Abbreviation fire := (fire host setHours nextDate).
Local Abbreviation processCurrentNote := (processCurrentNote host extension parentPath).
Local Abbreviation initializeAllNotes := (initializeAllNotes host extension parentPath).

(** ** The queue is processed *)

(** [processNote] returns, or it throws the TypeError of its [catch] and
    leaves its changes behind. *)
Lemma processPath_effects (path : jsstring) (p : Plugin) :
  exists w',
    snd (processPath host path p) = setWorld w' p
    /\ (faultsHandled host -> fst (processPath host path p) = Ok tt)
    /\ (fst (processPath host path p) = Ok tt
        \/ exists text, fst (processPath host path p) = Throw (Error text))
    /\ (forall q, JSMap.get q (noteEmbeddings w') <> None ->
          JSMap.get q (noteEmbeddings (world p)) <> None
          \/ (q = path /\ In q (paths (world p))))
    /\ paths w' = paths (world p)
    /\ now w' = now (world p)
    /\ (~ In path (paths (world p)) ->
        w' = world p /\ fst (processPath host path p) = Ok tt).
Proof.
  unfold processPath.
  destruct (getAbstractFileByPath _ path) as [[f|folder]|] eqn:Eg.
  - apply getAbstractFileByPath_file in Eg as [Ef Hin].
    exists (snd (processNote host (service p) f (world p))).
    rewrite inWorld_snd, inWorld_fst. split; [reflexivity|].
    destruct (processNote_changes host (service p) f (world p))
      as (Hs & _ & Hp & Hn).
    split; [|split; [|split; [|split; [exact Hp|split; [exact Hn|]]]]].
    + intros Hf. now destruct (processNote_returns host (service p) f (world p) Hf) as [w' ->].
    + destruct (processNote_outcome host (service p) f (world p)) as [H|(text & H & _)];
        [now left|right; eauto].
    + intros q Hq. destruct Hs as [Hs|(c & v & _ & _ & Hs)]; rewrite Hs in Hq.
      * now left.
      * unfold stored in Hq. apply get_set_some in Hq as [->|Hq]; [|now left].
        right. rewrite Ef. auto.
    + intros Hno. now destruct Hno.
  - exists (world p). rewrite setWorld_same. cbn [fst snd]. repeat split; auto.
  - exists (world p). rewrite setWorld_same. cbn [fst snd]. repeat split; auto.
Qed.

Lemma forEachP_effects (l : list jsstring) (p : Plugin) :
  exists w',
    snd (forEachP l (processPath host) p) = setWorld w' p
    /\ (faultsHandled host -> fst (forEachP l (processPath host) p) = Ok tt)
    /\ (fst (forEachP l (processPath host) p) = Ok tt
        \/ exists text, fst (forEachP l (processPath host) p) = Throw (Error text))
    /\ (forall q, JSMap.get q (noteEmbeddings w') <> None ->
          JSMap.get q (noteEmbeddings (world p)) <> None
          \/ (In q l /\ In q (paths (world p))))
    /\ paths w' = paths (world p)
    /\ now w' = now (world p)
    /\ ((forall path, In path l -> ~ In path (paths (world p))) ->
        w' = world p /\ fst (forEachP l (processPath host) p) = Ok tt).
Proof.
  revert p. induction l as [|path l IH]; intros p; cbn [forEachP].
  - exists (world p). rewrite setWorld_same. cbn [fst snd]. repeat split; auto.
  - unfold bindP.
    destruct (processPath_effects path p) as (w1 & S1 & F1 & O1 & H1 & H2 & H3 & H4).
    destruct (processPath host path p) as [[[]|e] p1]; cbn [fst snd] in S1, F1, O1, H4;
      subst p1.
    + destruct (IH (setWorld w1 p)) as (w2 & S2 & F2 & O2 & I1 & I2 & I3 & I4).
      cbn [setWorld world] in S2, I1, I2, I3, I4.
      exists w2. split; [exact S2|]. split; [exact F2|]. split; [exact O2|].
      split; [|split; [|split]].
      * intros q Hq. destruct (I1 q Hq) as [Hq1|[Hl Hin]].
        -- destruct (H1 q Hq1) as [Hq0|[-> Hin]]; [now left|].
           right. split; [now left|exact Hin].
        -- right. split; [now right|]. now rewrite <- H2.
      * now rewrite I2.
      * now rewrite I3.
      * intros Hno. destruct (H4 (Hno path (or_introl eq_refl))) as [E1 _].
        destruct I4 as [E2 E3].
        -- intros x Hx. rewrite H2. apply Hno. now right.
        -- split; [now rewrite E2|exact E3].
    + exists w1. cbn [fst snd]. split; [reflexivity|].
      split; [intros Hf; discriminate (F1 Hf)|].
      split; [destruct O1 as [O1|[text O1]]; [discriminate O1|right; eauto]|].
      split; [|split; [exact H2|split; [exact H3|]]].
      * intros q Hq. destruct (H1 q Hq) as [Hq0|[-> Hin]]; [now left|].
        right. split; [now left|exact Hin].
      * intros Hno. destruct (H4 (Hno path (or_introl eq_refl))) as [_ E]. discriminate E.
Qed.

Lemma processQueuedNotes_effects (p : Plugin) :
  exists w',
    snd (processQueuedNotes host p) = setWorld w' (setQueue [] p)
    /\ (faultsHandled host -> fst (processQueuedNotes host p) = Ok tt)
    /\ (fst (processQueuedNotes host p) = Ok tt
        \/ exists text, fst (processQueuedNotes host p) = Throw (Error text))
    /\ (forall q, JSMap.get q (noteEmbeddings w') <> None ->
          JSMap.get q (noteEmbeddings (world p)) <> None
          \/ (In q (processingQueue p) /\ In q (paths (world p))))
    /\ paths w' = paths (world p)
    /\ now w' = now (world p)
    /\ ((forall path, In path (processingQueue p) -> ~ In path (paths (world p))) ->
        w' = world p /\ fst (processQueuedNotes host p) = Ok tt).
Proof.
  unfold processQueuedNotes. destruct (processingQueue p) as [|x q] eqn:E.
  - cbn [length Nat.eqb fst snd]. exists (world p). split; [|repeat split; auto].
    destruct p. cbn in E. now subst.
  - cbn [length Nat.eqb]. apply (forEachP_effects (x :: q) (setQueue [] p)).
Qed.

Lemma handleNoteChange_wellFormed (f : TFile) (p : Plugin) :
  wellFormed p -> wellFormed (snd (handleNoteChange host f p)).
Proof.
  intros Hw. unfold handleNoteChange.
  assert (H1 : wellFormed (setQueue (setAdd (file_path f) (processingQueue p)) p)).
  { apply setQueue_wellFormed; [|exact Hw]. apply setAdd_NoDup, Hw. }
  cbn [triggers setQueue].
  destruct (str_eqb (processingTrigger (triggers p)) (js "immediate")).
  - rewrite inWorld_snd. exact H1.
  - destruct (str_eqb (processingTrigger (triggers p)) (js "delayed")); [|exact H1].
    cbn [snd]. now apply scheduleDelayedProcessing_timer.
Qed.

(** ** The loop of [initializeAllNotes] *)

Lemma progress_returns (i total : nat) (w : World) :
  exists ns, progress i total w
             = (Ok tt, mkWorld (vault w) (noteEmbeddings w) (costEntries w) ns (now w)
                         (modified w)).
Proof.
  unfold progress. destruct (Nat.eqb _ 0).
  - unfold notice. eauto.
  - exists (notices w). unfold ret. now destruct w.
Qed.

(** What the [catch] of the loop catches names no budget. *)
Lemma caught_no_budget (sv : ProviderState) (file : TFile) (i total : nat) (p p1 : Plugin)
  (e : JSError) :
  inWorld (bindM (processNote host sv file) (fun _ => progress i total)) p = (Throw e, p1) ->
  bind (messageOf e) (includesOf (js "budget")) = Ok false.
Proof.
  unfold inWorld, bindM. intros H.
  destruct (processNote_outcome host sv file (world p)) as [Ho|(text & Ho & Hb)];
    destruct (processNote host sv file (world p)) as [[[]|e'] w1]; cbn [fst] in Ho;
    try discriminate Ho.
  - destruct (progress_returns i total w1) as [ns E]. rewrite E in H. discriminate H.
  - injection Ho as ->. injection H as <- _. cbn [messageOf bind includesOf].
    now rewrite Hb.
Qed.

(** The loop of [initializeAllNotes] as it runs: its [catch] goes on to
    the next file. *)
Fixpoint processUntilPause (total i : nat) (l : list TFile) : PM unit :=
  match l with
  | [] => inWorld (notice (js "Initialization complete!"))
  | file :: l' =>
      fun p =>
        match inWorld (bindM (processNote host (service p) file)
                         (fun _ => progress i total)) p with
        | (Ok _, p1) =>
            (Ok tt, snd (setTimeout (ResumeCallback total (S i) l') 100 p1))
        | (Throw _, p1) => processUntilPause total (S i) l' p1
        end
  end.

Lemma initializeLoop_processUntilPause (total i : nat) (l : list TFile) (p : Plugin) :
  initializeLoop host total i l p = processUntilPause total i l p.
Proof.
  revert i p. induction l as [|file l IH]; intros i p;
    cbn [initializeLoop processUntilPause]; [reflexivity|].
  destruct (inWorld _ p) as [[[]|e] p1] eqn:E; [reflexivity|].
  rewrite (caught_no_budget _ _ _ _ _ _ _ E). apply IH.
Qed.

(** A pass of the loop returns; it changes the world and asks for at most
    one timeout, the one of its pause. *)
Lemma initializeLoop_pass (total i : nat) (l : list TFile) (p : Plugin) :
  exists w',
    now w' = now (world p)
    /\ (initializeLoop host total i l p = (Ok tt, setWorld w' p)
        \/ exists i' l',
             initializeLoop host total i l p
             = (Ok tt, snd (setTimeout (ResumeCallback total i' l') 100 (setWorld w' p)))).
Proof.
  rewrite initializeLoop_processUntilPause.
  revert i p. induction l as [|file l IH]; intros i p; cbn [processUntilPause].
  - unfold inWorld. cbn [notice]. eexists. split; [|left; reflexivity]. reflexivity.
  - unfold inWorld, bindM.
    destruct (processNote_changes host (service p) file (world p)) as (_ & _ & _ & Hn).
    destruct (processNote host (service p) file (world p)) as [[[]|e] w1]; cbn [snd] in Hn.
    + destruct (progress_returns i total w1) as [ns ->].
      eexists. split; [|right; eexists; eexists; reflexivity]. exact Hn.
    + destruct (IH (S i) (setWorld w1 p)) as (w' & Hw' & H).
      exists w'. split; [now rewrite Hw'|exact H].
Qed.

Lemma initializeLoop_frame (total i : nat) (l : list TFile) (p : Plugin) :
  let p' := snd (initializeLoop host total i l p) in
  fst (initializeLoop host total i l p) = Ok tt
  /\ (wellFormed p -> wellFormed p')
  /\ timersOf DelayedCallback p' = timersOf DelayedCallback p
  /\ timersOf ScheduledCallback p' = timersOf ScheduledCallback p
  /\ processingQueue p' = processingQueue p
  /\ triggers p' = triggers p
  /\ service p' = service p
  /\ now (world p') = now (world p).
Proof.
  cbv zeta. destruct (initializeLoop_pass total i l p) as (w' & Hn & [H|(i' & l' & H)]);
    rewrite H; cbn [fst snd].
  - split; [reflexivity|]. split; [exact (fun Hw => Hw)|]. repeat split. exact Hn.
  - destruct (setTimeout_resume_timers total i' l' 100 (setWorld w' p)) as [Ed Es].
    split; [reflexivity|]. split.
    + intros Hw. now apply setTimeout_resume_wellFormed, setWorld_wellFormed.
    + split; [exact Ed|]. split; [exact Es|]. repeat split; exact Hn.
Qed.

(** ** The invariant *)

Lemma handler_wellFormed (e : Event) (p : Plugin) :
  wellFormed p -> wellFormed (snd (handler e p)).
Proof.
  intros Hw. destruct e as [file|file|file|h| |s t| |activeFile|confirmed allFiles];
    cbn [Events.handler].
  - destruct file as [f|folder]; cbn [Events.onChange]; [|exact Hw].
    destruct (shouldProcessFile (triggers p) (AFile f)); [|exact Hw].
    now apply handleNoteChange_wellFormed.
  - destruct file as [f|folder]; cbn [Events.onChange]; [|exact Hw].
    destruct (shouldProcessFile (triggers p) (AFile f)); [|exact Hw].
    now apply handleNoteChange_wellFormed.
  - destruct file as [f|folder]; cbn [onDelete]; [|exact Hw].
    destruct (str_eqb (extension f) (js "md")); exact Hw.
  - unfold Events.fire. destruct (find _ (pending p)) as [t|]; [|exact Hw].
    pose proof (clearTimeout_wellFormed h p Hw) as Hc.
    destruct (processQueuedNotes_effects (clearTimeout h p)) as (w' & Hq & _).
    assert (Hw1 : wellFormed (snd (processQueuedNotes host (clearTimeout h p)))).
    { rewrite Hq. apply setWorld_wellFormed, setQueue_wellFormed; [constructor|exact Hc]. }
    destruct (callback t) as [| |total i l]; cbn [runCallback].
    + exact Hw1.
    + unfold bindP.
      destruct (processQueuedNotes host (clearTimeout h p)) as [[[]|e] p1];
        cbn [snd] in Hw1 |- *; [|exact Hw1].
      now apply scheduleProcessing_timer.
    + now apply initializeLoop_frame.
  - cbn [snd]. now apply scheduleProcessing_timer.
  - exact Hw.
  - cbn [snd]. unfold saveSettings. apply scheduleProcessing_timer. exact Hw.
  - unfold Events.processCurrentNote. destruct activeFile as [f|].
    + destruct (negb _); rewrite inWorld_snd; exact Hw.
    + rewrite inWorld_snd. exact Hw.
  - unfold Events.initializeAllNotes. destruct (negb confirmed); [exact Hw|].
    unfold bindP, inWorld. cbn [notice]. now apply initializeLoop_frame.
Qed.

Lemma deliver_wellFormed (d : Delivery) (p : Plugin) :
  wellFormed p -> wellFormed (deliver d p).
Proof.
  intros Hw. unfold Events.deliver. apply handler_wellFormed.
  apply setWorld_wellFormed, Hw.
Qed.

Lemma run_wellFormed (ds : list Delivery) (p : Plugin) :
  wellFormed p -> wellFormed (run ds p).
Proof.
  revert p. induction ds as [|d ds IH]; intros p Hw; [exact Hw|].
  cbn [Events.run fold_left]. apply IH. now apply deliver_wellFormed.
Qed.

(** X14.  Whatever the host asks of the plugin and in whatever order, at most one
    timeout of [scheduleDelayedProcessing] and at most one of
    [scheduleProcessing] is pending, the one the field of the plugin names,
    and no path is queued twice. *)
Theorem one_timeout_of_each_kind (ds : list Delivery) (p : Plugin) :
  wellFormed p ->
  let p' := run ds p in
  wellFormed p'
  /\ length (timersOf DelayedCallback p') <= 1
  /\ length (timersOf ScheduledCallback p') <= 1
  /\ (forall t, In t (timersOf DelayedCallback p') ->
        delayedProcessingTimer p' = Some (handle t))
  /\ (forall t, In t (timersOf ScheduledCallback p') ->
        scheduledProcessingTimer p' = Some (handle t))
  /\ NoDup (processingQueue p').
Proof.
  intros Hw p'. pose proof (run_wellFormed ds p Hw) as H. fold p' in H.
  split; [exact H|]. split; [now apply wellFormed_one|].
  split; [now apply wellFormed_one|].
  destruct H as (Hq & _ & _ & Hn & _). rewrite Forall_forall in Hn.
  split; [|split; [|exact Hq]].
  - intros t Ht. rewrite timersOf_delayed in Ht. apply filter_In in Ht as [Ht Hc].
    specialize (Hn t Ht). unfold isDelayed in Hc.
    destruct (callback t); try discriminate. exact Hn.
  - intros t Ht. rewrite timersOf_scheduled in Ht. apply filter_In in Ht as [Ht Hc].
    specialize (Hn t Ht). unfold isScheduled in Hc.
    destruct (callback t); try discriminate. exact Hn.
Qed.

(** ** Changes under the trigger [delayed] *)

(** The host tells of a new or changed note the plugin is to process. *)
Definition isChange (t : TriggerSettings) (d : Delivery) (f : TFile) : Prop :=
  (event d = Created (AFile f) \/ event d = Modified (AFile f))
  /\ shouldProcessFile t (AFile f) = true.

Lemma deliver_change_delayed (d : Delivery) (f : TFile) (p : Plugin) :
  wellFormed p ->
  processingTrigger (triggers p) = js "delayed" ->
  isChange (triggers p) d f ->
  let p' := deliver d p in
  wellFormed p' /\ triggers p' = triggers p
  /\ timersOf DelayedCallback p'
     = [mkTimer (nextHandle p) DelayedCallback (delayMinutes (triggers p) * 60 * 1000)
          (instant d)]
  /\ timersOf ScheduledCallback p' = timersOf ScheduledCallback p
  /\ processingQueue p' = setAdd (file_path f) (processingQueue p)
  /\ world p'
     = mkWorld (files d) (noteEmbeddings (world p)) (costEntries (world p))
         (notices (world p)) (instant d) (modified (world p)).
Proof.
  intros Hw Ht [He Hs] p'. unfold p', Events.deliver.
  set (w1 := mkWorld (files d) _ _ _ _ _).
  assert (Hh : handler (event d) (setWorld w1 p)
               = (Ok tt,
                  scheduleDelayedProcessing
                    (setQueue (setAdd (file_path f) (processingQueue p))
                       (setWorld w1 p)))).
  { destruct He as [-> | ->]; cbn [Events.handler Events.onChange setWorld triggers];
      rewrite Hs; unfold handleNoteChange;
      cbn [setQueue setWorld triggers processingQueue]; rewrite Ht; reflexivity. }
  rewrite Hh. cbn [snd].
  pose proof (scheduleDelayedProcessing_timer
                (setQueue (setAdd (file_path f) (processingQueue p)) (setWorld w1 p)))
    as H.
  cbv zeta in H. cbn [setQueue setWorld nextHandle triggers world now processingQueue
                      service] in H.
  destruct H as (H1 & H2 & H3 & H4 & H5 & H6 & H7).
  { apply setQueue_wellFormed; [apply setAdd_NoDup, Hw|exact Hw]. }
  split; [exact H1|]. split; [exact H6|]. split; [rewrite H2; reflexivity|].
  split; [exact H3|]. split; [exact H5|exact H4].
Qed.

(** X15.  Under the trigger [delayed] every change restarts the delay: after any
    changes, one after the other, exactly one timeout of
    [scheduleDelayedProcessing] is pending, asked for at the last change
    with the whole delay; the paths of the changed notes are queued, each
    once; no note has been processed yet. *)
Theorem delayed_changes_debounced (ds : list Delivery) (d : Delivery) (p : Plugin) :
  wellFormed p ->
  processingTrigger (triggers p) = js "delayed" ->
  (forall d', In d' (ds ++ [d]) -> exists f, isChange (triggers p) d' f) ->
  let p' := run (ds ++ [d]) p in
  (exists h,
     timersOf DelayedCallback p'
     = [mkTimer h DelayedCallback (delayMinutes (triggers p) * 60 * 1000)%Z (instant d)])
  /\ timersOf ScheduledCallback p' = timersOf ScheduledCallback p
  /\ NoDup (processingQueue p')
  /\ incl (processingQueue p) (processingQueue p')
  /\ (forall d' f, In d' (ds ++ [d]) -> isChange (triggers p) d' f ->
        In (file_path f) (processingQueue p'))
  /\ noteEmbeddings (world p') = noteEmbeddings (world p)
  /\ costEntries (world p') = costEntries (world p)
  /\ notices (world p') = notices (world p)
  /\ modified (world p') = modified (world p).
Proof.
  revert p. induction ds as [|d0 ds IH]; intros p Hw Ht Hall p'.
  - destruct (Hall d (or_introl eq_refl)) as [f Hf].
    destruct (deliver_change_delayed d f p Hw Ht Hf) as (H1 & H2 & H3 & H4 & H5 & H6).
    unfold p'. change (run ([] ++ [d]) p) with (deliver d p).
    split; [eauto|]. split; [exact H4|]. split; [apply H1|].
    split; [rewrite H5; apply setAdd_incl|].
    split.
    + intros d' f' [<-|[]] [He' _]. destruct Hf as [He _].
      assert (f' = f) as ->.
      { destruct He as [E|E], He' as [E'|E']; rewrite E in E'; congruence. }
      rewrite H5. apply setAdd_In.
    + rewrite H6. cbn. auto.
  - destruct (Hall d0 (or_introl eq_refl)) as [f Hf].
    destruct (deliver_change_delayed d0 f p Hw Ht Hf) as (H1 & H2 & H3 & H4 & H5 & H6).
    specialize (IH (deliver d0 p) H1).
    rewrite H2 in IH. specialize (IH Ht).
    destruct IH as (I1 & I2 & I3 & I4 & I5 & I6 & I7 & I8 & I9).
    { intros d' Hd'. apply Hall. now right. }
    unfold p'. change (run ((d0 :: ds) ++ [d]) p) with (run (ds ++ [d]) (deliver d0 p)).
    split; [exact I1|]. split; [now rewrite I2|]. split; [exact I3|].
    split.
    { intros x Hx. apply I4. rewrite H5. now apply setAdd_incl. }
    split.
    { intros d' f' [<-|Hd'] Hc.
      - apply I4. rewrite H5. destruct Hf as [He _], Hc as [He' _].
        assert (f' = f) as ->.
        { destruct He as [E|E], He' as [E'|E']; rewrite E in E'; congruence. }
        apply setAdd_In.
      - now apply (I5 d' f'). }
    rewrite I6, I7, I8, I9, H6. cbn. auto.
Qed.

(** ** Triggers that set no timer *)

(** The trigger is neither [delayed] nor [scheduled]: it is [immediate],
    [manual] or an unknown word. *)
Definition untimed (t : TriggerSettings) : Prop :=
  str_eqb (processingTrigger t) (js "delayed") = false
  /\ str_eqb (processingTrigger t) (js "scheduled") = false.

Definition keepsSettings (d : Delivery) : Prop :=
  match event d with
  | SettingsAssigned _ _ => False
  | _ => True
  end.

Lemma scheduleProcessing_untimed (p : Plugin) :
  quiet p -> untimed (triggers p) ->
  quiet (scheduleProcessing p)
  /\ processingQueue (scheduleProcessing p) = processingQueue p
  /\ triggers (scheduleProcessing p) = triggers p.
Proof.
  intros Hp [_ Hs]. unfold Events.scheduleProcessing.
  destruct (scheduledProcessingTimer p) as [h|]; cbn [clearTimeout triggers]; rewrite Hs.
  - split; [now apply quiet_clearTimeout|split; reflexivity].
  - auto.
Qed.

Lemma handler_untimed (e : Event) (p : Plugin) :
  quiet p -> untimed (triggers p) ->
  match e with SettingsAssigned _ _ => False | _ => True end ->
  let p' := snd (handler e p) in
  quiet p' /\ triggers p' = triggers p
  /\ incl (processingQueue p) (processingQueue p')
  /\ (forall f, e = Created (AFile f) \/ e = Modified (AFile f) ->
        shouldProcessFile (triggers p) (AFile f) = true ->
        In (file_path f) (processingQueue p')).
Proof.
  intros Hp Hu Hk. cbv zeta.
  assert (Hch : forall f,
            let p2 := snd (onChange (AFile f) p) in
            quiet p2 /\ triggers p2 = triggers p
            /\ incl (processingQueue p) (processingQueue p2)
            /\ (shouldProcessFile (triggers p) (AFile f) = true ->
                In (file_path f) (processingQueue p2))).
  { intros f. cbn [Events.onChange]. cbv zeta.
    destruct (shouldProcessFile (triggers p) (AFile f)) eqn:Es.
    2:{ cbn [snd]. split; [exact Hp|]. split; [reflexivity|].
        split; [apply incl_refl|discriminate]. }
    unfold handleNoteChange. cbn [setQueue triggers].
    destruct Hu as [Hd _]. rewrite Hd.
    destruct (str_eqb (processingTrigger (triggers p)) (js "immediate")).
    - rewrite inWorld_snd. cbn [setWorld triggers processingQueue].
      split; [exact Hp|]. split; [reflexivity|]. split; [apply setAdd_incl|].
      intros _. apply setAdd_In.
    - cbn [snd triggers processingQueue].
      split; [exact Hp|]. split; [reflexivity|]. split; [apply setAdd_incl|].
      intros _. apply setAdd_In. }
  destruct e as [file|file|file|h| |s t| |activeFile|confirmed allFiles];
    cbn [Events.handler].
  - destruct file as [f|folder].
    + destruct (Hch f) as (A & B & C & D). split; [exact A|]. split; [exact B|].
      split; [exact C|]. intros f' [E|E] Hs; [|discriminate E].
      injection E as <-. now apply D.
    + cbn. split; [exact Hp|]. split; [reflexivity|]. split; [apply incl_refl|].
      intros f' [E|E] _; discriminate E.
  - destruct file as [f|folder].
    + destruct (Hch f) as (A & B & C & D). split; [exact A|]. split; [exact B|].
      split; [exact C|]. intros f' [E|E] Hs; [discriminate E|].
      injection E as <-. now apply D.
    + cbn. split; [exact Hp|]. split; [reflexivity|]. split; [apply incl_refl|].
      intros f' [E|E] _; discriminate E.
  - assert (H : pending (snd (onDelete extension file p)) = pending p
                /\ triggers (snd (onDelete extension file p)) = triggers p
                /\ processingQueue (snd (onDelete extension file p)) = processingQueue p).
    { destruct file as [f|folder]; cbn [onDelete]; [|cbn; auto].
      destruct (str_eqb (extension f) (js "md")); cbn; auto. }
    destruct H as (A & B & C). split.
    { unfold quiet. rewrite !timersOf_delayed, !timersOf_scheduled, A. exact Hp. }
    split; [exact B|].
    split; [rewrite C; apply incl_refl|]. intros f' [E|E] _; discriminate E.
  - assert (H : quiet (snd (fire h p)) /\ triggers (snd (fire h p)) = triggers p
                /\ processingQueue (snd (fire h p)) = processingQueue p).
    { unfold Events.fire. destruct (find _ (pending p)) as [t|] eqn:Ef; [|cbn; auto].
      apply find_some in Ef as [Hin _].
      destruct (callback t) as [| |total i l] eqn:Ec; cbn [runCallback].
      - exfalso. destruct Hp as [Hd _]. rewrite timersOf_delayed in Hd.
        assert (Hi : In t (filter isDelayed (pending p))).
        { apply filter_In. split; [exact Hin|]. unfold isDelayed. now rewrite Ec. }
        rewrite Hd in Hi. destruct Hi.
      - exfalso. destruct Hp as [_ Hs]. rewrite timersOf_scheduled in Hs.
        assert (Hi : In t (filter isScheduled (pending p))).
        { apply filter_In. split; [exact Hin|]. unfold isScheduled. now rewrite Ec. }
        rewrite Hs in Hi. destruct Hi.
      - destruct (initializeLoop_frame total i l (clearTimeout h p))
          as (_ & _ & Fd & Fs & Fq & Ft & _).
        destruct (quiet_clearTimeout h p Hp) as [Qd Qs].
        split; [split; [now rewrite Fd|now rewrite Fs]|]. split; [exact Ft|exact Fq]. }
    destruct H as (A & B & C). split; [exact A|]. split; [exact B|].
    split; [rewrite C; apply incl_refl|]. intros f' [E|E] _; discriminate E.
  - cbn [snd]. destruct (scheduleProcessing_untimed p Hp Hu) as (A & B & C).
    split; [exact A|]. split; [exact C|]. split; [rewrite B; apply incl_refl|].
    intros f' [E|E] _; discriminate E.
  - destruct Hk.
  - cbn [snd]. unfold saveSettings.
    match goal with
    | |- context [Events.scheduleProcessing setHours nextDate ?q] =>
        destruct (scheduleProcessing_untimed q) as (A & B & C); [exact Hp|exact Hu|]
    end.
    split; [exact A|]. split; [exact C|]. split; [rewrite B; apply incl_refl|].
    intros f' [E|E] _; discriminate E.
  - assert (H : snd (processCurrentNote activeFile p)
                = setWorld (world (snd (processCurrentNote activeFile p))) p).
    { unfold Events.processCurrentNote. destruct activeFile as [f|];
        [destruct (negb _)|]; rewrite inWorld_snd; reflexivity. }
    rewrite H. cbn [setWorld triggers processingQueue].
    split; [exact Hp|]. split; [reflexivity|]. split; [apply incl_refl|].
    intros f' [E|E] _; discriminate E.
  - assert (H : quiet (snd (initializeAllNotes confirmed allFiles p))
                /\ triggers (snd (initializeAllNotes confirmed allFiles p)) = triggers p
                /\ processingQueue (snd (initializeAllNotes confirmed allFiles p))
                   = processingQueue p).
    { unfold Events.initializeAllNotes. destruct (negb confirmed); [cbn; auto|].
      unfold bindP, inWorld. cbn [notice].
      match goal with
      | |- context [Events.initializeLoop host ?n 0 ?l ?q] =>
          destruct (initializeLoop_frame n 0 l q) as (_ & _ & Fd & Fs & Fq & Ft & _)
      end.
      destruct Hp as [Qd Qs].
      split; [split; [now rewrite Fd|now rewrite Fs]|]. split; [exact Ft|exact Fq]. }
    destruct H as (A & B & C). split; [exact A|]. split; [exact B|].
    split; [rewrite C; apply incl_refl|]. intros f' [E|E] _; discriminate E.
Qed.

Lemma deliver_untimed (d : Delivery) (p : Plugin) :
  quiet p -> untimed (triggers p) -> keepsSettings d ->
  let p' := deliver d p in
  quiet p' /\ triggers p' = triggers p
  /\ incl (processingQueue p) (processingQueue p')
  /\ (forall f, isChange (triggers p) d f -> In (file_path f) (processingQueue p')).
Proof.
  intros Hp Hu Hk. cbv zeta. unfold Events.deliver.
  set (w1 := mkWorld (files d) _ _ _ _ _).
  destruct (handler_untimed (event d) (setWorld w1 p) Hp Hu Hk) as (A & B & C & D).
  split; [exact A|]. split; [exact B|]. split; [exact C|].
  intros f [He Hs]. now apply D.
Qed.

(** X16.  Under a trigger other than [delayed] and [scheduled] and with settings
    that stay, no timeout that runs [processQueuedNotes] is ever asked for:
    the only timeouts are the pauses of [initializeAllNotes].  So the queue
    only grows, and the path of every note the host told of stays queued,
    also under [immediate], where the note was processed at once. *)
Theorem queue_never_drained (ds : list Delivery) (p : Plugin) :
  quiet p ->
  untimed (triggers p) ->
  Forall keepsSettings ds ->
  let p' := run ds p in
  timersOf DelayedCallback p' = []
  /\ timersOf ScheduledCallback p' = []
  /\ incl (processingQueue p) (processingQueue p')
  /\ (forall d f, In d ds -> isChange (triggers p) d f ->
        In (file_path f) (processingQueue p')).
Proof.
  revert p. induction ds as [|d ds IH]; intros p Hp Hu Hk p'.
  - unfold p'. cbn. split; [apply Hp|]. split; [apply Hp|].
    split; [apply incl_refl|]. intros d f [].
  - inversion Hk as [|? ? Hd Hds]; subst.
    destruct (deliver_untimed d p Hp Hu Hd) as (A & B & C & D).
    assert (Hu' : untimed (triggers (deliver d p))) by (now rewrite B).
    destruct (IH (deliver d p) A Hu' Hds) as (I0 & I1 & I2 & I3).
    unfold p'. change (run (d :: ds) p) with (run ds (deliver d p)).
    split; [exact I0|]. split; [exact I1|]. split.
    + intros x Hx. apply I2, C, Hx.
    + intros d' f [<-|Hd'] Hc.
      * apply I2. now apply D.
      * apply (I3 d' f Hd'). now rewrite B.
Qed.

(** ** The queue is drained *)

(** X17.  [processQueuedNotes] empties the queue before it processes a note, so
    the queue is empty afterwards also when [processNote] throws; then the
    paths that were queued behind are dropped unprocessed.  It returns when
    the [catch] of [processNote] can read what the vault rejects with, and
    throws nothing but the TypeError of that [catch].  Only queued paths
    that are files of the vault can gain an embedding; a queued path that is
    no file any more is passed over in silence, and when none is a file
    nothing changes but the queue.  No file is created or removed. *)
Theorem processQueuedNotes_drains (p : Plugin) :
  exists w',
    snd (processQueuedNotes host p) = setWorld w' (setQueue [] p)
    /\ (faultsHandled host -> fst (processQueuedNotes host p) = Ok tt)
    /\ (fst (processQueuedNotes host p) = Ok tt
        \/ exists text, fst (processQueuedNotes host p) = Throw (Error text))
    /\ (forall f e rest,
          processingQueue p = file_path f :: rest ->
          getAbstractFileByPath (vaultIndex (world p)) (file_path f) = Some (AFile f) ->
          isConfigured (service p) = true ->
          readFault host (file_path f) = Some e ->
          handled e = false ->
          exists text, processQueuedNotes host p = (Throw (Error text), setQueue [] p))
    /\ (forall q, JSMap.get q (noteEmbeddings w') <> None ->
          JSMap.get q (noteEmbeddings (world p)) <> None
          \/ (In q (processingQueue p) /\ In q (paths (world p))))
    /\ paths w' = paths (world p)
    /\ ((forall path, In path (processingQueue p) -> ~ In path (paths (world p))) ->
        w' = world p /\ fst (processQueuedNotes host p) = Ok tt).
Proof.
  destruct (processQueuedNotes_effects p) as (w' & H & Hf & Ho & H1 & H2 & _ & H4).
  exists w'. split; [exact H|]. split; [exact Hf|]. split; [exact Ho|].
  split; [|auto].
  intros f e rest Hq Hg Hc Hr Hh. unfold processQueuedNotes. rewrite Hq.
  cbn [length Nat.eqb forEachP]. unfold bindP, processPath.
  cbn [setQueue world service]. rewrite Hg. unfold inWorld.
  cbn [setQueue world service].
  destruct (processNote_throws host (service p) f (world p) e Hc Hr Hh) as [text ->].
  exists text. reflexivity.
Qed.

(** ** A timeout is due *)

(** X18.  When a timeout of the plugin is due, its function runs with the
    timeout no longer pending.  The functions that run the queue leave it
    empty.  The timeout of [scheduleDelayedProcessing] is not renewed; the
    one of [scheduleProcessing] is, for the next scheduled hour counted from
    now, if [processQueuedNotes] returned and the trigger still is
    [scheduled]: a run that throws ends the daily schedule.  The pause of
    [initializeAllNotes] goes on with the loop.  The timeouts of the other
    kinds stay, and no exception leaves the function when the [catch] of
    [processNote] can read what the vault rejects with.  A handle that is
    not pending calls nothing. *)
Theorem timeout_fired (p : Plugin) (h : Z) :
  wellFormed p ->
  ((forall t, In t (pending p) -> handle t <> h) -> fire h p = (Ok tt, p))
  /\ (forall t, In t (pending p) -> handle t = h ->
        let r := fst (fire h p) in
        let p' := snd (fire h p) in
        wellFormed p'
        /\ (faultsHandled host -> r = Ok tt)
        /\ match callback t with
           | DelayedCallback =>
               processingQueue p' = []
               /\ timersOf DelayedCallback p' = []
               /\ timersOf ScheduledCallback p' = timersOf ScheduledCallback p
           | ScheduledCallback =>
               processingQueue p' = []
               /\ timersOf DelayedCallback p' = timersOf DelayedCallback p
               /\ (r = Ok tt ->
                   timersOf ScheduledCallback p'
                   = (if str_eqb (processingTrigger (triggers p)) (js "scheduled")
                      then [mkTimer (nextHandle p) ScheduledCallback
                              (timeUntilScheduled setHours nextDate (now (world p'))
                                 (scheduleHour (triggers p)))
                              (now (world p'))]
                      else []))
               /\ (r <> Ok tt -> timersOf ScheduledCallback p' = [])
           | ResumeCallback total i l =>
               fire h p = initializeLoop host total i l (clearTimeout h p)
               /\ r = Ok tt
               /\ processingQueue p' = processingQueue p
               /\ timersOf DelayedCallback p' = timersOf DelayedCallback p
               /\ timersOf ScheduledCallback p' = timersOf ScheduledCallback p
           end).
Proof.
  intros Hw. split.
  - intros Hno. unfold Events.fire.
    destruct (find _ (pending p)) as [t|] eqn:E; [|reflexivity].
    apply find_some in E as [Hin He]. apply Z.eqb_eq in He. now destruct (Hno t Hin).
  - intros t Ht <-. cbv zeta. unfold Events.fire. rewrite (find_handle p t Hw Ht).
    pose proof (clearTimeout_wellFormed (handle t) p Hw) as Hc.
    pose proof (clearTimeout_kind p t Hw Ht) as Hk. cbv zeta in Hk.
    set (p1 := clearTimeout (handle t) p) in *.
    destruct (processQueuedNotes_effects p1) as (w' & Hq & Hf & _ & _ & _ & Hnow & _).
    assert (Hw1 : wellFormed (setWorld w' (setQueue [] p1))).
    { apply setWorld_wellFormed, setQueue_wellFormed; [constructor|exact Hc]. }
    destruct (callback t) as [| |total i l]; cbn [runCallback].
    + rewrite Hq. split; [exact Hw1|]. split; [exact Hf|].
      split; [reflexivity|exact Hk].
    + unfold bindP.
      destruct (processQueuedNotes host p1) as [[[]|e] p2]; cbn [fst snd] in Hq, Hf |- *;
        subst p2.
      * destruct (scheduleProcessing_timer setHours nextDate _ Hw1)
          as (S1 & S2 & S3 & S4 & S5 & S6 & S7).
        split; [exact S1|]. split; [reflexivity|]. split; [exact S5|].
        split; [rewrite S2; apply Hk|]. split.
        -- intros _. rewrite S3, S4. reflexivity.
        -- intros Hne. now destruct Hne.
      * split; [exact Hw1|]. split; [exact Hf|]. split; [reflexivity|].
        split; [apply Hk|]. split; [intros E; discriminate E|]. intros _. apply Hk.
    + destruct (initializeLoop_frame total i l p1) as (F1 & F2 & F3 & F4 & F5 & _).
      split; [exact (F2 Hc)|]. split; [intros _; exact F1|].
      split; [reflexivity|]. split; [exact F1|]. split; [exact F5|].
      split; [rewrite F3; apply Hk|rewrite F4; apply Hk].
Qed.

(** X19.  [saveSettings] never cancels a pending run of
    [scheduleDelayedProcessing], whatever the trigger now is.  It clears the
    timeout of [scheduleProcessing] and, under the trigger [scheduled], asks
    for a new one, for the scheduled hour counted from now; the delay is
    positive when the scheduled hour of today or of the next day is ahead.
    The queue stays, and the provider runs [initializeClients] on the
    settings it shares with the plugin. *)
Theorem saveSettings_timers (p : Plugin) :
  wellFormed p ->
  let p' := saveSettings setHours nextDate p in
  let hour := scheduleHour (triggers p) in
  let delay := timeUntilScheduled setHours nextDate (now (world p)) hour in
  wellFormed p'
  /\ timersOf DelayedCallback p' = timersOf DelayedCallback p
  /\ timersOf ScheduledCallback p'
     = (if str_eqb (processingTrigger (triggers p)) (js "scheduled")
        then [mkTimer (nextHandle p) ScheduledCallback delay (now (world p))]
        else [])
  /\ (((setHours (now (world p)) hour <= now (world p))%Z ->
       (now (world p) < nextDate (setHours (now (world p)) hour))%Z) ->
      (0 < delay)%Z)
  /\ processingQueue p' = processingQueue p
  /\ world p' = world p
  /\ triggers p' = triggers p
  /\ service p' = updateSettings (service p) (settings (service p)).
Proof.
  intros Hw p' hour delay. unfold p', saveSettings.
  set (p0 := mkPlugin _ _ _ _ _ _ _ _).
  assert (Hw0 : wellFormed p0) by exact Hw.
  destruct (scheduleProcessing_timer setHours nextDate p0 Hw0)
    as (S1 & S2 & S3 & S4 & S5 & S6 & S7).
  split; [exact S1|]. split; [exact S2|]. split; [exact S3|].
  split; [apply timeUntilScheduled_positive|]. auto.
Qed.

(** ** The plugin is unloaded *)

Lemma filter_all {A} (f : A -> bool) (l : list A) :
  (forall x, In x l -> f x = true) -> filter f l = l.
Proof.
  induction l as [|a l IH]; intros H; cbn [filter]; [reflexivity|].
  rewrite (H a (or_introl eq_refl)). f_equal. apply IH. intros x Hx. apply H. now right.
Qed.

Lemma filter_filter_as {A} (f g k : A -> bool) (l : list A) :
  (forall x, In x l -> k x = g x && f x) -> filter f (filter g l) = filter k l.
Proof.
  induction l as [|a l IH]; intros H; cbn [filter]; [reflexivity|].
  rewrite (H a (or_introl eq_refl)).
  assert (IH' : filter f (filter g l) = filter k l).
  { apply IH. intros x Hx. apply H. now right. }
  destruct (g a); cbn [filter andb]; [|exact IH'].
  destruct (f a); [f_equal|]; exact IH'.
Qed.

(** What [onunload] leaves pending: the pauses of [initializeAllNotes]. *)
Lemma onunload_pending (localStorage : Storage) (p : Plugin) :
  wellFormed p ->
  pending (snd (onunload localStorage p)) = filter isResume (pending p).
Proof.
  intros (_ & _ & _ & Hn & Hfd & _). rewrite Forall_forall in Hn.
  unfold onunload. cbn [snd].
  destruct (delayedProcessingTimer p) as [hd|] eqn:Ed;
    cbn [clearTimeout scheduledProcessingTimer];
    destruct (scheduledProcessingTimer p) as [hs|] eqn:Es;
    cbn [clearTimeout pending].
  - destruct (Hfd hd eq_refl) as [_ Hne].
    apply filter_filter_as. intros t Ht. specialize (Hn t Ht). unfold isResume.
    destruct (callback t).
    + injection Hn as <-. now rewrite Z.eqb_refl.
    + injection Hn as <-.
      rewrite Z.eqb_refl, andb_false_r. reflexivity.
    + destruct Hn as [Hd Hs].
      assert (E1 : Z.eqb (handle t) hd = false).
      { apply Z.eqb_neq. intros E. apply Hd. now rewrite E. }
      assert (E2 : Z.eqb (handle t) hs = false).
      { apply Z.eqb_neq. intros E. apply Hs. now rewrite E. }
      now rewrite E1, E2.
  - apply filter_ext_in. intros t Ht. specialize (Hn t Ht). unfold isResume.
    destruct (callback t).
    + injection Hn as <-. now rewrite Z.eqb_refl.
    + discriminate Hn.
    + destruct Hn as [Hd _]. apply negb_true_iff, Z.eqb_neq. intros E. apply Hd.
      now rewrite E.
  - apply filter_ext_in. intros t Ht. specialize (Hn t Ht). unfold isResume.
    destruct (callback t).
    + discriminate Hn.
    + injection Hn as <-. now rewrite Z.eqb_refl.
    + destruct Hn as [_ Hs]. apply negb_true_iff, Z.eqb_neq. intros E. apply Hs.
      now rewrite E.
  - symmetry. apply filter_all. intros t Ht. specialize (Hn t Ht). unfold isResume.
    destruct (callback t); [discriminate Hn|discriminate Hn|reflexivity].
Qed.

Lemma onunload_wellFormed (localStorage : Storage) (p : Plugin) :
  wellFormed p ->
  let p' := snd (onunload localStorage p) in
  wellFormed p' /\ world p' = world p /\ processingQueue p' = processingQueue p
  /\ triggers p' = triggers p /\ nextHandle p' = nextHandle p.
Proof.
  intros Hw. unfold onunload. cbn [snd].
  destruct (delayedProcessingTimer p) as [hd|];
    cbn [clearTimeout scheduledProcessingTimer];
    destruct (scheduledProcessingTimer p) as [hs|];
    (split; [|repeat split]).
  - now apply clearTimeout_wellFormed, clearTimeout_wellFormed.
  - now apply clearTimeout_wellFormed.
  - now apply (clearTimeout_wellFormed hs p).
  - exact Hw.
Qed.

(** X27.  [onunload] clears the two timeouts that run the queue and nothing else:
    the pauses of a running [initializeAllNotes] stay pending, and nothing
    records that the plugin is unloaded, so the end of a scheduled callback
    that comes after [onunload] asks for a new timeout under the trigger
    [scheduled].  The map of embeddings is stored under its key and the
    other keys of the store are left alone.  The queue is not emptied. *)
Theorem onunload_clears_timers (localStorage : Storage) (p : Plugin) :
  wellFormed p ->
  let saved := fst (onunload localStorage p) in
  let p' := snd (onunload localStorage p) in
  timersOf DelayedCallback p' = []
  /\ timersOf ScheduledCallback p' = []
  /\ pending p' = filter isResume (pending p)
  /\ (processingTrigger (triggers p) = js "scheduled" ->
      forall d, event d = Rescheduled ->
        timersOf ScheduledCallback (deliver d p')
        = [mkTimer (nextHandle p) ScheduledCallback
             (timeUntilScheduled setHours nextDate (instant d) (scheduleHour (triggers p)))
             (instant d)])
  /\ JSMap.get storageKey saved
     = Some (JSON_stringify (entriesArray (runtimeStore (noteEmbeddings (world p)))))
  /\ (forall k, k <> storageKey -> JSMap.get k saved = JSMap.get k localStorage)
  /\ world p' = world p
  /\ processingQueue p' = processingQueue p.
Proof.
  intros Hw. cbv zeta.
  pose proof (onunload_pending localStorage p Hw) as Hp.
  destruct (onunload_wellFormed localStorage p Hw) as (Hw' & Ew & Eq & Et & En).
  split; [|split; [|split; [exact Hp|split; [|split; [|split; [|split]]]]]].
  - rewrite timersOf_delayed, Hp. apply filter_filter_none.
    intros t _. unfold isDelayed, isResume. now destruct (callback t).
  - rewrite timersOf_scheduled, Hp. apply filter_filter_none.
    intros t _. unfold isScheduled, isResume. now destruct (callback t).
  - intros Hs d Hd. unfold Events.deliver. rewrite Hd. cbn [Events.handler snd].
    match goal with
    | |- context [Events.scheduleProcessing setHours nextDate ?q] =>
        destruct (scheduleProcessing_timer setHours nextDate q) as (_ & _ & S3 & _);
          [apply setWorld_wellFormed, Hw'|]
    end.
    rewrite S3. cbn [setWorld triggers nextHandle world now].
    rewrite Et, En, Hs, str_eqb_refl. reflexivity.
  - unfold onunload in Ew |- *. cbn [fst snd] in Ew |- *. rewrite Ew.
    apply PersistenceFacts.get_set_same.
  - intros k Hk. unfold onunload. cbn [fst]. now apply FrontmatterFacts.get_set_other.
  - exact Ew.
  - exact Eq.
Qed.

(** ** The commands *)

(** X20.  Without an active file, or with one that [shouldProcessFile] refuses,
    [processCurrentNote] shows one notice and does nothing else.  Otherwise
    it shows [Current note processed!] whenever [processNote] returns,
    whatever that did: after the notice that the provider is not
    configured, in which case nothing is stored or written, and after the
    notice of an error the [catch] of [processNote] could report.  When
    [processNote] throws, the command is rejected with the same value before
    that notice: this is the case when reading the note is rejected with a
    value whose message the [catch] cannot read. *)
Theorem processCurrentNote_notice (activeFile : option TFile) (p : Plugin) :
  exists w',
    snd (processCurrentNote activeFile p) = setWorld w' p
    /\ match activeFile with
       | None =>
           fst (processCurrentNote activeFile p) = Ok tt
           /\ w' = snd (notice (js "No active file to process") (world p))
       | Some f =>
           if shouldProcessFile (triggers p) (AFile f)
           then
             let done := processNote host (service p) f (world p) in
             (fst done = Ok tt ->
              fst (processCurrentNote activeFile p) = Ok tt
              /\ notices w' = notices (snd done) ++ [js "Current note processed!"])
             /\ (forall e, fst done = Throw e ->
                   fst (processCurrentNote activeFile p) = Throw e /\ w' = snd done)
             /\ (faultsHandled host -> fst done = Ok tt)
             /\ (isConfigured (service p) = false ->
                 fst (processCurrentNote activeFile p) = Ok tt
                 /\ notices w'
                    = notices (world p)
                      ++ [js "AI provider not configured. Please check settings.";
                          js "Current note processed!"]
                 /\ noteEmbeddings w' = noteEmbeddings (world p)
                 /\ modified w' = modified (world p))
             /\ (forall e, isConfigured (service p) = true ->
                   readFault host (file_path f) = Some e ->
                   noteEmbeddings w' = noteEmbeddings (world p)
                   /\ modified w' = modified (world p)
                   /\ (handled e = true ->
                       fst (processCurrentNote activeFile p) = Ok tt
                       /\ notices w'
                          = notices (snd (processNoteFailed host e (world p)))
                            ++ [js "Current note processed!"])
                   /\ (handled e = false ->
                       (exists text,
                          fst (processCurrentNote activeFile p) = Throw (Error text))
                       /\ w' = world p))
           else
             fst (processCurrentNote activeFile p) = Ok tt
             /\ w' = snd (notice
                            (js "Current file is not in the target folder or is not a markdown file")
                            (world p))
       end.
Proof.
  unfold Events.processCurrentNote. destruct activeFile as [f|].
  - destruct (shouldProcessFile (triggers p) (AFile f)); cbn [negb].
    + unfold inWorld, bindM. cbv zeta.
      assert (Hread : forall e, isConfigured (service p) = true ->
                readFault host (file_path f) = Some e ->
                processNote host (service p) f (world p) = processNoteFailed host e (world p)).
      { intros e Hc He. unfold processNote. rewrite Hc. cbn [negb].
        unfold tryCatch, processNoteBody, bindM, vaultRead. now rewrite He. }
      assert (Hconf : isConfigured (service p) = false ->
                processNote host (service p) f (world p)
                = notice (js "AI provider not configured. Please check settings.") (world p)).
      { intros Hc. unfold processNote. now rewrite Hc. }
      pose proof (processNote_returns host (service p) f (world p)) as Hret.
      destruct (processNote host (service p) f (world p)) as [[[]|e0] w1] eqn:E;
        cbn [notice fst snd]; eexists; (split; [reflexivity|]); cbn [notices noteEmbeddings modified].
      * split; [intros _; split; reflexivity|]. split; [intros e He; discriminate He|].
        split; [reflexivity|]. split.
        -- intros Hc. specialize (Hconf Hc). cbn [notice] in Hconf.
           injection Hconf as ->.
           cbn [notices noteEmbeddings modified]. rewrite <- app_assoc. auto.
        -- intros e Hc He. specialize (Hread e Hc He).
           destruct (processNoteFailed_frame host e (world p)) as [ns Hns].
           rewrite <- Hread in Hns. cbn [snd] in Hns. subst w1.
           cbn [noteEmbeddings modified notices].
           split; [reflexivity|]. split; [reflexivity|]. split.
           ++ intros _. split; [reflexivity|]. rewrite <- Hread. reflexivity.
           ++ intros Hh. destruct (processNoteFailed_throws host e (world p) Hh)
                as (text & Ht & _). rewrite <- Hread in Ht. discriminate Ht.
      * split; [intros He; discriminate He|]. split.
        { intros e He. injection He as <-. split; reflexivity. }
        split.
        { intros Hf. destruct (Hret Hf) as [w2 Hw2]. discriminate Hw2. }
        split.
        { intros Hc. specialize (Hconf Hc). cbn [notice] in Hconf. discriminate Hconf. }
        intros e Hc He. specialize (Hread e Hc He).
        destruct (processNoteFailed_frame host e (world p)) as [ns Hns].
        rewrite <- Hread in Hns. cbn [snd] in Hns. subst w1.
        cbn [noteEmbeddings modified].
        split; [reflexivity|]. split; [reflexivity|]. split.
        -- intros Hh. destruct (processNoteFailed_handled host e (world p) Hh) as [text Ht].
           rewrite <- Hread in Ht. discriminate Ht.
        -- intros Hh. destruct (processNoteFailed_throws host e (world p) Hh)
             as (text & Ht & _). rewrite <- Hread in Ht. injection Ht as -> Hw.
           split; [eauto|exact Hw].
    + unfold inWorld. cbn [notice fst snd]. eexists. split; [reflexivity|].
      split; reflexivity.
  - unfold inWorld. cbn [notice fst snd]. eexists. split; [reflexivity|]. split; reflexivity.
Qed.

(** X21.  [initializeAllNotes] never stops early.  What its [catch] catches is
    the TypeError of the [catch] of [processNote], whose message names no
    budget: the loop goes on to the next file, at once and without the
    pause, and its notice of a pause and its [break] are never reached;
    neither does the [catch] throw.  So every pass returns.  After a note
    that [processNote] returned for, the pass ends with a timeout of 100
    milliseconds that carries on with the files that are left.  Without the
    confirmation nothing happens. *)
Theorem initializeAllNotes_never_breaks (allFiles : list TFile) (p : Plugin) :
  let targetFiles :=
    filter (fun file => shouldProcessFile (triggers p) (AFile file)) allFiles in
  (forall total i l q,
     initializeLoop host total i l q = processUntilPause total i l q)
  /\ (forall total i l q, fst (initializeLoop host total i l q) = Ok tt)
  /\ (forall total i file l q,
        fst (processNote host (service q) file (world q)) = Ok tt ->
        initializeLoop host total i (file :: l) q
        = (Ok tt,
           snd (setTimeout (ResumeCallback total (S i) l) 100
                  (setWorld
                     (snd (bindM (processNote host (service q) file)
                             (fun _ => progress i total) (world q))) q))))
  /\ (forall total i file l q e,
        fst (processNote host (service q) file (world q)) = Throw e ->
        initializeLoop host total i (file :: l) q
        = initializeLoop host total (S i) l
            (setWorld (snd (processNote host (service q) file (world q))) q))
  /\ (faultsHandled host ->
      forall file q, fst (processNote host (service q) file (world q)) = Ok tt)
  /\ initializeAllNotes true allFiles p
     = initializeLoop host (length targetFiles) 0 targetFiles
         (setWorld
            (snd (notice (js "Initializing " ++ decimal (Z.of_nat (length targetFiles))
                          ++ js " notes...") (world p))) p)
  /\ initializeAllNotes false allFiles p = (Ok tt, p).
Proof.
  cbv zeta. split; [intros; apply initializeLoop_processUntilPause|].
  split; [intros; apply initializeLoop_frame|].
  split; [|split; [|split; [|split; reflexivity]]].
  - intros total i file l q Ho. cbn [initializeLoop]. unfold inWorld, bindM.
    destruct (processNote host (service q) file (world q)) as [[[]|e] w1];
      cbn [fst] in Ho; [|discriminate Ho].
    destruct (progress_returns i total w1) as [ns ->]. reflexivity.
  - intros total i file l q e Ho. cbn [initializeLoop].
    destruct (inWorld _ q) as [[[]|e'] p1] eqn:E.
    + exfalso. unfold inWorld, bindM in E.
      destruct (processNote host (service q) file (world q)) as [[[]|e''] w1];
        cbn [fst] in Ho; discriminate.
    + rewrite (caught_no_budget _ _ _ _ _ _ _ E). f_equal.
      unfold inWorld, bindM in E.
      destruct (processNote host (service q) file (world q)) as [[[]|e''] w1];
        cbn [fst] in Ho; [discriminate Ho|].
      injection E as _ <-. reflexivity.
  - intros Hf file q.
    now destruct (processNote_returns host (service q) file (world q) Hf) as [w' ->].
Qed.

(** ** A note is deleted *)

Lemma get_delete_same {V} (k : jsstring) (m : list (jsstring * V)) :
  JSMap.get k (JSMap.delete k m) = None.
Proof.
  unfold JSMap.delete. induction m as [|[k' v] m IH]; cbn [filter fst]; [reflexivity|].
  destruct (str_eqb k k') eqn:E; cbn [negb]; [exact IH|].
  cbn [JSMap.get]. now rewrite E.
Qed.

Lemma get_delete_other {V} (q k : jsstring) (m : list (jsstring * V)) :
  q <> k -> JSMap.get q (JSMap.delete k m) = JSMap.get q m.
Proof.
  intros Hq. unfold JSMap.delete.
  induction m as [|[k' v] m IH]; cbn [filter fst]; [reflexivity|].
  destruct (str_eqb k k') eqn:E; cbn [negb JSMap.get].
  - apply str_eqb_eq in E. subst k'.
    destruct (str_eqb q k) eqn:Eq; [|exact IH].
    apply str_eqb_eq in Eq. contradiction.
  - now rewrite IH.
Qed.

(** X22.  When the host tells that a markdown file is deleted, its embedding
    leaves the map and the others stay: from then on the path is never
    ranked among the neighbours of a note, and as a query it has no
    neighbours.  The path stays in the queue if it was queued, and no
    timeout is cleared.  For a folder or a file of another extension nothing
    changes. *)
Theorem deleted_note_forgotten (entry : TAbstractFile) (p : Plugin) :
  let p' := snd (onDelete extension entry p) in
  fst (onDelete extension entry p) = Ok tt
  /\ processingQueue p' = processingQueue p
  /\ pending p' = pending p
  /\ (forall f, entry = AFile f -> extension f = js "md" ->
        let store := noteEmbeddings (world p') in
        JSMap.get (file_path f) store = None
        /\ (forall q, q <> file_path f ->
              JSMap.get q store = JSMap.get q (noteEmbeddings (world p)))
        /\ (forall vault query k r,
              In r (findRelevantNotes vault store query k) ->
              file_path (file r) <> file_path f)
        /\ (forall vault k, findRelevantNotes vault store (file_path f) k = []))
  /\ ((forall f, entry = AFile f -> extension f <> js "md") -> p' = p).
Proof.
  intros p'. unfold p'. destruct entry as [f|folder]; cbn [onDelete].
  - destruct (str_eqb (extension f) (js "md")) eqn:E; cbn [fst snd].
    + split; [reflexivity|]. split; [reflexivity|]. split; [reflexivity|]. split.
      * intros f' Ef _. injection Ef as <-. cbn [setWorld world noteEmbeddings].
        split; [apply get_delete_same|]. split; [intros q; apply get_delete_other|].
        split.
        -- intros vault query k r Hr.
           apply (unindexed_not_ranked vault
                    (JSMap.delete (file_path f) (noteEmbeddings (world p)))
                    query (file_path f) k r);
             [apply get_delete_same|exact Hr].
        -- intros vault k. unfold findRelevantNotes. now rewrite get_delete_same.
      * intros H. apply str_eqb_eq in E. now destruct (H f eq_refl).
    + split; [reflexivity|]. split; [reflexivity|]. split; [reflexivity|]. split.
      * intros f' Ef Em. injection Ef as <-. rewrite Em in E.
        now rewrite str_eqb_refl in E.
      * reflexivity.
  - cbn [fst snd]. split; [reflexivity|]. split; [reflexivity|]. split; [reflexivity|].
    split; [intros f' Ef; discriminate Ef|reflexivity].
Qed.

End WithHost.

(** ** Examples *)

(** The fields of the host's files, for a vault of markdown files at the
    root, and the calendar of UTC. *)
Definition markdown (f : TFile) : jsstring := js "md".
Definition atRoot (f : TFile) : option jsstring := None.
Definition utcSetHours (t hour : Z) : Z := (t / 86400000 * 86400000 + hour * 3600000)%Z.
Definition utcNextDate (t : Z) : Z := (t + 86400000)%Z.

Definition triggersOf (trigger : string) : TriggerSettings :=
  mkTriggers [] (js trigger) 5 9.

Definition exampleRun : list Delivery -> Plugin -> Plugin :=
  run allReadable markdown atRoot utcSetHours utcNextDate.

(** The note A is changed at the instants 10 and 20. *)
Definition changedTwice : list Delivery :=
  [mkDelivery 10 (vault threeNotes) (Modified (AFile fileA));
   mkDelivery 20 (vault threeNotes) (Modified (AFile fileA))].

Definition exampleSaved : SANESettings := exampleSettings (js "grok") false.

Lemma allReadable_faultsHandled : faultsHandled allReadable.
Proof.
  intros path e [H|H]; cbn in H; discriminate H.
Qed.

Lemma one_timeout_of_each_kind_witness :
  length (timersOf DelayedCallback
            (exampleRun changedTwice
               (constructed threeNotes exampleSaved (triggersOf "delayed")))) <= 1.
Proof.
  apply (one_timeout_of_each_kind allReadable markdown atRoot utcSetHours utcNextDate
           changedTwice
           (constructed threeNotes exampleSaved (triggersOf "delayed"))).
  apply constructed_wellFormed.
Defined.

Lemma delayed_changes_debounced_witness :
  (exists h,
     timersOf DelayedCallback
       (exampleRun changedTwice
          (constructed threeNotes exampleSaved (triggersOf "delayed")))
     = [mkTimer h DelayedCallback 300000 20])
  /\ In (js "A.md")
       (processingQueue
          (exampleRun changedTwice
             (constructed threeNotes exampleSaved (triggersOf "delayed")))).
Proof.
  destruct (delayed_changes_debounced allReadable markdown atRoot utcSetHours utcNextDate
              [mkDelivery 10 (vault threeNotes) (Modified (AFile fileA))]
              (mkDelivery 20 (vault threeNotes) (Modified (AFile fileA)))
              (constructed threeNotes exampleSaved (triggersOf "delayed")))
    as (H1 & _ & _ & _ & H5 & _).
  - apply constructed_wellFormed.
  - reflexivity.
  - intros d' [<-|[<-|[]]]; exists fileA; (split; [right; reflexivity|reflexivity]).
  - split; [exact H1|].
    apply (H5 (mkDelivery 20 (vault threeNotes) (Modified (AFile fileA))) fileA).
    + right. now left.
    + split; [right; reflexivity|reflexivity].
Defined.

Lemma queue_never_drained_witness :
  timersOf DelayedCallback
    (exampleRun changedTwice
       (constructed threeNotes exampleSaved (triggersOf "immediate"))) = []
  /\ In (js "A.md")
       (processingQueue
          (exampleRun changedTwice
             (constructed threeNotes exampleSaved (triggersOf "immediate")))).
Proof.
  destruct (queue_never_drained allReadable markdown atRoot utcSetHours utcNextDate
              changedTwice
              (constructed threeNotes exampleSaved (triggersOf "immediate")))
    as (H1 & _ & _ & H3).
  - split; reflexivity.
  - split; reflexivity.
  - repeat constructor.
  - split; [exact H1|].
    apply (H3 (mkDelivery 20 (vault threeNotes) (Modified (AFile fileA))) fileA).
    + right. now left.
    + split; [right; reflexivity|reflexivity].
Defined.

(** The note A and a note that is no file any more are queued. *)
Definition queuedTwo : Plugin :=
  setQueue [js "A.md"; js "gone.md"]
    (constructed threeNotes exampleSaved (triggersOf "delayed")).

Lemma processQueuedNotes_drains_witness :
  (exists w',
     processQueuedNotes allReadable queuedTwo = (Ok tt, setWorld w' (setQueue [] queuedTwo))
     /\ JSMap.get (js "gone.md") (noteEmbeddings w') = None)
  /\ (exists text,
        processQueuedNotes rejectsText queuedTwo = (Throw (Error text), setQueue [] queuedTwo)).
Proof.
  split.
  - destruct (processQueuedNotes_drains allReadable queuedTwo)
      as (w' & H & Hf & _ & _ & Hq & _).
    exists w'. split.
    + specialize (Hf allReadable_faultsHandled).
      destruct (processQueuedNotes allReadable queuedTwo) as [r p']. cbn [fst snd] in H, Hf.
      now subst.
    + destruct (JSMap.get (js "gone.md") (noteEmbeddings w')) eqn:E; [|reflexivity].
      exfalso. destruct (Hq (js "gone.md")) as [Hs|[_ Hv]].
      * rewrite E. discriminate.
      * apply Hs. reflexivity.
      * cbn in Hv. destruct Hv as [Hv|[Hv|[Hv|[]]]]; discriminate Hv.
  - destruct (processQueuedNotes_drains rejectsText queuedTwo) as (_ & _ & _ & _ & Ht & _).
    apply (Ht fileA (Thrown (Some (VString (js "EIO")))) [js "gone.md"]); reflexivity.
Defined.

(** One delayed timeout is pending, under the trigger [scheduled]. *)
Definition oneDelayed : Plugin :=
  scheduleDelayedProcessing (constructed threeNotes exampleSaved (triggersOf "scheduled")).

Lemma oneDelayed_wellFormed : wellFormed oneDelayed.
Proof.
  apply scheduleDelayedProcessing_timer, constructed_wellFormed.
Qed.

Lemma timeout_fired_witness :
  timersOf DelayedCallback (snd (fire allReadable utcSetHours utcNextDate 1 oneDelayed)) = []
  /\ fire allReadable utcSetHours utcNextDate 7 oneDelayed = (Ok tt, oneDelayed).
Proof.
  destruct (timeout_fired allReadable utcSetHours utcNextDate oneDelayed 1
              oneDelayed_wellFormed) as [_ H1].
  destruct (timeout_fired allReadable utcSetHours utcNextDate oneDelayed 7
              oneDelayed_wellFormed) as [H7 _].
  split.
  - apply (H1 (mkTimer 1 DelayedCallback 300000 0)); [now left|reflexivity].
  - apply H7. intros t [<-|[]]. discriminate.
Defined.

Lemma saveSettings_timers_witness :
  let p' := saveSettings utcSetHours utcNextDate oneDelayed in
  timersOf DelayedCallback p' = timersOf DelayedCallback oneDelayed
  /\ timersOf ScheduledCallback p' = [mkTimer 2 ScheduledCallback 32400000 0]
  /\ (0 < timeUntilScheduled utcSetHours utcNextDate 0 9)%Z.
Proof.
  destruct (saveSettings_timers utcSetHours utcNextDate oneDelayed oneDelayed_wellFormed)
    as (_ & H1 & H2 & H3 & _).
  split; [exact H1|]. split; [exact H2|]. apply H3. cbn. lia.
Defined.

Lemma onunload_clears_timers_witness :
  timersOf DelayedCallback oneDelayed <> []
  /\ timersOf DelayedCallback (snd (onunload [] oneDelayed)) = []
  /\ timersOf ScheduledCallback
       (exampleRun [mkDelivery 3600000 (vault threeNotes) Rescheduled]
          (snd (onunload [] oneDelayed)))
     = [mkTimer 2 ScheduledCallback 28800000 3600000].
Proof.
  destruct (onunload_clears_timers allReadable markdown atRoot utcSetHours utcNextDate []
              oneDelayed oneDelayed_wellFormed) as (H1 & _ & _ & H4 & _).
  split; [discriminate|]. split; [exact H1|].
  apply (H4 eq_refl (mkDelivery 3600000 (vault threeNotes) Rescheduled) eq_refl).
Defined.

Lemma deleted_note_forgotten_witness :
  JSMap.get (js "B.md")
    (noteEmbeddings (world (snd (onDelete markdown (AFile fileB) queuedTwo)))) = None.
Proof.
  destruct (deleted_note_forgotten markdown (AFile fileB) queuedTwo)
    as (_ & _ & _ & H & _).
  apply (H fileB eq_refl eq_refl).
Defined.

End EventFacts.

(* ================================================================== *)
(** * What processing a note costs *)
(* ================================================================== *)

Module LedgerFacts.

Import RankingFacts ProviderFacts PipelineFacts ClientFacts StoreFacts EffectFacts.

Section WithHost.
Variable host : Host.
Variable p : ProviderState.

(** The entry [updateNoteWithAI] records at the instant of [w]. *)
Definition enhancementEntry (w : World) (e : CostEntry) : Prop :=
  operation e = js "enhancement"
  /\ timestamp e = now w
  /\ provider e = aiProvider (settings p).

(** The costs are tracked and the budget of the day is spent. *)
Definition exhausted (w : World) : Prop :=
  costTracking (settings p) = true
  /\ canAffordProcessing (toDateString host) (settings p) (costEntries w) (now w) = false.

(** From [w] to [w']: without tracking the ledger stays; what the ledger
    gains are entries of enhancements made now; once the budget is spent the
    ledger stays and no file is written. *)
Definition ledger (w w' : World) : Prop :=
  now w' = now w
  /\ (costTracking (settings p) = false -> costEntries w' = costEntries w)
  /\ (forall e, In e (costEntries w') -> In e (costEntries w) \/ enhancementEntry w e)
  /\ (exhausted w -> costEntries w' = costEntries w /\ modified w' = modified w).

Definition keeps {A} (c : M A) : Prop := forall w, ledger w (snd (c w)).

Lemma ledger_same (w w' : World) :
  now w' = now w -> costEntries w' = costEntries w -> modified w' = modified w ->
  ledger w w'.
Proof.
  intros Hn Hc Hm. unfold ledger. rewrite Hc. auto.
Qed.

Lemma ledger_trans (w w1 w2 : World) : ledger w w1 -> ledger w1 w2 -> ledger w w2.
Proof.
  intros (A1 & B1 & C1 & D1) (A2 & B2 & C2 & D2). unfold ledger.
  split; [congruence|]. split; [intros H; rewrite B2, B1; auto|]. split.
  - intros e He. destruct (C2 e He) as [H|(H1 & H2 & H3)].
    + now apply C1.
    + right. unfold enhancementEntry. rewrite <- A1. auto.
  - intros Hx. destruct (D1 Hx) as [Hc Hm].
    assert (Hx1 : exhausted w1).
    { destruct Hx as [Ht Hb]. split; [exact Ht|]. now rewrite Hc, A1. }
    destruct (D2 Hx1) as [Hc2 Hm2]. split; congruence.
Qed.

Lemma keeps_bind {A B} (c : M A) (k : A -> M B) :
  keeps c -> (forall a, keeps (k a)) -> keeps (bindM c k).
Proof.
  intros Hc Hk w. unfold bindM. specialize (Hc w).
  destruct (c w) as [[a|e] w1]; cbn [snd] in *; [|exact Hc].
  apply (ledger_trans w w1); [exact Hc|apply Hk].
Qed.

Lemma keeps_tryCatch {A} (body : M A) (handler : JSError -> M A) :
  keeps body -> (forall e, keeps (handler e)) -> keeps (tryCatch body handler).
Proof.
  intros Hb Hh w. unfold tryCatch. specialize (Hb w).
  destruct (body w) as [[a|e] w1]; cbn [snd] in *; [exact Hb|].
  apply (ledger_trans w w1); [exact Hb|apply Hh].
Qed.

Lemma keeps_forEach {A} (l : list A) (body : A -> M unit) :
  (forall x, keeps (body x)) -> keeps (forEach l body).
Proof.
  intros Hb. induction l as [|x l IH]; cbn [forEach].
  - intros w. apply ledger_same; reflexivity.
  - apply keeps_bind; [apply Hb|intros _; exact IH].
Qed.

Lemma keeps_notice (message : jsstring) : keeps (notice message).
Proof. intros w. apply ledger_same; reflexivity. Qed.

Lemma keeps_ret {A} (a : A) : keeps (ret a).
Proof. intros w. apply ledger_same; reflexivity. Qed.

Lemma keeps_vaultRead (f : TFile) : keeps (vaultRead host f).
Proof.
  intros w. unfold vaultRead. destruct (readFault host _); [apply ledger_same; reflexivity|].
  destruct (findFile _ _) as [[f0 c0]|]; apply ledger_same; reflexivity.
Qed.

Lemma keeps_generateEmbedding (content : jsstring) :
  keeps (generateEmbedding host p content).
Proof.
  intros w. destruct (generateEmbedding_frame host p content w) as (v & ns & ->).
  apply ledger_same; reflexivity.
Qed.

(** [updateNoteWithAI] checks the budget before it asks the provider, and
    records one entry, when the costs are tracked, before it writes. *)
Lemma keeps_updateNoteWithAI (f : TFile) (relatedContent : list jsstring) :
  keeps (updateNoteWithAI host p f relatedContent).
Proof.
  intros w. unfold updateNoteWithAI, bindM, vaultRead.
  destruct (readFault host (file_path f)) as [e|]; [apply ledger_same; reflexivity|].
  destruct (findFile (file_path f) (vault w)) as [[f0 c0]|];
    [|apply ledger_same; reflexivity].
  unfold checkBudget.
  destruct (costTracking (settings p)) eqn:Et; cbn [andb].
  - destruct (canAffordProcessing _ _ _ _) eqn:Eb; cbn [negb];
      [|apply ledger_same; reflexivity].
    destruct (generateEnhancement_frame host p (cleanContent c0) relatedContent w)
      as (en & ns & ->).
    unfold recordEnhancement, applyEnhancement. rewrite Et.
    cbn [vault noteEmbeddings costEntries notices now modified].
    match goal with
    | |- ledger w (snd (vaultModify host f ?d ?w2)) =>
        assert (H : now (snd (vaultModify host f d w2)) = now w
                    /\ costEntries (snd (vaultModify host f d w2)) = costEntries w2)
    end.
    { unfold vaultModify. destruct (modifyFault host _); [cbn; auto|].
      cbn [vault]. destruct (findFile _ _); cbn; auto. }
    destruct H as [Hn Hc]. unfold ledger. rewrite Hn, Hc. cbn [costEntries].
    split; [reflexivity|]. split; [intros Hf; congruence|]. split.
    + intros e He. rewrite recordCost_filter in He.
      apply in_app_or in He as [He|[<-|[]]].
      * left. now apply filter_In in He as [He _].
      * right. unfold enhancementEntry. cbn. auto.
    + intros [_ Hx]. rewrite Hx in Eb. discriminate.
  - destruct (generateEnhancement_frame host p (cleanContent c0) relatedContent w)
      as (en & ns & ->).
    unfold recordEnhancement, applyEnhancement. rewrite Et.
    match goal with
    | |- ledger w (snd (vaultModify host f ?d ?w2)) =>
        assert (H : now (snd (vaultModify host f d w2)) = now w
                    /\ costEntries (snd (vaultModify host f d w2)) = costEntries w)
    end.
    { unfold vaultModify. destruct (modifyFault host _); [cbn; auto|].
      cbn [vault]. destruct (findFile _ _); cbn; auto. }
    destruct H as [Hn Hc]. unfold ledger. rewrite Hn, Hc.
    split; [reflexivity|]. split; [reflexivity|]. split; [auto|].
    intros [Hx _]. congruence.
Qed.

Lemma keeps_processNote (f : TFile) : keeps (processNote host p f).
Proof.
  unfold processNote. destruct (negb (isConfigured p)); [apply keeps_notice|].
  apply keeps_tryCatch.
  - unfold processNoteBody. apply keeps_bind; [apply keeps_vaultRead|]. intros content.
    apply keeps_bind; [apply keeps_generateEmbedding|]. intros embedding.
    destruct (Nat.eqb (length embedding) 0); [apply keeps_ret|].
    apply keeps_bind; [intros w; apply ledger_same; reflexivity|]. intros _.
    apply keeps_bind; [intros w; apply ledger_same; reflexivity|]. intros relevantNotes.
    apply keeps_bind.
    { unfold updateNeighbors. apply keeps_forEach. intros r.
      apply keeps_updateNoteWithAI. }
    intros _. apply keeps_bind; [intros w; apply ledger_same; reflexivity|].
    intros [|]; [apply keeps_updateNoteWithAI|apply keeps_ret].
  - intros e w. destruct (processNoteFailed_frame host e w) as [ns ->].
    apply ledger_same; reflexivity.
Qed.

(** X23.  The ledger through one call of [processNote].  Only enhancements are
    recorded: what the ledger gains are entries of the operation
    [enhancement] stamped now with the name of the provider, and the request
    for the embedding of the note leaves no entry.  Without cost tracking
    the ledger stays as it is.  Once the budget of the day is spent, no
    entry is added and no file is written (the check of the budget comes
    before every enhancement, and only there). *)
Theorem processNote_ledger (f : TFile) (w : World) :
  let w' := snd (processNote host p f w) in
  (costTracking (settings p) = false -> costEntries w' = costEntries w)
  /\ (forall e, In e (costEntries w') ->
        In e (costEntries w)
        \/ (operation e = js "enhancement" /\ timestamp e = now w
            /\ provider e = aiProvider (settings p)))
  /\ (costTracking (settings p) = true ->
      canAffordProcessing (toDateString host) (settings p) (costEntries w) (now w) = false ->
      costEntries w' = costEntries w /\ modified w' = modified w).
Proof.
  intros w'. destruct (keeps_processNote f w) as (_ & H1 & H2 & H3).
  split; [exact H1|]. split; [exact H2|]. intros Ht Hb. apply H3. now split.
Qed.

End WithHost.

Lemma processNote_ledger_witness :
  let w' := snd (processNote allReadable grokTracked fileA spentWorld) in
  costEntries w' = costEntries spentWorld
  /\ modified w' = []
  /\ notices w' = [js "Daily budget reached. Processing paused until tomorrow."].
Proof.
  intros w'.
  destruct (processNote_ledger allReadable grokTracked fileA spentWorld) as (_ & _ & H).
  destruct H as [Hc Hm]; [reflexivity|reflexivity|].
  split; [exact Hc|]. split; [exact Hm|vm_compute; reflexivity].
Defined.

End LedgerFacts.

(* ================================================================== *)
(** * The range of the similarity *)
(* ================================================================== *)

Module SimilarityFacts.

Local Open Scope R_scope.

(** One step of the loop keeps the inequality of Cauchy and Schwarz between
    the three running sums. *)
Lemma cauchy_step (d na nb x y : R) :
  0 <= na -> 0 <= nb -> d * d <= na * nb ->
  (d + x * y) * (d + x * y) <= (na + x * x) * (nb + y * y).
Proof.
  intros Ha Hb Hd.
  assert (H : 2 * d * (x * y) <= na * (y * y) + nb * (x * x)).
  { destruct (Rle_or_lt (2 * d * (x * y)) 0) as [Hn|Hp].
    - pose proof (Rle_0_sqr x) as Hx. pose proof (Rle_0_sqr y) as Hy.
      unfold Rsqr in Hx, Hy.
      pose proof (Rmult_le_pos _ _ Ha Hy). pose proof (Rmult_le_pos _ _ Hb Hx).
      lra.
    - pose proof (Rle_0_sqr x) as Hx. pose proof (Rle_0_sqr y) as Hy.
      unfold Rsqr in Hx, Hy.
      apply Rsqr_incr_0_var;
        [|apply Rplus_le_le_0_compat; apply Rmult_le_pos; assumption].
      unfold Rsqr.
      pose proof (Rle_0_sqr (na * (y * y) - nb * (x * x))) as H1. unfold Rsqr in H1.
      assert (H2 : d * d * ((x * y) * (x * y)) <= na * nb * ((x * y) * (x * y))).
      { apply Rmult_le_compat_r; [apply Rle_0_sqr|exact Hd]. }
      nra. }
  nra.
Qed.

Lemma cosineSums_cauchy (a b : list R) (d na nb : R) :
  0 <= na -> 0 <= nb -> d * d <= na * nb ->
  exists d' na' nb',
    cosineSums a b (d, na, nb) = (d', na', nb')
    /\ 0 <= na' /\ 0 <= nb' /\ d' * d' <= na' * nb'.
Proof.
  revert b d na nb. induction a as [|x a IH]; intros b d na nb Ha Hb Hd.
  - cbn [cosineSums]. eauto 8.
  - destruct b as [|y b]; cbn [cosineSums]; [eauto 8|].
    change (@nadd R exact) with Rplus. change (@nmul R exact) with Rmult.
    apply IH; [nra|nra|now apply cauchy_step].
Qed.

(** X25.  In exact arithmetic the similarity of two vectors, of any lengths and
    values, lies between -1 and 1. *)
Theorem cosineSimilarity_range (a b : list R) :
  -1 <= cosineSimilarity a b <= 1.
Proof.
  unfold cosineSimilarity.
  destruct (negb (Nat.eqb (length a) (length b)));
    [change (@nzero R exact) with 0; lra|].
  change (@nzero R exact) with 0.
  destruct (cosineSums_cauchy a b 0 0 0) as (d & na & nb & -> & Ha & Hb & Hd);
    [lra|lra|lra|].
  unfold neqb, ndiv, nmul, nsqrt; cbn [exact].
  destruct (Req_dec_T na 0) as [E|Hna]; cbn [orb]; [lra|].
  destruct (Req_dec_T nb 0) as [E|Hnb]; [lra|].
  assert (Hs : 0 < sqrt na * sqrt nb).
  { apply Rmult_lt_0_compat; apply sqrt_lt_R0; lra. }
  assert (Hq : (sqrt na * sqrt nb) * (sqrt na * sqrt nb) = na * nb).
  { replace ((sqrt na * sqrt nb) * (sqrt na * sqrt nb))
      with ((sqrt na * sqrt na) * (sqrt nb * sqrt nb)) by ring.
    now rewrite !sqrt_sqrt. }
  assert (Hle : d <= sqrt na * sqrt nb /\ - (sqrt na * sqrt nb) <= d).
  { split.
    - destruct (Rle_or_lt d (sqrt na * sqrt nb)) as [H|H]; [exact H|]. nra.
    - destruct (Rle_or_lt (- (sqrt na * sqrt nb)) d) as [H|H]; [exact H|]. nra. }
  destruct Hle as [H1 H2]. unfold Rdiv. split.
  - apply Rmult_le_reg_r with (sqrt na * sqrt nb); [exact Hs|].
    rewrite Rmult_assoc, Rinv_l by lra. lra.
  - apply Rmult_le_reg_r with (sqrt na * sqrt nb); [exact Hs|].
    rewrite Rmult_assoc, Rinv_l by lra. lra.
Qed.

End SimilarityFacts.

(* ================================================================== *)
(** * The code fences of a response *)
(* ================================================================== *)

Module FenceFacts.

Import ParserFacts NoteTextFacts.

Definition tick : N := 96%N.

(** A text without a backtick. *)
Definition noTick (s : jsstring) : bool := forallb (fun c => negb (N.eqb c tick)) s.

(** A pattern that begins with a backtick. *)
Definition ticked (p : jsstring) : Prop := exists p', p = tick :: p'.

Lemma fence_ticked : ticked fence.
Proof. now exists (js "``"). Qed.

Lemma fenceJson_ticked : ticked fenceJson.
Proof. now exists (js "``json"). Qed.

Lemma fenceJson_fence : fenceJson = fence ++ js "json".
Proof. reflexivity. Qed.

Lemma startsWith_noTick (p s : jsstring) :
  ticked p -> noTick (firstn 1 s) = true -> startsWith p s = false.
Proof.
  intros [p' ->] H. destruct s as [|c s]; [reflexivity|].
  cbn [firstn noTick forallb] in H. cbn [startsWith].
  apply andb_true_iff in H as [H _]. apply negb_true_iff in H.
  rewrite N.eqb_sym. now rewrite H.
Qed.

Lemma noTick_head (s : jsstring) : noTick s = true -> noTick (firstn 1 s) = true.
Proof.
  destruct s as [|c s]; [reflexivity|]. cbn [firstn noTick forallb].
  intros H. apply andb_true_iff in H as [H _]. now rewrite H.
Qed.

Lemma indexOf_from_noTick (i : Z) (p pre rest : jsstring) :
  ticked p -> noTick pre = true ->
  indexOf_from i p (pre ++ rest) = indexOf_from (i + Z.of_nat (length pre)) p rest.
Proof.
  intros Hp. revert i. induction pre as [|c pre IH]; intros i H.
  - cbn [app length]. f_equal. cbn. lia.
  - cbn [noTick forallb] in H. apply andb_true_iff in H as [Hc H].
    cbn [app indexOf_from]. rewrite startsWith_noTick;
      [|exact Hp|cbn [firstn noTick forallb]; now rewrite Hc].
    rewrite IH by exact H. f_equal. cbn [length]. lia.
Qed.

Lemma indexOf_from_absent (i : Z) (p s : jsstring) :
  ticked p -> noTick s = true -> indexOf_from i p s = (-1)%Z.
Proof.
  intros Hp. revert i. induction s as [|c s IH]; intros i H.
  - cbn [indexOf_from]. destruct Hp as [p' ->]. reflexivity.
  - cbn [indexOf_from]. rewrite startsWith_noTick; [|exact Hp|now apply noTick_head].
    apply IH. cbn [noTick forallb] in H. now apply andb_true_iff in H as [_ H].
Qed.

Lemma indexOf_from_here (i : Z) (p rest : jsstring) :
  indexOf_from i p (p ++ rest) = i.
Proof.
  destruct p as [|c p]; [now destruct rest|].
  cbn [app indexOf_from]. change (c :: p ++ rest) with ((c :: p) ++ rest).
  now rewrite startsWith_app.
Qed.

Lemma lastIndexOf_from_absent (i : Z) (p s : jsstring) :
  ticked p -> noTick s = true -> lastIndexOf_from i p s = (-1)%Z.
Proof.
  intros Hp. revert i. induction s as [|c s IH]; intros i H.
  - cbn [lastIndexOf_from]. destruct Hp as [p' ->]. reflexivity.
  - cbn [lastIndexOf_from]. rewrite IH.
    + cbn. rewrite startsWith_noTick; [reflexivity|exact Hp|now apply noTick_head].
    + cbn [noTick forallb] in H. now apply andb_true_iff in H as [_ H].
Qed.

Lemma lastIndexOf_from_later (i : Z) (p a rest : jsstring) :
  (0 <= lastIndexOf_from (i + Z.of_nat (length a)) p rest)%Z ->
  lastIndexOf_from i p (a ++ rest) = lastIndexOf_from (i + Z.of_nat (length a)) p rest.
Proof.
  revert i. induction a as [|c a IH]; intros i H.
  - cbn [app length]. f_equal. cbn. lia.
  - cbn [app lastIndexOf_from].
    replace (i + Z.of_nat (length (c :: a)))%Z with (i + 1 + Z.of_nat (length a))%Z in *
      by (cbn [length]; lia).
    rewrite IH by exact H. apply Z.leb_le in H. now rewrite H.
Qed.

(** The last fence of a text that ends with a fence and a tail without
    backticks. *)
Lemma lastIndexOf_from_fence (i : Z) (post : jsstring) :
  (0 <= i)%Z -> noTick post = true ->
  lastIndexOf_from i fence (fence ++ post) = i.
Proof.
  intros Hi H.
  assert (Hp : lastIndexOf_from (i + 1 + 1 + 1) fence post = (-1)%Z).
  { apply lastIndexOf_from_absent; [apply fence_ticked|exact H]. }
  assert (Hs : forall l, startsWith l post = true -> ticked l -> False).
  { intros l Hl Ht. rewrite startsWith_noTick in Hl; [discriminate|exact Ht|].
    now apply noTick_head. }
  change (fence ++ post) with (tick :: tick :: tick :: post).
  cbn [lastIndexOf_from]. rewrite Hp.
  change (0 <=? -1)%Z with false. cbv iota.
  assert (H1 : startsWith fence (tick :: post) = false).
  { unfold fence. change (js "```") with [tick; tick; tick].
    cbn [startsWith]. rewrite N.eqb_refl. cbn [andb].
    destruct (startsWith [tick; tick] post) eqn:E; [|exact E].
    exfalso. apply (Hs _ E). now exists [tick]. }
  assert (H2 : startsWith fence (tick :: tick :: post) = false).
  { unfold fence. change (js "```") with [tick; tick; tick].
    cbn [startsWith]. rewrite N.eqb_refl. cbn [andb].
    destruct (startsWith [tick] post) eqn:E; [|exact E].
    exfalso. apply (Hs _ E). now exists []. }
  rewrite H1. change (0 <=? -1)%Z with false. cbv iota.
  rewrite H2. change (0 <=? -1)%Z with false. cbv iota.
  change (tick :: tick :: tick :: post) with (fence ++ post).
  now rewrite startsWith_app.
Qed.

Lemma lastIndexOf_closing (a post : jsstring) :
  noTick post = true ->
  lastIndexOf fence (a ++ fence ++ post) = Z.of_nat (length a).
Proof.
  intros H. unfold lastIndexOf.
  assert (E : lastIndexOf_from (0 + Z.of_nat (length a)) fence (fence ++ post)
              = Z.of_nat (length a)).
  { rewrite lastIndexOf_from_fence; [lia|lia|exact H]. }
  rewrite lastIndexOf_from_later; rewrite E; [reflexivity|lia].
Qed.

Lemma substring_middle (a b c : jsstring) :
  substring (Z.of_nat (length a)) (Z.of_nat (length a + length b)) (a ++ b ++ c) = b.
Proof.
  unfold substring, clampIndex. rewrite !length_app.
  rewrite !Z.max_l by lia. rewrite !Z.min_l by lia.
  rewrite !Nat2Z.id. rewrite Nat.min_l, Nat.max_r by lia.
  rewrite skipn_app, skipn_all, Nat.sub_diag. cbn [skipn app].
  replace (length a + length b - length a) with (length b) by lia.
  rewrite firstn_app, firstn_all, Nat.sub_diag. cbn [firstn]. apply app_nil_r.
Qed.

(** X26.  [parseAIResponse] keeps what stands between the first fence, with the
    word json or, if the text has no such fence, without, and the last
    fence, and trims it: what precedes the first fence and what follows the
    last one is dropped, and fences in between stay.  The text is left as it
    is when it has no backtick, when its only fence is not closed, and when
    nothing stands between the two fences. *)
Theorem stripCodeFences_between (pre inner post : jsstring) :
  noTick pre = true ->
  noTick post = true ->
  (inner <> [] ->
   stripCodeFences (pre ++ fenceJson ++ inner ++ fence ++ post) = trim inner)
  /\ (inner <> [] ->
      includes fenceJson (pre ++ fence ++ inner ++ fence ++ post) = false ->
      stripCodeFences (pre ++ fence ++ inner ++ fence ++ post) = trim inner)
  /\ stripCodeFences (pre ++ fenceJson ++ fence ++ post)
     = pre ++ fenceJson ++ fence ++ post
  /\ stripCodeFences (pre ++ fence ++ post) = pre ++ fence ++ post
  /\ stripCodeFences pre = pre.
Proof.
  intros Hpre Hpost.
  assert (Hjson : forall rest,
            indexOf fenceJson (pre ++ fenceJson ++ rest) = Z.of_nat (length pre)).
  { intros rest. unfold indexOf.
    rewrite indexOf_from_noTick by (apply fenceJson_ticked || exact Hpre).
    apply indexOf_from_here. }
  assert (Hfence : forall rest,
            indexOf fence (pre ++ fence ++ rest) = Z.of_nat (length pre)).
  { intros rest. unfold indexOf.
    rewrite indexOf_from_noTick by (apply fence_ticked || exact Hpre).
    apply indexOf_from_here. }
  assert (Hin : forall p s, (0 <= indexOf p s)%Z -> includes p s = true).
  { intros p s H. unfold includes. apply negb_true_iff, Z.eqb_neq. lia. }
  split; [|split; [|split; [|split]]].
  - intros Hi. unfold stripCodeFences.
    rewrite Hin by (rewrite Hjson; lia). rewrite Hjson.
    replace (pre ++ fenceJson ++ inner ++ fence ++ post)
      with ((pre ++ fenceJson ++ inner) ++ fence ++ post)
      by (now rewrite <- !app_assoc).
    rewrite lastIndexOf_closing by exact Hpost.
    rewrite !length_app. change (length fenceJson) with 7.
    assert (0 < length inner) by (destruct inner; [contradiction|cbn; lia]).
    destruct (_ >? _)%Z eqn:E; [|rewrite Z.gtb_ltb in E; apply Z.ltb_ge in E; lia].
    f_equal.
    replace ((pre ++ fenceJson ++ inner) ++ fence ++ post)
      with ((pre ++ fenceJson) ++ inner ++ fence ++ post)
      by (now rewrite <- !app_assoc).
    replace (Z.of_nat (length pre) + 7)%Z with (Z.of_nat (length (pre ++ fenceJson)))
      by (rewrite length_app; change (length fenceJson) with 7; lia).
    replace (Z.of_nat (length pre + (7 + length inner)))
      with (Z.of_nat (length (pre ++ fenceJson) + length inner))
      by (rewrite length_app; change (length fenceJson) with 7; lia).
    apply substring_middle.
  - intros Hi Hno. unfold stripCodeFences. rewrite Hno.
    rewrite Hin by (rewrite Hfence; lia). rewrite Hfence.
    replace (pre ++ fence ++ inner ++ fence ++ post)
      with ((pre ++ fence ++ inner) ++ fence ++ post)
      by (now rewrite <- !app_assoc).
    rewrite lastIndexOf_closing by exact Hpost.
    rewrite !length_app. change (length fence) with 3.
    assert (0 < length inner) by (destruct inner; [contradiction|cbn; lia]).
    destruct (_ >? _)%Z eqn:E; [|rewrite Z.gtb_ltb in E; apply Z.ltb_ge in E; lia].
    f_equal.
    replace ((pre ++ fence ++ inner) ++ fence ++ post)
      with ((pre ++ fence) ++ inner ++ fence ++ post)
      by (now rewrite <- !app_assoc).
    replace (Z.of_nat (length pre) + 3)%Z with (Z.of_nat (length (pre ++ fence)))
      by (rewrite length_app; change (length fence) with 3; lia).
    replace (Z.of_nat (length pre + (3 + length inner)))
      with (Z.of_nat (length (pre ++ fence) + length inner))
      by (rewrite length_app; change (length fence) with 3; lia).
    apply substring_middle.
  - unfold stripCodeFences.
    rewrite Hin by (rewrite Hjson; lia). rewrite Hjson.
    replace (pre ++ fenceJson ++ fence ++ post)
      with ((pre ++ fenceJson) ++ fence ++ post) at 1
      by (now rewrite <- !app_assoc).
    rewrite lastIndexOf_closing by exact Hpost.
    rewrite length_app. change (length fenceJson) with 7.
    destruct (_ >? _)%Z eqn:E; [apply Z.gtb_lt in E; lia|reflexivity].
  - unfold stripCodeFences.
    rewrite (lastIndexOf_closing pre post Hpost).
    destruct (includes fenceJson (pre ++ fence ++ post)) eqn:Ej.
    + assert (Hle : indexOf fenceJson (pre ++ fence ++ post) = Z.of_nat (length pre)
                    \/ indexOf fenceJson (pre ++ fence ++ post) = (-1)%Z).
      { unfold indexOf.
        rewrite indexOf_from_noTick by (apply fenceJson_ticked || exact Hpre).
        change (fence ++ post) with (tick :: tick :: tick :: post).
        cbn [indexOf_from].
        destruct (startsWith fenceJson (tick :: tick :: tick :: post)); [left; lia|].
        right.
        assert (H1 : startsWith fenceJson (tick :: tick :: post) = false).
        { unfold fenceJson. change (js "```json") with (tick :: tick :: tick :: js "json").
          cbn [startsWith]. rewrite N.eqb_refl. cbn [andb].
          destruct post as [|c post']; [reflexivity|].
          cbn [startsWith]. cbn [noTick forallb] in Hpost.
          apply andb_true_iff in Hpost as [Hc _]. apply negb_true_iff in Hc.
          rewrite N.eqb_sym, Hc. reflexivity. }
        assert (H2 : startsWith fenceJson (tick :: post) = false).
        { unfold fenceJson. change (js "```json") with (tick :: tick :: tick :: js "json").
          cbn [startsWith]. rewrite N.eqb_refl. cbn [andb].
          destruct post as [|c post']; [reflexivity|].
          cbn [startsWith]. cbn [noTick forallb] in Hpost.
          apply andb_true_iff in Hpost as [Hc _]. apply negb_true_iff in Hc.
          rewrite N.eqb_sym, Hc. reflexivity. }
        rewrite H1, H2.
        apply indexOf_from_absent; [apply fenceJson_ticked|exact Hpost]. }
      unfold includes in Ej. apply negb_true_iff, Z.eqb_neq in Ej.
      destruct Hle as [Hle|Hle]; [|contradiction]. rewrite Hle.
      destruct (_ >? _)%Z eqn:E; [apply Z.gtb_lt in E; lia|reflexivity].
    + rewrite Hin by (rewrite Hfence; lia). rewrite Hfence.
      destruct (_ >? _)%Z eqn:E; [apply Z.gtb_lt in E; lia|reflexivity].
  - unfold stripCodeFences.
    assert (H1 : includes fenceJson pre = false).
    { unfold includes, indexOf.
      rewrite indexOf_from_absent by (apply fenceJson_ticked || exact Hpre). reflexivity. }
    assert (H2 : includes fence pre = false).
    { unfold includes, indexOf.
      rewrite indexOf_from_absent by (apply fence_ticked || exact Hpre). reflexivity. }
    now rewrite H1, H2.
Qed.

Lemma stripCodeFences_between_witness :
  stripCodeFences (js "Here: " ++ fenceJson ++ (lf :: js "{}" ++ [lf]) ++ fence ++ js " done")
  = js "{}".
Proof.
  destruct (stripCodeFences_between (js "Here: ") (lf :: js "{}" ++ [lf]) (js " done"))
    as (H & _); [reflexivity|reflexivity|].
  rewrite H; [reflexivity|discriminate].
Defined.

End FenceFacts.
